(** * LIM: the recursive-descent parser and its driver

    A shallow embedding of [src/parser.ts] (class [Parser]) and of the
    command-line driver [lim.ts], followed by the properties of the
    specification that concern them.

    Conventions of the embedding.
    - The parser object is the record [Parser] (fields [i] and [errors]);
      the read-only token array is the section variable [tokens].
    - A method is a computation in the monad [M]: it takes the parser
      state and returns an outcome together with the state reached.  The
      state reached is kept when an exception is thrown, as in JavaScript.
    - Two kinds of exceptions are thrown by the source: [ParseError]
      values and plain [Error] values (the "invariant violated" ones).
      Exceptions that the engine raises by itself, such as a [RangeError]
      when recursion exhausts the call stack, are not among the outcomes.
    - Recursive methods and [while] loops take a [fuel] argument that
      decreases at every recursive call and at every loop iteration;
      [OutOfFuel] is the outcome of a run that was given too little.
      Section "Termination" shows that enough fuel always exists. *)

From Stdlib Require Import List String Arith Lia Bool ZArith QArith.
Import ListNotations.
Local Open Scope string_scope.
Local Open Scope list_scope.
Local Open Scope nat_scope.

Set Implicit Arguments.
Set Warnings "-register-all".

(** ** Token kinds ([token.ts]) *)
Module TK.
(** Modelled from the spec: [token.ts], which declares [TK] and
    [TokenKind], is not among the sources.  The constructors are the
    members of [TK] that [parser.ts] names; [OTHER] stands for any further
    kind the lexer may produce and the parser never asks for. *)
Inductive TokenKind : Type :=
| FUNC | LET | IF | ELSE | WHILE
| LBRACE | RBRACE | LPAREN | RPAREN | COMMA | SEMICOLON
| IDENT | NUMBER | STRING
| ASSIGN | PLUS_ASSIGN | MINUS_ASSIGN | STAR_ASSIGN | SLASH_ASSIGN
| OR | AND | NOT | BANG
| EQUAL | NOTEQ | LT | LTE | GT | GTE
| PLUS | MINUS | STAR | SLASH
| EOF
| OTHER (name : string).

Definition eq_dec (a b : TokenKind) : {a = b} + {a <> b}.
Proof. decide equality. apply string_dec. Defined.

(** [a === b] on token kinds. *)
Definition eqb (a b : TokenKind) : bool :=
  if eq_dec a b then true else false.
End TK.
Export TK (TokenKind).

(** ** Operators of the syntax tree ([ast.ts]) *)
Module BinaryOp.
(** Modelled from the spec: [ast.ts], which declares [BinaryOp], is not
    among the sources.  The constructors are the strings that [parser.ts]
    writes into the [op] field of a [Binary] node. *)
Inductive t : Type :=
| OR | AND | EQUAL | NOTEQ | LT | LTE | GT | GTE
| PLUS | MINUS | STAR | SLASH.
End BinaryOp.

Module UnaryOp.
(** Modelled from the spec: [UnaryOp] of [ast.ts]; the strings that
    [Parser.unary] writes. *)
Inductive t : Type := MINUS | NOT.
End UnaryOp.

Module AssignOp.
(** Modelled from the spec: [AssignOp] of [ast.ts]; the strings that
    [Parser.assignOpFromToken] returns. *)
Inductive t : Type :=
| ASSIGN | PLUS_ASSIGN | MINUS_ASSIGN | STAR_ASSIGN | SLASH_ASSIGN.
End AssignOp.

(** ** What the host language provides

    The type of the decoded literal of a token, JavaScript numbers, the
    conversions [Number(...)] and [String(...)] and the text of a token
    kind inside a template string are parameters: no property below depends
    on them. *)
Class Host : Type := {
  Literal : Type;
  number : Type;
  JsNumber : Literal + string -> number;
  JsString : Literal + string -> string;
  kindText : TokenKind -> string
}.

Section WithHost.
Context {host : Host}.

(** ** Tokens *)

(** Modelled from the spec: [Token] of [token.ts].  The fields are those
    that the parser and the driver read; the source position, which neither
    reads, is left out. *)
Record Token : Type := mkToken {
  kind : TokenKind;
  lexeme : string;
  literal : option Literal
}.

(** [t.literal ?? t.lexeme] *)
Definition literal_or_lexeme (t : Token) : Literal + string :=
  match literal t with
  | Some l => inl l
  | None => inr (lexeme t)
  end.

(** ** Syntax trees *)

(** Modelled from the spec: [Expr] of [ast.ts].  The variants and their
    fields are those of the object literals that the expression methods of
    [parser.ts] build. *)
Inductive Expr : Type :=
| Num (value : number)
| Str (value : string)
| Ident (name : string)
| Unary (op : UnaryOp.t) (rhs : Expr)
| Binary (op : BinaryOp.t) (lhs rhs : Expr)
| Group (expr : Expr)
| Call (callee : Expr) (args : list Expr).

(** Modelled from the spec: [Stmt] of [ast.ts].  The variants and their
    fields are those of the object literals that the statement methods of
    [parser.ts] build; a missing [init] or [otherwise] is [None]. *)
Inductive Stmt : Type :=
| Let (name : string) (init : option Expr)
| Fn (name : string) (params : list string) (body : list Stmt)
| If (cond : Expr) (then_ : Stmt) (otherwise : option Stmt)
| While (cond : Expr) (body : Stmt)
| Block (stmts : list Stmt)
| Assign (name : string) (op : AssignOp.t) (value : Expr)
| ExprStmt (expr : Expr).

(** ** Exceptions and the parser state *)

(** [class ParseError], parser.ts 6-11. *)
Record ParseError : Type := mkParseError {
  token : Token;
  message : string
}.

Inductive Exn : Type :=
| ParseErr (e : ParseError)     (* [new ParseError(token, message)] *)
| FatalErr (msg : string).      (* [new Error(msg)] *)

(** The mutable fields of [class Parser], parser.ts 14-15. *)
Record Parser : Type := mkParser {
  i : nat;
  errors : list ParseError
}.

(** [new Parser(tokens)] *)
Definition newParser : Parser := {| i := 0; errors := [] |}.

Inductive Outcome (A : Type) : Type :=
| Ok (a : A)
| Throw (e : Exn)
| OutOfFuel.
Arguments Throw {A} e.
Arguments OutOfFuel {A}.

Definition M (A : Type) : Type := Parser -> Outcome A * Parser.

Definition ret {A} (a : A) : M A := fun s => (Ok a, s).

Definition bind {A B} (c : M A) (k : A -> M B) : M B :=
  fun s =>
    match c s with
    | (Ok a, s1) => k a s1
    | (Throw e, s1) => (Throw e, s1)
    | (OutOfFuel, s1) => (OutOfFuel, s1)
    end.

Definition throw {A} (e : Exn) : M A := fun s => (Throw e, s).

Definition out_of_fuel {A} : M A := fun s => (OutOfFuel, s).

(** [try { body } catch (e) { handler e }] *)
Definition try_catch {A} (body : M A) (handler : Exn -> M A) : M A :=
  fun s =>
    match body s with
    | (Throw e, s1) => handler e s1
    | r => r
    end.

Notation "x <- c ;; k" := (bind c (fun x => k))
  (at level 61, c at next level, right associativity).
Notation "c ;;; k" := (bind c (fun _ => k))
  (at level 61, right associativity).

Section WithTokens.
Variable tokens : list Token.

(** ** Helpers *)

(** [Parser.error], parser.ts 356-358. *)
Definition error (token : Token) (message : string) : ParseError :=
  {| token := token; message := message |}.

(** [Parser.current], parser.ts 340-344. *)
Definition current : M Token := fun s =>
  match nth_error tokens (i s) with
  | Some tok => (Ok tok, s)
  | None => (Throw (FatalErr "Parser invariant violated: missing EOF token"), s)
  end.

(** [Parser.previous], parser.ts 346-350.  At [i = 0] the index is [-1],
    where an array holds nothing. *)
Definition previous : M Token := fun s =>
  match i s with
  | 0 => (Throw (FatalErr "Parser invariant violated: previous() before start"), s)
  | S j =>
      match nth_error tokens j with
      | Some tok => (Ok tok, s)
      | None =>
          (Throw (FatalErr "Parser invariant violated: previous() before start"), s)
      end
  end.

(** [Parser.peek], parser.ts 352-354. *)
Definition peek : M (option Token) := fun s =>
  (Ok (nth_error tokens (i s + 1)), s).

(** [Parser.isAtEnd], parser.ts 336-338. *)
Definition isAtEnd : M bool :=
  tok <- current ;; ret (TK.eqb (kind tok) TK.EOF).

(** [Parser.check], parser.ts 326-329. *)
Definition check (k : TokenKind) : M bool :=
  b <- isAtEnd ;;
  if b then ret false
  else tok <- current ;; ret (TK.eqb (kind tok) k).

(** [this.i++] *)
Definition incr : M unit := fun s =>
  (Ok tt, {| i := S (i s); errors := errors s |}).

(** [Parser.advance], parser.ts 331-334. *)
Definition advance : M Token :=
  b <- isAtEnd ;;
  (if negb b then incr else ret tt) ;;;
  previous.

(** [Parser.match], parser.ts 311-319. *)
Fixpoint match_ (kinds : list TokenKind) : M bool :=
  match kinds with
  | [] => ret false
  | k :: rest =>
      b <- check k ;;
      if b then advance ;;; ret true
      else match_ rest
  end.

(** [Parser.consume], parser.ts 321-324. *)
Definition consume (k : TokenKind) (message : string) : M Token :=
  b <- check k ;;
  if b then advance
  else tok <- current ;; throw (ParseErr (error tok message)).

(** [this.errors.push(e)] *)
Definition push_error (e : ParseError) : M unit := fun s =>
  (Ok tt, {| i := i s; errors := errors s ++ [e] |}).

(** The [switch] of [Parser.synchronize], parser.ts 366-374. *)
Definition isSyncKeyword (k : TokenKind) : bool :=
  match k with
  | TK.LET | TK.FUNC | TK.IF | TK.WHILE => true
  | _ => false
  end.

(** The [while] loop of [Parser.synchronize], parser.ts 363-377. *)
Fixpoint synchronize_while (fuel : nat) : M unit :=
  match fuel with
  | 0 => out_of_fuel
  | S n =>
      b <- isAtEnd ;;
      if negb b then
        p <- previous ;;
        if TK.eqb (kind p) TK.SEMICOLON then ret tt
        else
          c <- current ;;
          if isSyncKeyword (kind c) then ret tt
          else advance ;;; synchronize_while n
      else ret tt
  end.

(** [Parser.synchronize], parser.ts 360-378. *)
Definition synchronize (fuel : nat) : M unit :=
  advance ;;; synchronize_while fuel.

(** [Parser.peekIsAssignOp], parser.ts 157-167. *)
Definition peekIsAssignOp : M bool :=
  next <- peek ;;
  match next with
  | None => ret false
  | Some next =>
      ret (TK.eqb (kind next) TK.ASSIGN
           || TK.eqb (kind next) TK.PLUS_ASSIGN
           || TK.eqb (kind next) TK.MINUS_ASSIGN
           || TK.eqb (kind next) TK.STAR_ASSIGN
           || TK.eqb (kind next) TK.SLASH_ASSIGN)
  end.

(** [Parser.assignOpFromToken], parser.ts 169-179. *)
Definition assignOpFromToken (tok : Token) : M AssignOp.t :=
  match kind tok with
  | TK.ASSIGN => ret AssignOp.ASSIGN
  | TK.PLUS_ASSIGN => ret AssignOp.PLUS_ASSIGN
  | TK.MINUS_ASSIGN => ret AssignOp.MINUS_ASSIGN
  | TK.STAR_ASSIGN => ret AssignOp.STAR_ASSIGN
  | TK.SLASH_ASSIGN => ret AssignOp.SLASH_ASSIGN
  | k =>
      throw (ParseErr (error tok
        ("Expected assignment operator, got '" ++ kindText k ++ "'.")%string))
  end.

(** ** Expressions (the ladder), parser.ts 184-306

    One function per method, and one per loop: [logicOr_while] is the
    [while] loop of [logicOr], and so on; [call_while] and [call_args] are
    the two loops of [call]. *)

Fixpoint expression (fuel : nat) : M Expr :=
  match fuel with
  | 0 => out_of_fuel
  | S n => logicOr n
  end

with logicOr (fuel : nat) : M Expr :=
  match fuel with
  | 0 => out_of_fuel
  | S n => expr <- logicAnd n ;; logicOr_while n expr
  end

with logicOr_while (fuel : nat) (expr : Expr) : M Expr :=
  match fuel with
  | 0 => out_of_fuel
  | S n =>
      b <- match_ [TK.OR] ;;
      if b then
        rhs <- logicAnd n ;;
        logicOr_while n (Binary BinaryOp.OR expr rhs)
      else ret expr
  end

with logicAnd (fuel : nat) : M Expr :=
  match fuel with
  | 0 => out_of_fuel
  | S n => expr <- equality n ;; logicAnd_while n expr
  end

with logicAnd_while (fuel : nat) (expr : Expr) : M Expr :=
  match fuel with
  | 0 => out_of_fuel
  | S n =>
      b <- match_ [TK.AND] ;;
      if b then
        rhs <- equality n ;;
        logicAnd_while n (Binary BinaryOp.AND expr rhs)
      else ret expr
  end

with equality (fuel : nat) : M Expr :=
  match fuel with
  | 0 => out_of_fuel
  | S n => expr <- comparison n ;; equality_while n expr
  end

with equality_while (fuel : nat) (expr : Expr) : M Expr :=
  match fuel with
  | 0 => out_of_fuel
  | S n =>
      b <- match_ [TK.EQUAL; TK.NOTEQ] ;;
      if b then
        opTok <- previous ;;
        rhs <- comparison n ;;
        let op := if TK.eqb (kind opTok) TK.EQUAL
                  then BinaryOp.EQUAL else BinaryOp.NOTEQ in
        equality_while n (Binary op expr rhs)
      else ret expr
  end

with comparison (fuel : nat) : M Expr :=
  match fuel with
  | 0 => out_of_fuel
  | S n => expr <- term n ;; comparison_while n expr
  end

with comparison_while (fuel : nat) (expr : Expr) : M Expr :=
  match fuel with
  | 0 => out_of_fuel
  | S n =>
      b <- match_ [TK.LT; TK.LTE; TK.GT; TK.GTE] ;;
      if b then
        opTok <- previous ;;
        rhs <- term n ;;
        let op := if TK.eqb (kind opTok) TK.LT then BinaryOp.LT
                  else if TK.eqb (kind opTok) TK.LTE then BinaryOp.LTE
                  else if TK.eqb (kind opTok) TK.GT then BinaryOp.GT
                  else BinaryOp.GTE in
        comparison_while n (Binary op expr rhs)
      else ret expr
  end

with term (fuel : nat) : M Expr :=
  match fuel with
  | 0 => out_of_fuel
  | S n => expr <- factor n ;; term_while n expr
  end

with term_while (fuel : nat) (expr : Expr) : M Expr :=
  match fuel with
  | 0 => out_of_fuel
  | S n =>
      b <- match_ [TK.PLUS; TK.MINUS] ;;
      if b then
        opTok <- previous ;;
        rhs <- factor n ;;
        let op := if TK.eqb (kind opTok) TK.PLUS
                  then BinaryOp.PLUS else BinaryOp.MINUS in
        term_while n (Binary op expr rhs)
      else ret expr
  end

with factor (fuel : nat) : M Expr :=
  match fuel with
  | 0 => out_of_fuel
  | S n => expr <- unary n ;; factor_while n expr
  end

with factor_while (fuel : nat) (expr : Expr) : M Expr :=
  match fuel with
  | 0 => out_of_fuel
  | S n =>
      b <- match_ [TK.STAR; TK.SLASH] ;;
      if b then
        opTok <- previous ;;
        rhs <- unary n ;;
        let op := if TK.eqb (kind opTok) TK.STAR
                  then BinaryOp.STAR else BinaryOp.SLASH in
        factor_while n (Binary op expr rhs)
      else ret expr
  end

with unary (fuel : nat) : M Expr :=
  match fuel with
  | 0 => out_of_fuel
  | S n =>
      b <- match_ [TK.NOT; TK.MINUS; TK.BANG] ;;
      if b then
        opTok <- previous ;;
        rhs <- unary n ;;
        let op := if TK.eqb (kind opTok) TK.MINUS
                  then UnaryOp.MINUS else UnaryOp.NOT in
        ret (Unary op rhs)
      else call n
  end

with call (fuel : nat) : M Expr :=
  match fuel with
  | 0 => out_of_fuel
  | S n => expr <- primary n ;; call_while n expr
  end

(** The [while (true)] loop of [call]. *)
with call_while (fuel : nat) (expr : Expr) : M Expr :=
  match fuel with
  | 0 => out_of_fuel
  | S n =>
      b <- match_ [TK.LPAREN] ;;
      if b then
        c <- check TK.RPAREN ;;
        args <- (if negb c then call_args n [] else ret []) ;;
        consume TK.RPAREN "Expected ')' after arguments." ;;;
        call_while n (Call expr args)
      else ret expr
  end

(** The [do ... while (this.match(TK.COMMA))] loop of [call]. *)
with call_args (fuel : nat) (args : list Expr) : M (list Expr) :=
  match fuel with
  | 0 => out_of_fuel
  | S n =>
      e <- expression n ;;
      b <- match_ [TK.COMMA] ;;
      if b then call_args n (args ++ [e])
      else ret (args ++ [e])
  end

with primary (fuel : nat) : M Expr :=
  match fuel with
  | 0 => out_of_fuel
  | S n =>
      b <- match_ [TK.NUMBER] ;;
      if b then
        t <- previous ;; ret (Num (JsNumber (literal_or_lexeme t)))
      else
      b <- match_ [TK.STRING] ;;
      if b then
        t <- previous ;; ret (Str (JsString (literal_or_lexeme t)))
      else
      b <- match_ [TK.IDENT] ;;
      if b then
        t <- previous ;; ret (Ident (lexeme t))
      else
      b <- match_ [TK.LPAREN] ;;
      if b then
        expr <- expression n ;;
        consume TK.RPAREN "Expected ')' after expression." ;;;
        ret (Group expr)
      else
        tok <- current ;;
        throw (ParseErr (error tok "Expected expression."))
  end.

(** ** Declarations and statements, parser.ts 34-155 *)

(** The [do ... while (this.match(TK.COMMA))] loop of [fnDecl],
    parser.ts 75-78. *)
Fixpoint fnDecl_params (fuel : nat) (params : list string) : M (list string) :=
  match fuel with
  | 0 => out_of_fuel
  | S n =>
      p <- consume TK.IDENT "Expected parameter name." ;;
      b <- match_ [TK.COMMA] ;;
      if b then fnDecl_params n (params ++ [lexeme p])
      else ret (params ++ [lexeme p])
  end.

(** [Parser.letDecl], parser.ts 57-67. *)
Definition letDecl (fuel : nat) : M Stmt :=
  nameTok <- consume TK.IDENT "Expected identifier after 'let'." ;;
  b <- match_ [TK.ASSIGN] ;;
  init <- (if b then e <- expression fuel ;; ret (Some e) else ret None) ;;
  consume TK.SEMICOLON "Expected ';' after let declaration." ;;;
  ret (Let (lexeme nameTok) init).

(** [Parser.exprOrAssignStmt], parser.ts 140-155. *)
Definition exprOrAssignStmt (fuel : nat) : M Stmt :=
  c <- check TK.IDENT ;;
  p <- (if c then peekIsAssignOp else ret false) ;;
  if p then
    nameTok <- advance ;;
    opTok <- advance ;;
    op <- assignOpFromToken opTok ;;
    value <- expression fuel ;;
    consume TK.SEMICOLON "Expected ';' after assignment." ;;;
    ret (Assign (lexeme nameTok) op value)
  else
    expr <- expression fuel ;;
    consume TK.SEMICOLON "Expected ';' after expression." ;;;
    ret (ExprStmt expr).

(** [if (s) stmts.push(s)] *)
Definition push_stmt (stmts : list Stmt) (s : option Stmt) : list Stmt :=
  match s with
  | Some st => stmts ++ [st]
  | None => stmts
  end.

(** The [catch] clause of [Parser.declaration], parser.ts 39-46. *)
Definition declaration_catch (fuel : nat) (e : Exn) : M (option Stmt) :=
  match e with
  | ParseErr pe =>
      push_error pe ;;;
      synchronize fuel ;;;
      ret None
  | _ => throw e
  end.

(** [Parser.declaration] (34-47), [statement] (49-55), [fnDecl] (69-87),
    [ifStmt] (89-101), [whileStmt] (103-109), [blockStmtAlreadyOpened]
    (117-120) and [blockStmtsAlreadyOpened] (124-132) with its loop. *)
Fixpoint declaration (fuel : nat) : M (option Stmt) :=
  match fuel with
  | 0 => out_of_fuel
  | S n =>
      try_catch
        (b <- match_ [TK.FUNC] ;;
         if b then st <- fnDecl n ;; ret (Some st)
         else
         b <- match_ [TK.LET] ;;
         if b then st <- letDecl n ;; ret (Some st)
         else st <- statement n ;; ret (Some st))
        (declaration_catch n)
  end

with statement (fuel : nat) : M Stmt :=
  match fuel with
  | 0 => out_of_fuel
  | S n =>
      b <- match_ [TK.IF] ;;
      if b then ifStmt n
      else
      b <- match_ [TK.WHILE] ;;
      if b then whileStmt n
      else
      b <- match_ [TK.LBRACE] ;;
      if b then blockStmtAlreadyOpened n
      else exprOrAssignStmt n
  end

with fnDecl (fuel : nat) : M Stmt :=
  match fuel with
  | 0 => out_of_fuel
  | S n =>
      nameTok <- consume TK.IDENT "Expected function name after 'func'." ;;
      consume TK.LPAREN "Expected '(' after function name." ;;;
      c <- check TK.RPAREN ;;
      params <- (if negb c then fnDecl_params n [] else ret []) ;;
      consume TK.RPAREN "Expected ')' after parameters." ;;;
      consume TK.LBRACE "Expected '{' before function body." ;;;
      body <- blockStmtsAlreadyOpened n ;;
      ret (Fn (lexeme nameTok) params body)
  end

with ifStmt (fuel : nat) : M Stmt :=
  match fuel with
  | 0 => out_of_fuel
  | S n =>
      consume TK.LPAREN "Expected '(' after 'if'." ;;;
      cond <- expression n ;;
      consume TK.RPAREN "Expected ')' after condition." ;;;
      then_ <- statement n ;;
      b <- match_ [TK.ELSE] ;;
      otherwise <- (if b then st <- statement n ;; ret (Some st)
                    else ret None) ;;
      ret (If cond then_ otherwise)
  end

with whileStmt (fuel : nat) : M Stmt :=
  match fuel with
  | 0 => out_of_fuel
  | S n =>
      consume TK.LPAREN "Expected '(' after 'while'." ;;;
      cond <- expression n ;;
      consume TK.RPAREN "Expected ')' after condition." ;;;
      body <- statement n ;;
      ret (While cond body)
  end

with blockStmtAlreadyOpened (fuel : nat) : M Stmt :=
  match fuel with
  | 0 => out_of_fuel
  | S n =>
      stmts <- blockStmtsAlreadyOpened n ;;
      ret (Block stmts)
  end

with blockStmtsAlreadyOpened (fuel : nat) : M (list Stmt) :=
  match fuel with
  | 0 => out_of_fuel
  | S n =>
      stmts <- blockStmtsAlreadyOpened_while n [] ;;
      consume TK.RBRACE "Expected '}' after block." ;;;
      ret stmts
  end

(** The loop [while (!this.check(TK.RBRACE) && !this.isAtEnd())]. *)
with blockStmtsAlreadyOpened_while (fuel : nat) (stmts : list Stmt)
  : M (list Stmt) :=
  match fuel with
  | 0 => out_of_fuel
  | S n =>
      c <- check TK.RBRACE ;;
      go <- (if negb c then b <- isAtEnd ;; ret (negb b) else ret false) ;;
      if go then
        s <- declaration n ;;
        blockStmtsAlreadyOpened_while n (push_stmt stmts s)
      else ret stmts
  end.

(** ** Program, parser.ts 22-29 *)

(** The loop [while (!this.isAtEnd())] of [parseProgram]. *)
Fixpoint parseProgram_while (fuel : nat) (out : list Stmt) : M (list Stmt) :=
  match fuel with
  | 0 => out_of_fuel
  | S n =>
      b <- isAtEnd ;;
      if negb b then
        stmt <- declaration n ;;
        parseProgram_while n (push_stmt out stmt)
      else ret out
  end.

(** [Parser.parseProgram]. *)
Definition parseProgram (fuel : nat) : M (list Stmt) :=
  parseProgram_while fuel [].

(** ** Vocabulary for the properties *)

(** The token under the index, if any. *)
Definition cur (s : Parser) : option Token := nth_error tokens (i s).

(** The state after [this.i++]. *)
Definition next (s : Parser) : Parser :=
  {| i := S (i s); errors := errors s |}.

(** The token is not the end-of-input marker. *)
Definition live (tok : Token) : bool := negb (TK.eqb (kind tok) TK.EOF).

Definition missing_eof : Exn :=
  FatalErr "Parser invariant violated: missing EOF token".

Definition kind_in (k : TokenKind) (kinds : list TokenKind) : bool :=
  existsb (TK.eqb k) kinds.

(** The operator each loop builds from the token it has just matched. *)
Definition equality_op (opTok : Token) : BinaryOp.t :=
  if TK.eqb (kind opTok) TK.EQUAL then BinaryOp.EQUAL else BinaryOp.NOTEQ.

Definition comparison_op (opTok : Token) : BinaryOp.t :=
  if TK.eqb (kind opTok) TK.LT then BinaryOp.LT
  else if TK.eqb (kind opTok) TK.LTE then BinaryOp.LTE
  else if TK.eqb (kind opTok) TK.GT then BinaryOp.GT
  else BinaryOp.GTE.

Definition term_op (opTok : Token) : BinaryOp.t :=
  if TK.eqb (kind opTok) TK.PLUS then BinaryOp.PLUS else BinaryOp.MINUS.

Definition factor_op (opTok : Token) : BinaryOp.t :=
  if TK.eqb (kind opTok) TK.STAR then BinaryOp.STAR else BinaryOp.SLASH.

Definition unary_op (opTok : Token) : UnaryOp.t :=
  if TK.eqb (kind opTok) TK.MINUS then UnaryOp.MINUS else UnaryOp.NOT.

(** The [try] block of [declaration]. *)
Definition declaration_try (n : nat) : M (option Stmt) :=
  b <- match_ [TK.FUNC] ;;
  if b then st <- fnDecl n ;; ret (Some st)
  else
  b <- match_ [TK.LET] ;;
  if b then st <- letDecl n ;; ret (Some st)
  else st <- statement n ;; ret (Some st).

(** The index of the first end-of-input token, or the length of the
    array when it holds none. *)
Fixpoint first_eof (l : list Token) : nat :=
  match l with
  | [] => 0
  | t :: rest => if live t then S (first_eof rest) else 0
  end.

Definition limit : nat := first_eof tokens.

(** The array holds an end-of-input token. *)
Definition has_eof : Prop := limit < List.length tokens.

(** What a run that started at index [lo] or later is expected to
    satisfy: it has an answer, the index has not moved back nor passed the
    first end-of-input token, a thrown [ParseError] carries the token under
    the index, no plain [Error] is thrown when the array holds its
    sentinel, the only plain [Error] thrown otherwise is the missing
    sentinel, and (when [strict]) a normal return has consumed a token. *)
Definition Post {A} (strict : bool) (lo : nat) (res : Outcome A * Parser)
  : Prop :=
  fst res <> OutOfFuel /\
  lo <= i (snd res) /\
  i (snd res) <= limit /\
  (forall e, fst res = Throw (ParseErr e) -> cur (snd res) = Some (token e)) /\
  (has_eof -> forall msg, fst res <> Throw (FatalErr msg)) /\
  (forall msg, fst res = Throw (FatalErr msg) -> FatalErr msg = missing_eof) /\
  (strict = true -> forall a, fst res = Ok a -> lo < i (snd res)).

(** Fuel that suffices for a method of the given [rank] in state [s]. *)
Definition enough (rank : nat) (s : Parser) (fuel : nat) : Prop :=
  20 * (limit - i s) + rank <= fuel.

(** With fuel that is [enough] for its [rank], the computation [c]
    started below the limit meets [Post]. *)
Definition terminates {A} (rank : nat) (strict : bool) (c : M A) (fuel : nat)
  : Prop :=
  forall s, i s <= limit -> enough rank s fuel -> Post strict (i s) (c s).

(** The kinds [peekIsAssignOp] accepts. *)
Definition is_assign_kind (k : TokenKind) : bool :=
  TK.eqb k TK.ASSIGN || TK.eqb k TK.PLUS_ASSIGN || TK.eqb k TK.MINUS_ASSIGN
  || TK.eqb k TK.STAR_ASSIGN || TK.eqb k TK.SLASH_ASSIGN.

(** The token one past the index. *)
Definition lookahead (s : Parser) : option Token := nth_error tokens (i s + 1).

(** The state after [this.errors.push(e)]. *)
Definition pushed (e : ParseError) (s : Parser) : Parser :=
  {| i := i s; errors := errors s ++ [e] |}.

(** The invariant of the token array: its last element is the
    end-of-input token. *)
Definition ends_with_eof : Prop :=
  exists pre t, tokens = pre ++ [t] /\ kind t = TK.EOF.

(** The loop of [synchronize] stops when the index is [j]: the token
    there is the end-of-input token, or the token before it is a [;], or
    the token there is one of [let], [func], [if], [while]. *)
Definition sync_stop (j : nat) : bool :=
  match nth_error tokens j with
  | None => false
  | Some c =>
      negb (live c)
      || match j with
         | 0 => false
         | S p =>
             match nth_error tokens p with
             | Some t => TK.eqb (kind t) TK.SEMICOLON
             | None => false
             end
         end
      || isSyncKeyword (kind c)
  end.

(** The stop condition as the specification words it: a [;] has just
    been consumed, or the next token is one of the four keywords. *)
Definition sync_stop_as_stated (j : nat) : Prop :=
  (exists p t, j = S p /\ nth_error tokens p = Some t
               /\ kind t = TK.SEMICOLON) \/
  (exists c, nth_error tokens j = Some c /\ isSyncKeyword (kind c) = true).

(** Panic-mode recovery as the specification words it: whenever the
    [try] block of a [declaration] started on a token other than
    end-of-input throws a [ParseError], the error is recorded, no statement
    is produced, the offending token is discarded, and the index stops
    where [sync_stop_as_stated] holds. *)
Definition recovery_as_stated : Prop :=
  forall n s tok e s1,
    cur s = Some tok -> kind tok <> TK.EOF ->
    declaration_try n s = (Throw (ParseErr e), s1) ->
    20 * (limit - i s1) + 2 <= n ->
    exists s',
      declaration (S n) s = (Ok None, s') /\
      errors s' = errors s1 ++ [e] /\
      i s1 < i s' /\
      sync_stop_as_stated (i s').

(** The assignment operator a token kind stands for, as in
    [assignOpFromToken]. *)
Definition assignOp_of_kind (k : TokenKind) : option AssignOp.t :=
  match k with
  | TK.ASSIGN => Some AssignOp.ASSIGN
  | TK.PLUS_ASSIGN => Some AssignOp.PLUS_ASSIGN
  | TK.MINUS_ASSIGN => Some AssignOp.MINUS_ASSIGN
  | TK.STAR_ASSIGN => Some AssignOp.STAR_ASSIGN
  | TK.SLASH_ASSIGN => Some AssignOp.SLASH_ASSIGN
  | _ => None
  end.

(** The five kinds [=], [+=], [-=], [*=], [/=]. *)
Definition assign_kinds : list TokenKind :=
  [TK.ASSIGN; TK.PLUS_ASSIGN; TK.MINUS_ASSIGN; TK.STAR_ASSIGN;
   TK.SLASH_ASSIGN].

(** C6 as the specification words it, for calls: whenever the index is on
    the [(] of a call and no [)] follows anywhere in the array, the parser
    raises a [ParseError] that names the missing [)] and the construct: the
    one of the call, or the one of a group left open among its arguments. *)
Definition missing_rparen_as_stated : Prop :=
  forall callee s lp,
    i s <= limit ->
    cur s = Some lp -> kind lp = TK.LPAREN ->
    (forall j t, i s < j -> nth_error tokens j = Some t ->
                 kind t <> TK.RPAREN) ->
    exists N, forall n, N <= n ->
      exists t msg s',
        call_while n callee s = (Throw (ParseErr (error t msg)), s') /\
        (msg = "Expected ')' after arguments." \/
         msg = "Expected ')' after expression.").

(** With enough fuel, [f] started in [s] returns [a] in state [s']. *)
Definition returns {A} (f : nat -> M A) (s : Parser) (a : A) (s' : Parser)
  : Prop :=
  exists N, forall m, N <= m -> f m s = (Ok a, s').

(** A chain of operators of one tier, read from the state reached after
    the first operand: each link is an operator token of the tier followed
    by an operand that the next tier [sub] parses. *)
Inductive chain (sub : nat -> M Expr) (ops : list TokenKind)
  : Parser -> list (Token * Expr) -> Parser -> Prop :=
| chain_nil s : chain sub ops s [] s
| chain_cons s opTok rhs s1 rest s2 :
    cur s = Some opTok -> kind opTok <> TK.EOF -> In (kind opTok) ops ->
    returns sub (next s) rhs s1 ->
    chain sub ops s1 rest s2 ->
    chain sub ops s ((opTok, rhs) :: rest) s2.

(** The tree a chain denotes when it is folded from the left. *)
Definition fold_chain (opf : Token -> BinaryOp.t) (e0 : Expr)
  (links : list (Token * Expr)) : Expr :=
  fold_left (fun acc link => Binary (opf (fst link)) acc (snd link)) links e0.

(** The method [tier], whose operands are parsed by [sub] and whose
    operators are [ops], folds every chain to the left. *)
Definition left_assoc_tier (tier sub : nat -> M Expr) (ops : list TokenKind)
  (opf : Token -> BinaryOp.t) : Prop :=
  forall s0 e0 s1 links s2 t,
    returns sub s0 e0 s1 ->
    chain sub ops s1 links s2 ->
    cur s2 = Some t -> (kind t = TK.EOF \/ ~ In (kind t) ops) ->
    returns tier s0 (fold_chain opf e0 links) s2.

(** The kinds that make the expression ladder go on after an operand. *)
Definition continues_expression (k : TokenKind) : bool :=
  kind_in k [TK.LPAREN; TK.STAR; TK.SLASH; TK.PLUS; TK.MINUS;
             TK.LT; TK.LTE; TK.GT; TK.GTE; TK.EQUAL; TK.NOTEQ;
             TK.AND; TK.OR].


(** ** Vocabulary: the error list *)

(** The fixed texts that the statement and expression methods pass to
    [consume], and the one [primary] throws. *)
Definition messages : list string :=
  [ "Expected identifier after 'let'.";
    "Expected ';' after let declaration.";
    "Expected function name after 'func'.";
    "Expected '(' after function name.";
    "Expected parameter name.";
    "Expected ')' after parameters.";
    "Expected '{' before function body.";
    "Expected '(' after 'if'.";
    "Expected ')' after condition.";
    "Expected '(' after 'while'.";
    "Expected '}' after block.";
    "Expected ';' after assignment.";
    "Expected ';' after expression.";
    "Expected ')' after arguments.";
    "Expected ')' after expression.";
    "Expected expression." ].

(** The error carries a token of the array and one of the fixed texts. *)
Definition from_input (e : ParseError) : Prop :=
  In (token e) tokens /\ In (message e) messages.

(** What a run started in [s] does to the error list: it appends errors
    that are [from_input] (none at all when [pure]), and a [ParseError] it
    throws is [from_input] too. *)
Definition Keeps {A} (pure : bool) (s : Parser) (res : Outcome A * Parser)
  : Prop :=
  (exists l, errors (snd res) = errors s ++ l /\ Forall from_input l /\
             (pure = true -> l = [])) /\
  (forall e, fst res = Throw (ParseErr e) -> from_input e).

Definition keeps {A} (pure : bool) (c : M A) : Prop :=
  forall s, Keeps pure s (c s).

(** The kinds of the tokens on which the expression methods consume
    something: the three prefix operators of [unary] and the four
    alternatives of [primary]. *)
Definition expression_starts : list TokenKind :=
  [TK.NOT; TK.MINUS; TK.BANG; TK.NUMBER; TK.STRING; TK.IDENT; TK.LPAREN].

(** The kinds on which [statement] takes a path of its own before it
    falls through to an expression. *)
Definition statement_keywords : list TokenKind :=
  [TK.IF; TK.WHILE; TK.LBRACE].

(** ** Vocabulary: the tokens a method consumes *)

(** The tokens from index [a] up to, not including, index [b]. *)
Definition slice (a b : nat) : list Token := firstn (b - a) (skipn a tokens).

(** [reads c R]: whenever [c] returns, the index has not moved back and
    [R] relates the tokens consumed to the value returned. *)
Definition reads {A} (c : M A) (R : list Token -> A -> Prop) : Prop :=
  forall s a s',
    c s = (Ok a, s') -> i s <= i s' /\ R (slice (i s) (i s')) a.

(** The same for a run that has recorded no error. *)
Definition reads_clean {A} (c : M A) (R : list Token -> A -> Prop) : Prop :=
  forall s a s',
    c s = (Ok a, s') -> errors s' = errors s ->
    i s <= i s' /\ R (slice (i s) (i s')) a.

(** ** Vocabulary: the levels of the ladder

    The levels of the expression methods, from the loosest to the
    tightest; [below] is the level of the operands, [binary_of] the
    operators of a level, [parser_of] the method of a level and [loop_of]
    its loop. *)
Inductive Level : Type :=
| L_or | L_and | L_equality | L_comparison | L_term | L_factor
| L_unary | L_call | L_primary.

Definition below (lvl : Level) : Level :=
  match lvl with
  | L_or => L_and
  | L_and => L_equality
  | L_equality => L_comparison
  | L_comparison => L_term
  | L_term => L_factor
  | L_factor => L_unary
  | L_unary => L_call
  | L_call => L_primary
  | L_primary => L_primary
  end.

Definition binary_of (lvl : Level) (k : TokenKind) : option BinaryOp.t :=
  match lvl, k with
  | L_or, TK.OR => Some BinaryOp.OR
  | L_and, TK.AND => Some BinaryOp.AND
  | L_equality, TK.EQUAL => Some BinaryOp.EQUAL
  | L_equality, TK.NOTEQ => Some BinaryOp.NOTEQ
  | L_comparison, TK.LT => Some BinaryOp.LT
  | L_comparison, TK.LTE => Some BinaryOp.LTE
  | L_comparison, TK.GT => Some BinaryOp.GT
  | L_comparison, TK.GTE => Some BinaryOp.GTE
  | L_term, TK.PLUS => Some BinaryOp.PLUS
  | L_term, TK.MINUS => Some BinaryOp.MINUS
  | L_factor, TK.STAR => Some BinaryOp.STAR
  | L_factor, TK.SLASH => Some BinaryOp.SLASH
  | _, _ => None
  end.


Definition parser_of (lvl : Level) : nat -> M Expr :=
  match lvl with
  | L_or => logicOr
  | L_and => logicAnd
  | L_equality => equality
  | L_comparison => comparison
  | L_term => term
  | L_factor => factor
  | L_unary => unary
  | L_call => call
  | L_primary => primary
  end.

Definition loop_of (lvl : Level) : nat -> Expr -> M Expr :=
  match lvl with
  | L_or => logicOr_while
  | L_and => logicAnd_while
  | L_equality => equality_while
  | L_comparison => comparison_while
  | L_term => term_while
  | L_factor => factor_while
  | L_call => call_while
  | L_unary | L_primary => fun _ e => ret e
  end.

(** The kinds on which the loop of a level goes on. *)
Definition ops_of (lvl : Level) : list TokenKind :=
  match lvl with
  | L_or => [TK.OR]
  | L_and => [TK.AND]
  | L_equality => [TK.EQUAL; TK.NOTEQ]
  | L_comparison => [TK.LT; TK.LTE; TK.GT; TK.GTE]
  | L_term => [TK.PLUS; TK.MINUS]
  | L_factor => [TK.STAR; TK.SLASH]
  | L_call => [TK.LPAREN]
  | L_unary | L_primary => []
  end.

(** The kinds on which the loop of a tighter level goes on. *)
Definition tighter_ops (lvl : Level) : list TokenKind :=
  match lvl with
  | L_or =>
      ops_of L_and ++ ops_of L_equality ++ ops_of L_comparison
      ++ ops_of L_term ++ ops_of L_factor ++ ops_of L_call
  | L_and =>
      ops_of L_equality ++ ops_of L_comparison ++ ops_of L_term
      ++ ops_of L_factor ++ ops_of L_call
  | L_equality =>
      ops_of L_comparison ++ ops_of L_term ++ ops_of L_factor ++ ops_of L_call
  | L_comparison => ops_of L_term ++ ops_of L_factor ++ ops_of L_call
  | L_term => ops_of L_factor ++ ops_of L_call
  | L_factor | L_unary => ops_of L_call
  | L_call | L_primary => []
  end.

(** [follows lvl l e]: on the tokens [l], followed by a token on which no
    tighter loop goes on, the method of level [lvl] does what its loop
    does once it holds the tree [e] and the index is past [l]. *)
Definition follows (lvl : Level) (l : list Token) (e : Expr) : Prop :=
  forall pre t post errs,
    tokens = pre ++ l ++ t :: post ->
    kind_in (kind t) (tighter_ops lvl) = false ->
    forall r s',
      returns (fun n => loop_of lvl n e)
        (mkParser (List.length pre + List.length l) errs) r s' ->
      returns (parser_of lvl) (mkParser (List.length pre) errs) r s'.

(** The same for a list of arguments: on the tokens [l], followed by a
    token that is no comma and on which no loop goes on, [call_args]
    appends the trees [es] to the arguments it holds. *)
Definition follows_list (l : list Token) (es : list Expr) : Prop :=
  forall pre t post errs acc,
    tokens = pre ++ l ++ t :: post ->
    kind t <> TK.COMMA -> continues_expression (kind t) = false ->
    returns (fun n => call_args n acc) (mkParser (List.length pre) errs)
      (acc ++ es) (mkParser (List.length pre + List.length l) errs).

(** ** Vocabulary: the [;] that ends a statement

    [Halts q s res]: the run from [s] has not moved the index back nor
    past [q] and has left the error list alone; [halts q c]: so does every
    run of [c] started at or before [q]. *)
Definition Halts {A} (q : nat) (s : Parser) (res : Outcome A * Parser)
  : Prop :=
  i s <= i (snd res) /\ i (snd res) <= q /\ errors (snd res) = errors s.

Definition halts {A} (q : nat) (c : M A) : Prop :=
  forall s, i s <= q -> Halts q s (c s).

(** [Ends q s res]: the run from [s] has not moved the index back, has
    left the error list alone, and has stopped at or before [q], or has
    returned with the index just past [q]; [ends p q c]: so does every run
    of [c] started between [p] and [q]. *)
Definition Ends {A} (q : nat) (s : Parser) (res : Outcome A * Parser)
  : Prop :=
  i s <= i (snd res) /\ errors (snd res) = errors s /\
  (i (snd res) <= q \/ (i (snd res) = S q /\ exists a, fst res = Ok a)).

Definition ends {A} (p q : nat) (c : M A) : Prop :=
  forall s, p <= i s -> i s <= q -> Ends q s (c s).
End WithTokens.

(** ** The driver ([lim.ts], the script of the source part [part_003])

    The driver is modelled by the events it emits and the way the process
    ends.  The file system, the lexer and the interpreter are outside the
    sources: the first two are parameters, the interpreter appears only
    through the events [RuntimeNew] and [RuntimeRun]. *)

Inductive Event : Type :=
| ConsoleError (text : string)          (* [console.error(text)] *)
| RuntimeNew                            (* [new Runtime()] *)
| RuntimeRun (ast : list Stmt).         (* [slimRuntime.run(ast)] *)

Inductive Ending : Type :=
| ProcessExit (code : Z)                (* [process.exit(code)] *)
| Uncaught (e : Exn)                    (* an exception left the parser *)
| NoAnswer                              (* the parser ran out of fuel *)
| AfterRuntime.                         (* control reached the end of the script *)

Record Run : Type := mkRun {
  events : list Event;
  ending : Ending
}.

(** [s.endsWith(suffix)] *)
Definition endsWith (s suffix : string) : bool :=
  let n := String.length s in
  let m := String.length suffix in
  (m <=? n) && String.eqb (String.substring (n - m) m s) suffix.

(** The text printed for one parse error, line 35. *)
Definition report (err : ParseError) : string :=
  ("[Code Pattern Error] " ++ message err ++ " at word type "
   ++ kindText (kind (token err)) ++ ", word " ++ lexeme (token err))%string.

Section Driver.
Variable fileExists : string -> bool.        (* [Bun.file(p).exists()] *)
Variable fileText : string -> string.        (* [Bun.file(p).text()] *)
Variable lex : string -> list Token.         (* [new Lexer(src).lex()] *)

(** [args], lines 7-10; [argv] is [Bun.argv]. *)
Definition driver_args (argv : list string) : list string :=
  match nth_error argv 1 with
  | Some a => if endsWith a ".ts" then skipn 2 argv else skipn 1 argv
  | None => skipn 1 argv
  end.

(** What follows [slimParser.parseProgram()] in the script, lines
    33-63. *)
Definition driver_after_parse (slimAst : list Stmt) (slimParser : Parser)
  : Run :=
  match errors slimParser with
  | [] =>
      {| events := [RuntimeNew; RuntimeRun slimAst]; ending := AfterRuntime |}
  | errs =>
      {| events := map (fun err => ConsoleError (report err)) errs;
         ending := ProcessExit 1 |}
  end.

(** The script, lines 14-64.  [!args[0]] holds of a missing and of an
    empty first argument. *)
Definition driver (fuel : nat) (argv : list string) : Run :=
  match driver_args argv with
  | [] =>
      {| events := [ConsoleError "[slim ERROR] No files were given to SLIM."];
         ending := ProcessExit 1 |}
  | arg0 :: _ =>
      if String.eqb arg0 "" then
        {| events := [ConsoleError "[slim ERROR] No files were given to SLIM."];
           ending := ProcessExit 1 |}
      else if negb (fileExists arg0) then
        {| events := [ConsoleError
                        ("[slim ERROR] File '" ++ arg0
                         ++ "' does not exist.")%string];
           ending := ProcessExit 1 |}
      else
        let src := fileText arg0 in
        let slimTokens := lex src in
        match parseProgram slimTokens fuel newParser with
        | (Ok slimAst, slimParser) => driver_after_parse slimAst slimParser
        | (Throw e, _) => {| events := []; ending := Uncaught e |}
        | (OutOfFuel, _) => {| events := []; ending := NoAnswer |}
        end
  end.

End Driver.

(** The events through which the interpreter is built or invoked. *)
Definition is_runtime_event (ev : Event) : bool :=
  match ev with
  | RuntimeNew | RuntimeRun _ => true
  | ConsoleError _ => false
  end.

End WithHost.

Arguments Throw {host A} e.
Arguments OutOfFuel {host A}.

Notation "x <- c ;; k" := (bind c (fun x => k))
  (at level 61, c at next level, right associativity).
Notation "c ;;; k" := (bind c (fun _ => k))
  (at level 61, right associativity).

(** ** Vocabulary: fuel

    [refines c c'] says that [c'] behaves as [c] wherever [c] does not run
    out of fuel. *)
Definition refines {host : Host} {A} (c c' : M A) : Prop :=
  forall s, fst (c s) = OutOfFuel \/ c' s = c s.

(** A computation that never throws a [ParseError]. *)
Definition quiet {host : Host} {A} (c : M A) : Prop :=
  forall s e s', c s <> (Throw (ParseErr e), s').

(** ** Vocabulary: two token arrays

    [same_from k c1 c2]: started with the index past [k], the two
    computations do the same and leave the index past [k]. *)
Definition same_from {host : Host} {A} (k : nat) (c1 c2 : M A) : Prop :=
  forall s, k < i s -> c1 s = c2 s /\ k < i (snd (c1 s)).

(** ** Reference semantics of arithmetic *)

(** Modelled from the spec: the interpreter ([interp.ts]) is not among the
    sources.  [denote] is the standard arithmetic value of a tree built
    from numbers, [+ - * /] and groups, over the rationals; [val] reads a
    host number.  A division by zero and any other node have no value
    here. *)
Fixpoint denote {host : Host} (val : number -> Q) (e : Expr) : option Q :=
  match e with
  | Num v => Some (val v)
  | Group e1 => denote val e1
  | Binary op l r =>
      match denote val l, denote val r with
      | Some x, Some y =>
          match op with
          | BinaryOp.PLUS => Some (x + y)%Q
          | BinaryOp.MINUS => Some (x - y)%Q
          | BinaryOp.STAR => Some (x * y)%Q
          | BinaryOp.SLASH => if Qeq_bool y 0 then None else Some (x / y)%Q
          | _ => None
          end
      | _, _ => None
      end
  | _ => None
  end.

(** ** The grammar of arithmetic expressions

    [is_term l e]: the tokens [l] are an expression over literals and
    names, the operators [+ - * /] and parentheses, and [e] is the tree that
    standard precedence and left associativity give it:
<<
    term    := term ("+" | "-") factor | factor
    factor  := factor ("*" | "/") primary | primary
    primary := NUMBER | STRING | IDENT | "(" term ")"
>> *)
Inductive is_term {host : Host} : list Token -> Expr -> Prop :=
| T_factor l e : is_factor l e -> is_term l e
| T_plus l1 e1 op l2 e2 :
    is_term l1 e1 -> kind op = TK.PLUS -> is_factor l2 e2 ->
    is_term (l1 ++ op :: l2) (Binary BinaryOp.PLUS e1 e2)
| T_minus l1 e1 op l2 e2 :
    is_term l1 e1 -> kind op = TK.MINUS -> is_factor l2 e2 ->
    is_term (l1 ++ op :: l2) (Binary BinaryOp.MINUS e1 e2)
with is_factor {host : Host} : list Token -> Expr -> Prop :=
| F_primary l e : is_primary l e -> is_factor l e
| F_star l1 e1 op l2 e2 :
    is_factor l1 e1 -> kind op = TK.STAR -> is_primary l2 e2 ->
    is_factor (l1 ++ op :: l2) (Binary BinaryOp.STAR e1 e2)
| F_slash l1 e1 op l2 e2 :
    is_factor l1 e1 -> kind op = TK.SLASH -> is_primary l2 e2 ->
    is_factor (l1 ++ op :: l2) (Binary BinaryOp.SLASH e1 e2)
with is_primary {host : Host} : list Token -> Expr -> Prop :=
| P_number t :
    kind t = TK.NUMBER ->
    is_primary [t] (Num (JsNumber (literal_or_lexeme t)))
| P_string t :
    kind t = TK.STRING ->
    is_primary [t] (Str (JsString (literal_or_lexeme t)))
| P_ident t :
    kind t = TK.IDENT ->
    is_primary [t] (Ident (lexeme t))
| P_group lp l e rp :
    kind lp = TK.LPAREN -> is_term l e -> kind rp = TK.RPAREN ->
    is_primary (lp :: l ++ [rp]) (Group e).

Scheme is_term_min := Minimality for is_term Sort Prop
  with is_factor_min := Minimality for is_factor Sort Prop
  with is_primary_min := Minimality for is_primary Sort Prop.
Combined Scheme is_arith_ind from is_term_min, is_factor_min, is_primary_min.


(** ** The grammar of expressions
<<
    or         := or "or" and | and
    and        := and "and" equality | equality
    equality   := equality ("==" | "!=") comparison | comparison
    comparison := comparison ("<" | "<=" | ">" | ">=") term | term
    term       := term ("+" | "-") factor | factor
    factor     := factor ("*" | "/") unary | unary
    unary      := ("not" | "!" | "-") unary | call
    call       := call "(" [ or { "," or } ] ")" | primary
    primary    := NUMBER | STRING | IDENT | "(" or ")"
>> *)
(** [derives lvl l e]: the tokens [l] are an expression of level [lvl]
    and [e] is its tree; [derives_list l es]: the tokens [l] are one or
    more expressions separated by commas. *)
Inductive derives {host : Host} : Level -> list Token -> Expr -> Prop :=
| D_tighter lvl l e :
    derives (below lvl) l e -> derives lvl l e
| D_binary lvl l1 e1 opTok op l2 e2 :
    binary_of lvl (kind opTok) = Some op ->
    derives lvl l1 e1 -> derives (below lvl) l2 e2 ->
    derives lvl (l1 ++ opTok :: l2) (Binary op e1 e2)
| D_not t l e :
    kind t = TK.NOT \/ kind t = TK.BANG -> derives L_unary l e ->
    derives L_unary (t :: l) (Unary UnaryOp.NOT e)
| D_minus t l e :
    kind t = TK.MINUS -> derives L_unary l e ->
    derives L_unary (t :: l) (Unary UnaryOp.MINUS e)
| D_call_empty lf f lp rp :
    derives L_call lf f -> kind lp = TK.LPAREN -> kind rp = TK.RPAREN ->
    derives L_call (lf ++ [lp; rp]) (Call f [])
| D_call lf f lp la args rp :
    derives L_call lf f -> kind lp = TK.LPAREN ->
    derives_list la args -> kind rp = TK.RPAREN ->
    derives L_call (lf ++ lp :: la ++ [rp]) (Call f args)
| D_number t :
    kind t = TK.NUMBER ->
    derives L_primary [t] (Num (JsNumber (literal_or_lexeme t)))
| D_string t :
    kind t = TK.STRING ->
    derives L_primary [t] (Str (JsString (literal_or_lexeme t)))
| D_ident t :
    kind t = TK.IDENT ->
    derives L_primary [t] (Ident (lexeme t))
| D_group lp l e rp :
    kind lp = TK.LPAREN -> derives L_or l e -> kind rp = TK.RPAREN ->
    derives L_primary (lp :: l ++ [rp]) (Group e)
with derives_list {host : Host} : list Token -> list Expr -> Prop :=
| DL_one l e : derives L_or l e -> derives_list l [e]
| DL_cons l e comma l' es :
    derives L_or l e -> kind comma = TK.COMMA -> derives_list l' es ->
    derives_list (l ++ comma :: l') (e :: es).

(** ** The grammar of statements
<<
    program     := { declaration }
    declaration := "func" IDENT "(" [ IDENT { "," IDENT } ] ")"
                   "{" { declaration } "}"
                 | "let" IDENT [ "=" or ] ";"
                 | statement
    statement   := "if" "(" or ")" statement [ "else" statement ]
                   (an "else" belongs to the nearest "if")
                 | "while" "(" or ")" statement
                 | "{" { declaration } "}"
                 | IDENT ("=" | "+=" | "-=" | "*=" | "/=") or ";"
                 | or ";"
>> *)

(** One or more parameter names separated by commas. *)
Inductive derives_params {host : Host} : list Token -> list string -> Prop :=
| DP_one t : kind t = TK.IDENT -> derives_params [t] [lexeme t]
| DP_cons t comma l ps :
    kind t = TK.IDENT -> kind comma = TK.COMMA -> derives_params l ps ->
    derives_params (t :: comma :: l) (lexeme t :: ps).

(** The statement ends with an [if] that has no [else]: an [else] that
    follows it would belong to that [if]. *)
Fixpoint open_if {host : Host} (st : Stmt) : bool :=
  match st with
  | If _ _ None => true
  | If _ _ (Some otherwise) => open_if otherwise
  | While _ body => open_if body
  | _ => false
  end.

Inductive derives_stmt {host : Host} : list Token -> Stmt -> Prop :=
| DS_if kw lp lc cond rp lt then_ :
    kind kw = TK.IF -> kind lp = TK.LPAREN -> derives L_or lc cond ->
    kind rp = TK.RPAREN -> derives_stmt lt then_ ->
    derives_stmt (kw :: lp :: lc ++ rp :: lt) (If cond then_ None)
| DS_if_else kw lp lc cond rp lt then_ el lo otherwise :
    kind kw = TK.IF -> kind lp = TK.LPAREN -> derives L_or lc cond ->
    kind rp = TK.RPAREN -> derives_stmt lt then_ -> open_if then_ = false ->
    kind el = TK.ELSE -> derives_stmt lo otherwise ->
    derives_stmt (kw :: lp :: lc ++ rp :: lt ++ el :: lo)
      (If cond then_ (Some otherwise))
| DS_while kw lp lc cond rp lb body :
    kind kw = TK.WHILE -> kind lp = TK.LPAREN -> derives L_or lc cond ->
    kind rp = TK.RPAREN -> derives_stmt lb body ->
    derives_stmt (kw :: lp :: lc ++ rp :: lb) (While cond body)
| DS_block lb l stmts rb :
    kind lb = TK.LBRACE -> derives_decls l stmts -> kind rb = TK.RBRACE ->
    derives_stmt (lb :: l ++ [rb]) (Block stmts)
| DS_assign name opTok op l value semi :
    kind name = TK.IDENT -> assignOp_of_kind (kind opTok) = Some op ->
    derives L_or l value -> kind semi = TK.SEMICOLON ->
    derives_stmt (name :: opTok :: l ++ [semi])
      (Assign (lexeme name) op value)
| DS_expr l expr semi :
    derives L_or l expr -> kind semi = TK.SEMICOLON ->
    derives_stmt (l ++ [semi]) (ExprStmt expr)
with derives_decl {host : Host} : list Token -> Stmt -> Prop :=
| DD_statement l st : derives_stmt l st -> derives_decl l st
| DD_let kw name semi :
    kind kw = TK.LET -> kind name = TK.IDENT -> kind semi = TK.SEMICOLON ->
    derives_decl [kw; name; semi] (Let (lexeme name) None)
| DD_let_init kw name eq l init semi :
    kind kw = TK.LET -> kind name = TK.IDENT -> kind eq = TK.ASSIGN ->
    derives L_or l init -> kind semi = TK.SEMICOLON ->
    derives_decl (kw :: name :: eq :: l ++ [semi])
      (Let (lexeme name) (Some init))
| DD_fn_no_params kw name lp rp lb l body rb :
    kind kw = TK.FUNC -> kind name = TK.IDENT -> kind lp = TK.LPAREN ->
    kind rp = TK.RPAREN -> kind lb = TK.LBRACE ->
    derives_decls l body -> kind rb = TK.RBRACE ->
    derives_decl (kw :: name :: lp :: rp :: lb :: l ++ [rb])
      (Fn (lexeme name) [] body)
| DD_fn kw name lp lps params rp lb l body rb :
    kind kw = TK.FUNC -> kind name = TK.IDENT -> kind lp = TK.LPAREN ->
    derives_params lps params ->
    kind rp = TK.RPAREN -> kind lb = TK.LBRACE ->
    derives_decls l body -> kind rb = TK.RBRACE ->
    derives_decl (kw :: name :: lp :: lps ++ rp :: lb :: l ++ [rb])
      (Fn (lexeme name) params body)
with derives_decls {host : Host} : list Token -> list Stmt -> Prop :=
| DDs_nil : derives_decls [] []
| DDs_cons l st l' stmts :
    derives_decl l st -> derives_decls l' stmts ->
    derives_decls (l ++ l') (st :: stmts).

(** ** Vocabulary: two token arrays that agree up to an index

    [same_upto k c1 c2]: started with the index at [k] or before, the two
    computations do the same and leave the index at [k] or before. *)
Definition same_upto {host : Host} {A} (k : nat) (c1 c2 : M A) : Prop :=
  forall s, i s <= k -> c1 s = c2 s /\ i (snd (c1 s)) <= k.

Scheme derives_min := Minimality for derives Sort Prop
  with derives_list_min := Minimality for derives_list Sort Prop.
Combined Scheme derives_mutind from derives_min, derives_list_min.

Scheme derives_stmt_min := Minimality for derives_stmt Sort Prop
  with derives_decl_min := Minimality for derives_decl Sort Prop
  with derives_decls_min := Minimality for derives_decls Sort Prop.
Combined Scheme derives_stmt_mutind
  from derives_stmt_min, derives_decl_min, derives_decls_min.

(** ** Vocabulary: faults and batches

    The kinds on which [synchronize] stops, and the kinds on which a
    declaration can start. *)
Definition sync_keywords : list TokenKind :=
  [TK.LET; TK.FUNC; TK.IF; TK.WHILE].

Definition declaration_starts : list TokenKind :=
  [TK.FUNC; TK.LET] ++ statement_keywords ++ expression_starts.

(** A stretch of tokens without [;], [{] and end of input, and without
    [let], [func], [if], [while] after its first token. *)
Definition plain {host : Host} (g : list Token) : Prop :=
  Forall (fun x => ~ In (kind x) [TK.SEMICOLON; TK.LBRACE; TK.EOF]) g /\
  Forall (fun x => ~ In (kind x) sync_keywords) (tl g).

(** [fault f nxt]: the tokens [f], followed by the token [nxt], are one
    faulty declaration.  Either [f] is a plain stretch closed by its [;]
    that is no declaration of the grammar, and [nxt] is no [else]; or [f]
    begins with a token on which no declaration starts, holds no [;] and
    none of the four keywords, and [nxt] is one of these keywords or the
    end of input. *)
Inductive fault {host : Host} : list Token -> Token -> Prop :=
| fault_statement g semi nxt :
    plain g -> kind semi = TK.SEMICOLON -> kind nxt <> TK.ELSE ->
    (forall d, ~ derives_decl (g ++ [semi]) d) ->
    fault (g ++ [semi]) nxt
| fault_start b g nxt :
    ~ In (kind b) (TK.SEMICOLON :: TK.EOF :: declaration_starts) ->
    Forall (fun x => ~ In (kind x) (TK.SEMICOLON :: TK.EOF :: sync_keywords))
      g ->
    In (kind nxt) (TK.EOF :: sync_keywords) ->
    fault (b :: g) nxt.

(** [batches l out fs]: the tokens [l] are, in turn, declarations of
    the grammar and faults, up to an end-of-input token; [out] are the
    statements of the declarations and [fs] the faults, in their order. *)
Inductive batches {host : Host}
  : list Token -> list Stmt -> list (list Token) -> Prop :=
| batches_end teof post :
    kind teof = TK.EOF -> batches (teof :: post) [] []
| batches_valid v st nxt rest out fs :
    derives_decl v st -> (open_if st = true -> kind nxt <> TK.ELSE) ->
    batches (nxt :: rest) out fs ->
    batches (v ++ nxt :: rest) (st :: out) fs
| batches_fault f nxt rest out fs :
    fault f nxt -> batches (nxt :: rest) out fs ->
    batches (f ++ nxt :: rest) out (f :: fs).

(** One syntax fault, in the reading most favourable to the batch law:
    a declaration of the grammar in which one token has been replaced by
    another, so that the tokens are no longer a sequence of declarations. *)
Definition slip {host : Host} (f : list Token) : Prop :=
  exists a x y b d,
    derives_decl (a ++ x :: b) d /\ f = a ++ y :: b /\ kind y <> TK.EOF /\
    forall ds, ~ derives_decls f ds.

(** The batch law as the specification words it: whenever the token
    array is a fault, a declaration of the grammar and a fault, followed by
    the end-of-input token, [parseProgram] returns and has recorded exactly
    two errors. *)
Definition batch_law_as_stated {host : Host} : Prop :=
  forall tokens f1 v st f2 teof,
    slip f1 -> derives_decl v st -> slip f2 -> kind teof = TK.EOF ->
    tokens = f1 ++ v ++ f2 ++ [teof] ->
    exists out s',
      returns (parseProgram tokens) newParser out s' /\
      List.length (errors s') = 2.
(** ** Concrete inputs

    A host in which literals and numbers are integers, and a few token
    arrays used to run the embedding. *)

#[export] Instance exampleHost : Host := {|
  Literal := Z;
  number := Z;
  JsNumber := fun x => match x with inl z => z | inr _ => 0%Z end;
  JsString := fun x => match x with inl _ => "" | inr s => s end;
  kindText := fun k =>
    match k with
    | TK.EOF => "EOF"
    | TK.NUMBER => "NUMBER"
    | TK.IDENT => "IDENT"
    | TK.ASSIGN => "ASSIGN"
    | TK.SEMICOLON => "SEMICOLON"
    | TK.OTHER name => name
    | _ => "TOKEN"
    end
|}.

(** A token without literal, and a number token. *)
Definition tk (k : TokenKind) (lx : string) : Token := mkToken k lx None.
Definition num (z : Z) (lx : string) : Token := mkToken TK.NUMBER lx (Some z).
Definition eof : Token := tk TK.EOF "".

(** [1] and nothing else: the [;] is missing at end of input. *)
Definition tokens_missing_semicolon : list Token := [num 1 "1"; eof].

(** [let = 5; x = 1; let = 6;]: two faulty declarations around a valid
    statement. *)
Definition tokens_two_faults : list Token :=
  [ tk TK.LET "let"; tk TK.ASSIGN "="; num 5 "5"; tk TK.SEMICOLON ";";
    tk TK.IDENT "x"; tk TK.ASSIGN "="; num 1 "1"; tk TK.SEMICOLON ";";
    tk TK.LET "let"; tk TK.ASSIGN "="; num 6 "6"; tk TK.SEMICOLON ";";
    eof ].

Definition error_after_let : ParseError :=
  error (tk TK.ASSIGN "=") "Expected identifier after 'let'.".

(** [1] without the end-of-input sentinel. *)
Definition tokens_without_eof : list Token := [num 1 "1"].

(** [x += 1;] and [x + 1;]. *)
Definition tokens_assign : list Token :=
  [tk TK.IDENT "x"; tk TK.PLUS_ASSIGN "+="; num 1 "1"; tk TK.SEMICOLON ";";
   eof].

Definition tokens_expr_stmt : list Token :=
  [tk TK.IDENT "x"; tk TK.PLUS "+"; num 1 "1"; tk TK.SEMICOLON ";"; eof].

(** [f(] then end of input; [f(1] then end of input; [(1] then end of
    input. *)
Definition tokens_open_call : list Token :=
  [tk TK.IDENT "f"; tk TK.LPAREN "("; eof].

Definition tokens_open_call_arg : list Token :=
  [tk TK.IDENT "f"; tk TK.LPAREN "("; num 1 "1"; eof].

Definition tokens_open_group : list Token :=
  [tk TK.LPAREN "("; num 1 "1"; eof].

(** [- ! x ;] *)
Definition tokens_minus_bang : list Token :=
  [tk TK.MINUS "-"; tk TK.BANG "!"; tk TK.IDENT "x"; tk TK.SEMICOLON ";"; eof].

(** [! x ;] and [not x ;] *)
Definition tokens_bang : list Token :=
  [tk TK.BANG "!"; tk TK.IDENT "x"; tk TK.SEMICOLON ";"; eof].

Definition tokens_not : list Token :=
  [tk TK.NOT "not"; tk TK.IDENT "x"; tk TK.SEMICOLON ";"; eof].

(** [10 - 3 - 2 ;] *)
Definition tokens_10_3_2 : list Token :=
  [num 10 "10"; tk TK.MINUS "-"; num 3 "3"; tk TK.MINUS "-"; num 2 "2";
   tk TK.SEMICOLON ";"; eof].

(** [2 + 3 * 4 ;] and [( 2 + 3 ) * 4 ;] *)
Definition tokens_2_3_4 : list Token :=
  [num 2 "2"; tk TK.PLUS "+"; num 3 "3"; tk TK.STAR "*"; num 4 "4";
   tk TK.SEMICOLON ";"; eof].

Definition tokens_group_2_3_4 : list Token :=
  [tk TK.LPAREN "("; num 2 "2"; tk TK.PLUS "+"; num 3 "3"; tk TK.RPAREN ")";
   tk TK.STAR "*"; num 4 "4"; tk TK.SEMICOLON ";"; eof].

(** The value of a number of the example host. *)
Definition val (z : Z) : Q := inject_Z z.


(** [;] alone. *)
Definition tokens_semicolon : list Token := [tk TK.SEMICOLON ";"; eof].

(** [if ( x ) y ;] *)
Definition tokens_if : list Token :=
  [tk TK.IF "if"; tk TK.LPAREN "("; tk TK.IDENT "x"; tk TK.RPAREN ")";
   tk TK.IDENT "y"; tk TK.SEMICOLON ";"; eof].

(** The command line [bun lim.ts prog.lim]. *)
Definition argv_example : list string := ["bun"; "lim.ts"; "prog.lim"].

(** [= 5 let x = 1 ; let = 6 ;]: a fault that runs up to a keyword, a
    declaration, and a fault closed by its [;]. *)
Definition tokens_fault_keyword : list Token :=
  [ tk TK.ASSIGN "="; num 5 "5";
    tk TK.LET "let"; tk TK.IDENT "x"; tk TK.ASSIGN "="; num 1 "1";
    tk TK.SEMICOLON ";";
    tk TK.LET "let"; tk TK.ASSIGN "="; num 6 "6"; tk TK.SEMICOLON ";";
    eof ].

(** [f ( 1 ; 2 ) ; x = 1 ; let = 6 ;]: [f ( 1 , 2 ) ;] with a [;] in
    place of the comma, a valid statement, and [x = 6 ;] with [let] in
    place of the name. *)
Definition tokens_cascade : list Token :=
  [ tk TK.IDENT "f"; tk TK.LPAREN "("; num 1 "1"; tk TK.SEMICOLON ";";
    num 2 "2"; tk TK.RPAREN ")"; tk TK.SEMICOLON ";";
    tk TK.IDENT "x"; tk TK.ASSIGN "="; num 1 "1"; tk TK.SEMICOLON ";";
    tk TK.LET "let"; tk TK.ASSIGN "="; num 6 "6"; tk TK.SEMICOLON ";";
    eof ].
(** * Properties *)

Unset Implicit Arguments.

Module TKFacts.
Lemma eqb_eq a b : TK.eqb a b = true <-> a = b.
Proof. unfold TK.eqb. destruct (TK.eq_dec a b); split; congruence. Qed.

Lemma eqb_neq a b : TK.eqb a b = false <-> a <> b.
Proof. unfold TK.eqb. destruct (TK.eq_dec a b); split; congruence. Qed.

Lemma eqb_refl a : TK.eqb a a = true.
Proof. apply eqb_eq. reflexivity. Qed.
End TKFacts.

Section Properties.
Context {host : Host}.
Variable tokens : list Token.

Local Abbreviation current := (current tokens).
Local Abbreviation previous := (previous tokens).
Local Abbreviation peek := (peek tokens).
Local Abbreviation isAtEnd := (isAtEnd tokens).
Local Abbreviation check := (check tokens).
Local Abbreviation advance := (advance tokens).
Local Abbreviation match_ := (match_ tokens).
Local Abbreviation consume := (consume tokens).
Local Abbreviation synchronize_while := (synchronize_while tokens).
Local Abbreviation synchronize := (synchronize tokens).
Local Abbreviation peekIsAssignOp := (peekIsAssignOp tokens).
Local Abbreviation expression := (expression tokens).
Local Abbreviation logicOr := (logicOr tokens).
Local Abbreviation logicOr_while := (logicOr_while tokens).
Local Abbreviation logicAnd := (logicAnd tokens).
Local Abbreviation logicAnd_while := (logicAnd_while tokens).
Local Abbreviation equality := (equality tokens).
Local Abbreviation equality_while := (equality_while tokens).
Local Abbreviation comparison := (comparison tokens).
Local Abbreviation comparison_while := (comparison_while tokens).
Local Abbreviation term := (term tokens).
Local Abbreviation term_while := (term_while tokens).
Local Abbreviation factor := (factor tokens).
Local Abbreviation factor_while := (factor_while tokens).
Local Abbreviation unary := (unary tokens).
Local Abbreviation call := (call tokens).
Local Abbreviation call_while := (call_while tokens).
Local Abbreviation call_args := (call_args tokens).
Local Abbreviation primary := (primary tokens).
Local Abbreviation fnDecl_params := (fnDecl_params tokens).
Local Abbreviation letDecl := (letDecl tokens).
Local Abbreviation exprOrAssignStmt := (exprOrAssignStmt tokens).
Local Abbreviation declaration_catch := (declaration_catch tokens).
Local Abbreviation declaration_try := (declaration_try tokens).
Local Abbreviation declaration := (declaration tokens).
Local Abbreviation statement := (statement tokens).
Local Abbreviation fnDecl := (fnDecl tokens).
Local Abbreviation ifStmt := (ifStmt tokens).
Local Abbreviation whileStmt := (whileStmt tokens).
Local Abbreviation blockStmtAlreadyOpened := (blockStmtAlreadyOpened tokens).
Local Abbreviation blockStmtsAlreadyOpened := (blockStmtsAlreadyOpened tokens).
Local Abbreviation blockStmtsAlreadyOpened_while :=
  (blockStmtsAlreadyOpened_while tokens).
Local Abbreviation parseProgram_while := (parseProgram_while tokens).
Local Abbreviation parseProgram := (parseProgram tokens).
Local Abbreviation cur := (cur tokens).

(** ** One step of the helpers

    Each helper is determined by the token under the index. *)

Lemma current_eq s :
  current s = match cur s with
              | Some tok => (Ok tok, s)
              | None => (Throw missing_eof, s)
              end.
Proof. reflexivity. Qed.

Lemma isAtEnd_eq s :
  isAtEnd s = match cur s with
              | Some tok => (Ok (negb (live tok)), s)
              | None => (Throw missing_eof, s)
              end.
Proof.
  unfold isAtEnd, bind, current, ret, cur, live.
  destruct (nth_error tokens (i s)); [rewrite negb_involutive|]; reflexivity.
Qed.

Lemma check_eq k s :
  check k s = match cur s with
              | Some tok => (Ok (live tok && TK.eqb (kind tok) k), s)
              | None => (Throw missing_eof, s)
              end.
Proof.
  unfold check, bind. rewrite isAtEnd_eq.
  destruct (cur s) as [tok|] eqn:E; [|reflexivity].
  destruct (live tok); cbn [negb andb]; [|reflexivity].
  rewrite current_eq, E. reflexivity.
Qed.

Lemma previous_next s tok :
  cur s = Some tok -> previous (next s) = (Ok tok, next s).
Proof.
  unfold previous, cur, next. simpl. intros ->.
  reflexivity.
Qed.

Lemma advance_eq s :
  advance s = match cur s with
              | Some tok => if live tok then (Ok tok, next s) else previous s
              | None => (Throw missing_eof, s)
              end.
Proof.
  unfold advance, bind. rewrite isAtEnd_eq.
  destruct (cur s) as [tok|] eqn:E; [|reflexivity].
  rewrite negb_involutive.
  destruct (live tok).
  - unfold incr. fold (next s). rewrite (previous_next _ _ E). reflexivity.
  - unfold ret. destruct (previous s) as [[?|?|] ?]; reflexivity.
Qed.

Lemma match_eq kinds s :
  kinds <> [] ->
  match_ kinds s = match cur s with
                   | Some tok =>
                       if live tok && kind_in (kind tok) kinds
                       then (Ok true, next s) else (Ok false, s)
                   | None => (Throw missing_eof, s)
                   end.
Proof.
  induction kinds as [|k rest IH]; [congruence|]. intros _.
  cbn [match_]. unfold bind at 1. rewrite check_eq.
  destruct (cur s) as [tok|] eqn:E; [|reflexivity].
  unfold kind_in. cbn [existsb].
  destruct (live tok) eqn:L; cbn [andb].
  - destruct (TK.eqb (kind tok) k) eqn:K; cbn [orb].
    + unfold bind. rewrite advance_eq, E, L. reflexivity.
    + destruct rest as [|k' rest']; [reflexivity|].
      rewrite IH by congruence. reflexivity.
  - destruct rest as [|k' rest']; [reflexivity|].
    rewrite IH by congruence. reflexivity.
Qed.

Lemma consume_eq k msg s :
  consume k msg s =
  match cur s with
  | Some tok =>
      if live tok && TK.eqb (kind tok) k then (Ok tok, next s)
      else (Throw (ParseErr (error tok msg)), s)
  | None => (Throw missing_eof, s)
  end.
Proof.
  unfold consume, bind. rewrite check_eq.
  destruct (cur s) as [tok|] eqn:E; [|reflexivity].
  destruct (live tok) eqn:L; cbn [andb].
  - destruct (TK.eqb (kind tok) k).
    + rewrite advance_eq, E, L. reflexivity.
    + rewrite current_eq, E. reflexivity.
  - rewrite current_eq, E. reflexivity.
Qed.

(** ** Unfolding equations of the recursive methods *)

Lemma expression_S n : expression (S n) = logicOr n.
Proof. reflexivity. Qed.

Lemma logicOr_S n :
  logicOr (S n) = (expr <- logicAnd n ;; logicOr_while n expr).
Proof. reflexivity. Qed.

Lemma logicOr_while_S n expr :
  logicOr_while (S n) expr =
  (b <- match_ [TK.OR] ;;
   if b then
     rhs <- logicAnd n ;; logicOr_while n (Binary BinaryOp.OR expr rhs)
   else ret expr).
Proof. reflexivity. Qed.

Lemma logicAnd_S n :
  logicAnd (S n) = (expr <- equality n ;; logicAnd_while n expr).
Proof. reflexivity. Qed.

Lemma logicAnd_while_S n expr :
  logicAnd_while (S n) expr =
  (b <- match_ [TK.AND] ;;
   if b then
     rhs <- equality n ;; logicAnd_while n (Binary BinaryOp.AND expr rhs)
   else ret expr).
Proof. reflexivity. Qed.

Lemma equality_S n :
  equality (S n) = (expr <- comparison n ;; equality_while n expr).
Proof. reflexivity. Qed.

Lemma equality_while_S n expr :
  equality_while (S n) expr =
  (b <- match_ [TK.EQUAL; TK.NOTEQ] ;;
   if b then
     opTok <- previous ;;
     rhs <- comparison n ;;
     equality_while n (Binary (equality_op opTok) expr rhs)
   else ret expr).
Proof. reflexivity. Qed.

Lemma comparison_S n :
  comparison (S n) = (expr <- term n ;; comparison_while n expr).
Proof. reflexivity. Qed.

Lemma comparison_while_S n expr :
  comparison_while (S n) expr =
  (b <- match_ [TK.LT; TK.LTE; TK.GT; TK.GTE] ;;
   if b then
     opTok <- previous ;;
     rhs <- term n ;;
     comparison_while n (Binary (comparison_op opTok) expr rhs)
   else ret expr).
Proof. reflexivity. Qed.

Lemma term_S n : term (S n) = (expr <- factor n ;; term_while n expr).
Proof. reflexivity. Qed.

Lemma term_while_S n expr :
  term_while (S n) expr =
  (b <- match_ [TK.PLUS; TK.MINUS] ;;
   if b then
     opTok <- previous ;;
     rhs <- factor n ;;
     term_while n (Binary (term_op opTok) expr rhs)
   else ret expr).
Proof. reflexivity. Qed.

Lemma factor_S n : factor (S n) = (expr <- unary n ;; factor_while n expr).
Proof. reflexivity. Qed.

Lemma factor_while_S n expr :
  factor_while (S n) expr =
  (b <- match_ [TK.STAR; TK.SLASH] ;;
   if b then
     opTok <- previous ;;
     rhs <- unary n ;;
     factor_while n (Binary (factor_op opTok) expr rhs)
   else ret expr).
Proof. reflexivity. Qed.

Lemma unary_S n :
  unary (S n) =
  (b <- match_ [TK.NOT; TK.MINUS; TK.BANG] ;;
   if b then
     opTok <- previous ;;
     rhs <- unary n ;;
     ret (Unary (unary_op opTok) rhs)
   else call n).
Proof. reflexivity. Qed.

Lemma call_S n : call (S n) = (expr <- primary n ;; call_while n expr).
Proof. reflexivity. Qed.

Lemma call_while_S n expr :
  call_while (S n) expr =
  (b <- match_ [TK.LPAREN] ;;
   if b then
     c <- check TK.RPAREN ;;
     args <- (if negb c then call_args n [] else ret []) ;;
     consume TK.RPAREN "Expected ')' after arguments." ;;;
     call_while n (Call expr args)
   else ret expr).
Proof. reflexivity. Qed.

Lemma call_args_S n args :
  call_args (S n) args =
  (e <- expression n ;;
   b <- match_ [TK.COMMA] ;;
   if b then call_args n (args ++ [e]) else ret (args ++ [e])).
Proof. reflexivity. Qed.

Lemma primary_S n :
  primary (S n) =
  (b <- match_ [TK.NUMBER] ;;
   if b then t <- previous ;; ret (Num (JsNumber (literal_or_lexeme t)))
   else
   b <- match_ [TK.STRING] ;;
   if b then t <- previous ;; ret (Str (JsString (literal_or_lexeme t)))
   else
   b <- match_ [TK.IDENT] ;;
   if b then t <- previous ;; ret (Ident (lexeme t))
   else
   b <- match_ [TK.LPAREN] ;;
   if b then
     expr <- expression n ;;
     consume TK.RPAREN "Expected ')' after expression." ;;;
     ret (Group expr)
   else
     tok <- current ;;
     throw (ParseErr (error tok "Expected expression."))).
Proof. reflexivity. Qed.

Lemma synchronize_while_S n :
  synchronize_while (S n) =
  (b <- isAtEnd ;;
   if negb b then
     p <- previous ;;
     if TK.eqb (kind p) TK.SEMICOLON then ret tt
     else
       c <- current ;;
       if isSyncKeyword (kind c) then ret tt
       else advance ;;; synchronize_while n
   else ret tt).
Proof. reflexivity. Qed.

Lemma fnDecl_params_S n params :
  fnDecl_params (S n) params =
  (p <- consume TK.IDENT "Expected parameter name." ;;
   b <- match_ [TK.COMMA] ;;
   if b then fnDecl_params n (params ++ [lexeme p])
   else ret (params ++ [lexeme p])).
Proof. reflexivity. Qed.

Lemma declaration_S n :
  declaration (S n) = try_catch (declaration_try n) (declaration_catch n).
Proof. reflexivity. Qed.

Lemma statement_S n :
  statement (S n) =
  (b <- match_ [TK.IF] ;;
   if b then ifStmt n
   else
   b <- match_ [TK.WHILE] ;;
   if b then whileStmt n
   else
   b <- match_ [TK.LBRACE] ;;
   if b then blockStmtAlreadyOpened n
   else exprOrAssignStmt n).
Proof. reflexivity. Qed.

Lemma fnDecl_S n :
  fnDecl (S n) =
  (nameTok <- consume TK.IDENT "Expected function name after 'func'." ;;
   consume TK.LPAREN "Expected '(' after function name." ;;;
   c <- check TK.RPAREN ;;
   params <- (if negb c then fnDecl_params n [] else ret []) ;;
   consume TK.RPAREN "Expected ')' after parameters." ;;;
   consume TK.LBRACE "Expected '{' before function body." ;;;
   body <- blockStmtsAlreadyOpened n ;;
   ret (Fn (lexeme nameTok) params body)).
Proof. reflexivity. Qed.

Lemma ifStmt_S n :
  ifStmt (S n) =
  (consume TK.LPAREN "Expected '(' after 'if'." ;;;
   cond <- expression n ;;
   consume TK.RPAREN "Expected ')' after condition." ;;;
   then_ <- statement n ;;
   b <- match_ [TK.ELSE] ;;
   otherwise <- (if b then st <- statement n ;; ret (Some st)
                 else ret None) ;;
   ret (If cond then_ otherwise)).
Proof. reflexivity. Qed.

Lemma whileStmt_S n :
  whileStmt (S n) =
  (consume TK.LPAREN "Expected '(' after 'while'." ;;;
   cond <- expression n ;;
   consume TK.RPAREN "Expected ')' after condition." ;;;
   body <- statement n ;;
   ret (While cond body)).
Proof. reflexivity. Qed.

Lemma blockStmtAlreadyOpened_S n :
  blockStmtAlreadyOpened (S n) =
  (stmts <- blockStmtsAlreadyOpened n ;; ret (Block stmts)).
Proof. reflexivity. Qed.

Lemma blockStmtsAlreadyOpened_S n :
  blockStmtsAlreadyOpened (S n) =
  (stmts <- blockStmtsAlreadyOpened_while n [] ;;
   consume TK.RBRACE "Expected '}' after block." ;;;
   ret stmts).
Proof. reflexivity. Qed.

Lemma blockStmtsAlreadyOpened_while_S n stmts :
  blockStmtsAlreadyOpened_while (S n) stmts =
  (c <- check TK.RBRACE ;;
   go <- (if negb c then b <- isAtEnd ;; ret (negb b) else ret false) ;;
   if go then
     s <- declaration n ;;
     blockStmtsAlreadyOpened_while n (push_stmt stmts s)
   else ret stmts).
Proof. reflexivity. Qed.

Lemma parseProgram_while_S n out :
  parseProgram_while (S n) out =
  (b <- isAtEnd ;;
   if negb b then
     stmt <- declaration n ;;
     parseProgram_while n (push_stmt out stmt)
   else ret out).
Proof. reflexivity. Qed.

(** ** More fuel changes nothing *)

Lemma refines_refl {A} (c : M A) : refines c c.
Proof. intros s. right. reflexivity. Qed.

Lemma refines_out_of_fuel {A} (c : M A) : refines out_of_fuel c.
Proof. intros s. left. reflexivity. Qed.

Lemma refines_bind {A B} (c c' : M A) (k k' : A -> M B) :
  refines c c' -> (forall a, refines (k a) (k' a)) ->
  refines (bind c k) (bind c' k').
Proof.
  intros Hc Hk s. unfold bind.
  destruct (Hc s) as [E|E].
  - left. destruct (c s) as [[a|e|] s1]; simpl in E; try discriminate.
    reflexivity.
  - rewrite E. destruct (c s) as [[a|e|] s1]; try (right; reflexivity).
    apply Hk.
Qed.

Lemma refines_try_catch {A} (c c' : M A) (h h' : Exn -> M A) :
  refines c c' -> (forall e, refines (h e) (h' e)) ->
  refines (try_catch c h) (try_catch c' h').
Proof.
  intros Hc Hh s. unfold try_catch.
  destruct (Hc s) as [E|E].
  - left. destruct (c s) as [[a|e|] s1]; simpl in E; try discriminate.
    reflexivity.
  - rewrite E. destruct (c s) as [[a|e|] s1]; try (right; reflexivity).
    apply Hh.
Qed.

Lemma refines_run {A} (c c' : M A) s r s' :
  refines c c' -> c s = (r, s') -> r <> OutOfFuel -> c' s = (r, s').
Proof.
  intros H E Hr. destruct (H s) as [F|F].
  - rewrite E in F. simpl in F. contradiction.
  - congruence.
Qed.

Create Rewrite HintDb fuel_step.
#[local] Hint Rewrite
  expression_S logicOr_S logicOr_while_S logicAnd_S logicAnd_while_S
  equality_S equality_while_S comparison_S comparison_while_S
  term_S term_while_S factor_S factor_while_S unary_S
  call_S call_while_S call_args_S primary_S
  synchronize_while_S fnDecl_params_S declaration_S statement_S fnDecl_S
  ifStmt_S whileStmt_S blockStmtAlreadyOpened_S blockStmtsAlreadyOpened_S
  blockStmtsAlreadyOpened_while_S parseProgram_while_S : fuel_step.

Ltac refines_step :=
  repeat first
    [ assumption
    | apply refines_refl
    | apply refines_out_of_fuel
    | match goal with
      | H : forall e, refines _ _ |- _ => apply H
      | |- refines (if ?b then _ else _) (if ?b then _ else _) => destruct b
      | |- refines (bind _ _) (bind _ _) => apply refines_bind; [|intros]
      | |- refines (try_catch _ _) (try_catch _ _) =>
          apply refines_try_catch; [|intros]
      end ].

Lemma expression_ladder_mono n :
  forall m, n <= m ->
    refines (expression n) (expression m) /\
    refines (logicOr n) (logicOr m) /\
    (forall e, refines (logicOr_while n e) (logicOr_while m e)) /\
    refines (logicAnd n) (logicAnd m) /\
    (forall e, refines (logicAnd_while n e) (logicAnd_while m e)) /\
    refines (equality n) (equality m) /\
    (forall e, refines (equality_while n e) (equality_while m e)) /\
    refines (comparison n) (comparison m) /\
    (forall e, refines (comparison_while n e) (comparison_while m e)) /\
    refines (term n) (term m) /\
    (forall e, refines (term_while n e) (term_while m e)) /\
    refines (factor n) (factor m) /\
    (forall e, refines (factor_while n e) (factor_while m e)) /\
    refines (unary n) (unary m) /\
    refines (call n) (call m) /\
    (forall e, refines (call_while n e) (call_while m e)) /\
    (forall a, refines (call_args n a) (call_args m a)) /\
    refines (primary n) (primary m).
Proof.
  induction n as [|n IH]; intros m Hm.
  - repeat split; intros; apply refines_out_of_fuel.
  - destruct m as [|m]; [lia|].
    destruct (IH m ltac:(lia))
      as (? & ? & ? & ? & ? & ? & ? & ? & ? & ? & ? & ? & ? & ? & ? & ? & ? & ?).
    repeat split; intros; autorewrite with fuel_step; refines_step.
Qed.

Lemma expression_mono n m : n <= m -> refines (expression n) (expression m).
Proof. intros H. apply (expression_ladder_mono n m H). Qed.

Lemma synchronize_while_mono n :
  forall m, n <= m -> refines (synchronize_while n) (synchronize_while m).
Proof.
  induction n as [|n IH]; intros m Hm; [apply refines_out_of_fuel|].
  destruct m as [|m]; [lia|]. specialize (IH m ltac:(lia)).
  autorewrite with fuel_step; refines_step.
Qed.

Lemma synchronize_mono n m :
  n <= m -> refines (synchronize n) (synchronize m).
Proof.
  intros H. unfold synchronize. apply refines_bind; [apply refines_refl|].
  intros _. apply synchronize_while_mono, H.
Qed.

Lemma fnDecl_params_mono n :
  forall m, n <= m ->
    forall ps, refines (fnDecl_params n ps) (fnDecl_params m ps).
Proof.
  induction n as [|n IH]; intros m Hm ps; [apply refines_out_of_fuel|].
  destruct m as [|m]; [lia|]. specialize (IH m ltac:(lia)).
  autorewrite with fuel_step; refines_step.
Qed.

Lemma letDecl_mono n m : n <= m -> refines (letDecl n) (letDecl m).
Proof.
  intros H. pose proof (expression_mono n m H). unfold letDecl. refines_step.
Qed.

Lemma exprOrAssignStmt_mono n m :
  n <= m -> refines (exprOrAssignStmt n) (exprOrAssignStmt m).
Proof.
  intros H. pose proof (expression_mono n m H). unfold exprOrAssignStmt.
  refines_step.
Qed.

Lemma declaration_catch_mono n m e :
  n <= m -> refines (declaration_catch n e) (declaration_catch m e).
Proof.
  intros H. pose proof (synchronize_mono n m H).
  destruct e; unfold declaration_catch; refines_step.
Qed.

Lemma statements_mono n :
  forall m, n <= m ->
    refines (declaration n) (declaration m) /\
    refines (statement n) (statement m) /\
    refines (fnDecl n) (fnDecl m) /\
    refines (ifStmt n) (ifStmt m) /\
    refines (whileStmt n) (whileStmt m) /\
    refines (blockStmtAlreadyOpened n) (blockStmtAlreadyOpened m) /\
    refines (blockStmtsAlreadyOpened n) (blockStmtsAlreadyOpened m) /\
    (forall l, refines (blockStmtsAlreadyOpened_while n l)
                       (blockStmtsAlreadyOpened_while m l)).
Proof.
  induction n as [|n IH]; intros m Hm.
  - repeat split; intros; apply refines_out_of_fuel.
  - destruct m as [|m]; [lia|].
    assert (Hnm : n <= m) by lia.
    destruct (IH m Hnm) as (? & ? & ? & ? & ? & ? & ? & ?).
    pose proof (expression_mono n m Hnm).
    pose proof (letDecl_mono n m Hnm).
    pose proof (exprOrAssignStmt_mono n m Hnm).
    pose proof (fun ps => fnDecl_params_mono n m Hnm ps).
    pose proof (fun e => declaration_catch_mono n m e Hnm).
    repeat split; intros; autorewrite with fuel_step;
      unfold declaration_try; refines_step.
Qed.

Lemma declaration_mono n m : n <= m -> refines (declaration n) (declaration m).
Proof. intros H. apply (statements_mono n m H). Qed.

Lemma parseProgram_while_mono n :
  forall m, n <= m ->
    forall out, refines (parseProgram_while n out) (parseProgram_while m out).
Proof.
  induction n as [|n IH]; intros m Hm out; [apply refines_out_of_fuel|].
  destruct m as [|m]; [lia|]. specialize (IH m ltac:(lia)).
  pose proof (declaration_mono n m ltac:(lia)).
  autorewrite with fuel_step; refines_step.
Qed.

Lemma parseProgram_mono n m :
  n <= m -> refines (parseProgram n) (parseProgram m).
Proof. intros H. apply parseProgram_while_mono, H. Qed.

(** ** Termination and the index invariant *)

Local Abbreviation limit := (limit tokens).
Local Abbreviation has_eof := (has_eof tokens).
Local Abbreviation Post := (Post tokens).
Local Abbreviation enough := (enough tokens).

Lemma first_eof_live l j :
  j < first_eof l -> exists tok, nth_error l j = Some tok /\ live tok = true.
Proof.
  revert j. induction l as [|t rest IH]; simpl; intros j Hj; [lia|].
  destruct (live t) eqn:L; [|lia].
  destruct j as [|j]; simpl; [eauto|]. apply IH. lia.
Qed.

Lemma first_eof_stop l tok :
  nth_error l (first_eof l) = Some tok -> live tok = false.
Proof.
  induction l as [|t rest IH]; simpl; [discriminate|].
  destruct (live t) eqn:L; simpl; [exact IH|]. congruence.
Qed.

Lemma first_eof_le l : first_eof l <= List.length l.
Proof.
  induction l as [|t rest IH]; simpl; [lia|]. destruct (live t); lia.
Qed.

Lemma live_below_limit s tok :
  i s <= limit -> cur s = Some tok -> live tok = true -> i s < limit.
Proof.
  intros Hle Hc Hl.
  destruct (Nat.eq_dec (i s) limit) as [E|E]; [|lia].
  unfold cur, limit in *. rewrite E in Hc.
  apply first_eof_stop in Hc. congruence.
Qed.

Lemma at_limit_not_live s tok :
  limit <= i s -> cur s = Some tok -> i s <= limit -> live tok = false.
Proof.
  intros H1 Hc H2. assert (E : i s = limit) by lia.
  unfold cur, limit in *. rewrite E in Hc.
  apply first_eof_stop in Hc. exact Hc.
Qed.

Lemma cur_none_no_eof s : i s <= limit -> cur s = None -> ~ has_eof.
Proof.
  unfold cur, has_eof. intros Hle Hc Heof.
  apply nth_error_None in Hc. lia.
Qed.

Lemma below_limit_cur j :
  j < limit -> exists tok, nth_error tokens j = Some tok /\ live tok = true.
Proof. apply first_eof_live. Qed.

Local Abbreviation terminates := (terminates tokens).

Lemma bind_ret_eq {A B} (a : A) (k : A -> M B) s : bind (ret a) k s = k a s.
Proof. reflexivity. Qed.

Lemma bind_current_eq {B} (k : Token -> M B) s :
  bind current k s = match cur s with
                     | Some tok => k tok s
                     | None => (Throw missing_eof, s)
                     end.
Proof. unfold bind. rewrite current_eq. destruct (cur s); reflexivity. Qed.

Lemma bind_isAtEnd_eq {B} (k : bool -> M B) s :
  bind isAtEnd k s = match cur s with
                     | Some tok => k (negb (live tok)) s
                     | None => (Throw missing_eof, s)
                     end.
Proof. unfold bind. rewrite isAtEnd_eq. destruct (cur s); reflexivity. Qed.

Lemma bind_check_eq {B} kd (k : bool -> M B) s :
  bind (check kd) k s =
  match cur s with
  | Some tok => k (live tok && TK.eqb (kind tok) kd) s
  | None => (Throw missing_eof, s)
  end.
Proof. unfold bind. rewrite check_eq. destruct (cur s); reflexivity. Qed.

Lemma bind_match_eq {B} kinds (k : bool -> M B) s :
  kinds <> [] ->
  bind (match_ kinds) k s =
  match cur s with
  | Some tok =>
      if live tok && kind_in (kind tok) kinds then k true (next s)
      else k false s
  | None => (Throw missing_eof, s)
  end.
Proof.
  intros H. unfold bind. rewrite match_eq by exact H.
  destruct (cur s) as [tok|]; [|reflexivity].
  destruct (live tok && kind_in (kind tok) kinds); reflexivity.
Qed.

Lemma bind_consume_eq {B} kd msg (k : Token -> M B) s :
  bind (consume kd msg) k s =
  match cur s with
  | Some tok =>
      if live tok && TK.eqb (kind tok) kd then k tok (next s)
      else (Throw (ParseErr (error tok msg)), s)
  | None => (Throw missing_eof, s)
  end.
Proof.
  unfold bind. rewrite consume_eq.
  destruct (cur s) as [tok|]; [|reflexivity].
  destruct (live tok && TK.eqb (kind tok) kd); reflexivity.
Qed.

Lemma bind_previous_next {B} (k : Token -> M B) s tok :
  cur s = Some tok -> bind previous k (next s) = k tok (next s).
Proof. intros H. unfold bind. rewrite (previous_next _ _ H). reflexivity. Qed.

Lemma bind_assoc_eq {A B C} (c : M A) (f : A -> M B) (k : B -> M C) s :
  bind (bind c f) k s = bind c (fun a => bind (f a) k) s.
Proof. unfold bind. destruct (c s) as [[a|e|] s1]; reflexivity. Qed.

Lemma bind_throw_eq {A B} e (k : A -> M B) s :
  bind (throw e) k s = (Throw e, s).
Proof. reflexivity. Qed.

Lemma post_bind {A B} b lo (c : M A) (k : A -> M B) s :
  lo <= i s ->
  Post false (i s) (c s) ->
  (forall a s1, c s = (Ok a, s1) -> i s <= i s1 -> i s1 <= limit ->
                Post b lo (k a s1)) ->
  Post b lo (bind c k s).
Proof.
  intros Hlo Hc Hk. unfold bind.
  destruct (c s) as [[a|e|] s1] eqn:E.
  - destruct Hc as (_ & H1 & H2 & _). simpl in *. apply Hk; auto.
  - destruct Hc as (H0 & H1 & H2 & H3 & H4 & H5 & _). simpl in *.
    repeat split; simpl; auto; try lia; try discriminate.
    + intros e0 [= ->]. apply H3. reflexivity.
    + intros Heof msg [= ->]. exact (H4 Heof msg eq_refl).
    + intros msg [= ->]. exact (H5 msg eq_refl).
  - destruct Hc as (H0 & _). simpl in H0. congruence.
Qed.

Lemma post_bind_strict {A B} b lo (c : M A) (k : A -> M B) s :
  lo <= i s ->
  Post true (i s) (c s) ->
  (forall a s1, c s = (Ok a, s1) -> i s < i s1 -> i s1 <= limit ->
                Post b lo (k a s1)) ->
  Post b lo (bind c k s).
Proof.
  intros Hlo Hc Hk. unfold bind.
  destruct (c s) as [[a|e|] s1] eqn:E.
  - destruct Hc as (_ & H1 & H2 & _ & _ & _ & H6). simpl in *.
    apply Hk; auto. exact (H6 eq_refl a eq_refl).
  - destruct Hc as (H0 & H1 & H2 & H3 & H4 & H5 & _). simpl in *.
    repeat split; simpl; auto; try lia; try discriminate.
    + intros e0 [= ->]. apply H3. reflexivity.
    + intros Heof msg [= ->]. exact (H4 Heof msg eq_refl).
    + intros msg [= ->]. exact (H5 msg eq_refl).
  - destruct Hc as (H0 & _). simpl in H0. congruence.
Qed.

Lemma post_weaken {A} b b' lo lo' (res : Outcome A * Parser) :
  Post b' lo' res -> lo <= lo' -> (b = true -> b' = true \/ lo < lo') ->
  Post b lo res.
Proof.
  intros (H0 & H1 & H2 & H3 & H4 & H5 & H6) Hlo Hb.
  repeat split; auto; try lia.
  intros Hs a Ha. destruct (Hb Hs) as [E|E].
  - specialize (H6 E a Ha). lia.
  - lia.
Qed.

Lemma post_ok {A} b lo (a : A) s :
  lo <= i s -> i s <= limit -> (b = true -> lo < i s) -> Post b lo (Ok a, s).
Proof.
  intros H1 H2 H3. repeat split; simpl; auto; try discriminate.
Qed.

Lemma post_parse_error {A} b lo tok msg s :
  lo <= i s -> i s <= limit -> cur s = Some tok ->
  Post b lo ((Throw (ParseErr (error tok msg)), s) : Outcome A * Parser).
Proof.
  intros H1 H2 H3. repeat split; simpl; auto; try discriminate.
  intros e [= <-]. exact H3.
Qed.

Lemma post_missing_eof {A} b lo s :
  lo <= i s -> i s <= limit -> cur s = None ->
  Post b lo ((Throw missing_eof, s) : Outcome A * Parser).
Proof.
  intros H1 H2 H3. repeat split; simpl; auto; try discriminate.
  - intros Heof. exfalso. exact (cur_none_no_eof _ H2 H3 Heof).
  - intros msg [= <-]. reflexivity.
Qed.

(** Symbolic execution of the helpers in front of a continuation. *)
Ltac solve_le := cbn [i next pushed] in *; lia.
Ltac case_cur s :=
  lazymatch goal with
  | H : cur s = _ |- _ => rewrite H
  | _ =>
      let tok := fresh "tok" in
      let Hc := fresh "Hcur" in
      destruct (cur s) as [tok|] eqn:Hc
  end.

Ltac case_live :=
  lazymatch goal with
  | |- context [live ?tok && _] =>
      lazymatch goal with
      | H : live tok = _ |- _ => rewrite H; cbn [andb]
      | _ =>
          let L := fresh "Hlive" in
          destruct (live tok) eqn:L; cbn [andb];
          [ try match goal with
                | Hc : cur ?s = Some tok |- _ =>
                    let Hle := fresh "Hle" in
                    assert (Hle : i s <= limit) by solve_le;
                    pose proof (live_below_limit s _ Hle Hc L)
                end
          | ]
      end
  | |- context [negb (live ?tok)] =>
      lazymatch goal with
      | H : live tok = _ |- _ => rewrite H; cbn [negb]
      | _ =>
          let L := fresh "Hlive" in
          destruct (live tok) eqn:L; cbn [negb];
          [ try match goal with
                | Hc : cur ?s = Some tok |- _ =>
                    let Hle := fresh "Hle" in
                    assert (Hle : i s <= limit) by solve_le;
                    pose proof (live_below_limit s _ Hle Hc L)
                end
          | ]
      end
  | _ => idtac
  end.

Ltac case_if :=
  lazymatch goal with
  | |- Post _ _ (if ?c then _ else _) =>
      let K := fresh "Hk" in destruct c eqn:K
  | |- Post _ _ ((if ?c then _ else _) _) =>
      let K := fresh "Hk" in destruct c eqn:K
  | _ => idtac
  end.

Ltac post_leaf :=
  first
    [ apply post_ok; cbn [i next] in *; first [lia | intros; lia | discriminate]
    | apply post_parse_error; cbn [i next] in *; first [lia | assumption]
    | apply post_missing_eof; cbn [i next] in *; first [lia | assumption] ].

Ltac post_prim :=
  match goal with
  | |- Post _ _ (bind (ret _) _ _) => rewrite bind_ret_eq
  | |- Post _ _ (bind (bind _ _) _ _) => rewrite bind_assoc_eq
  | |- Post _ _ (ret _ _) => unfold ret
  | |- Post _ _ (bind (throw _) _ _) => rewrite bind_throw_eq
  | |- Post _ _ (throw _ _) => unfold throw
  | Hc : cur ?s = Some _ |- Post _ _ (bind previous _ (next ?s)) =>
      rewrite (bind_previous_next _ _ _ Hc)
  | |- Post _ _ (bind current _ ?s) =>
      rewrite bind_current_eq; case_cur s
  | |- Post _ _ (bind isAtEnd _ ?s) =>
      rewrite bind_isAtEnd_eq; case_cur s; case_live
  | |- Post _ _ (bind (check _) _ ?s) =>
      rewrite bind_check_eq; case_cur s; case_live
  | |- Post _ _ (bind (match_ _) _ ?s) =>
      rewrite bind_match_eq by congruence; case_cur s; case_live; case_if
  | |- Post _ _ (bind (consume _ _) _ ?s) =>
      rewrite bind_consume_eq; case_cur s; case_live; case_if
  | |- Post _ _ (if ?c then _ else _) => destruct c eqn:?
  | |- Post _ _ ((if ?c then _ else _) _) => destruct c eqn:?
  | |- Post _ _ (_, _) => post_leaf
  end.

Ltac solve_enough := unfold enough in *; cbn [i next pushed] in *; lia.
Ltac solve_strict :=
  intros; first [left; reflexivity | right; solve_le | discriminate].

Ltac use_ih :=
  match goal with
  | H : _ |- _ => apply H; [solve_le | solve_enough]
  | H : _ |- _ =>
      eapply post_weaken;
      [apply H; [solve_le | solve_enough] | solve_le | solve_strict]
  end.

Ltac post_rec :=
  lazymatch goal with
  | |- Post _ _ (bind (if ?c then _ else _) _ _) => destruct c eqn:?
  | |- Post _ _ (bind _ _ _) =>
      first
        [ apply post_bind_strict;
          [ solve_le
          | match goal with
            | H : _ |- _ => apply H; [solve_le | solve_enough]
            end
          | intros ? ? _ ? ? ]
        | apply post_bind; [solve_le | use_ih | intros ? ? _ ? ?] ]
  | |- Post _ _ _ =>
      eapply post_weaken; [use_ih | solve_le | solve_strict]
  end.

Ltac post_step := first [progress cbv beta iota | post_prim | post_rec].

Ltac split_all := repeat match goal with |- _ /\ _ => split end.

Ltac start_terminates :=
  let s := fresh "s" in
  let Hle := fresh "Hle" in
  let Hen := fresh "Hen" in
  intros s Hle Hen; autorewrite with fuel_step.

Lemma expression_ladder_terminates n :
  terminates 10 false (expression n) n /\
  terminates 9 false (logicOr n) n /\
  (forall e, terminates 1 false (logicOr_while n e) n) /\
  terminates 8 false (logicAnd n) n /\
  (forall e, terminates 1 false (logicAnd_while n e) n) /\
  terminates 7 false (equality n) n /\
  (forall e, terminates 1 false (equality_while n e) n) /\
  terminates 6 false (comparison n) n /\
  (forall e, terminates 1 false (comparison_while n e) n) /\
  terminates 5 false (term n) n /\
  (forall e, terminates 1 false (term_while n e) n) /\
  terminates 4 false (factor n) n /\
  (forall e, terminates 1 false (factor_while n e) n) /\
  terminates 3 false (unary n) n /\
  terminates 2 false (call n) n /\
  (forall e, terminates 1 false (call_while n e) n) /\
  (forall a, terminates 11 false (call_args n a) n) /\
  terminates 1 false (primary n) n.
Proof.
  induction n as [|n IH].
  - split_all; intros; intros s Hle Hen; unfold enough in Hen; lia.
  - destruct IH
      as (? & ? & ? & ? & ? & ? & ? & ? & ? & ? & ? & ? & ? & ? & ? & ? & ? & ?).
    split_all; intros; start_terminates; repeat post_step.
Qed.

Local Abbreviation lookahead := (lookahead tokens).

Lemma peekIsAssignOp_eq s :
  peekIsAssignOp s =
  (Ok (match lookahead s with
       | Some t => is_assign_kind (kind t)
       | None => false
       end), s).
Proof.
  unfold peekIsAssignOp, bind, peek, lookahead.
  destruct (nth_error tokens (i s + 1)); reflexivity.
Qed.

Lemma is_assign_kind_live t : is_assign_kind (kind t) = true -> live t = true.
Proof.
  unfold is_assign_kind, live. destruct (kind t); cbv; congruence.
Qed.

Lemma assignOpFromToken_ok t :
  is_assign_kind (kind t) = true ->
  exists op, forall s, assignOpFromToken t s = (Ok op, s).
Proof.
  unfold is_assign_kind, assignOpFromToken.
  destruct (kind t); cbv; try discriminate; intros _; eauto.
Qed.

Lemma previous_positive s :
  0 < i s -> i s <= limit -> exists tok, previous s = (Ok tok, s).
Proof.
  intros Hpos Hle. unfold previous.
  destruct (i s) as [|j] eqn:E; [lia|].
  destruct (below_limit_cur j ltac:(lia)) as (tok & -> & _). eauto.
Qed.

(** *** Computations that never throw a [ParseError] *)

Lemma quiet_ret {A} (a : A) : quiet (ret a).
Proof. intros s e s'. discriminate. Qed.

Lemma quiet_bind {A B} (c : M A) (k : A -> M B) :
  quiet c -> (forall a, quiet (k a)) -> quiet (bind c k).
Proof.
  intros Hc Hk s e s'. unfold bind.
  destruct (c s) as [[a|[pe|msg]|] s1] eqn:E; try discriminate.
  - apply Hk.
  - exfalso. exact (Hc _ _ _ E).
Qed.

Lemma quiet_out_of_fuel {A} : quiet (@out_of_fuel _ A).
Proof. intros s e s'. discriminate. Qed.

Lemma quiet_current : quiet current.
Proof. intros s e s'. rewrite current_eq. destruct (cur s); discriminate. Qed.

Lemma quiet_isAtEnd : quiet isAtEnd.
Proof. intros s e s'. rewrite isAtEnd_eq. destruct (cur s); discriminate. Qed.

Lemma quiet_previous : quiet previous.
Proof.
  intros s e s'. unfold previous.
  destruct (i s) as [|j]; [discriminate|].
  destruct (nth_error tokens j); discriminate.
Qed.

Lemma quiet_advance : quiet advance.
Proof.
  intros s e s'. rewrite advance_eq.
  destruct (cur s) as [tok|]; [|discriminate].
  destruct (live tok); [discriminate|]. apply quiet_previous.
Qed.

Lemma quiet_synchronize_while n : quiet (synchronize_while n).
Proof.
  induction n as [|n IH]; [apply quiet_out_of_fuel|].
  rewrite synchronize_while_S.
  apply quiet_bind; [apply quiet_isAtEnd|]. intros b.
  destruct (negb b); [|apply quiet_ret].
  apply quiet_bind; [apply quiet_previous|]. intros p.
  destruct (TK.eqb (kind p) TK.SEMICOLON); [apply quiet_ret|].
  apply quiet_bind; [apply quiet_current|]. intros c.
  destruct (isSyncKeyword (kind c)); [apply quiet_ret|].
  apply quiet_bind; [apply quiet_advance|]. intros _. exact IH.
Qed.

Lemma quiet_synchronize n : quiet (synchronize n).
Proof.
  unfold synchronize. apply quiet_bind; [apply quiet_advance|].
  intros _. apply quiet_synchronize_while.
Qed.

Lemma quiet_declaration n : quiet (declaration n).
Proof.
  destruct n as [|n]; [apply quiet_out_of_fuel|].
  rewrite declaration_S. intros s e s'. unfold try_catch.
  destruct (declaration_try n s) as [[a|[pe|msg]|] s1]; try discriminate.
  unfold declaration_catch.
  apply quiet_bind; [intros ? ? ?; discriminate|].
  intros _. apply quiet_bind; [apply quiet_synchronize|].
  intros _. apply quiet_ret.
Qed.

Lemma quiet_parseProgram_while n : forall out, quiet (parseProgram_while n out).
Proof.
  induction n as [|n IH]; intros out; [apply quiet_out_of_fuel|].
  rewrite parseProgram_while_S.
  apply quiet_bind; [apply quiet_isAtEnd|]. intros b.
  destruct (negb b); [|apply quiet_ret].
  apply quiet_bind; [apply quiet_declaration|]. intros stmt. apply IH.
Qed.

(** *** Synchronisation *)

Lemma synchronize_while_terminates n :
  forall s, 0 < i s -> i s <= limit -> enough 1 s n ->
            Post false (i s) (synchronize_while n s).
Proof.
  induction n as [|n IH]; intros s Hpos Hle Hen;
    [unfold enough in Hen; lia|].
  rewrite synchronize_while_S.
  post_prim; [| post_leaf | post_leaf].
  destruct (previous_positive _ Hpos Hle) as [p Hp].
  unfold bind at 1. rewrite Hp.
  destruct (TK.eqb (kind p) TK.SEMICOLON); [post_prim; post_leaf|].
  post_prim.
  destruct (isSyncKeyword (kind tok)); [post_prim; post_leaf|].
  unfold bind at 1. rewrite advance_eq, Hcur, Hlive.
  eapply post_weaken;
    [apply IH; [solve_le | solve_le | solve_enough] | solve_le | solve_strict].
Qed.

Lemma synchronize_terminates_live n s tok :
  cur s = Some tok -> live tok = true -> i s <= limit -> enough 2 s n ->
  Post true (i s) (synchronize n s).
Proof.
  intros Hcur Hlive Hle Hen.
  pose proof (live_below_limit _ _ Hle Hcur Hlive).
  unfold synchronize, bind at 1. rewrite advance_eq, Hcur, Hlive.
  eapply post_weaken;
    [ apply synchronize_while_terminates; [solve_le | solve_le | solve_enough]
    | solve_le | solve_strict ].
Qed.

Lemma synchronize_terminates_at_end n s tok :
  cur s = Some tok -> live tok = false -> 0 < i s -> i s <= limit ->
  enough 2 s n -> Post false (i s) (synchronize n s).
Proof.
  intros Hcur Hlive Hpos Hle Hen.
  unfold synchronize, bind at 1. rewrite advance_eq, Hcur, Hlive.
  destruct (previous_positive _ Hpos Hle) as [p ->].
  apply synchronize_while_terminates; [solve_le | solve_le | solve_enough].
Qed.

(** *** Declarations and statements *)

Lemma fnDecl_params_terminates n :
  forall ps, terminates 1 false (fnDecl_params n ps) n.
Proof.
  induction n as [|n IH]; intros ps; start_terminates;
    [unfold enough in *; lia|].
  repeat post_step.
Qed.

Lemma letDecl_terminates n : terminates 10 false (letDecl n) n.
Proof.
  pose proof (expression_ladder_terminates n) as (He & _).
  intros s Hle Hen. unfold letDecl. repeat post_step.
Qed.

Lemma exprOrAssignStmt_terminates n :
  terminates 10 true (exprOrAssignStmt n) n.
Proof.
  pose proof (expression_ladder_terminates n) as (He & _).
  intros s Hle Hen. unfold exprOrAssignStmt.
  post_prim; [| | post_leaf].
  - destruct (TK.eqb (kind tok) TK.IDENT).
    + unfold bind at 1. rewrite peekIsAssignOp_eq.
      destruct (lookahead s) as [t2|] eqn:Hla;
        [destruct (is_assign_kind (kind t2)) eqn:Hak|].
      * unfold bind at 1. rewrite advance_eq, Hcur, Hlive.
        assert (Hc2 : cur (next s) = Some t2).
        { unfold cur, lookahead in *. cbn [i next].
          rewrite <- Hla. f_equal. lia. }
        pose proof (is_assign_kind_live _ Hak) as Hl2.
        unfold bind at 1. rewrite advance_eq, Hc2, Hl2.
        destruct (assignOpFromToken_ok _ Hak) as [op Hop].
        unfold bind at 1. rewrite Hop.
        assert (i (next s) <= limit) by solve_le.
        pose proof (live_below_limit _ _ H0 Hc2 Hl2).
        repeat post_step.
      * repeat post_step.
      * repeat post_step.
    + rewrite bind_ret_eq. repeat post_step.
  - rewrite bind_ret_eq. repeat post_step.
Qed.


Lemma declaration_step n s tok :
  cur s = Some tok -> live tok = true -> i s <= limit ->
  enough 12 s (S n) ->
  Post true (i s) (declaration_try n s) ->
  Post true (i s) (declaration (S n) s).
Proof.
  intros Hcur Hlive Hle Hen Htry.
  rewrite declaration_S. unfold try_catch.
  destruct (declaration_try n s) as [[a|[pe|msg]|] s1] eqn:E; try exact Htry.
  destruct Htry as (_ & H1 & H2 & H3 & _). simpl in H1, H2, H3.
  specialize (H3 pe eq_refl).
  unfold declaration_catch, bind at 1, push_error.
  fold (pushed pe s1).
  assert (Hc1 : cur (pushed pe s1) = Some (token pe)) by exact H3.
  destruct (live (token pe)) eqn:L.
  - apply post_bind_strict; [solve_le| |].
    + eapply synchronize_terminates_live;
        [exact Hc1 | exact L | solve_le | solve_enough].
    + intros _ s2 _ Hlt Hlim. apply post_ok; [solve_le|solve_le|].
      intros _. solve_le.
  - assert (Hne : i s <> i s1).
    { intros Heq. unfold cur in Hcur, H3. rewrite Heq in Hcur. congruence. }
    apply post_bind; [solve_le| |].
    + eapply synchronize_terminates_at_end;
        [exact Hc1 | exact L | solve_le | solve_le | solve_enough].
    + intros _ s2 _ Hlt Hlim. apply post_ok; [solve_le|solve_le|].
      intros _. solve_le.
Qed.

Lemma statements_terminate n :
  (forall s tok, cur s = Some tok -> live tok = true -> i s <= limit ->
                 enough 12 s n -> Post true (i s) (declaration n s)) /\
  terminates 11 true (statement n) n /\
  terminates 15 false (fnDecl n) n /\
  terminates 12 false (ifStmt n) n /\
  terminates 12 false (whileStmt n) n /\
  terminates 15 false (blockStmtAlreadyOpened n) n /\
  terminates 14 false (blockStmtsAlreadyOpened n) n /\
  (forall l, terminates 13 false (blockStmtsAlreadyOpened_while n l) n).
Proof.
  induction n as [|n IH].
  - split; [intros s tok _ _ _ Hen; unfold enough in Hen; lia|].
    split_all; intros; intros s Hle Hen; unfold enough in Hen; lia.
  - destruct IH as (Hdecl & ? & ? & ? & ? & ? & ? & ?).
    pose proof (expression_ladder_terminates n) as (He & _).
    pose proof (letDecl_terminates n).
    pose proof (exprOrAssignStmt_terminates n).
    pose proof (fnDecl_params_terminates n).
    split; [|split_all; intros; start_terminates; repeat post_step].
    + intros s tok Hcur Hlive Hle Hen.
      pose proof (live_below_limit _ _ Hle Hcur Hlive).
      eapply declaration_step;
        [exact Hcur | exact Hlive | exact Hle | exact Hen |].
      unfold declaration_try. repeat post_step.
    + (* the loop of a block: [declaration] runs on a live token *)
      apply post_bind_strict; [solve_le| |].
      * eapply Hdecl; eauto. solve_enough.
      * intros a s1 _ Hlt Hlim. repeat post_step.
Qed.

(** *** The program *)

Lemma parseProgram_while_terminates n :
  forall out, terminates 13 false (parseProgram_while n out) n.
Proof.
  induction n as [|n IH]; intros out; start_terminates;
    [unfold enough in *; lia|].
  pose proof (statements_terminate n) as (Hdecl & _).
  post_prim; [| post_leaf | post_leaf].
  apply post_bind_strict; [solve_le| |].
  - eapply Hdecl; eauto. solve_enough.
  - intros a s1 _ Hlt Hlim. repeat post_step.
Qed.

Lemma bind_ok_inv {A B} (c : M A) (k : A -> M B) s b s' :
  bind c k s = (Ok b, s') ->
  exists a s1, c s = (Ok a, s1) /\ k a s1 = (Ok b, s').
Proof.
  unfold bind. destruct (c s) as [[a|e|] s1]; try discriminate. eauto.
Qed.

Lemma parseProgram_while_stops_at_end n :
  forall out s out' s',
    parseProgram_while n out s = (Ok out', s') ->
    exists tok, cur s' = Some tok /\ live tok = false.
Proof.
  induction n as [|n IH]; intros out s out' s'; [discriminate|].
  rewrite parseProgram_while_S, bind_isAtEnd_eq.
  destruct (cur s) as [tok|] eqn:Hcur; [|discriminate].
  destruct (live tok) eqn:Hlive; cbn [negb].
  - intros H. apply bind_ok_inv in H. destruct H as (a & s1 & _ & H).
    eapply IH, H.
  - intros [= <- <-]. eauto.
Qed.

Lemma ends_with_eof_has_eof : ends_with_eof tokens -> has_eof.
Proof.
  intros (pre & t & E & Hk). unfold has_eof, limit. rewrite E. clear E.
  induction pre as [|a pre IH]; simpl.
  - unfold live. rewrite Hk. simpl. lia.
  - destruct (live a); simpl; lia.
Qed.

Lemma synchronize_at_end n s tok :
  cur s = Some tok -> live tok = false -> 0 < i s -> i s <= limit ->
  synchronize (S n) s = (Ok tt, s).
Proof.
  intros Hcur Hlive Hpos Hle.
  unfold synchronize, bind at 1. rewrite advance_eq, Hcur, Hlive.
  destruct (previous_positive _ Hpos Hle) as [p ->].
  rewrite synchronize_while_S, bind_isAtEnd_eq, Hcur, Hlive. reflexivity.
Qed.

Lemma post_has_answer {A} b lo (res : Outcome A * Parser) :
  has_eof -> Post b lo res ->
  (forall e, fst res <> Throw (ParseErr e)) ->
  exists a, fst res = Ok a.
Proof.
  intros Heof (H0 & _ & _ & _ & H4 & _) Hq.
  destruct res as [[a|[pe|msg]|] s']; simpl in *.
  - eauto.
  - exfalso. exact (Hq pe eq_refl).
  - exfalso. exact (H4 Heof msg eq_refl).
  - congruence.
Qed.

(** C9 (termination).  On every token array whose last element is the
    end-of-input token: (1) with fuel linear in the position of the first
    end-of-input token, [parseProgram] returns normally, and it returns with
    the index on an end-of-input token, never past the first one;
    (2) [advance] never moves the index past that token, and leaves the
    state alone when the index is on an end-of-input token;
    (3) one pass of the top-level loop, that is one [declaration] started
    on a token that is not end-of-input, returns normally and has consumed
    at least one token; (4) [synchronize] returns normally, and either
    consumes a token or starts at end-of-input, where it changes nothing. *)
Theorem parseProgram_terminates :
  ends_with_eof tokens ->
  (forall n, 20 * limit + 13 <= n ->
     exists out s',
       parseProgram n newParser = (Ok out, s') /\ i s' <= limit /\
       exists tok, cur s' = Some tok /\ kind tok = TK.EOF) /\
  (forall s r s', i s <= limit -> advance s = (r, s') ->
     i s <= i s' /\ i s' <= limit) /\
  (forall s tok r s', cur s = Some tok -> kind tok = TK.EOF ->
     advance s = (r, s') -> s' = s) /\
  (forall n s tok, cur s = Some tok -> kind tok <> TK.EOF ->
     i s <= limit -> 20 * (limit - i s) + 12 <= n ->
     exists st s',
       declaration n s = (Ok st, s') /\ i s < i s' /\ i s' <= limit) /\
  (forall n s tok, cur s = Some tok -> i s <= limit ->
     20 * (limit - i s) + 2 <= n ->
     (kind tok <> TK.EOF ->
        exists s', synchronize n s = (Ok tt, s') /\
                   i s < i s' /\ i s' <= limit) /\
     (kind tok = TK.EOF -> 0 < i s -> synchronize n s = (Ok tt, s))).
Proof.
  intros Hends. pose proof (ends_with_eof_has_eof Hends) as Heof.
  assert (Hlive : forall tok, kind tok <> TK.EOF -> live tok = true).
  { intros tok H. unfold live. apply negb_true_iff, TKFacts.eqb_neq, H. }
  assert (Hdead : forall tok, kind tok = TK.EOF -> live tok = false).
  { intros tok H. unfold live. rewrite H. reflexivity. }
  split; [|split; [|split; [|split]]].
  - intros n Hn.
    assert (Hp : Post false 0 (parseProgram n newParser)).
    { apply (parseProgram_while_terminates n []); [simpl; lia|].
      unfold enough. simpl. lia. }
    destruct (post_has_answer _ _ _ Heof Hp) as [out Hout].
    { intros e H. destruct (parseProgram n newParser) as [r s'] eqn:E.
      simpl in H. subst r. exact (quiet_parseProgram_while _ _ _ _ _ E). }
    destruct (parseProgram n newParser) as [r s'] eqn:E. simpl in Hout.
    subst r. exists out, s'. split; [reflexivity|].
    split; [apply Hp|].
    destruct (parseProgram_while_stops_at_end _ _ _ _ _ E) as (tok & Hc & Hl).
    exists tok. split; [exact Hc|].
    unfold live in Hl. apply negb_false_iff, TKFacts.eqb_eq in Hl. exact Hl.
  - intros s r s' Hle. rewrite advance_eq.
    destruct (cur s) as [tok|] eqn:Hcur.
    + destruct (live tok) eqn:L.
      * intros [= <- <-]. pose proof (live_below_limit _ _ Hle Hcur L).
        simpl. lia.
      * unfold previous. destruct (i s) as [|j] eqn:Ei.
        -- intros [= <- <-]. lia.
        -- destruct (nth_error tokens j); intros [= <- <-]; lia.
    + intros [= <- <-]. lia.
  - intros s tok r s' Hcur Hk. rewrite advance_eq, Hcur, (Hdead _ Hk).
    unfold previous. destruct (i s) as [|j].
    + intros [= <- <-]. reflexivity.
    + destruct (nth_error tokens j); intros [= <- <-]; reflexivity.
  - intros n s tok Hcur Hk Hle Hn.
    pose proof (statements_terminate n) as (Hdecl & _).
    specialize (Hdecl s tok Hcur (Hlive _ Hk) Hle Hn).
    destruct (post_has_answer _ _ _ Heof Hdecl) as [st Hst].
    { intros e H. destruct (declaration n s) as [r s'] eqn:E.
      simpl in H. subst r. exact (quiet_declaration _ _ _ _ E). }
    destruct (declaration n s) as [r s'] eqn:E. simpl in Hst. subst r.
    exists st, s'. split; [reflexivity|].
    destruct Hdecl as (_ & _ & H2 & _ & _ & _ & H5). simpl in *.
    split; [exact (H5 eq_refl st eq_refl) | exact H2].
  - intros n s tok Hcur Hle Hn. split.
    + intros Hk.
      pose proof (synchronize_terminates_live n s tok Hcur (Hlive _ Hk) Hle Hn) as Hp.
      destruct (post_has_answer _ _ _ Heof Hp) as [u Hu].
      { intros e H. destruct (synchronize n s) as [r s'] eqn:E.
        simpl in H. subst r. exact (quiet_synchronize _ _ _ _ E). }
      destruct (synchronize n s) as [r s'] eqn:E. simpl in Hu. subst r.
      destruct u. exists s'. split; [reflexivity|].
      destruct Hp as (_ & _ & H2 & _ & _ & _ & H5). simpl in *.
      split; [exact (H5 eq_refl tt eq_refl) | exact H2].
    + intros Hk Hpos. destruct n as [|n]; [lia|].
      exact (synchronize_at_end n s tok Hcur (Hdead _ Hk) Hpos Hle).
Qed.

(** ** Panic-mode recovery *)

Local Abbreviation sync_stop := (sync_stop tokens).

Lemma declaration_try_mono n m :
  n <= m -> refines (declaration_try n) (declaration_try m).
Proof.
  intros H. pose proof (statements_mono n m H) as (_ & ? & ? & _).
  pose proof (letDecl_mono n m H).
  unfold declaration_try. refines_step.
Qed.

Lemma declaration_try_post n s tok :
  cur s = Some tok -> live tok = true -> i s <= limit ->
  enough 12 s (S n) -> Post true (i s) (declaration_try n s).
Proof.
  intros Hcur Hlive Hle Hen.
  pose proof (statements_terminate n) as (_ & ? & ? & _).
  pose proof (letDecl_terminates n).
  pose proof (live_below_limit _ _ Hle Hcur Hlive).
  unfold declaration_try. repeat post_step.
Qed.

(** Where the [try] block of [declaration] throws a [ParseError], the
    index is on the token the error carries. *)
Lemma declaration_try_error_state n s tok e s1 :
  cur s = Some tok -> live tok = true -> i s <= limit ->
  declaration_try n s = (Throw (ParseErr e), s1) ->
  i s <= i s1 /\ i s1 <= limit /\ cur s1 = Some (token e).
Proof.
  intros Hcur Hlive Hle E.
  set (m := Nat.max n (20 * (limit - i s) + 12)).
  assert (Em : declaration_try m s = (Throw (ParseErr e), s1)).
  { apply (refines_run (declaration_try n)); [|exact E|discriminate].
    apply declaration_try_mono. lia. }
  assert (Hp : Post true (i s) (declaration_try m s)).
  { apply (declaration_try_post m s tok Hcur Hlive Hle). unfold enough. lia. }
  rewrite Em in Hp. destruct Hp as (_ & H1 & H2 & H3 & _). simpl in *.
  auto.
Qed.

Lemma synchronize_while_spec n :
  forall s, has_eof -> 0 < i s -> i s <= limit -> enough 1 s n ->
    exists s',
      synchronize_while n s = (Ok tt, s') /\
      errors s' = errors s /\
      i s <= i s' /\ i s' <= limit /\
      sync_stop (i s') = true /\
      (forall j, i s <= j -> j < i s' -> sync_stop j = false).
Proof.
  induction n as [|n IH]; intros s Heof Hpos Hle Hen;
    [unfold enough in Hen; lia|].
  rewrite synchronize_while_S, bind_isAtEnd_eq.
  destruct (cur s) as [c|] eqn:Hcur;
    [|exfalso; exact (cur_none_no_eof _ Hle Hcur Heof)].
  assert (Hc' : nth_error tokens (i s) = Some c) by exact Hcur.
  destruct (live c) eqn:Hlive; cbn [negb].
  - pose proof (live_below_limit _ _ Hle Hcur Hlive) as Hlt.
    unfold bind at 1, previous.
    destruct (i s) as [|p] eqn:Ei; [lia|].
    destruct (below_limit_cur p ltac:(lia)) as (t & Ht & _). rewrite Ht.
    destruct (TK.eqb (kind t) TK.SEMICOLON) eqn:Hsemi.
    + exists s. rewrite Ei. unfold sync_stop. rewrite Hc', Ht, Hsemi, Hlive.
      repeat split; try reflexivity; try lia.
    + rewrite bind_current_eq, Hcur.
      destruct (isSyncKeyword (kind c)) eqn:Hkw.
      * exists s. rewrite Ei. unfold sync_stop.
        rewrite Hc', Ht, Hsemi, Hlive, Hkw.
        repeat split; try reflexivity; try lia.
      * unfold bind at 1. rewrite advance_eq, Hcur, Hlive.
        destruct (IH (next s) Heof) as (s' & E & He & H1 & H2 & H3 & H4);
          [solve_le | solve_le | solve_enough |].
        exists s'. rewrite E. cbn [i next errors] in *.
        repeat split; auto; try lia.
        intros j Hj1 Hj2.
        destruct (Nat.eq_dec j (S p)) as [->|Hne]; [|apply H4; lia].
        unfold sync_stop. rewrite Hc', Ht, Hsemi, Hlive, Hkw.
        reflexivity.
  - exists s. unfold sync_stop. rewrite Hc', Hlive.
    repeat split; try reflexivity; try lia.
Qed.

Lemma kind_live tok : kind tok <> TK.EOF -> live tok = true.
Proof. intros H. unfold live. apply negb_true_iff, TKFacts.eqb_neq, H. Qed.

Lemma kind_not_live tok : kind tok = TK.EOF -> live tok = false.
Proof. intros H. unfold live. rewrite H. reflexivity. Qed.

Lemma live_kind tok : live tok = true -> kind tok <> TK.EOF.
Proof. unfold live. intros H. apply TKFacts.eqb_neq, negb_true_iff, H. Qed.

Lemma not_live_kind tok : live tok = false -> kind tok = TK.EOF.
Proof. unfold live. intros H. apply TKFacts.eqb_eq, negb_false_iff, H. Qed.

(** What [declaration] does once its [try] block has thrown a
    [ParseError] in state [s1]. *)
Lemma declaration_catches n s e s1 :
  declaration_try n s = (Throw (ParseErr e), s1) ->
  declaration (S n) s =
  (synchronize n ;;; ret None) (pushed e s1).
Proof.
  intros E. rewrite declaration_S. unfold try_catch. rewrite E. reflexivity.
Qed.

(** C3 (panic-mode recovery), amended.  On a token array that ends with
    the end-of-input token, let the [try] block of a [declaration] started
    on a token other than end-of-input throw a [ParseError] [e] in state
    [s1].  Then [e] carries the token under the index; [declaration]
    returns [null], having appended [e] to the error list; if the offending
    token is the end-of-input token the index stays on it; otherwise the
    offending token is discarded and the index stops at the first later
    position where a [;] has just been consumed, or the next token is one
    of [let], [func], [if], [while], or the next token is end-of-input; and
    the enclosing loop (of [parseProgram], or of a block) goes on from there
    with its list of statements unchanged. *)
Theorem declaration_recovers :
  ends_with_eof tokens ->
  forall n s tok e s1,
    cur s = Some tok -> kind tok <> TK.EOF -> i s <= limit ->
    declaration_try n s = (Throw (ParseErr e), s1) ->
    20 * (limit - i s1) + 2 <= n ->
    cur s1 = Some (token e) /\
    exists s',
      declaration (S n) s = (Ok None, s') /\
      errors s' = errors s1 ++ [e] /\
      i s' <= limit /\
      (kind (token e) = TK.EOF -> i s' = i s1) /\
      (kind (token e) <> TK.EOF ->
         i s1 < i s' /\ sync_stop (i s') = true /\
         forall j, i s1 < j -> j < i s' -> sync_stop j = false) /\
      (forall m out, n < m ->
         parseProgram_while (S m) out s = parseProgram_while m out s') /\
      (forall m stmts, n < m -> kind tok <> TK.RBRACE ->
         blockStmtsAlreadyOpened_while (S m) stmts s =
         blockStmtsAlreadyOpened_while m stmts s').
Proof.
  intros Hends n s tok e s1 Hcur Hk Hle E Hn.
  pose proof (ends_with_eof_has_eof Hends) as Heof.
  pose proof (kind_live _ Hk) as Hlive.
  destruct (declaration_try_error_state n s tok e s1 Hcur Hlive Hle E)
    as (H1 & H2 & Hc1).
  split; [exact Hc1|].
  assert (Hrun : exists s',
    declaration (S n) s = (Ok None, s') /\
    errors s' = errors s1 ++ [e] /\
    i s' <= limit /\
    (kind (token e) = TK.EOF -> i s' = i s1) /\
    (kind (token e) <> TK.EOF ->
       i s1 < i s' /\ sync_stop (i s') = true /\
       forall j, i s1 < j -> j < i s' -> sync_stop j = false)).
  { rewrite (declaration_catches n s e s1 E).
    assert (Hcp : cur (pushed e s1) = Some (token e)) by exact Hc1.
    destruct (live (token e)) eqn:L.
    - pose proof (live_below_limit _ _ H2 Hc1 L) as Hlt.
      unfold synchronize. rewrite bind_assoc_eq. unfold bind at 1.
      rewrite advance_eq, Hcp, L.
      destruct (synchronize_while_spec n (next (pushed e s1)) Heof)
        as (s' & Es & He & Hi1 & Hi2 & Hstop & Hmin);
        [solve_le | solve_le | solve_enough |].
      exists s'. unfold bind. rewrite Es. cbn [i next pushed errors] in *.
      repeat split; auto; try lia.
      intros Hk'. apply live_kind in L. contradiction.
    - assert (Hne : i s <> i s1).
      { intros Heq. unfold cur in Hcur, Hc1. rewrite Heq in Hcur.
        congruence. }
      destruct n as [|n']; [lia|].
      unfold bind at 1.
      rewrite (synchronize_at_end n' (pushed e s1) (token e) Hcp L);
        [|solve_le|solve_le].
      exists (pushed e s1). cbn [i pushed errors].
      split; [reflexivity|]. split; [reflexivity|]. split; [exact H2|].
      split; [reflexivity|].
      intros Hk'. apply not_live_kind in L. contradiction. }
  destruct Hrun as (s' & Ed & He & Hi & Hend & Hgo).
  exists s'. repeat split; auto; try (apply Hgo; assumption).
  - intros m out Hm.
    assert (Em : declaration m s = (Ok None, s')).
    { apply (refines_run (declaration (S n))); [|exact Ed|discriminate].
      apply declaration_mono. lia. }
    rewrite parseProgram_while_S, bind_isAtEnd_eq, Hcur, Hlive. cbn [negb].
    unfold bind. rewrite Em. reflexivity.
  - intros m stmts Hm Hrb.
    assert (Em : declaration m s = (Ok None, s')).
    { apply (refines_run (declaration (S n))); [|exact Ed|discriminate].
      apply declaration_mono. lia. }
    rewrite blockStmtsAlreadyOpened_while_S, bind_check_eq, Hcur, Hlive.
    apply TKFacts.eqb_neq in Hrb. rewrite Hrb. cbn [andb negb].
    rewrite bind_assoc_eq, bind_isAtEnd_eq, Hcur, Hlive. cbn [negb].
    rewrite bind_ret_eq. unfold bind. rewrite Em. reflexivity.
Qed.

(** ** Fatal errors *)

Lemma first_eof_no_eof l :
  (forall t, In t l -> kind t <> TK.EOF) -> first_eof l = List.length l.
Proof.
  induction l as [|a l IH]; intros H; simpl; [reflexivity|].
  rewrite (kind_live a) by (apply H; left; reflexivity).
  rewrite IH; [reflexivity|]. intros t Ht. apply H. right. exact Ht.
Qed.

(** C8 (fatal errors are not recovered).  (1) Reading the token under an
    index that holds none throws the plain error "Parser invariant
    violated: missing EOF token".  (2) When the [try] block of
    [declaration] throws a plain error, [declaration] throws it again, in
    the same state: nothing is appended to the error list and no
    synchronisation takes place.  (3) Only a [ParseError] enters the
    recovery: it is appended to the list and [synchronize] runs.  (4) A
    plain error thrown by [declaration] leaves the loop of [parseProgram]
    at once.  (5) On a token array that holds no end-of-input token at all,
    [parseProgram] always ends by throwing the missing-sentinel error. *)
Theorem fatal_error_not_recovered :
  (forall s, cur s = None ->
     current s
     = (Throw (FatalErr "Parser invariant violated: missing EOF token"), s)) /\
  (forall n s msg s1,
     declaration_try n s = (Throw (FatalErr msg), s1) ->
     declaration (S n) s = (Throw (FatalErr msg), s1)) /\
  (forall n s e s1,
     declaration_try n s = (Throw (ParseErr e), s1) ->
     declaration (S n) s = (synchronize n ;;; ret None) (pushed e s1)) /\
  (forall n out s tok msg s1,
     cur s = Some tok -> kind tok <> TK.EOF ->
     declaration n s = (Throw (FatalErr msg), s1) ->
     parseProgram_while (S n) out s = (Throw (FatalErr msg), s1)) /\
  ((forall t, In t tokens -> kind t <> TK.EOF) ->
   forall n, 20 * List.length tokens + 13 <= n ->
     exists s',
       parseProgram n newParser
       = (Throw (FatalErr "Parser invariant violated: missing EOF token"),
          s')).
Proof.
  split; [|split; [|split; [|split]]].
  - intros s H. rewrite current_eq, H. reflexivity.
  - intros n s msg s1 E. rewrite declaration_S. unfold try_catch.
    rewrite E. reflexivity.
  - exact declaration_catches.
  - intros n out s tok msg s1 Hcur Hk E.
    rewrite parseProgram_while_S, bind_isAtEnd_eq, Hcur, (kind_live _ Hk).
    cbn [negb]. unfold bind. rewrite E. reflexivity.
  - intros Hno n Hn.
    pose proof (first_eof_no_eof tokens Hno) as Hlim.
    assert (Hp : Post false 0 (parseProgram n newParser)).
    { apply (parseProgram_while_terminates n []); [simpl; lia|].
      unfold enough, limit. simpl. lia. }
    destruct (parseProgram n newParser) as [[out|[pe|msg]|] s'] eqn:E.
    + exfalso.
      destruct (parseProgram_while_stops_at_end _ _ _ _ _ E)
        as (tok & Hc & Hl).
      apply (Hno tok); [|apply not_live_kind, Hl].
      unfold cur in Hc. eapply nth_error_In, Hc.
    + exfalso. exact (quiet_parseProgram_while _ _ _ _ _ E).
    + destruct Hp as (_ & _ & _ & _ & _ & H6 & _).
      specialize (H6 msg eq_refl). injection H6 as ->. eauto.
    + destruct Hp as (H0 & _). simpl in H0. congruence.
Qed.

(** ** The assignment lookahead *)

(** Decide [kind_in] and [TK.eqb] on closed kinds. *)
Ltac eval_kind_in :=
  repeat match goal with
         | |- context [kind_in ?k ?l] =>
             let b := eval vm_compute in (kind_in k l) in
             change (kind_in k l) with b
         | |- context [TK.eqb ?k ?l] =>
             let b := eval vm_compute in (TK.eqb k l) in
             change (TK.eqb k l) with b
         end;
  cbn [andb orb negb].

Lemma assignOp_of_kind_is_assign k :
  is_assign_kind k = match assignOp_of_kind k with
                     | Some _ => true
                     | None => false
                     end.
Proof. destruct k; reflexivity. Qed.

Lemma assignOp_of_kind_in k :
  In k assign_kinds <-> exists op, assignOp_of_kind k = Some op.
Proof.
  split.
  - intros H. simpl in H.
    destruct H as [<-|[<-|[<-|[<-|[<-|[]]]]]]; simpl; eauto.
  - intros [op H]. destruct k; simpl in H; try discriminate; simpl; tauto.
Qed.

Lemma assignOpFromToken_eq t op s :
  assignOp_of_kind (kind t) = Some op -> assignOpFromToken t s = (Ok op, s).
Proof.
  unfold assignOpFromToken.
  destruct (kind t); simpl; try discriminate; intros [= <-]; reflexivity.
Qed.

Lemma exprOrAssignStmt_assign n s tok t2 op :
  cur s = Some tok -> kind tok = TK.IDENT ->
  lookahead s = Some t2 -> assignOp_of_kind (kind t2) = Some op ->
  exprOrAssignStmt n s =
  (value <- expression n ;;
   consume TK.SEMICOLON "Expected ';' after assignment." ;;;
   ret (Assign (lexeme tok) op value)) (next (next s)).
Proof.
  intros Hcur Hk Hla Hop.
  assert (Hlive : live tok = true) by (apply kind_live; congruence).
  assert (Hak : is_assign_kind (kind t2) = true)
    by (rewrite assignOp_of_kind_is_assign, Hop; reflexivity).
  assert (Hc2 : cur (next s) = Some t2).
  { unfold cur, lookahead in *. cbn [i next]. rewrite <- Hla. f_equal. lia. }
  unfold exprOrAssignStmt.
  rewrite bind_check_eq, Hcur, Hlive, Hk. cbn [andb].
  rewrite TKFacts.eqb_refl.
  unfold bind at 1. rewrite peekIsAssignOp_eq, Hla, Hak.
  unfold bind at 1. rewrite advance_eq, Hcur, Hlive.
  unfold bind at 1.
  rewrite advance_eq, Hc2, (is_assign_kind_live _ Hak).
  unfold bind at 1. rewrite (assignOpFromToken_eq _ _ _ Hop).
  reflexivity.
Qed.

Lemma exprOrAssignStmt_expr n s tok :
  cur s = Some tok -> kind tok = TK.IDENT ->
  (lookahead s = None \/
   exists t2, lookahead s = Some t2 /\ assignOp_of_kind (kind t2) = None) ->
  exprOrAssignStmt n s =
  (expr <- expression n ;;
   consume TK.SEMICOLON "Expected ';' after expression." ;;;
   ret (ExprStmt expr)) s.
Proof.
  intros Hcur Hk Hla.
  assert (Hlive : live tok = true) by (apply kind_live; congruence).
  unfold exprOrAssignStmt.
  rewrite bind_check_eq, Hcur, Hlive, Hk. cbn [andb].
  rewrite TKFacts.eqb_refl.
  unfold bind at 1. rewrite peekIsAssignOp_eq.
  destruct Hla as [->|(t2 & -> & Hop)]; [reflexivity|].
  rewrite assignOp_of_kind_is_assign, Hop. reflexivity.
Qed.

Lemma consume_semicolon {B} msg (k : Token -> M B) s semi :
  cur s = Some semi -> kind semi = TK.SEMICOLON ->
  bind (consume TK.SEMICOLON msg) k s = k semi (next s).
Proof.
  intros Hcur Hk.
  rewrite bind_consume_eq, Hcur, (kind_live semi), Hk by congruence.
  reflexivity.
Qed.

Lemma exprOrAssignStmt_returns_assign s tok t2 op value s1 semi :
  cur s = Some tok -> kind tok = TK.IDENT ->
  lookahead s = Some t2 -> assignOp_of_kind (kind t2) = Some op ->
  returns expression (next (next s)) value s1 ->
  cur s1 = Some semi -> kind semi = TK.SEMICOLON ->
  returns exprOrAssignStmt s (Assign (lexeme tok) op value) (next s1).
Proof.
  intros Hcur Hk Hla Hop [N HN] Hc1 Hsemi. exists N. intros m Hm.
  rewrite (exprOrAssignStmt_assign m s tok t2 op Hcur Hk Hla Hop).
  unfold bind at 1. rewrite (HN m Hm).
  rewrite (consume_semicolon _ _ s1 semi Hc1 Hsemi). reflexivity.
Qed.

Lemma exprOrAssignStmt_returns_expr s tok expr s1 semi :
  cur s = Some tok -> kind tok = TK.IDENT ->
  (lookahead s = None \/
   exists t2, lookahead s = Some t2 /\ assignOp_of_kind (kind t2) = None) ->
  returns expression s expr s1 ->
  cur s1 = Some semi -> kind semi = TK.SEMICOLON ->
  returns exprOrAssignStmt s (ExprStmt expr) (next s1).
Proof.
  intros Hcur Hk Hla [N HN] Hc1 Hsemi. exists N. intros m Hm.
  rewrite (exprOrAssignStmt_expr m s tok Hcur Hk Hla).
  unfold bind at 1. rewrite (HN m Hm).
  rewrite (consume_semicolon _ _ s1 semi Hc1 Hsemi). reflexivity.
Qed.

(** C5 (assignment lookahead).  At a statement position whose current
    token is an identifier, [statement] goes to [exprOrAssignStmt], which
    decides from the token one past the identifier alone, before it
    consumes anything: if its kind is one of [=], [+=], [-=], [*=], [/=],
    the two tokens are consumed and the statement is the [Assign] of the
    identifier, that operator and the expression that follows; otherwise
    nothing is consumed and the identifier is parsed as the start of an
    expression statement.  Hence a statement returned at such a position is
    an [Assign] if and only if the lookahead token has one of the five
    kinds, and is an [ExprStmt] otherwise; and where the expression is
    followed by its [;], the [Assign], respectively the [ExprStmt], is
    returned. *)
Theorem assignment_lookahead :
  forall n s tok,
    cur s = Some tok -> kind tok = TK.IDENT ->
    statement (S n) s = exprOrAssignStmt n s /\
    (forall t2 op,
       lookahead s = Some t2 -> assignOp_of_kind (kind t2) = Some op ->
       exprOrAssignStmt n s =
       (value <- expression n ;;
        consume TK.SEMICOLON "Expected ';' after assignment." ;;;
        ret (Assign (lexeme tok) op value)) (next (next s))) /\
    ((lookahead s = None \/
      exists t2, lookahead s = Some t2 /\ ~ In (kind t2) assign_kinds) ->
     exprOrAssignStmt n s =
     (expr <- expression n ;;
      consume TK.SEMICOLON "Expected ';' after expression." ;;;
      ret (ExprStmt expr)) s) /\
    (forall st s',
       exprOrAssignStmt n s = (Ok st, s') ->
       ((exists name op value, st = Assign name op value) <->
        (exists t2, lookahead s = Some t2 /\ In (kind t2) assign_kinds)) /\
       ((exists name op value, st = Assign name op value) \/
        (exists expr, st = ExprStmt expr))) /\
    (forall t2 op value s1 semi,
       lookahead s = Some t2 -> assignOp_of_kind (kind t2) = Some op ->
       returns expression (next (next s)) value s1 ->
       cur s1 = Some semi -> kind semi = TK.SEMICOLON ->
       returns exprOrAssignStmt s (Assign (lexeme tok) op value) (next s1)) /\
    (forall expr s1 semi,
       (lookahead s = None \/
        exists t2, lookahead s = Some t2 /\ ~ In (kind t2) assign_kinds) ->
       returns expression s expr s1 ->
       cur s1 = Some semi -> kind semi = TK.SEMICOLON ->
       returns exprOrAssignStmt s (ExprStmt expr) (next s1)).
Proof.
  intros n s tok Hcur Hk.
  assert (Hlive : live tok = true) by (apply kind_live; congruence).
  assert (Hnone : forall t2, ~ In (kind t2) assign_kinds ->
                             assignOp_of_kind (kind t2) = None).
  { intros t2 H. destruct (assignOp_of_kind (kind t2)) eqn:E; [|reflexivity].
    exfalso. apply H, assignOp_of_kind_in. eauto. }
  split; [|split; [|split; [|split; [|split]]]].
  - rewrite statement_S.
    rewrite bind_match_eq, Hcur, Hlive, Hk by congruence. eval_kind_in.
    rewrite bind_match_eq, Hcur, Hlive, Hk by congruence. eval_kind_in.
    rewrite bind_match_eq, Hcur, Hlive, Hk by congruence. eval_kind_in.
    reflexivity.
  - intros t2 op Hla Hop. exact (exprOrAssignStmt_assign n s tok t2 op
                                   Hcur Hk Hla Hop).
  - intros Hla. apply (exprOrAssignStmt_expr n s tok Hcur Hk).
    destruct Hla as [?|(t2 & ? & ?)]; [left; assumption|].
    right. exists t2. split; [assumption|]. apply Hnone. assumption.
  - intros st s' E.
    destruct (lookahead s) as [t2|] eqn:Hla.
    + destruct (assignOp_of_kind (kind t2)) as [op|] eqn:Hop.
      * rewrite (exprOrAssignStmt_assign n s tok t2 op Hcur Hk Hla Hop) in E.
        apply bind_ok_inv in E. destruct E as (v & s1 & _ & E).
        apply bind_ok_inv in E. destruct E as (t & s2 & _ & E).
        injection E as <- <-.
        split; [|left; eauto].
        split; [|eauto].
        intros _. exists t2. split; [reflexivity|].
        apply assignOp_of_kind_in. eauto.
      * rewrite (exprOrAssignStmt_expr n s tok Hcur Hk) in E by eauto.
        apply bind_ok_inv in E. destruct E as (v & s1 & _ & E).
        apply bind_ok_inv in E. destruct E as (t & s2 & _ & E).
        injection E as <- <-.
        split; [|right; eauto].
        split.
        -- intros (? & ? & ? & ?). discriminate.
        -- intros (t3 & [= <-] & Hin). apply assignOp_of_kind_in in Hin.
           destruct Hin as [op Hin]. congruence.
    + rewrite (exprOrAssignStmt_expr n s tok Hcur Hk) in E by eauto.
      apply bind_ok_inv in E. destruct E as (v & s1 & _ & E).
      apply bind_ok_inv in E. destruct E as (t & s2 & _ & E).
      injection E as <- <-.
      split; [|right; eauto].
      split.
      * intros (? & ? & ? & ?). discriminate.
      * intros (t3 & [=] & _).
  - intros t2 op value s1 semi Hla Hop.
    exact (exprOrAssignStmt_returns_assign s tok t2 op value s1 semi
             Hcur Hk Hla Hop).
  - intros expr s1 semi Hla.
    apply (exprOrAssignStmt_returns_expr s tok expr s1 semi Hcur Hk).
    destruct Hla as [?|(t2 & ? & ?)]; [left; assumption|].
    right. exists t2. split; [assumption|]. apply Hnone. assumption.
Qed.

(** ** Missing closing parentheses *)

Lemma bind_throws {A B} (c : M A) (k : A -> M B) s e s1 :
  c s = (Throw e, s1) -> bind c k s = (Throw e, s1).
Proof. intros H. unfold bind. rewrite H. reflexivity. Qed.

Lemma consume_mismatch k msg s t :
  cur s = Some t -> (kind t <> k \/ kind t = TK.EOF) ->
  consume k msg s = (Throw (ParseErr (error t msg)), s).
Proof.
  intros Hcur H. rewrite consume_eq, Hcur.
  destruct H as [H|H].
  - apply TKFacts.eqb_neq in H. rewrite H, andb_false_r. reflexivity.
  - rewrite (kind_not_live _ H). reflexivity.
Qed.

Lemma match_at_end {B} kinds (k : bool -> M B) s t :
  kinds <> [] -> cur s = Some t -> live t = false ->
  bind (match_ kinds) k s = k false s.
Proof.
  intros Hne Hcur Hl. rewrite bind_match_eq, Hcur, Hl by exact Hne.
  reflexivity.
Qed.

(** At end of input every level of the ladder falls through to
    [primary], which throws "Expected expression.". *)
Lemma expression_at_end n s t :
  cur s = Some t -> live t = false ->
  expression (10 + n) s
  = (Throw (ParseErr (error t "Expected expression.")), s).
Proof.
  intros Hcur Hl. cbn [Nat.add].
  assert (Hp : primary (S n) s
               = (Throw (ParseErr (error t "Expected expression.")), s)).
  { rewrite primary_S.
    rewrite !(match_at_end _ _ s t) by (congruence || assumption).
    rewrite bind_current_eq, Hcur. reflexivity. }
  assert (Hc : call (S (S n)) s
               = (Throw (ParseErr (error t "Expected expression.")), s)).
  { rewrite call_S. apply bind_throws, Hp. }
  assert (Hu : unary (S (S (S n))) s
               = (Throw (ParseErr (error t "Expected expression.")), s)).
  { rewrite unary_S, (match_at_end _ _ s t) by (congruence || assumption).
    exact Hc. }
  rewrite expression_S, logicOr_S. apply bind_throws.
  rewrite logicAnd_S. apply bind_throws.
  rewrite equality_S. apply bind_throws.
  rewrite comparison_S. apply bind_throws.
  rewrite term_S. apply bind_throws.
  rewrite factor_S. apply bind_throws.
  exact Hu.
Qed.

Lemma match_lparen {B} (k : bool -> M B) s lp :
  cur s = Some lp -> kind lp = TK.LPAREN ->
  bind (match_ [TK.LPAREN]) k s = k true (next s).
Proof.
  intros Hcur Hk.
  rewrite bind_match_eq, Hcur, (kind_live lp), Hk by congruence.
  reflexivity.
Qed.

Lemma primary_lparen n s lp :
  cur s = Some lp -> kind lp = TK.LPAREN ->
  primary (S n) s =
  (expr <- expression n ;;
   consume TK.RPAREN "Expected ')' after expression." ;;;
   ret (Group expr)) (next s).
Proof.
  intros Hcur Hk. rewrite primary_S.
  assert (Hl : live lp = true) by (apply kind_live; congruence).
  rewrite bind_match_eq, Hcur, Hl, Hk by congruence. eval_kind_in.
  rewrite bind_match_eq, Hcur, Hl, Hk by congruence. eval_kind_in.
  rewrite bind_match_eq, Hcur, Hl, Hk by congruence. eval_kind_in.
  rewrite bind_match_eq, Hcur, Hl, Hk by congruence. eval_kind_in.
  reflexivity.
Qed.

(** C6 (missing closing parenthesis), amended.  (1) [consume] throws the
    [ParseError] made of the token under the index and of the message it was
    given whenever that token has another kind than the expected one, and
    also whenever it is the end-of-input token, whatever kind is expected.
    (2) A group whose expression has been parsed and is followed by a token
    other than [)], end of input included, fails with "Expected ')' after
    expression." on that token.  (3) A call whose [(] is followed by a token
    other than [)], whose arguments have been parsed and are followed by a
    token other than [)], end of input included, fails with "Expected ')'
    after arguments." on that token.  (4) Where end of input stands right
    after the [(] of a call or of a group, the failure is the one of the
    expression that is expected there: "Expected expression." on the
    end-of-input token. *)
Theorem missing_rparen_reported :
  (forall k msg s t,
     cur s = Some t -> (kind t <> k \/ kind t = TK.EOF) ->
     consume k msg s = (Throw (ParseErr (error t msg)), s)) /\
  (forall n s lp e1 s1 t,
     cur s = Some lp -> kind lp = TK.LPAREN ->
     expression n (next s) = (Ok e1, s1) ->
     cur s1 = Some t -> (kind t <> TK.RPAREN \/ kind t = TK.EOF) ->
     primary (S n) s
     = (Throw (ParseErr (error t "Expected ')' after expression.")), s1)) /\
  (forall n callee s lp a args s1 t,
     cur s = Some lp -> kind lp = TK.LPAREN ->
     cur (next s) = Some a -> kind a <> TK.RPAREN ->
     call_args n [] (next s) = (Ok args, s1) ->
     cur s1 = Some t -> (kind t <> TK.RPAREN \/ kind t = TK.EOF) ->
     call_while (S n) callee s
     = (Throw (ParseErr (error t "Expected ')' after arguments.")), s1)) /\
  (forall n callee s lp t,
     cur s = Some lp -> kind lp = TK.LPAREN ->
     cur (next s) = Some t -> kind t = TK.EOF ->
     call_while (12 + n) callee s
     = (Throw (ParseErr (error t "Expected expression.")), next s)) /\
  (forall n s lp t,
     cur s = Some lp -> kind lp = TK.LPAREN ->
     cur (next s) = Some t -> kind t = TK.EOF ->
     primary (11 + n) s
     = (Throw (ParseErr (error t "Expected expression.")), next s)).
Proof.
  split; [exact consume_mismatch|].
  split; [|split; [|split]].
  - intros n s lp e1 s1 t Hcur Hk He Hc1 Ht.
    rewrite (primary_lparen n s lp Hcur Hk).
    unfold bind at 1. rewrite He.
    apply bind_throws, consume_mismatch; assumption.
  - intros n callee s lp a args s1 t Hcur Hk Ha Hka Hargs Hc1 Ht.
    rewrite call_while_S, (match_lparen _ s lp Hcur Hk).
    rewrite bind_check_eq, Ha.
    apply TKFacts.eqb_neq in Hka. rewrite Hka, andb_false_r. cbn [negb].
    unfold bind at 1. rewrite Hargs.
    apply bind_throws, consume_mismatch; assumption.
  - intros n callee s lp t Hcur Hk Ht Hkt.
    pose proof (kind_not_live _ Hkt) as Hl.
    cbn [Nat.add]. rewrite call_while_S, (match_lparen _ s lp Hcur Hk).
    rewrite bind_check_eq, Ht, Hl. cbn [andb negb].
    apply bind_throws. rewrite call_args_S. apply bind_throws.
    exact (expression_at_end n (next s) t Ht Hl).
  - intros n s lp t Hcur Hk Ht Hkt.
    pose proof (kind_not_live _ Hkt) as Hl.
    cbn [Nat.add]. rewrite (primary_lparen _ s lp Hcur Hk).
    apply bind_throws.
    exact (expression_at_end n (next s) t Ht Hl).
Qed.

Lemma call_while_mono n m e :
  n <= m -> refines (call_while n e) (call_while m e).
Proof.
  intros H.
  pose proof (expression_ladder_mono n m H)
    as (_ & _ & _ & _ & _ & _ & _ & _ & _ & _ & _ & _ & _ & _ & _ & Hc & _).
  apply Hc.
Qed.

(** ** Binary tiers fold to the left *)

Local Abbreviation chain := (chain tokens).
Local Abbreviation left_assoc_tier := (left_assoc_tier tokens).

Lemma returns_intro {A} (f : nat -> M A) n s a s' :
  (forall n m, n <= m -> refines (f n) (f m)) ->
  f n s = (Ok a, s') -> returns f s a s'.
Proof.
  intros Hmono E. exists n. intros m Hm.
  apply (refines_run (f n)); [apply Hmono, Hm | exact E | discriminate].
Qed.

Section Tier.
Variables tier sub : nat -> M Expr.
Variable loop : nat -> Expr -> M Expr.
Variable ops : list TokenKind.
Variable opf : Token -> BinaryOp.t.
Hypothesis tier_S : forall n, tier (S n) = (expr <- sub n ;; loop n expr).
Hypothesis loop_match :
  forall n e s opTok,
    cur s = Some opTok -> live opTok = true ->
    kind_in (kind opTok) ops = true ->
    loop (S n) e s = (rhs <- sub n ;; loop n (Binary (opf opTok) e rhs)) (next s).
Hypothesis loop_stop :
  forall n e s t,
    cur s = Some t -> live t && kind_in (kind t) ops = false ->
    loop (S n) e s = (Ok e, s).

Lemma loop_folds s1 links s2 :
  chain sub ops s1 links s2 ->
  forall e t,
    cur s2 = Some t -> (kind t = TK.EOF \/ ~ In (kind t) ops) ->
    returns (fun n => loop n e) s1 (fold_chain opf e links) s2.
Proof.
  induction 1 as [s | s opTok rhs s1 rest s2 Hcur Hk Hin [Ns Hs] _ IH];
    intros e t Hc2 Ht.
  - exists 1. intros m Hm. destruct m as [|m]; [lia|].
    apply (loop_stop m e s t Hc2).
    destruct Ht as [Ht|Ht].
    + rewrite (kind_not_live _ Ht). reflexivity.
    + apply andb_false_iff. right. unfold kind_in.
      apply not_true_is_false. intros H. apply existsb_exists in H.
      destruct H as (x & Hx & E). apply TKFacts.eqb_eq in E. subst x.
      contradiction.
  - destruct (IH (Binary (opf opTok) e rhs) t Hc2 Ht) as [Nl Hl].
    exists (S (Nat.max Ns Nl)). intros m Hm. destruct m as [|m]; [lia|].
    rewrite (loop_match m e s opTok Hcur (kind_live _ Hk)).
    + unfold bind. rewrite Hs by lia. apply Hl. lia.
    + unfold kind_in. apply existsb_exists. exists (kind opTok).
      split; [exact Hin | apply TKFacts.eqb_refl].
Qed.

Lemma tier_folds : left_assoc_tier tier sub ops opf.
Proof.
  intros s0 e0 s1 links s2 t [N0 H0] Hchain Hc2 Ht.
  destruct (loop_folds s1 links s2 Hchain e0 t Hc2 Ht) as [Nl Hl].
  exists (S (Nat.max N0 Nl)). intros m Hm. destruct m as [|m]; [lia|].
  rewrite tier_S. unfold bind. rewrite H0 by lia. apply Hl. lia.
Qed.

End Tier.

Ltac loop_match_tac eqn :=
  intros n e s opTok Hcur Hl Hk;
  rewrite eqn, bind_match_eq, Hcur, Hl, Hk by congruence;
  cbn [andb];
  rewrite ?(bind_previous_next _ s opTok Hcur); reflexivity.

Ltac loop_stop_tac eqn :=
  intros n e s t Hcur Hk;
  rewrite eqn, bind_match_eq, Hcur, Hk by congruence; reflexivity.

Lemma factor_while_match : forall n e s opTok,
  cur s = Some opTok -> live opTok = true ->
  kind_in (kind opTok) [TK.STAR; TK.SLASH] = true ->
  factor_while (S n) e s =
  (rhs <- unary n ;; factor_while n (Binary (factor_op opTok) e rhs)) (next s).
Proof. loop_match_tac factor_while_S. Qed.

Lemma factor_while_stop : forall n e s t,
  cur s = Some t -> live t && kind_in (kind t) [TK.STAR; TK.SLASH] = false ->
  factor_while (S n) e s = (Ok e, s).
Proof. loop_stop_tac factor_while_S. Qed.

Lemma term_while_match : forall n e s opTok,
  cur s = Some opTok -> live opTok = true ->
  kind_in (kind opTok) [TK.PLUS; TK.MINUS] = true ->
  term_while (S n) e s =
  (rhs <- factor n ;; term_while n (Binary (term_op opTok) e rhs)) (next s).
Proof. loop_match_tac term_while_S. Qed.

Lemma term_while_stop : forall n e s t,
  cur s = Some t -> live t && kind_in (kind t) [TK.PLUS; TK.MINUS] = false ->
  term_while (S n) e s = (Ok e, s).
Proof. loop_stop_tac term_while_S. Qed.

Lemma logicOr_folds :
  left_assoc_tier logicOr logicAnd [TK.OR] (fun _ => BinaryOp.OR).
Proof.
  apply (tier_folds _ _ logicOr_while); [exact logicOr_S | |].
  - loop_match_tac logicOr_while_S.
  - loop_stop_tac logicOr_while_S.
Qed.

Lemma logicAnd_folds :
  left_assoc_tier logicAnd equality [TK.AND] (fun _ => BinaryOp.AND).
Proof.
  apply (tier_folds _ _ logicAnd_while); [exact logicAnd_S | |].
  - loop_match_tac logicAnd_while_S.
  - loop_stop_tac logicAnd_while_S.
Qed.

Lemma equality_folds :
  left_assoc_tier equality comparison [TK.EQUAL; TK.NOTEQ] equality_op.
Proof.
  apply (tier_folds _ _ equality_while); [exact equality_S | |].
  - loop_match_tac equality_while_S.
  - loop_stop_tac equality_while_S.
Qed.

Lemma comparison_folds :
  left_assoc_tier comparison term [TK.LT; TK.LTE; TK.GT; TK.GTE]
    comparison_op.
Proof.
  apply (tier_folds _ _ comparison_while); [exact comparison_S | |].
  - loop_match_tac comparison_while_S.
  - loop_stop_tac comparison_while_S.
Qed.

Lemma term_folds :
  left_assoc_tier term factor [TK.PLUS; TK.MINUS] term_op.
Proof.
  apply (tier_folds _ _ term_while);
    [exact term_S | exact term_while_match | exact term_while_stop].
Qed.

Lemma factor_folds :
  left_assoc_tier factor unary [TK.STAR; TK.SLASH] factor_op.
Proof.
  apply (tier_folds _ _ factor_while);
    [exact factor_S | exact factor_while_match | exact factor_while_stop].
Qed.

Lemma factor_mono n m : n <= m -> refines (factor n) (factor m).
Proof.
  intros H.
  pose proof (expression_ladder_mono n m H)
    as (_ & _ & _ & _ & _ & _ & _ & _ & _ & _ & _ & Hf & _).
  exact Hf.
Qed.

(** The chain [a - b - c]. *)
Lemma term_minus_minus s0 a s1 m1 b s2 m2 c s3 t :
  returns factor s0 a s1 ->
  cur s1 = Some m1 -> kind m1 = TK.MINUS ->
  returns factor (next s1) b s2 ->
  cur s2 = Some m2 -> kind m2 = TK.MINUS ->
  returns factor (next s2) c s3 ->
  cur s3 = Some t -> (kind t = TK.EOF \/ ~ In (kind t) [TK.PLUS; TK.MINUS]) ->
  returns term s0
    (Binary BinaryOp.MINUS (Binary BinaryOp.MINUS a b) c) s3.
Proof.
  intros Ha Hc1 Hk1 Hb Hc2 Hk2 Hc Hc3 Ht.
  assert (Hchain : chain factor [TK.PLUS; TK.MINUS] s1 [(m1, b); (m2, c)] s3).
  { eapply chain_cons; [exact Hc1 | congruence | rewrite Hk1; simpl; tauto
                       | exact Hb |].
    eapply chain_cons; [exact Hc2 | congruence | rewrite Hk2; simpl; tauto
                       | exact Hc |].
    apply chain_nil. }
  pose proof (term_folds s0 a s1 _ s3 t Ha Hchain Hc3 Ht) as H.
  unfold fold_chain in H. cbn [fold_left fst snd] in H.
  unfold term_op in H. rewrite Hk1, Hk2 in H. exact H.
Qed.

(** ** Arithmetic expressions *)

Lemma cur_at pre x rest errs :
  tokens = pre ++ x :: rest ->
  cur (mkParser (List.length pre) errs) = Some x.
Proof.
  intros E. unfold cur. cbn [i]. rewrite E.
  rewrite nth_error_app2, Nat.sub_diag by lia. reflexivity.
Qed.

Lemma returns_bind {A B} (f : nat -> M A) (g : nat -> A -> M B) s a s1 b s2 :
  returns f s a s1 -> returns (fun n => g n a) s1 b s2 ->
  returns (fun n => bind (f n) (g n)) s b s2.
Proof.
  intros [N1 H1] [N2 H2]. exists (Nat.max N1 N2). intros m Hm.
  unfold bind. rewrite H1 by lia. apply H2. lia.
Qed.

Lemma returns_S {A} (f g : nat -> M A) s s1 a s' :
  (forall n, g (S n) s = f n s1) -> returns f s1 a s' -> returns g s a s'.
Proof.
  intros E [N H]. exists (S N). intros m Hm. destruct m as [|m]; [lia|].
  rewrite E. apply H. lia.
Qed.

Lemma returns_stop {A} (g : nat -> M A) s a :
  (forall n, g (S n) s = (Ok a, s)) -> returns g s a s.
Proof.
  intros E. exists 1. intros m Hm. destruct m as [|m]; [lia|]. apply E.
Qed.

Lemma not_kind_in k l : kind_in k l = false -> ~ In k l.
Proof.
  unfold kind_in. intros H Hin.
  assert (existsb (TK.eqb k) l = true); [|congruence].
  apply existsb_exists. exists k. split; [exact Hin|apply TKFacts.eqb_refl].
Qed.

Lemma kind_in_true k l : In k l -> kind_in k l = true.
Proof.
  intros Hin. unfold kind_in. apply existsb_exists. exists k.
  split; [exact Hin|apply TKFacts.eqb_refl].
Qed.

Lemma kind_in_incl k l l' :
  incl l l' -> kind_in k l' = false -> kind_in k l = false.
Proof.
  intros Hi H. apply not_true_is_false. intros Ht.
  apply existsb_exists in Ht. destruct Ht as (x & Hx & E).
  apply TKFacts.eqb_eq in E. subst x.
  rewrite (kind_in_true k l') in H; [discriminate|]. apply Hi, Hx.
Qed.

Lemma stop_condition t l :
  kind_in (kind t) l = false -> live t && kind_in (kind t) l = false.
Proof. intros ->. apply andb_false_r. Qed.

Lemma term_of_factor s e s1 r s' :
  returns factor s e s1 -> returns (fun n => term_while n e) s1 r s' ->
  returns term s r s'.
Proof.
  intros H1 H2.
  apply (returns_S (fun n => bind (factor n) (term_while n)) term s s);
    [intros n; rewrite term_S; reflexivity|].
  exact (returns_bind factor term_while s e s1 r s' H1 H2).
Qed.

Lemma factor_of_unary s e s1 r s' :
  returns unary s e s1 -> returns (fun n => factor_while n e) s1 r s' ->
  returns factor s r s'.
Proof.
  intros H1 H2.
  apply (returns_S (fun n => bind (unary n) (factor_while n)) factor s s);
    [intros n; rewrite factor_S; reflexivity|].
  exact (returns_bind unary factor_while s e s1 r s' H1 H2).
Qed.

Lemma term_while_step s op e1 e2 s1 r s' :
  cur s = Some op -> In (kind op) [TK.PLUS; TK.MINUS] ->
  returns factor (next s) e2 s1 ->
  returns (fun n => term_while n (Binary (term_op op) e1 e2)) s1 r s' ->
  returns (fun n => term_while n e1) s r s'.
Proof.
  intros Hcur Hin H1 H2.
  assert (Hl : live op = true).
  { apply kind_live. simpl in Hin. destruct Hin as [<-|[<-|[]]]; discriminate. }
  apply (returns_S
           (fun n => bind (factor n)
                       (fun rhs => term_while n (Binary (term_op op) e1 rhs)))
           (fun n => term_while n e1) s (next s)).
  - intros n. apply term_while_match; auto using kind_in_true.
  - exact (returns_bind factor
             (fun n rhs => term_while n (Binary (term_op op) e1 rhs))
             (next s) e2 s1 r s' H1 H2).
Qed.

Lemma factor_while_step s op e1 e2 s1 r s' :
  cur s = Some op -> In (kind op) [TK.STAR; TK.SLASH] ->
  returns unary (next s) e2 s1 ->
  returns (fun n => factor_while n (Binary (factor_op op) e1 e2)) s1 r s' ->
  returns (fun n => factor_while n e1) s r s'.
Proof.
  intros Hcur Hin H1 H2.
  assert (Hl : live op = true).
  { apply kind_live. simpl in Hin. destruct Hin as [<-|[<-|[]]]; discriminate. }
  apply (returns_S
           (fun n => bind (unary n)
                       (fun rhs => factor_while n (Binary (factor_op op) e1 rhs)))
           (fun n => factor_while n e1) s (next s)).
  - intros n. apply factor_while_match; auto using kind_in_true.
  - exact (returns_bind unary
             (fun n rhs => factor_while n (Binary (factor_op op) e1 rhs))
             (next s) e2 s1 r s' H1 H2).
Qed.

(** On a number or a [(], [unary] and [call] leave the work to
    [primary]; a token other than [(] after the operand ends the call
    loop. *)
Lemma unary_of_primary s t0 e s1 t :
  cur s = Some t0 -> In (kind t0) [TK.NUMBER; TK.STRING; TK.IDENT; TK.LPAREN] ->
  returns primary s e s1 ->
  cur s1 = Some t -> kind t <> TK.LPAREN ->
  returns unary s e s1.
Proof.
  intros Hcur Hk0 Hp Hc1 Hk.
  apply (returns_S call unary s s).
  { intros n. rewrite unary_S, bind_match_eq, Hcur by congruence.
    simpl in Hk0. destruct Hk0 as [<-|[<-|[<-|[<-|[]]]]]; eval_kind_in;
      rewrite andb_false_r; reflexivity. }
  apply (returns_S (fun n => bind (primary n) (call_while n)) call s s);
    [intros n; rewrite call_S; reflexivity|].
  apply (returns_bind primary call_while s e s1 e s1 Hp).
  apply returns_stop. intros n.
  rewrite call_while_S, bind_match_eq, Hc1 by congruence.
  assert (Hf : kind_in (kind t) [TK.LPAREN] = false).
  { unfold kind_in. cbn [existsb]. apply TKFacts.eqb_neq in Hk.
    rewrite Hk. reflexivity. }
  rewrite Hf, andb_false_r. reflexivity.
Qed.

(** A term followed by a token that does not continue an expression is
    an expression. *)
Lemma expression_of_term s e s1 t :
  returns term s e s1 -> cur s1 = Some t ->
  continues_expression (kind t) = false ->
  returns expression s e s1.
Proof.
  intros Ht Hc1 Hk. unfold continues_expression in Hk.
  assert (H1 : returns comparison s e s1).
  { apply (comparison_folds s e s1 [] s1 t Ht (chain_nil _ _ _ s1) Hc1).
    right. apply not_kind_in. revert Hk. apply kind_in_incl.
    intros x Hx. simpl in *. tauto. }
  assert (H2 : returns equality s e s1).
  { apply (equality_folds s e s1 [] s1 t H1 (chain_nil _ _ _ s1) Hc1).
    right. apply not_kind_in. revert Hk. apply kind_in_incl.
    intros x Hx. simpl in *. tauto. }
  assert (H3 : returns logicAnd s e s1).
  { apply (logicAnd_folds s e s1 [] s1 t H2 (chain_nil _ _ _ s1) Hc1).
    right. apply not_kind_in. revert Hk. apply kind_in_incl.
    intros x Hx. simpl in *. tauto. }
  assert (H4 : returns logicOr s e s1).
  { apply (logicOr_folds s e s1 [] s1 t H3 (chain_nil _ _ _ s1) Hc1).
    right. apply not_kind_in. revert Hk. apply kind_in_incl.
    intros x Hx. simpl in *. tauto. }
  apply (returns_S logicOr expression s s); [|exact H4].
  intros n. rewrite expression_S. reflexivity.
Qed.

Lemma cur_after pre l t post errs :
  tokens = pre ++ l ++ t :: post ->
  cur (mkParser (List.length pre + List.length l) errs) = Some t.
Proof.
  intros E. rewrite <- length_app. apply (cur_at (pre ++ l) t post).
  rewrite E, app_assoc. reflexivity.
Qed.

Ltac state_eq :=
  unfold next; cbn [i errors]; f_equal;
  repeat (progress (rewrite ?length_app; cbn [List.length])); lia.

Ltac list_eq E :=
  rewrite E; repeat (progress (cbn [app]; rewrite <- ?app_assoc));
  reflexivity.

(** The parser follows the derivation of an arithmetic expression: a
    primary is parsed by [primary]; a factor (term) is parsed by [factor]
    ([term]) up to what the loop of the tier does with the tree of the
    factor (term) afterwards. *)
Lemma arithmetic_parses :
  (forall l e, is_term l e ->
     forall pre t post errs,
       tokens = pre ++ l ++ t :: post ->
       kind_in (kind t) [TK.LPAREN; TK.STAR; TK.SLASH] = false ->
       forall r s',
         returns (fun n => term_while n e)
           (mkParser (List.length pre + List.length l) errs) r s' ->
         returns term (mkParser (List.length pre) errs) r s') /\
  (forall l e, is_factor l e ->
     forall pre t post errs,
       tokens = pre ++ l ++ t :: post ->
       kind t <> TK.LPAREN ->
       forall r s',
         returns (fun n => factor_while n e)
           (mkParser (List.length pre + List.length l) errs) r s' ->
         returns factor (mkParser (List.length pre) errs) r s') /\
  (forall l e, is_primary l e ->
     (exists t0 rest,
        l = t0 :: rest /\ In (kind t0) [TK.NUMBER; TK.STRING; TK.IDENT; TK.LPAREN]) /\
     forall pre post errs,
       tokens = pre ++ l ++ post ->
       returns primary (mkParser (List.length pre) errs) e
         (mkParser (List.length pre + List.length l) errs)).
Proof.
  assert (Hterm_step :
    forall l1 e1 op l2 e2 bop,
      (kind op = TK.PLUS \/ kind op = TK.MINUS) -> term_op op = bop ->
      (forall pre t post errs,
         tokens = pre ++ l1 ++ t :: post ->
         kind_in (kind t) [TK.LPAREN; TK.STAR; TK.SLASH] = false ->
         forall r s',
           returns (fun n => term_while n e1)
             (mkParser (List.length pre + List.length l1) errs) r s' ->
           returns term (mkParser (List.length pre) errs) r s') ->
      (forall pre t post errs,
         tokens = pre ++ l2 ++ t :: post ->
         kind t <> TK.LPAREN ->
         forall r s',
           returns (fun n => factor_while n e2)
             (mkParser (List.length pre + List.length l2) errs) r s' ->
           returns factor (mkParser (List.length pre) errs) r s') ->
      forall pre t post errs,
        tokens = pre ++ (l1 ++ op :: l2) ++ t :: post ->
        kind_in (kind t) [TK.LPAREN; TK.STAR; TK.SLASH] = false ->
        forall r s',
          returns (fun n => term_while n (Binary bop e1 e2))
            (mkParser (List.length pre + List.length (l1 ++ op :: l2)) errs)
            r s' ->
          returns term (mkParser (List.length pre) errs) r s').
  { intros l1 e1 op l2 e2 bop Hop Hbop IH1 IH2 pre t post errs E Hk r s' Hret.
    assert (E1 : tokens = pre ++ l1 ++ op :: (l2 ++ t :: post)) by list_eq E.
    assert (E2 : tokens = (pre ++ l1 ++ [op]) ++ l2 ++ t :: post)
      by list_eq E.
    apply (IH1 pre op (l2 ++ t :: post) errs E1).
    { destruct Hop as [-> | ->]; reflexivity. }
    apply (term_while_step _ op e1 e2
             (mkParser (List.length (pre ++ l1 ++ [op]) + List.length l2) errs)).
    - exact (cur_after pre l1 op _ errs E1).
    - destruct Hop as [-> | ->]; simpl; tauto.
    - replace (next (mkParser (List.length pre + List.length l1) errs))
        with (mkParser (List.length (pre ++ l1 ++ [op])) errs) by state_eq.
      apply (IH2 (pre ++ l1 ++ [op]) t post errs E2).
      { intros Hk'. rewrite Hk' in Hk. discriminate. }
      apply returns_stop. intros n.
      apply (factor_while_stop n e2 _ t (cur_after _ l2 t post errs E2)).
      apply stop_condition. revert Hk. apply kind_in_incl.
      intros x Hx. simpl in *. tauto.
    - rewrite Hbop.
      replace (mkParser (List.length (pre ++ l1 ++ [op]) + List.length l2) errs)
        with (mkParser (List.length pre + List.length (l1 ++ op :: l2)) errs)
        by state_eq.
      exact Hret. }
  assert (Hfactor_step :
    forall l1 e1 op l2 e2 bop,
      (kind op = TK.STAR \/ kind op = TK.SLASH) -> factor_op op = bop ->
      (forall pre t post errs,
         tokens = pre ++ l1 ++ t :: post ->
         kind t <> TK.LPAREN ->
         forall r s',
           returns (fun n => factor_while n e1)
             (mkParser (List.length pre + List.length l1) errs) r s' ->
           returns factor (mkParser (List.length pre) errs) r s') ->
      ((exists t0 rest,
          l2 = t0 :: rest /\ In (kind t0) [TK.NUMBER; TK.STRING; TK.IDENT; TK.LPAREN]) /\
       forall pre post errs,
         tokens = pre ++ l2 ++ post ->
         returns primary (mkParser (List.length pre) errs) e2
           (mkParser (List.length pre + List.length l2) errs)) ->
      forall pre t post errs,
        tokens = pre ++ (l1 ++ op :: l2) ++ t :: post ->
        kind t <> TK.LPAREN ->
        forall r s',
          returns (fun n => factor_while n (Binary bop e1 e2))
            (mkParser (List.length pre + List.length (l1 ++ op :: l2)) errs)
            r s' ->
          returns factor (mkParser (List.length pre) errs) r s').
  { intros l1 e1 op l2 e2 bop Hop Hbop IH1 [(t0 & rest & El2 & Hk0) IH2]
      pre t post errs E Hk r s' Hret.
    assert (E1 : tokens = pre ++ l1 ++ op :: (l2 ++ t :: post)) by list_eq E.
    assert (E2 : tokens = (pre ++ l1 ++ [op]) ++ l2 ++ t :: post)
      by list_eq E.
    apply (IH1 pre op (l2 ++ t :: post) errs E1).
    { destruct Hop as [-> | ->]; discriminate. }
    apply (factor_while_step _ op e1 e2
             (mkParser (List.length (pre ++ l1 ++ [op]) + List.length l2) errs)).
    - exact (cur_after pre l1 op _ errs E1).
    - destruct Hop as [-> | ->]; simpl; tauto.
    - replace (next (mkParser (List.length pre + List.length l1) errs))
        with (mkParser (List.length (pre ++ l1 ++ [op])) errs) by state_eq.
      apply (unary_of_primary _ t0 e2 _ t).
      + apply (cur_at _ t0 (rest ++ t :: post)). rewrite E2, El2.
        reflexivity.
      + exact Hk0.
      + exact (IH2 (pre ++ l1 ++ [op]) (t :: post) errs E2).
      + exact (cur_after _ l2 t post errs E2).
      + exact Hk.
    - rewrite Hbop.
      replace (mkParser (List.length (pre ++ l1 ++ [op]) + List.length l2) errs)
        with (mkParser (List.length pre + List.length (l1 ++ op :: l2)) errs)
        by state_eq.
      exact Hret. }
  apply is_arith_ind.
  - (* a factor is a term *)
    intros l e _ IH pre t post errs E Hk r s' Hret.
    apply (term_of_factor _ e
             (mkParser (List.length pre + List.length l) errs)); [|exact Hret].
    apply (IH pre t post errs E).
    { intros Hk'. rewrite Hk' in Hk. discriminate. }
    apply returns_stop. intros n.
    apply (factor_while_stop n e _ t (cur_after pre l t post errs E)).
    apply stop_condition. revert Hk. apply kind_in_incl.
    intros x Hx. simpl in *. tauto.
  - (* term + factor *)
    intros l1 e1 op l2 e2 _ IH1 Hop _ IH2.
    apply (Hterm_step l1 e1 op l2 e2); auto.
    unfold term_op. rewrite Hop. reflexivity.
  - (* term - factor *)
    intros l1 e1 op l2 e2 _ IH1 Hop _ IH2.
    apply (Hterm_step l1 e1 op l2 e2); auto.
    unfold term_op. rewrite Hop. reflexivity.
  - (* a primary is a factor *)
    intros l e _ [(t0 & rest & El & Hk0) IH] pre t post errs E Hk r s' Hret.
    apply (factor_of_unary _ e
             (mkParser (List.length pre + List.length l) errs)); [|exact Hret].
    apply (unary_of_primary _ t0 e _ t).
    + apply (cur_at _ t0 (rest ++ t :: post)). rewrite E, El. reflexivity.
    + exact Hk0.
    + exact (IH pre (t :: post) errs E).
    + exact (cur_after pre l t post errs E).
    + exact Hk.
  - (* factor * primary *)
    intros l1 e1 op l2 e2 _ IH1 Hop _ IH2.
    apply (Hfactor_step l1 e1 op l2 e2); auto.
    unfold factor_op. rewrite Hop. reflexivity.
  - (* factor / primary *)
    intros l1 e1 op l2 e2 _ IH1 Hop _ IH2.
    apply (Hfactor_step l1 e1 op l2 e2); auto.
    unfold factor_op. rewrite Hop. reflexivity.
  - (* a number *)
    intros t Hk. split; [exists t, []; rewrite Hk; simpl; tauto|].
    intros pre post errs E.
    pose proof (cur_at pre t post errs E) as Hcur.
    exists 1. intros [|n] Hn; [lia|].
    rewrite primary_S, bind_match_eq, Hcur, (kind_live t), Hk by congruence.
    eval_kind_in.
    rewrite (bind_previous_next _ _ t Hcur).
    unfold ret. f_equal. state_eq.
  - (* a string *)
    intros t Hk. split; [exists t, []; rewrite Hk; simpl; tauto|].
    intros pre post errs E.
    pose proof (cur_at pre t post errs E) as Hcur.
    exists 1. intros [|n] Hn; [lia|].
    rewrite primary_S, bind_match_eq, Hcur, (kind_live t), Hk by congruence.
    eval_kind_in.
    rewrite bind_match_eq, Hcur, (kind_live t), Hk by congruence.
    eval_kind_in.
    rewrite (bind_previous_next _ _ t Hcur).
    unfold ret. f_equal. state_eq.
  - (* a name *)
    intros t Hk. split; [exists t, []; rewrite Hk; simpl; tauto|].
    intros pre post errs E.
    pose proof (cur_at pre t post errs E) as Hcur.
    exists 1. intros [|n] Hn; [lia|].
    rewrite primary_S, bind_match_eq, Hcur, (kind_live t), Hk by congruence.
    eval_kind_in.
    rewrite bind_match_eq, Hcur, (kind_live t), Hk by congruence.
    eval_kind_in.
    rewrite bind_match_eq, Hcur, (kind_live t), Hk by congruence.
    eval_kind_in.
    rewrite (bind_previous_next _ _ t Hcur).
    unfold ret. f_equal. state_eq.
  - (* a group *)
    intros lp l e rp Hlp _ IH Hrp.
    split; [exists lp, (l ++ [rp]); rewrite Hlp; simpl; tauto|].
    intros pre post errs E.
    assert (E0 : tokens = pre ++ lp :: (l ++ rp :: post)) by list_eq E.
    assert (E1 : tokens = (pre ++ [lp]) ++ l ++ rp :: post) by list_eq E.
    pose proof (cur_at pre lp _ errs E0) as Hcur.
    pose proof (cur_after (pre ++ [lp]) l rp post errs E1) as Hcrp.
    set (s_mid := mkParser (List.length (pre ++ [lp]) + List.length l) errs)
      in *.
    apply (returns_S
             (fun n => expr <- expression n ;;
                       consume TK.RPAREN "Expected ')' after expression." ;;;
                       ret (Group expr))
             primary _ (next (mkParser (List.length pre) errs))).
    { intros n. apply (primary_lparen n _ lp Hcur Hlp). }
    apply (returns_bind expression
             (fun _ expr =>
                consume TK.RPAREN "Expected ')' after expression." ;;;
                ret (Group expr))
             _ e s_mid).
    + replace (next (mkParser (List.length pre) errs))
        with (mkParser (List.length (pre ++ [lp])) errs) by state_eq.
      apply (expression_of_term _ e s_mid rp); [|exact Hcrp|].
      * apply (IH (pre ++ [lp]) rp post errs E1).
        { rewrite Hrp. reflexivity. }
        apply returns_stop. intros n.
        apply (term_while_stop n e _ rp Hcrp).
        rewrite Hrp. apply andb_false_r.
      * rewrite Hrp. reflexivity.
    + exists 0. intros m _.
      rewrite bind_consume_eq, Hcrp, (kind_live rp), Hrp by congruence.
      eval_kind_in. unfold ret. f_equal. unfold s_mid. state_eq.
Qed.

(** Every arithmetic expression followed by a token that cannot continue
    it is parsed by [expression] to the tree of its derivation. *)
Lemma expression_parses_term l e pre t post errs :
  is_term l e ->
  tokens = pre ++ l ++ t :: post ->
  continues_expression (kind t) = false ->
  returns expression (mkParser (List.length pre) errs) e
    (mkParser (List.length pre + List.length l) errs).
Proof.
  intros Hl E Hk.
  pose proof (cur_after pre l t post errs E) as Hc.
  apply (expression_of_term _ e _ t); [|exact Hc|exact Hk].
  destruct arithmetic_parses as (Hterm & _).
  apply (Hterm l e Hl pre t post errs E).
  { revert Hk. apply kind_in_incl. intros x Hx. simpl in *. tauto. }
  apply returns_stop. intros n.
  apply (term_while_stop n e _ t Hc).
  apply stop_condition. revert Hk. apply kind_in_incl.
  intros x Hx. simpl in *. tauto.
Qed.


(** ** The error list *)

Local Abbreviation from_input := (from_input tokens).
Local Abbreviation Keeps := (Keeps tokens).
Local Abbreviation keeps := (keeps tokens).

Lemma Keeps_same {A} p s (o : Outcome A) s' :
  errors s' = errors s ->
  (forall e, o = Throw (ParseErr e) -> from_input e) ->
  Keeps p s (o, s').
Proof.
  intros He Ht. split; [|exact Ht].
  exists []. cbn [snd]. rewrite He, app_nil_r. auto.
Qed.

Lemma Keeps_bind {A B} p (c : M A) (k : A -> M B) s :
  Keeps p s (c s) ->
  (forall a s1, c s = (Ok a, s1) -> Keeps p s1 (k a s1)) ->
  Keeps p s (bind c k s).
Proof.
  intros [(l & El & Fl & Pl) He] Hk. unfold bind.
  destruct (c s) as [[a|e|] s1] eqn:E; cbn [fst snd] in *.
  - destruct (Hk a s1 eq_refl) as [(l2 & El2 & Fl2 & Pl2) He2].
    split; [|exact He2].
    exists (l ++ l2). rewrite El2, El, app_assoc. split; [reflexivity|].
    split; [apply Forall_app; auto|].
    intros Hp. rewrite Pl, Pl2 by exact Hp. reflexivity.
  - split; [exists l; auto|]. intros e0 [= ->]. apply He. reflexivity.
  - split; [exists l; auto|]. discriminate.
Qed.

Lemma keeps_bind {A B} p (c : M A) (k : A -> M B) :
  keeps p c -> (forall a, keeps p (k a)) -> keeps p (bind c k).
Proof. intros Hc Hk s. apply Keeps_bind; [apply Hc|]. intros. apply Hk. Qed.

Lemma keeps_weaken {A} (c : M A) : keeps true c -> keeps false c.
Proof.
  intros H s. destruct (H s) as [(l & El & Fl & _) He].
  split; [|exact He]. exists l. split; [exact El|]. split; [exact Fl|].
  discriminate.
Qed.

Lemma keeps_ret {A} p (a : A) : keeps p (ret a).
Proof. intros s. apply Keeps_same; [reflexivity|discriminate]. Qed.

Lemma keeps_out_of_fuel {A} p : keeps p (@out_of_fuel _ A).
Proof. intros s. apply Keeps_same; [reflexivity|discriminate]. Qed.

Lemma keeps_current p : keeps p current.
Proof.
  intros s. rewrite current_eq.
  destruct (cur s); apply Keeps_same; try reflexivity; discriminate.
Qed.

Lemma keeps_isAtEnd p : keeps p isAtEnd.
Proof.
  intros s. rewrite isAtEnd_eq.
  destruct (cur s); apply Keeps_same; try reflexivity; discriminate.
Qed.

Lemma keeps_check p k : keeps p (check k).
Proof.
  intros s. rewrite check_eq.
  destruct (cur s); apply Keeps_same; try reflexivity; discriminate.
Qed.

Lemma keeps_previous p : keeps p previous.
Proof.
  intros s. unfold previous.
  destruct (i s) as [|j]; [apply Keeps_same; [reflexivity|discriminate]|].
  destruct (nth_error tokens j);
    apply Keeps_same; try reflexivity; discriminate.
Qed.

Lemma keeps_advance p : keeps p advance.
Proof.
  intros s. rewrite advance_eq.
  destruct (cur s) as [tok|];
    [|apply Keeps_same; [reflexivity|discriminate]].
  destruct (live tok); [|apply keeps_previous].
  apply Keeps_same; [reflexivity|discriminate].
Qed.

Lemma keeps_match p kinds : kinds <> [] -> keeps p (match_ kinds).
Proof.
  intros Hne s. rewrite match_eq by exact Hne.
  destruct (cur s) as [tok|];
    [|apply Keeps_same; [reflexivity|discriminate]].
  destruct (live tok && kind_in (kind tok) kinds);
    apply Keeps_same; try reflexivity; discriminate.
Qed.

Lemma cur_In s tok : cur s = Some tok -> In tok tokens.
Proof. apply nth_error_In. Qed.

Lemma keeps_consume p k msg : In msg messages -> keeps p (consume k msg).
Proof.
  intros Hmsg s. rewrite consume_eq.
  destruct (cur s) as [tok|] eqn:Hcur;
    [|apply Keeps_same; [reflexivity|discriminate]].
  destruct (live tok && TK.eqb (kind tok) k);
    apply Keeps_same; try reflexivity; try discriminate.
  intros e [= <-]. split; [exact (cur_In _ _ Hcur)|exact Hmsg].
Qed.

Lemma keeps_current_throw {A} p msg :
  In msg messages ->
  keeps p (tok <- current ;; @throw _ A (ParseErr (error tok msg))).
Proof.
  intros Hmsg s. rewrite bind_current_eq.
  destruct (cur s) as [tok|] eqn:Hcur;
    apply Keeps_same; try reflexivity; try discriminate.
  intros e [= <-]. split; [exact (cur_In _ _ Hcur)|exact Hmsg].
Qed.

Ltac keeps_step :=
  repeat first
    [ assumption
    | apply keeps_ret
    | apply keeps_out_of_fuel
    | apply keeps_check
    | apply keeps_isAtEnd
    | apply keeps_current
    | apply keeps_previous
    | apply keeps_advance
    | apply keeps_consume; simpl; tauto
    | apply keeps_current_throw; simpl; tauto
    | apply keeps_match; congruence
    | apply keeps_weaken; assumption
    | match goal with
      | H : forall e, keeps _ _ |- _ => apply H
      | H : forall e, keeps _ _ |- _ => apply keeps_weaken; apply H
      | |- keeps _ (if ?b then _ else _) => destruct b
      | |- keeps _ (bind _ _) => apply keeps_bind; [|intros]
      end ].

(** The expression methods leave the error list alone. *)
Lemma expression_ladder_keeps n :
  keeps true (expression n) /\
  keeps true (logicOr n) /\
  (forall e, keeps true (logicOr_while n e)) /\
  keeps true (logicAnd n) /\
  (forall e, keeps true (logicAnd_while n e)) /\
  keeps true (equality n) /\
  (forall e, keeps true (equality_while n e)) /\
  keeps true (comparison n) /\
  (forall e, keeps true (comparison_while n e)) /\
  keeps true (term n) /\
  (forall e, keeps true (term_while n e)) /\
  keeps true (factor n) /\
  (forall e, keeps true (factor_while n e)) /\
  keeps true (unary n) /\
  keeps true (call n) /\
  (forall e, keeps true (call_while n e)) /\
  (forall a, keeps true (call_args n a)) /\
  keeps true (primary n).
Proof.
  induction n as [|n IH].
  - split_all; intros; apply keeps_out_of_fuel.
  - destruct IH
      as (? & ? & ? & ? & ? & ? & ? & ? & ? & ? & ? & ? & ? & ? & ? & ? & ? & ?).
    split_all; intros; autorewrite with fuel_step; keeps_step.
Qed.

Lemma keeps_synchronize_while n : keeps true (synchronize_while n).
Proof.
  induction n as [|n IH]; [apply keeps_out_of_fuel|].
  rewrite synchronize_while_S. keeps_step.
Qed.

Lemma keeps_synchronize n : keeps true (synchronize n).
Proof.
  unfold synchronize. pose proof (keeps_synchronize_while n). keeps_step.
Qed.

Lemma keeps_fnDecl_params n : forall ps, keeps true (fnDecl_params n ps).
Proof.
  induction n as [|n IH]; intros ps; [apply keeps_out_of_fuel|].
  rewrite fnDecl_params_S. keeps_step.
Qed.

Lemma keeps_letDecl n : keeps true (letDecl n).
Proof.
  pose proof (expression_ladder_keeps n) as (He & _).
  unfold letDecl. keeps_step.
Qed.

(** [assignOpFromToken] is called on a token that [peekIsAssignOp] has
    accepted: its [default] branch is not taken. *)
Lemma keeps_exprOrAssignStmt n : keeps true (exprOrAssignStmt n).
Proof.
  pose proof (expression_ladder_keeps n) as (He & _).
  intros s. unfold exprOrAssignStmt. rewrite bind_check_eq.
  destruct (cur s) as [tok|] eqn:Hcur;
    [|apply Keeps_same; [reflexivity|discriminate]].
  assert (Hexpr : forall s0,
    Keeps true s0
      ((expr <- expression n ;;
        consume TK.SEMICOLON "Expected ';' after expression." ;;;
        ret (ExprStmt expr)) s0)).
  { intros s0. revert s0. fold (keeps true
      (expr <- expression n ;;
       consume TK.SEMICOLON "Expected ';' after expression." ;;;
       ret (ExprStmt expr))). keeps_step. }
  destruct (live tok && TK.eqb (kind tok) TK.IDENT) eqn:Hc;
    [|rewrite bind_ret_eq; apply Hexpr].
  apply andb_true_iff in Hc. destruct Hc as [Hlive Hk].
  unfold bind at 1. rewrite peekIsAssignOp_eq.
  destruct (lookahead s) as [t2|] eqn:Hla; [|apply Hexpr].
  destruct (is_assign_kind (kind t2)) eqn:Hak; [|apply Hexpr].
  unfold bind at 1. rewrite advance_eq, Hcur, Hlive.
  assert (Hc2 : cur (next s) = Some t2).
  { unfold cur, lookahead in *. cbn [i next]. rewrite <- Hla. f_equal. lia. }
  unfold bind at 1.
  rewrite advance_eq, Hc2, (is_assign_kind_live _ Hak).
  destruct (assignOpFromToken_ok _ Hak) as [op Hop].
  unfold bind at 1. rewrite Hop.
  assert (Hrest : keeps true
    (value <- expression n ;;
     consume TK.SEMICOLON "Expected ';' after assignment." ;;;
     ret (Assign (lexeme tok) op value))) by keeps_step.
  destruct (Hrest (next (next s))) as [Hl Ht].
  split; [exact Hl|exact Ht].
Qed.

Lemma keeps_declaration_catch n pe :
  from_input pe -> keeps false (declaration_catch n (ParseErr pe)).
Proof.
  intros Hpe. unfold declaration_catch.
  apply keeps_bind.
  - intros s. split; [|discriminate].
    exists [pe]. split; [reflexivity|]. split; [|discriminate].
    constructor; [exact Hpe|constructor].
  - intros _. pose proof (keeps_synchronize n). keeps_step.
Qed.

Lemma keeps_try_catch n (body : M (option Stmt)) :
  keeps false body -> keeps false (try_catch body (declaration_catch n)).
Proof.
  intros Hb s. unfold try_catch.
  pose proof (Hb s) as HK.
  destruct (body s) as [[a|[pe|msg]|] s1] eqn:E; try exact HK.
  destruct HK as [(l & El & Fl & _) He]. cbn [fst snd] in *.
  specialize (He pe eq_refl).
  destruct (keeps_declaration_catch n pe He s1) as [(l2 & El2 & Fl2 & _) He2].
  split; [|exact He2].
  exists (l ++ l2). rewrite El2, El, app_assoc. split; [reflexivity|].
  split; [apply Forall_app; auto|discriminate].
Qed.

Lemma statements_keep n :
  keeps false (declaration n) /\
  keeps false (statement n) /\
  keeps false (fnDecl n) /\
  keeps false (ifStmt n) /\
  keeps false (whileStmt n) /\
  keeps false (blockStmtAlreadyOpened n) /\
  keeps false (blockStmtsAlreadyOpened n) /\
  (forall l, keeps false (blockStmtsAlreadyOpened_while n l)).
Proof.
  induction n as [|n IH].
  - split_all; intros; apply keeps_out_of_fuel.
  - destruct IH as (? & ? & ? & ? & ? & ? & ? & ?).
    pose proof (expression_ladder_keeps n) as (He & _).
    pose proof (keeps_letDecl n).
    pose proof (keeps_exprOrAssignStmt n).
    pose proof (keeps_fnDecl_params n).
    split_all; intros; autorewrite with fuel_step;
      try (apply keeps_try_catch; unfold declaration_try); keeps_step.
Qed.

Lemma keeps_parseProgram_while n :
  forall out, keeps false (parseProgram_while n out).
Proof.
  induction n as [|n IH]; intros out; [apply keeps_out_of_fuel|].
  pose proof (statements_keep n) as (Hd & _).
  rewrite parseProgram_while_S. keeps_step.
Qed.

Lemma messages_not_assignment m x :
  In m messages ->
  m <> ("Expected assignment operator, got '" ++ x)%string.
Proof.
  unfold messages. cbn [In].
  intros H; repeat (destruct H as [<-|H]; [discriminate|]); destruct H.
Qed.

(** X1 (the error list is append-only).  Whatever the token array, the
    fuel and the state, [parseProgram], [declaration] and [statement] keep
    the errors recorded so far, in order, at the front of [errors]: they
    only append. *)
Theorem errors_are_only_appended :
  forall n s,
    (exists l, errors (snd (parseProgram n s)) = errors s ++ l) /\
    (exists l, errors (snd (declaration n s)) = errors s ++ l) /\
    (exists l, errors (snd (statement n s)) = errors s ++ l).
Proof.
  intros n s.
  pose proof (statements_keep n) as (Hd & Hs & _).
  split; [|split].
  - destruct (keeps_parseProgram_while n [] s) as [(l & El & _) _]. eauto.
  - destruct (Hd s) as [(l & El & _) _]. eauto.
  - destruct (Hs s) as [(l & El & _) _]. eauto.
Qed.

(** X2 (only the [catch] of [declaration] writes to [errors]).  The
    expression methods, [letDecl], [exprOrAssignStmt] and [synchronize]
    return or throw with the error list they were started with, whatever
    the token array, the fuel and the state. *)
Theorem expressions_leave_errors_alone :
  forall n s,
    errors (snd (expression n s)) = errors s /\
    (forall callee, errors (snd (call_while n callee s)) = errors s) /\
    errors (snd (primary n s)) = errors s /\
    errors (snd (letDecl n s)) = errors s /\
    errors (snd (exprOrAssignStmt n s)) = errors s /\
    errors (snd (synchronize n s)) = errors s.
Proof.
  intros n s.
  assert (Hpure : forall A (c : M A), keeps true c ->
                    errors (snd (c s)) = errors s).
  { intros A c Hc. destruct (Hc s) as [(l & El & _ & Hl) _].
    rewrite El, (Hl eq_refl), app_nil_r. reflexivity. }
  pose proof (expression_ladder_keeps n)
    as (He & _ & _ & _ & _ & _ & _ & _ & _ & _ & _ & _ & _ & _ & _ & Hc & _ & Hp).
  split_all; intros; apply Hpure; auto.
  - apply keeps_letDecl.
  - apply keeps_exprOrAssignStmt.
  - apply keeps_synchronize.
Qed.

(** X3 (what a recorded error holds).  Every error that [parseProgram]
    records, and every [ParseError] that [statement] or [expression]
    throws, carries a token of the token array and one of the sixteen fixed
    messages; none carries the message "Expected assignment operator, got
    ...": the [default] branch of [assignOpFromToken] is never taken. *)
Theorem recorded_errors_come_from_input :
  (forall n e,
     In e (errors (snd (parseProgram n newParser))) ->
     In (token e) tokens /\ In (message e) messages /\
     forall k, message e <>
               ("Expected assignment operator, got '" ++ kindText k ++ "'.")%string) /\
  (forall n s e s',
     (statement n s = (Throw (ParseErr e), s') \/
      expression n s = (Throw (ParseErr e), s')) ->
     In (token e) tokens /\ In (message e) messages /\
     forall k, message e <>
               ("Expected assignment operator, got '" ++ kindText k ++ "'.")%string).
Proof.
  split.
  - intros n e Hin.
    destruct (keeps_parseProgram_while n [] newParser) as [(l & El & Fl & _) _].
    fold (parseProgram n) in El. rewrite El in Hin. cbn [errors newParser app] in Hin.
    rewrite Forall_forall in Fl. destruct (Fl e Hin) as [Ht Hm].
    split; [exact Ht|]. split; [exact Hm|].
    intros k. apply messages_not_assignment, Hm.
  - intros n s e s' H.
    assert (Hf : from_input e).
    { destruct H as [H|H].
      + pose proof (statements_keep n) as (_ & Hs & _).
        destruct (Hs s) as [_ Ht]. apply Ht. rewrite H. reflexivity.
      + pose proof (expression_ladder_keeps n) as (He & _).
        destruct (He s) as [_ Ht]. apply Ht. rewrite H. reflexivity. }
    destruct Hf as [Ht Hm].
    split; [exact Ht|]. split; [exact Hm|].
    intros k. apply messages_not_assignment, Hm.
Qed.

(** ** What can leave [parseProgram] *)

(** A plain [Error] that leaves [parseProgram] is the one of the missing
    sentinel. *)
Lemma parseProgram_fatal n s msg s' :
  i s <= limit ->
  parseProgram n s = (Throw (FatalErr msg), s') ->
  FatalErr msg = missing_eof /\ ~ has_eof.
Proof.
  intros Hle E.
  set (m := Nat.max n (20 * (limit - i s) + 13)).
  assert (Em : parseProgram m s = (Throw (FatalErr msg), s')).
  { apply (refines_run (parseProgram n) (parseProgram m) s _ s');
      [apply parseProgram_mono; lia | exact E | discriminate]. }
  assert (Hp : Post false (i s) (parseProgram m s)).
  { apply (parseProgram_while_terminates m []); [exact Hle|].
    unfold enough. lia. }
  rewrite Em in Hp. destruct Hp as (_ & _ & _ & _ & H4 & H5 & _).
  cbn [fst] in *.
  split; [apply H5; reflexivity|].
  intros Heof. exact (H4 Heof msg eq_refl).
Qed.

(** X4 (which of the parser's exceptions leave [parseProgram]).  Of the
    two kinds of exceptions that the parser's code throws, a [ParseError]
    never leaves [declaration] nor [parseProgram], in whatever state they
    are started: the [catch] clause of [declaration] takes every one of
    them.  A plain [Error] is rethrown; when [parseProgram] is started at
    or before the first end-of-input token, the one that leaves it is
    "Parser invariant violated: missing EOF token", and the token array
    then holds no end-of-input token; "previous() before start" does not
    occur.  Exceptions that the engine raises by itself (a [RangeError]
    on a source nested too deeply for its call stack) are outside this
    statement: they are no outcome of the embedding, where a run that is
    given too little fuel ends in [OutOfFuel]. *)
Theorem no_parse_error_leaves_parseProgram :
  (forall n s e s', declaration n s <> (Throw (ParseErr e), s')) /\
  (forall n s e s', parseProgram n s <> (Throw (ParseErr e), s')) /\
  (forall n s msg s',
     i s <= limit ->
     parseProgram n s = (Throw (FatalErr msg), s') ->
     FatalErr msg = missing_eof /\ ~ has_eof).
Proof.
  split; [|split].
  - intros n s e s'. apply quiet_declaration.
  - intros n s e s'. apply quiet_parseProgram_while.
  - exact parseProgram_fatal.
Qed.

(** ** The first token of an expression *)

Lemma kind_in_false k l : ~ In k l -> kind_in k l = false.
Proof.
  intros H. apply not_true_is_false. intros Ht.
  apply existsb_exists in Ht. destruct Ht as (x & Hx & E).
  apply TKFacts.eqb_eq in E. subst x. exact (H Hx).
Qed.

Lemma match_misses {B} kinds (k : bool -> M B) s t :
  kinds <> [] -> cur s = Some t ->
  (kind t = TK.EOF \/ ~ In (kind t) kinds) ->
  bind (match_ kinds) k s = k false s.
Proof.
  intros Hne Hcur H. rewrite bind_match_eq, Hcur by exact Hne.
  destruct H as [H|H].
  - rewrite (kind_not_live _ H). reflexivity.
  - rewrite (kind_in_false _ _ H), andb_false_r. reflexivity.
Qed.

Lemma match_missing_eof {B} kinds (k : bool -> M B) s :
  kinds <> [] -> cur s = None ->
  bind (match_ kinds) k s = (Throw missing_eof, s).
Proof. intros Hne Hcur. rewrite bind_match_eq, Hcur by exact Hne. reflexivity. Qed.

Lemma ladder_throws n s e :
  unary (S (S (S n))) s = (Throw e, s) ->
  expression (10 + n) s = (Throw e, s).
Proof.
  intros Hu. cbn [Nat.add].
  rewrite expression_S, logicOr_S. apply bind_throws.
  rewrite logicAnd_S. apply bind_throws.
  rewrite equality_S. apply bind_throws.
  rewrite comparison_S. apply bind_throws.
  rewrite term_S. apply bind_throws.
  rewrite factor_S. apply bind_throws.
  exact Hu.
Qed.

Lemma not_in_starts k :
  (k = TK.EOF \/ ~ In k expression_starts) ->
  forall kinds, incl kinds expression_starts ->
                k = TK.EOF \/ ~ In k kinds.
Proof.
  intros [H|H] kinds Hincl; [left; exact H|].
  right. intros Hin. apply H, Hincl, Hin.
Qed.

Lemma expression_rejects n s t :
  cur s = Some t ->
  (kind t = TK.EOF \/ ~ In (kind t) expression_starts) ->
  expression (10 + n) s
  = (Throw (ParseErr (error t "Expected expression.")), s).
Proof.
  intros Hcur H.
  pose proof (not_in_starts _ H) as Hk.
  assert (Hincl : forall kinds, (forall k, In k kinds -> In k expression_starts)
                                -> incl kinds expression_starts)
    by (intros kinds Hi k; apply Hi).
  apply ladder_throws.
  rewrite unary_S, (match_misses _ _ s t); [|congruence|exact Hcur|].
  2:{ apply Hk, Hincl. unfold expression_starts. cbn [In]. tauto. }
  rewrite call_S. apply bind_throws. rewrite primary_S.
  rewrite (match_misses _ _ s t); [|congruence|exact Hcur|].
  2:{ apply Hk, Hincl. unfold expression_starts. cbn [In]. tauto. }
  rewrite (match_misses _ _ s t); [|congruence|exact Hcur|].
  2:{ apply Hk, Hincl. unfold expression_starts. cbn [In]. tauto. }
  rewrite (match_misses _ _ s t); [|congruence|exact Hcur|].
  2:{ apply Hk, Hincl. unfold expression_starts. cbn [In]. tauto. }
  rewrite (match_misses _ _ s t); [|congruence|exact Hcur|].
  2:{ apply Hk, Hincl. unfold expression_starts. cbn [In]. tauto. }
  rewrite bind_current_eq, Hcur. reflexivity.
Qed.

Lemma expression_missing_eof n s :
  cur s = None -> expression (10 + n) s = (Throw missing_eof, s).
Proof.
  intros Hcur. apply ladder_throws.
  rewrite unary_S. apply match_missing_eof; [congruence|exact Hcur].
Qed.

Lemma In_dec_kind (k : TokenKind) l : {In k l} + {~ In k l}.
Proof. apply in_dec, TK.eq_dec. Qed.

(** X5 (the first token of an expression).  (1) On a token that is the
    end-of-input token or whose kind is none of [not], [-], [!], number,
    string, identifier, [(], [expression] throws the [ParseError]
    "Expected expression." carrying that token and consumes nothing.
    (2) Hence an expression that is returned started on a token of one of
    these seven kinds.  (3) [statement] fails in the same way on such a
    token unless it is [if], [while] or [{]: the empty statement [;] is not
    a statement. *)
Theorem expression_needs_a_start :
  (forall n s t,
     cur s = Some t ->
     (kind t = TK.EOF \/ ~ In (kind t) expression_starts) ->
     expression (10 + n) s
     = (Throw (ParseErr (error t "Expected expression.")), s)) /\
  (forall n s e s',
     expression n s = (Ok e, s') ->
     exists t, cur s = Some t /\ In (kind t) expression_starts /\
               kind t <> TK.EOF) /\
  (forall n s t,
     cur s = Some t ->
     (kind t = TK.EOF \/
      ~ In (kind t) (statement_keywords ++ expression_starts)) ->
     statement (11 + n) s
     = (Throw (ParseErr (error t "Expected expression.")), s)).
Proof.
  split; [exact expression_rejects|]. split.
  - intros n s e s' E.
    assert (E' : expression (10 + n) s = (Ok e, s')).
    { apply (refines_run (expression n) (expression (10 + n)) s (Ok e) s');
        [apply expression_mono; lia | exact E | discriminate]. }
    destruct (cur s) as [t|] eqn:Hcur.
    + destruct (In_dec_kind (kind t) expression_starts) as [Hin|Hin].
      * exists t. split; [reflexivity|]. split; [exact Hin|].
        intros Hk. rewrite Hk in Hin. unfold expression_starts in Hin.
        cbn [In] in Hin. intuition discriminate.
      * rewrite (expression_rejects n s t Hcur (or_intror Hin)) in E'.
        discriminate.
    + rewrite (expression_missing_eof n s Hcur) in E'. discriminate.
  - intros n s t Hcur H.
    assert (Hs : kind t = TK.EOF \/ ~ In (kind t) statement_keywords).
    { destruct H as [H|H]; [left; exact H|]. right. intros Hin.
      apply H, in_or_app. left. exact Hin. }
    assert (He : kind t = TK.EOF \/ ~ In (kind t) expression_starts).
    { destruct H as [H|H]; [left; exact H|]. right. intros Hin.
      apply H, in_or_app. right. exact Hin. }
    assert (Hone : forall k, In k statement_keywords ->
                             kind t = TK.EOF \/ ~ In (kind t) [k]).
    { intros k Hk. destruct Hs as [Hs|Hs]; [left; exact Hs|]. right.
      intros [E|[]]. apply Hs. rewrite <- E. exact Hk. }
    change (11 + n) with (S (10 + n)). rewrite statement_S.
    rewrite (match_misses _ _ s t); [|congruence|exact Hcur|].
    2:{ apply Hone. unfold statement_keywords. cbn [In]. tauto. }
    rewrite (match_misses _ _ s t); [|congruence|exact Hcur|].
    2:{ apply Hone. unfold statement_keywords. cbn [In]. tauto. }
    rewrite (match_misses _ _ s t); [|congruence|exact Hcur|].
    2:{ apply Hone. unfold statement_keywords. cbn [In]. tauto. }
    unfold exprOrAssignStmt. rewrite bind_check_eq, Hcur.
    assert (Hc : live t && TK.eqb (kind t) TK.IDENT = false).
    { destruct He as [He|He]; [rewrite (kind_not_live _ He); reflexivity|].
      apply andb_false_iff. right. apply TKFacts.eqb_neq. intros Hk.
      apply He. rewrite Hk. unfold expression_starts. cbn [In]. tauto. }
    rewrite Hc, bind_ret_eq. apply bind_throws.
    exact (expression_rejects n s t Hcur He).
Qed.

(** ** The tokens a method consumes *)

Local Abbreviation slice := (slice tokens).
Local Abbreviation reads := (reads tokens).
Local Abbreviation reads_clean := (reads_clean tokens).

Lemma firstn_plus {A} n m (l : list A) :
  firstn (n + m) l = firstn n l ++ firstn m (skipn n l).
Proof.
  revert l. induction n as [|n IH]; intros [|x l]; cbn; try reflexivity.
  - rewrite firstn_nil. reflexivity.
  - f_equal. apply IH.
Qed.

Lemma slice_nil a : slice a a = [].
Proof. unfold slice. rewrite Nat.sub_diag. reflexivity. Qed.

Lemma slice_app a b c :
  a <= b -> b <= c -> slice a c = slice a b ++ slice b c.
Proof.
  intros Hab Hbc. unfold slice.
  replace (c - a) with ((b - a) + (c - b)) by lia.
  rewrite firstn_plus, skipn_skipn.
  replace (b - a + a) with b by lia. reflexivity.
Qed.

Lemma slice_one s tok : cur s = Some tok -> slice (i s) (S (i s)) = [tok].
Proof.
  unfold cur, slice. intros H.
  replace (S (i s) - i s) with 1 by lia.
  rewrite <- hd_error_skipn in H.
  destruct (skipn (i s) tokens); cbn in *; congruence.
Qed.

Lemma slice_next s tok s' :
  cur s = Some tok -> S (i s) <= i s' ->
  slice (i s) (i s') = tok :: slice (S (i s)) (i s').
Proof.
  intros Hcur Hle.
  rewrite (slice_app (i s) (S (i s)) (i s')), (slice_one s tok Hcur) by lia.
  reflexivity.
Qed.

Lemma kind_in_In k l : kind_in k l = true -> In k l.
Proof.
  unfold kind_in. intros H. apply existsb_exists in H.
  destruct H as (x & Hx & E). apply TKFacts.eqb_eq in E. subst x. exact Hx.
Qed.

Lemma reads_ret {A} (a : A) (R : list Token -> A -> Prop) :
  R [] a -> reads (ret a) R.
Proof.
  intros H s a' s' [= <- <-]. rewrite slice_nil. split; [lia|exact H].
Qed.

Lemma reads_out_of_fuel {A} (R : list Token -> A -> Prop) :
  reads out_of_fuel R.
Proof. intros s a s'. discriminate. Qed.

Lemma reads_bind {A B} (c : M A) (k : A -> M B) (R1 : list Token -> A -> Prop)
  (R : list Token -> B -> Prop) :
  reads c R1 ->
  (forall a l1, R1 l1 a -> reads (k a) (fun l2 b => R (l1 ++ l2) b)) ->
  reads (bind c k) R.
Proof.
  intros Hc Hk s b s' E. apply bind_ok_inv in E.
  destruct E as (a & s1 & E1 & E2).
  destruct (Hc _ _ _ E1) as [Hle1 HR1].
  destruct (Hk a _ HR1 _ _ _ E2) as [Hle2 HR].
  split; [lia|]. rewrite (slice_app (i s) (i s1) (i s')) by lia. exact HR.
Qed.

Lemma reads_conseq {A} (c : M A) (R R' : list Token -> A -> Prop) :
  reads c R -> (forall l a, R l a -> R' l a) -> reads c R'.
Proof.
  intros Hc H s a s' E. destruct (Hc _ _ _ E) as [Hle HR]. auto.
Qed.

Lemma reads_check k : reads (check k) (fun l _ => l = []).
Proof.
  intros s a s'. rewrite check_eq. destruct (cur s); [|discriminate].
  intros [= <- <-]. rewrite slice_nil. auto.
Qed.

Lemma reads_isAtEnd : reads isAtEnd (fun l _ => l = []).
Proof.
  intros s a s'. rewrite isAtEnd_eq. destruct (cur s); [|discriminate].
  intros [= <- <-]. rewrite slice_nil. auto.
Qed.

Lemma reads_consume k msg :
  reads (consume k msg) (fun l t => l = [t] /\ kind t = k).
Proof.
  intros s a s'. rewrite consume_eq.
  destruct (cur s) as [tok|] eqn:Hcur; [|discriminate].
  destruct (live tok && TK.eqb (kind tok) k) eqn:Hm; [|discriminate].
  intros [= <- <-]. apply andb_true_iff in Hm. destruct Hm as [_ Hk].
  apply TKFacts.eqb_eq in Hk. cbn [i next].
  rewrite (slice_one _ _ Hcur). auto.
Qed.

Lemma reads_current_throw {A} e (R : list Token -> A -> Prop) :
  reads (tok <- current ;; throw (e tok)) R.
Proof.
  intros s a s'. rewrite bind_current_eq. destruct (cur s); discriminate.
Qed.

Lemma reads_match {B} kinds (K E : M B) (R : list Token -> B -> Prop) :
  kinds <> [] ->
  (forall t, In (kind t) kinds -> reads K (fun l b => R (t :: l) b)) ->
  reads E R ->
  reads (b <- match_ kinds ;; if b then K else E) R.
Proof.
  intros Hne HK HE s b s'. rewrite bind_match_eq by exact Hne.
  destruct (cur s) as [tok|] eqn:Hcur; [|discriminate].
  destruct (live tok && kind_in (kind tok) kinds) eqn:Hm; [|apply HE].
  intros E1. apply andb_true_iff in Hm. destruct Hm as [_ Hin].
  destruct (HK tok (kind_in_In _ _ Hin) _ _ _ E1) as [Hle HR].
  cbn [i next] in *. split; [lia|].
  rewrite (slice_next s tok s' Hcur Hle). exact HR.
Qed.

Lemma reads_match_previous {B} kinds (K : Token -> M B) (E : M B)
  (R : list Token -> B -> Prop) :
  kinds <> [] ->
  (forall t, In (kind t) kinds -> reads (K t) (fun l b => R (t :: l) b)) ->
  reads E R ->
  reads (b <- match_ kinds ;; if b then opTok <- previous ;; K opTok else E) R.
Proof.
  intros Hne HK HE s b s'. rewrite bind_match_eq by exact Hne.
  destruct (cur s) as [tok|] eqn:Hcur; [|discriminate].
  destruct (live tok && kind_in (kind tok) kinds) eqn:Hm; [|apply HE].
  rewrite (bind_previous_next _ s tok Hcur).
  intros E1. apply andb_true_iff in Hm. destruct Hm as [_ Hin].
  destruct (HK tok (kind_in_In _ _ Hin) _ _ _ E1) as [Hle HR].
  cbn [i next] in *. split; [lia|].
  rewrite (slice_next s tok s' Hcur Hle). exact HR.
Qed.

Ltac norm_app :=
  repeat first [ rewrite <- app_assoc | rewrite app_nil_r
               | progress cbn [app] ].
Ltac norm_app_in H :=
  repeat first [ rewrite <- app_assoc in H | rewrite app_nil_r in H
               | progress cbn [app] in H ].

(** *** Expressions *)

Local Abbreviation loop_reads lvl loop :=
  (forall e0 l0, derives lvl l0 e0 ->
                 reads (loop e0) (fun l e => derives lvl (l0 ++ l) e)).

Section TierSound.
Variable lvl : Level.
Variable ops : list TokenKind.
Variable sub : M Expr.
Variable loop : Expr -> M Expr.
Hypothesis Hops : ops <> [].
Hypothesis Hsub : reads sub (derives (below lvl)).
Hypothesis Hloop : loop_reads lvl loop.

Lemma tier_reads : reads (expr <- sub ;; loop expr) (derives lvl).
Proof.
  apply (reads_bind _ _ (derives (below lvl))); [exact Hsub|].
  intros e0 l1 H1. apply Hloop. apply D_tighter, H1.
Qed.

Lemma tier_loop_reads (opf : Token -> BinaryOp.t) :
  (forall t, In (kind t) ops -> binary_of lvl (kind t) = Some (opf t)) ->
  loop_reads lvl
    (fun e0 =>
       b <- match_ ops ;;
       if b then
         opTok <- previous ;;
         rhs <- sub ;; loop (Binary (opf opTok) e0 rhs)
       else ret e0).
Proof.
  intros Hopf e0 l0 H0. apply reads_match_previous; [exact Hops| |].
  - intros t Hin. apply (reads_bind _ _ (derives (below lvl))); [exact Hsub|].
    intros rhs l1 H1.
    eapply reads_conseq;
      [apply (Hloop (Binary (opf t) e0 rhs) (l0 ++ t :: l1));
       apply D_binary; auto|].
    cbv beta. intros l e H. norm_app_in H. exact H.
  - apply reads_ret. rewrite app_nil_r. exact H0.
Qed.

Lemma tier_loop_reads_const (op : BinaryOp.t) :
  (forall t, In (kind t) ops -> binary_of lvl (kind t) = Some op) ->
  loop_reads lvl
    (fun e0 =>
       b <- match_ ops ;;
       if b then rhs <- sub ;; loop (Binary op e0 rhs)
       else ret e0).
Proof.
  intros Hop e0 l0 H0. apply reads_match; [exact Hops| |].
  - intros t Hin. apply (reads_bind _ _ (derives (below lvl))); [exact Hsub|].
    intros rhs l1 H1.
    eapply reads_conseq;
      [apply (Hloop (Binary op e0 rhs) (l0 ++ t :: l1));
       apply D_binary; auto|].
    cbv beta. intros l e H. norm_app_in H. exact H.
  - apply reads_ret. rewrite app_nil_r. exact H0.
Qed.

End TierSound.

Ltac solve_op :=
  let t := fresh "t" in
  let Hin := fresh "Hin" in
  intros t Hin; cbn [In] in Hin;
  unfold equality_op, comparison_op, term_op, factor_op;
  repeat (destruct Hin as [Hin|Hin]; [rewrite <- Hin; reflexivity|]);
  destruct Hin.

Lemma expression_ladder_reads n :
  reads (expression n) (derives L_or) /\
  reads (logicOr n) (derives L_or) /\
  loop_reads L_or (logicOr_while n) /\
  reads (logicAnd n) (derives L_and) /\
  loop_reads L_and (logicAnd_while n) /\
  reads (equality n) (derives L_equality) /\
  loop_reads L_equality (equality_while n) /\
  reads (comparison n) (derives L_comparison) /\
  loop_reads L_comparison (comparison_while n) /\
  reads (term n) (derives L_term) /\
  loop_reads L_term (term_while n) /\
  reads (factor n) (derives L_factor) /\
  loop_reads L_factor (factor_while n) /\
  reads (unary n) (derives L_unary) /\
  reads (call n) (derives L_call) /\
  loop_reads L_call (call_while n) /\
  (forall acc, reads (call_args n acc)
                 (fun l r => exists rest, r = acc ++ rest /\
                                          derives_list l rest)) /\
  reads (primary n) (derives L_primary).
Proof.
  induction n as [|n IH].
  - split_all; intros; apply reads_out_of_fuel.
  - destruct IH
      as (He & Hor & Horw & Hand & Handw & Heq & Heqw & Hcmp & Hcmpw
          & Hterm & Htermw & Hfac & Hfacw & Hun & Hcall & Hcallw & Hargs
          & Hprim).
    split_all.
    + rewrite expression_S. exact Hor.
    + rewrite logicOr_S. apply (tier_reads L_or); assumption.
    + intros e0 l0 H0. rewrite logicOr_while_S.
      apply (tier_loop_reads_const L_or [TK.OR] (logicAnd n) (logicOr_while n));
        try assumption; [congruence|solve_op].
    + rewrite logicAnd_S. apply (tier_reads L_and); assumption.
    + intros e0 l0 H0. rewrite logicAnd_while_S.
      apply (tier_loop_reads_const L_and [TK.AND] (equality n)
               (logicAnd_while n));
        try assumption; [congruence|solve_op].
    + rewrite equality_S. apply (tier_reads L_equality); assumption.
    + intros e0 l0 H0. rewrite equality_while_S.
      apply (tier_loop_reads L_equality [TK.EQUAL; TK.NOTEQ] (comparison n)
               (equality_while n));
        try assumption; [congruence|solve_op].
    + rewrite comparison_S. apply (tier_reads L_comparison); assumption.
    + intros e0 l0 H0. rewrite comparison_while_S.
      apply (tier_loop_reads L_comparison [TK.LT; TK.LTE; TK.GT; TK.GTE]
               (term n) (comparison_while n));
        try assumption; [congruence|solve_op].
    + rewrite term_S. apply (tier_reads L_term); assumption.
    + intros e0 l0 H0. rewrite term_while_S.
      apply (tier_loop_reads L_term [TK.PLUS; TK.MINUS] (factor n)
               (term_while n));
        try assumption; [congruence|solve_op].
    + rewrite factor_S. apply (tier_reads L_factor); assumption.
    + intros e0 l0 H0. rewrite factor_while_S.
      apply (tier_loop_reads L_factor [TK.STAR; TK.SLASH] (unary n)
               (factor_while n));
        try assumption; [congruence|solve_op].
    + (* unary *)
      rewrite unary_S. apply reads_match_previous; [congruence| |].
      * intros t Hin. apply (reads_bind _ _ (derives L_unary)); [exact Hun|].
        intros rhs l1 H1. apply reads_ret. rewrite app_nil_r.
        cbn [In] in Hin. unfold unary_op.
        destruct Hin as [Hin|[Hin|[Hin|[]]]]; rewrite <- Hin; cbn.
        -- apply D_not; auto.
        -- apply D_minus; auto.
        -- apply D_not; auto.
      * eapply reads_conseq; [exact Hcall|].
        intros l e H. apply D_tighter. exact H.
    + rewrite call_S. apply (tier_reads L_call); assumption.
    + (* the loop of call *)
      intros f l0 H0. rewrite call_while_S.
      apply reads_match;
        [congruence| |apply reads_ret; rewrite app_nil_r; exact H0].
      intros lp Hlp. cbn [In] in Hlp. destruct Hlp as [Hlp|[]].
      apply (reads_bind _ _ (fun l _ => l = [])); [apply reads_check|].
      intros c l1 ->.
      apply (reads_bind _ _
               (fun l args => (l = [] /\ args = []) \/ derives_list l args)).
      { destruct c; cbn [negb].
        - apply reads_ret. left. auto.
        - eapply reads_conseq; [apply (Hargs [])|].
          intros l a (rest & -> & Hd). right. exact Hd. }
      intros args la Ha.
      apply (reads_bind _ _ (fun l t => l = [t] /\ kind t = TK.RPAREN));
        [apply reads_consume|].
      intros rp l2 [-> Hrp].
      eapply reads_conseq;
        [apply (Hcallw (Call f args) (l0 ++ lp :: la ++ [rp]))|].
      * destruct Ha as [[-> ->]|Hd].
        -- apply D_call_empty; auto.
        -- apply D_call; auto.
      * cbv beta. intros l e H. norm_app_in H. norm_app. exact H.
    + (* the arguments *)
      intros acc. rewrite call_args_S.
      apply (reads_bind _ _ (derives L_or)); [exact He|].
      intros e le Hd. apply reads_match; [congruence| |].
      * intros c Hc. cbn [In] in Hc. destruct Hc as [Hc|[]].
        eapply reads_conseq; [apply (Hargs (acc ++ [e]))|].
        cbv beta. intros l r (rest & -> & Hr). exists (e :: rest).
        split; [rewrite <- app_assoc; reflexivity|].
        apply DL_cons; auto.
      * apply reads_ret. exists [e]. split; [reflexivity|].
        rewrite app_nil_r. apply DL_one, Hd.
    + (* primary *)
      rewrite primary_S.
      apply reads_match_previous; [congruence| |].
      { intros t [Ht|[]]. apply reads_ret. apply D_number. auto. }
      apply reads_match_previous; [congruence| |].
      { intros t [Ht|[]]. apply reads_ret. apply D_string. auto. }
      apply reads_match_previous; [congruence| |].
      { intros t [Ht|[]]. apply reads_ret. apply D_ident. auto. }
      apply reads_match; [congruence| |].
      { intros lp [Hlp|[]].
        apply (reads_bind _ _ (derives L_or)); [exact He|].
        intros e l Hd.
        apply (reads_bind _ _ (fun l t => l = [t] /\ kind t = TK.RPAREN));
          [apply reads_consume|].
        intros rp l2 [-> Hrp]. apply reads_ret. rewrite app_nil_r.
        apply D_group; auto. }
      apply (reads_current_throw
               (fun tok => ParseErr (error tok "Expected expression."))).
Qed.

(** X6 (an expression is a derivation of the tokens it consumed).
    Whenever [expression] returns a tree, the index has not moved back and
    the tokens between the old and the new index derive that tree in the
    grammar of expressions, with its levels of precedence and its
    left-nested chains: no token is skipped and none is read twice.  The
    same holds of [unary], [call] and [primary] at their levels. *)
Theorem expression_sound :
  forall n s e s',
    (expression n s = (Ok e, s') ->
     i s <= i s' /\ derives L_or (slice (i s) (i s')) e) /\
    (unary n s = (Ok e, s') ->
     i s <= i s' /\ derives L_unary (slice (i s) (i s')) e) /\
    (call n s = (Ok e, s') ->
     i s <= i s' /\ derives L_call (slice (i s) (i s')) e) /\
    (primary n s = (Ok e, s') ->
     i s <= i s' /\ derives L_primary (slice (i s) (i s')) e).
Proof.
  intros n s e s'.
  pose proof (expression_ladder_reads n)
    as (He & _ & _ & _ & _ & _ & _ & _ & _ & _ & _ & _ & _ & Hu & Hc & _ & _
        & Hp).
  split_all; intros E.
  - exact (He s e s' E).
  - exact (Hu s e s' E).
  - exact (Hc s e s' E).
  - exact (Hp s e s' E).
Qed.

(** *** Statements *)

Lemma reads_clean_of_reads {A} (c : M A) (R : list Token -> A -> Prop) :
  reads c R -> reads_clean c R.
Proof. intros H s a s' E _. exact (H s a s' E). Qed.

Lemma reads_clean_ret {A} (a : A) (R : list Token -> A -> Prop) :
  R [] a -> reads_clean (ret a) R.
Proof. intros H. apply reads_clean_of_reads, reads_ret, H. Qed.

Lemma reads_clean_out_of_fuel {A} (R : list Token -> A -> Prop) :
  reads_clean out_of_fuel R.
Proof. intros s a s'. discriminate. Qed.

Lemma reads_clean_conseq {A} (c : M A) (R R' : list Token -> A -> Prop) :
  reads_clean c R -> (forall l a, R l a -> R' l a) -> reads_clean c R'.
Proof.
  intros Hc H s a s' E He. destruct (Hc _ _ _ E He) as [Hle HR]. auto.
Qed.

Lemma nothing_appended {A} (l l1 l2 : list A) :
  l ++ l1 ++ l2 = l -> l1 = [] /\ l2 = [].
Proof.
  intros H. apply app_eq_nil. apply (app_inv_head l).
  rewrite app_nil_r. exact H.
Qed.

Lemma reads_clean_bind {A B} (c : M A) (k : A -> M B)
  (R1 : list Token -> A -> Prop) (R : list Token -> B -> Prop) :
  keeps false c -> (forall a, keeps false (k a)) ->
  reads_clean c R1 ->
  (forall a l1, R1 l1 a -> reads_clean (k a) (fun l2 b => R (l1 ++ l2) b)) ->
  reads_clean (bind c k) R.
Proof.
  intros Kc Kk Hc Hk s b s' E Herr. apply bind_ok_inv in E.
  destruct E as (a & s1 & E1 & E2).
  destruct (Kc s) as [(l1 & El1 & _) _]. rewrite E1 in El1. cbn [snd] in El1.
  destruct (Kk a s1) as [(l2 & El2 & _) _]. rewrite E2 in El2.
  cbn [snd] in El2.
  assert (Hnil : l1 = [] /\ l2 = []).
  { apply (nothing_appended (errors s)).
    rewrite app_assoc, <- El1, <- El2. exact Herr. }
  destruct Hnil as [-> ->]. rewrite app_nil_r in El1, El2.
  destruct (Hc _ _ _ E1 El1) as [Hle1 HR1].
  destruct (Hk a _ HR1 _ _ _ E2 El2) as [Hle2 HR].
  split; [lia|]. rewrite (slice_app (i s) (i s1) (i s')) by lia. exact HR.
Qed.

Lemma reads_clean_pure_bind {A B} (c : M A) (k : A -> M B)
  (R1 : list Token -> A -> Prop) (R : list Token -> B -> Prop) :
  keeps true c -> reads c R1 ->
  (forall a l1, R1 l1 a -> reads_clean (k a) (fun l2 b => R (l1 ++ l2) b)) ->
  reads_clean (bind c k) R.
Proof.
  intros Kc Hc Hk s b s' E Herr. apply bind_ok_inv in E.
  destruct E as (a & s1 & E1 & E2).
  destruct (Kc s) as [(l1 & El1 & _ & Hl1) _]. rewrite E1 in El1.
  cbn [snd] in El1. rewrite (Hl1 eq_refl), app_nil_r in El1.
  destruct (Hc _ _ _ E1) as [Hle1 HR1].
  destruct (Hk a _ HR1 _ _ _ E2) as [Hle2 HR]; [congruence|].
  split; [lia|]. rewrite (slice_app (i s) (i s1) (i s')) by lia. exact HR.
Qed.

Lemma reads_clean_match_bind {B} kinds (K : bool -> M B)
  (R : list Token -> B -> Prop) :
  kinds <> [] ->
  (forall t, In (kind t) kinds ->
             reads_clean (K true) (fun l b => R (t :: l) b)) ->
  reads_clean (K false) R ->
  reads_clean (bind (match_ kinds) K) R.
Proof.
  intros Hne HK HE s b s'. rewrite bind_match_eq by exact Hne.
  destruct (cur s) as [tok|] eqn:Hcur; [|discriminate].
  destruct (live tok && kind_in (kind tok) kinds) eqn:Hm; [|apply HE].
  intros E1 Herr. apply andb_true_iff in Hm. destruct Hm as [_ Hin].
  destruct (HK tok (kind_in_In _ _ Hin) _ _ _ E1 Herr) as [Hle HR].
  cbn [i next] in *. split; [lia|].
  rewrite (slice_next s tok s' Hcur Hle). exact HR.
Qed.

Lemma reads_clean_consume_bind {B} k msg (K : Token -> M B)
  (R : list Token -> B -> Prop) :
  (forall t, kind t = k -> reads_clean (K t) (fun l b => R (t :: l) b)) ->
  reads_clean (bind (consume k msg) K) R.
Proof.
  intros HK s b s'. rewrite bind_consume_eq.
  destruct (cur s) as [tok|] eqn:Hcur; [|discriminate].
  destruct (live tok && TK.eqb (kind tok) k) eqn:Hm; [|discriminate].
  intros E1 Herr. apply andb_true_iff in Hm. destruct Hm as [_ Hk].
  apply TKFacts.eqb_eq in Hk.
  destruct (HK tok Hk _ _ _ E1 Herr) as [Hle HR].
  cbn [i next] in *. split; [lia|].
  rewrite (slice_next s tok s' Hcur Hle). exact HR.
Qed.

Lemma reads_clean_check_bind {B} k (K : bool -> M B)
  (R : list Token -> B -> Prop) :
  (forall c, reads_clean (K c) R) -> reads_clean (bind (check k) K) R.
Proof.
  intros HK s b s'. rewrite bind_check_eq.
  destruct (cur s) as [tok|]; [|discriminate]. apply HK.
Qed.

Lemma reads_clean_isAtEnd_bind {B} (K : bool -> M B)
  (R : list Token -> B -> Prop) :
  (forall c, reads_clean (K c) R) -> reads_clean (bind isAtEnd K) R.
Proof.
  intros HK s b s'. rewrite bind_isAtEnd_eq.
  destruct (cur s) as [tok|]; [|discriminate]. apply HK.
Qed.

Lemma reads_clean_try_catch n (body : M (option Stmt))
  (R : list Token -> option Stmt -> Prop) :
  keeps false body -> reads_clean body R ->
  reads_clean (try_catch body (declaration_catch n)) R.
Proof.
  intros Kb Hb s r s'. unfold try_catch.
  destruct (body s) as [[a|[pe|msg]|] s1] eqn:E; try discriminate.
  - intros [= <- <-]. apply Hb. exact E.
  - intros Hc Herr. exfalso.
    destruct (Kb s) as [(l1 & El1 & _) He]. rewrite E in El1, He.
    cbn [fst snd] in El1, He. specialize (He pe eq_refl).
    destruct (keeps_declaration_catch n pe He s1) as [_ Hno].
    unfold declaration_catch in Hc. unfold bind at 1, push_error in Hc.
    destruct (keeps_synchronize n {| i := i s1; errors := errors s1 ++ [pe] |})
      as [(l2 & El2 & _) _].
    unfold bind in Hc.
    destruct (synchronize n {| i := i s1; errors := errors s1 ++ [pe] |})
      as [[u|e|] s2]; try discriminate.
    injection Hc as _ <-. cbn [snd errors] in El2.
    rewrite El2, El1 in Herr. rewrite <- !app_assoc in Herr.
    apply nothing_appended in Herr. destruct Herr as [_ Herr].
    destruct l2; discriminate.
Qed.

Local Abbreviation decl_result :=
  (fun (l : list Token) (r : option Stmt) =>
     exists st, r = Some st /\ derives_decl l st).

Local Abbreviation block_result :=
  (fun (l : list Token) (stmts : list Stmt) =>
     exists l1 rb, l = l1 ++ [rb] /\ derives_decls l1 stmts
                   /\ kind rb = TK.RBRACE).

Lemma fnDecl_params_reads n :
  forall acc,
    reads (fnDecl_params n acc)
      (fun l r => exists rest, r = acc ++ rest /\ derives_params l rest).
Proof.
  induction n as [|n IH]; intros acc; [apply reads_out_of_fuel|].
  rewrite fnDecl_params_S.
  apply (reads_bind _ _ (fun l t => l = [t] /\ kind t = TK.IDENT));
    [apply reads_consume|].
  intros p l1 [-> Hp]. apply reads_match; [congruence| |].
  - intros c [Hc|[]]. eapply reads_conseq; [apply IH|].
    cbv beta. intros l r (rest & -> & Hr). exists (lexeme p :: rest).
    split; [rewrite <- app_assoc; reflexivity|].
    cbn [app]. apply DP_cons; auto.
  - apply reads_ret. exists [lexeme p]. split; [reflexivity|].
    cbn [app]. apply DP_one, Hp.
Qed.

Lemma letDecl_reads n kw :
  kind kw = TK.LET ->
  reads (letDecl n) (fun l st => derives_decl (kw :: l) st).
Proof.
  intros Hkw. pose proof (expression_ladder_reads n) as (He & _).
  unfold letDecl.
  apply (reads_bind _ _ (fun l t => l = [t] /\ kind t = TK.IDENT));
    [apply reads_consume|].
  intros name l1 [-> Hname].
  intros s st s'. rewrite bind_match_eq by congruence.
  destruct (cur s) as [tok|] eqn:Hcur; [|discriminate].
  destruct (live tok && kind_in (kind tok) [TK.ASSIGN]) eqn:Hm.
  - apply andb_true_iff in Hm. destruct Hm as [_ Hin].
    apply kind_in_In in Hin. destruct Hin as [Heq|[]].
    intros E.
    assert (Hrest : reads
      (init <- (e <- expression n ;; ret (Some e)) ;;
       consume TK.SEMICOLON "Expected ';' after let declaration." ;;;
       ret (Let (lexeme name) init))
      (fun l st => derives_decl (kw :: name :: tok :: l) st)).
    { apply (reads_bind _ _
               (fun l init => exists e, init = Some e /\ derives L_or l e)).
      { apply (reads_bind _ _ (derives L_or)); [exact He|].
        intros e l Hd. apply reads_ret. exists e. rewrite app_nil_r. auto. }
      intros init le (e & -> & Hd).
      apply (reads_bind _ _ (fun l t => l = [t] /\ kind t = TK.SEMICOLON));
        [apply reads_consume|].
      intros semi l2 [-> Hs]. apply reads_ret. norm_app.
      apply DD_let_init; auto. }
    destruct (Hrest _ _ _ E) as [Hle HR]. cbn [i next] in *.
    split; [lia|]. cbn [app].
    rewrite (slice_next s tok s' Hcur Hle). exact HR.
  - intros E.
    assert (Hrest : reads
      (init <- ret None ;;
       consume TK.SEMICOLON "Expected ';' after let declaration." ;;;
       ret (Let (lexeme name) init))
      (fun l st => derives_decl (kw :: name :: l) st)).
    { apply (reads_bind _ _ (fun l init => l = [] /\ init = @None Expr));
        [apply reads_ret; auto|].
      intros init l [-> ->].
      apply (reads_bind _ _ (fun l t => l = [t] /\ kind t = TK.SEMICOLON));
        [apply reads_consume|].
      intros semi l2 [-> Hs]. apply reads_ret. norm_app.
      apply DD_let; auto. }
    exact (Hrest _ _ _ E).
Qed.

Lemma exprOrAssignStmt_reads n : reads (exprOrAssignStmt n) derives_stmt.
Proof.
  pose proof (expression_ladder_reads n) as (He & _).
  assert (Hexpr : reads
    (expr <- expression n ;;
     consume TK.SEMICOLON "Expected ';' after expression." ;;;
     ret (ExprStmt expr)) derives_stmt).
  { apply (reads_bind _ _ (derives L_or)); [exact He|]. intros e l Hd.
    apply (reads_bind _ _ (fun l t => l = [t] /\ kind t = TK.SEMICOLON));
      [apply reads_consume|].
    intros semi l2 [-> Hs]. apply reads_ret. norm_app.
    apply DS_expr; auto. }
  intros s st s'.
  destruct (cur s) as [tok|] eqn:Hcur.
  2:{ unfold exprOrAssignStmt. rewrite bind_check_eq, Hcur. discriminate. }
  destruct (TK.eq_dec (kind tok) TK.IDENT) as [Hk|Hk].
  - destruct (lookahead s) as [t2|] eqn:Hla.
    + destruct (assignOp_of_kind (kind t2)) as [op|] eqn:Hop.
      * rewrite (exprOrAssignStmt_assign n s tok t2 op Hcur Hk Hla Hop).
        intros E.
        assert (Hrest : reads
          (value <- expression n ;;
           consume TK.SEMICOLON "Expected ';' after assignment." ;;;
           ret (Assign (lexeme tok) op value))
          (fun l st => derives_stmt (tok :: t2 :: l) st)).
        { apply (reads_bind _ _ (derives L_or)); [exact He|].
          intros e l Hd.
          apply (reads_bind _ _
                   (fun l t => l = [t] /\ kind t = TK.SEMICOLON));
            [apply reads_consume|].
          intros semi l2 [-> Hs]. apply reads_ret. norm_app.
          apply DS_assign; auto. }
        destruct (Hrest _ _ _ E) as [Hle HR]. cbn [i next] in *.
        assert (Hc2 : cur (next s) = Some t2).
        { unfold cur, lookahead in *. cbn [i next]. rewrite <- Hla.
          f_equal. lia. }
        split; [lia|].
        rewrite (slice_next s tok s' Hcur) by lia.
        change (S (i s)) with (i (next s)).
        rewrite (slice_next (next s) t2 s' Hc2) by (cbn [i next]; lia).
        exact HR.
      * rewrite (exprOrAssignStmt_expr n s tok Hcur Hk); [apply Hexpr|].
        right. exists t2. auto.
    + rewrite (exprOrAssignStmt_expr n s tok Hcur Hk); [apply Hexpr|].
      left. exact Hla.
  - unfold exprOrAssignStmt. rewrite bind_check_eq, Hcur.
    apply TKFacts.eqb_neq in Hk. rewrite Hk, andb_false_r, bind_ret_eq.
    apply Hexpr.
Qed.

Lemma exprOrAssignStmt_closed n s st s' :
  exprOrAssignStmt n s = (Ok st, s') -> open_if st = false.
Proof.
  unfold exprOrAssignStmt. intros E.
  apply bind_ok_inv in E. destruct E as (c & s1 & _ & E).
  apply bind_ok_inv in E. destruct E as (p & s2 & _ & E).
  destruct p;
    repeat (apply bind_ok_inv in E; destruct E as (? & ? & _ & E));
    injection E as <- _; reflexivity.
Qed.

(** A statement that ends with an [if] without [else] is not followed by
    [else]. *)
Lemma open_if_not_else n :
  (forall s st s', statement n s = (Ok st, s') -> open_if st = true ->
     forall t, cur s' = Some t -> kind t <> TK.ELSE) /\
  (forall s st s', ifStmt n s = (Ok st, s') -> open_if st = true ->
     forall t, cur s' = Some t -> kind t <> TK.ELSE) /\
  (forall s st s', whileStmt n s = (Ok st, s') -> open_if st = true ->
     forall t, cur s' = Some t -> kind t <> TK.ELSE).
Proof.
  induction n as [|n (IHs & IHi & IHw)]; [split_all; intros; discriminate|].
  split_all; intros s st s' E Hopen t Hcur.
  - rewrite statement_S, bind_match_eq in E by congruence.
    destruct (cur s) as [tok|]; [|discriminate].
    destruct (live tok && kind_in (kind tok) [TK.IF]);
      [exact (IHi _ _ _ E Hopen t Hcur)|].
    rewrite bind_match_eq in E by congruence.
    destruct (cur s) as [tok'|]; [|discriminate].
    destruct (live tok' && kind_in (kind tok') [TK.WHILE]);
      [exact (IHw _ _ _ E Hopen t Hcur)|].
    rewrite bind_match_eq in E by congruence.
    destruct (cur s) as [tok''|]; [|discriminate].
    destruct (live tok'' && kind_in (kind tok'') [TK.LBRACE]).
    + destruct n as [|n]; [discriminate|].
      rewrite blockStmtAlreadyOpened_S in E.
      apply bind_ok_inv in E. destruct E as (stmts & s1 & _ & E).
      injection E as <- _. discriminate.
    + rewrite (exprOrAssignStmt_closed _ _ _ _ E) in Hopen. discriminate.
  - rewrite ifStmt_S in E.
    apply bind_ok_inv in E. destruct E as (lp & s1 & _ & E).
    apply bind_ok_inv in E. destruct E as (c & s2 & _ & E).
    apply bind_ok_inv in E. destruct E as (rp & s3 & _ & E).
    apply bind_ok_inv in E. destruct E as (th & s4 & _ & E).
    rewrite bind_match_eq in E by congruence.
    destruct (cur s4) as [tok|] eqn:Hc4; [|discriminate].
    destruct (live tok && kind_in (kind tok) [TK.ELSE]) eqn:Hm.
    + apply bind_ok_inv in E. destruct E as (o & s5 & E5 & E6).
      apply bind_ok_inv in E5. destruct E5 as (st2 & s6 & E5 & E7).
      injection E7 as <- <-. injection E6 as <- <-.
      exact (IHs _ _ _ E5 Hopen t Hcur).
    + injection E as _ <-. rewrite Hc4 in Hcur. injection Hcur as <-.
      intros Hk. rewrite (kind_live tok), Hk in Hm by congruence.
      discriminate.
  - rewrite whileStmt_S in E.
    apply bind_ok_inv in E. destruct E as (lp & s1 & _ & E).
    apply bind_ok_inv in E. destruct E as (c & s2 & _ & E).
    apply bind_ok_inv in E. destruct E as (rp & s3 & _ & E).
    apply bind_ok_inv in E. destruct E as (body & s4 & E4 & E).
    injection E as <- <-. exact (IHs _ _ _ E4 Hopen t Hcur).
Qed.

(** What follows the condition of an [if]. *)
Lemma if_tail_reads n cond (R : list Token -> Stmt -> Prop) :
  keeps false (statement n) -> reads_clean (statement n) derives_stmt ->
  (forall lt then_, derives_stmt lt then_ -> R lt (If cond then_ None)) ->
  (forall lt then_ el lo o,
     derives_stmt lt then_ -> open_if then_ = false ->
     kind el = TK.ELSE -> derives_stmt lo o ->
     R (lt ++ el :: lo) (If cond then_ (Some o))) ->
  reads_clean
    (then_ <- statement n ;;
     b <- match_ [TK.ELSE] ;;
     otherwise <- (if b then st <- statement n ;; ret (Some st)
                   else ret None) ;;
     ret (If cond then_ otherwise)) R.
Proof.
  intros Ks Hs Rif Rifelse s st s' E Herr.
  apply bind_ok_inv in E. destruct E as (then_ & s1 & E1 & E).
  rewrite bind_match_eq in E by congruence.
  destruct (cur s1) as [tok|] eqn:Hcur; [|discriminate].
  destruct (live tok && kind_in (kind tok) [TK.ELSE]) eqn:Hm.
  - apply bind_ok_inv in E. destruct E as (o & s2 & E2 & E3).
    apply bind_ok_inv in E2. destruct E2 as (st2 & s3 & E2 & E4).
    injection E4 as <- <-. injection E3 as <- <-.
    destruct (Ks s) as [(l1 & El1 & _) _]. rewrite E1 in El1.
    cbn [snd] in El1.
    destruct (Ks (next s1)) as [(l2 & El2 & _) _]. rewrite E2 in El2.
    cbn [snd errors next] in El2.
    assert (Hnil : l1 = [] /\ l2 = []).
    { apply (nothing_appended (errors s)).
      rewrite app_assoc, <- El1, <- El2. exact Herr. }
    destruct Hnil as [-> ->]. rewrite app_nil_r in El1, El2.
    destruct (Hs _ _ _ E1 El1) as [Hle1 HR1].
    destruct (Hs _ _ _ E2 El2) as [Hle2 HR2]. cbn [i next] in *.
    split; [lia|].
    rewrite (slice_app (i s) (i s1) (i s3)) by lia.
    rewrite (slice_next s1 tok s3 Hcur) by lia.
    apply andb_true_iff in Hm. destruct Hm as [_ Hin].
    apply kind_in_In in Hin. destruct Hin as [Hk|[]].
    apply Rifelse; auto.
    destruct (open_if then_) eqn:Ho; [|reflexivity]. exfalso.
    exact (proj1 (open_if_not_else n) _ _ _ E1 Ho tok Hcur (eq_sym Hk)).
  - rewrite bind_ret_eq in E. injection E as <- <-.
    destruct (Hs _ _ _ E1 Herr) as [Hle HR]. split; [exact Hle|].
    apply Rif, HR.
Qed.

Lemma statements_read n :
  reads_clean (declaration n) decl_result /\
  reads_clean (statement n) derives_stmt /\
  (forall kw, kind kw = TK.FUNC ->
     reads_clean (fnDecl n) (fun l st => derives_decl (kw :: l) st)) /\
  (forall kw, kind kw = TK.IF ->
     reads_clean (ifStmt n) (fun l st => derives_stmt (kw :: l) st)) /\
  (forall kw, kind kw = TK.WHILE ->
     reads_clean (whileStmt n) (fun l st => derives_stmt (kw :: l) st)) /\
  (forall lb, kind lb = TK.LBRACE ->
     reads_clean (blockStmtAlreadyOpened n)
       (fun l st => derives_stmt (lb :: l) st)) /\
  reads_clean (blockStmtsAlreadyOpened n) block_result /\
  (forall acc,
     reads_clean (blockStmtsAlreadyOpened_while n acc)
       (fun l r => exists rest, r = acc ++ rest /\ derives_decls l rest)).
Proof.
  induction n as [|n IH].
  - split_all; intros; apply reads_clean_out_of_fuel.
  - destruct IH as (Hdecl & Hstmt & Hfn & Hif & Hwhile & Hblock & Hstmts
                    & Hloop).
    pose proof (statements_keep n) as (? & ? & ? & ? & ? & ? & ? & ?).
    pose proof (expression_ladder_keeps n) as (Kexpr & _).
    pose proof (expression_ladder_reads n) as (He & _).
    pose proof (keeps_letDecl n).
    pose proof (keeps_exprOrAssignStmt n).
    pose proof (keeps_fnDecl_params n).
    split_all.
    + (* declaration *)
      rewrite declaration_S. apply reads_clean_try_catch;
        [unfold declaration_try; keeps_step|].
      unfold declaration_try.
      apply reads_clean_match_bind; [congruence| |]; cbv beta iota.
      { intros kw [Hkw|[]].
        apply (reads_clean_bind _ _ (fun l st => derives_decl (kw :: l) st));
          [keeps_step | intros; keeps_step | apply Hfn; auto |].
        intros st l Hd. apply reads_clean_ret. exists st. norm_app. auto. }
      apply reads_clean_match_bind; [congruence| |]; cbv beta iota.
      { intros kw [Hkw|[]].
        apply (reads_clean_pure_bind _ _
                 (fun l st => derives_decl (kw :: l) st));
          [assumption | apply letDecl_reads; auto |].
        intros st l Hd. apply reads_clean_ret. exists st. norm_app. auto. }
      apply (reads_clean_bind _ _ derives_stmt);
        [keeps_step | intros; keeps_step | exact Hstmt |].
      intros st l Hd. apply reads_clean_ret. exists st. norm_app.
      split; [reflexivity|]. apply DD_statement, Hd.
    + (* statement *)
      rewrite statement_S.
      apply reads_clean_match_bind; [congruence| |]; cbv beta iota.
      { intros kw [Hkw|[]]. apply Hif. auto. }
      apply reads_clean_match_bind; [congruence| |]; cbv beta iota.
      { intros kw [Hkw|[]]. apply Hwhile. auto. }
      apply reads_clean_match_bind; [congruence| |]; cbv beta iota.
      { intros kw [Hkw|[]]. apply Hblock. auto. }
      apply reads_clean_of_reads, exprOrAssignStmt_reads.
    + (* fnDecl *)
      intros kw Hkw. rewrite fnDecl_S.
      apply reads_clean_consume_bind. intros name Hname.
      apply reads_clean_consume_bind. intros lp Hlp.
      apply reads_clean_check_bind. intros c.
      apply (reads_clean_pure_bind _ _
               (fun l ps => (l = [] /\ ps = []) \/ derives_params l ps)).
      { destruct c; cbn [negb]; keeps_step. }
      { destruct c; cbn [negb].
        - apply reads_ret. left. auto.
        - eapply reads_conseq; [apply (fnDecl_params_reads n [])|].
          intros l a (rest & -> & Hd). right. exact Hd. }
      intros params lps Hps.
      apply reads_clean_consume_bind. intros rp Hrp.
      apply reads_clean_consume_bind. intros lb Hlb.
      apply (reads_clean_bind _ _ block_result);
        [keeps_step | intros; keeps_step | exact Hstmts |].
      intros body l (l1 & rb & -> & Hd & Hrb). apply reads_clean_ret.
      norm_app. destruct Hps as [[-> ->]|Hps]; cbn [app].
      * apply DD_fn_no_params; auto.
      * apply DD_fn; auto.
    + (* ifStmt *)
      intros kw Hkw. rewrite ifStmt_S.
      apply reads_clean_consume_bind. intros lp Hlp.
      apply (reads_clean_pure_bind _ _ (derives L_or));
        [exact Kexpr | exact He |].
      intros cond lc Hc.
      apply reads_clean_consume_bind. intros rp Hrp.
      apply if_tail_reads; [assumption | exact Hstmt | |].
      * intros lt then_ Ht. norm_app. apply DS_if; auto.
      * intros lt then_ el lo o Ht Ho Hel Hlo. norm_app.
        apply DS_if_else; auto.
    + (* whileStmt *)
      intros kw Hkw. rewrite whileStmt_S.
      apply reads_clean_consume_bind. intros lp Hlp.
      apply (reads_clean_pure_bind _ _ (derives L_or));
        [exact Kexpr | exact He |].
      intros cond lc Hc.
      apply reads_clean_consume_bind. intros rp Hrp.
      apply (reads_clean_bind _ _ derives_stmt);
        [keeps_step | intros; keeps_step | exact Hstmt |].
      intros body lb Hb. apply reads_clean_ret. norm_app.
      apply DS_while; auto.
    + (* a block statement *)
      intros lb Hlb. rewrite blockStmtAlreadyOpened_S.
      apply (reads_clean_bind _ _ block_result);
        [keeps_step | intros; keeps_step | exact Hstmts |].
      intros stmts l (l1 & rb & -> & Hd & Hrb). apply reads_clean_ret.
      norm_app. apply DS_block; auto.
    + (* the statements of a block *)
      rewrite blockStmtsAlreadyOpened_S.
      apply (reads_clean_bind _ _ derives_decls);
        [keeps_step | intros; keeps_step | |].
      { eapply reads_clean_conseq; [apply (Hloop [])|].
        cbv beta. intros l a (rest & -> & Hd). exact Hd. }
      intros stmts l1 Hd.
      apply reads_clean_consume_bind. intros rb Hrb.
      apply reads_clean_ret. exists l1, rb. auto.
    + (* the loop of a block *)
      intros acc. rewrite blockStmtsAlreadyOpened_while_S.
      apply reads_clean_check_bind. intros c.
      apply (reads_clean_pure_bind _ _ (fun l (_ : bool) => l = [])).
      { destruct c; cbn [negb]; keeps_step. }
      { destruct c; cbn [negb]; [apply reads_ret; reflexivity|].
        apply (reads_bind _ _ (fun l (_ : bool) => l = []));
          [apply reads_isAtEnd|].
        intros b l ->. apply reads_ret. reflexivity. }
      intros go l ->. destruct go.
      * apply (reads_clean_bind _ _ decl_result);
          [keeps_step | intros; keeps_step | exact Hdecl |].
        intros r l1 (st & -> & Hd).
        eapply reads_clean_conseq;
          [apply (Hloop (push_stmt acc (Some st)))|].
        cbv beta. cbn [push_stmt]. intros l r (rest & -> & Hr).
        exists (st :: rest). split; [rewrite <- app_assoc; reflexivity|].
        norm_app. apply DDs_cons; auto.
      * apply reads_clean_ret. exists []. split; [symmetry; apply app_nil_r|].
        constructor.
Qed.

Lemma parseProgram_while_reads n :
  forall acc,
    reads_clean (parseProgram_while n acc)
      (fun l r => exists rest, r = acc ++ rest /\ derives_decls l rest).
Proof.
  induction n as [|n IH]; intros acc; [apply reads_clean_out_of_fuel|].
  pose proof (statements_read n) as (Hdecl & _).
  pose proof (statements_keep n) as (Kdecl & _).
  rewrite parseProgram_while_S.
  apply reads_clean_isAtEnd_bind. intros c. destruct (negb c).
  - apply (reads_clean_bind _ _ decl_result);
      [exact Kdecl | intros; apply keeps_parseProgram_while | exact Hdecl |].
    intros r l1 (st & -> & Hd).
    eapply reads_clean_conseq; [apply (IH (push_stmt acc (Some st)))|].
    cbv beta. cbn [push_stmt]. intros l r (rest & -> & Hr).
    exists (st :: rest). split; [rewrite <- app_assoc; reflexivity|].
    norm_app. apply DDs_cons; auto.
  - apply reads_clean_ret. exists []. split; [symmetry; apply app_nil_r|].
    constructor.
Qed.

Lemma clean_parse_derives n out s' :
  parseProgram n newParser = (Ok out, s') -> errors s' = [] ->
  i s' = limit /\ derives_decls (firstn limit tokens) out.
Proof.
  intros E Herr.
  destruct (parseProgram_while_reads n [] newParser out s' E Herr)
    as [_ (rest & Hout & Hd)]. cbn [app] in Hout. subst rest.
  assert (Hi : i s' = limit).
  { set (m := Nat.max n (20 * limit + 13)).
    assert (Em : parseProgram m newParser = (Ok out, s')).
    { apply (refines_run (parseProgram n) (parseProgram m) newParser
               (Ok out) s');
        [apply parseProgram_mono; lia | exact E | discriminate]. }
    assert (Hp : Post false 0 (parseProgram m newParser)).
    { apply (parseProgram_while_terminates m []); [cbn; lia|].
      unfold enough. cbn [i newParser]. lia. }
    rewrite Em in Hp. destruct Hp as (_ & _ & Hle & _). cbn [snd] in Hle.
    destruct (parseProgram_while_stops_at_end _ _ _ _ _ E)
      as (tok & Hc & Hl).
    destruct (Nat.eq_dec (i s') limit) as [Heq|Hne]; [exact Heq|].
    destruct (below_limit_cur (i s') ltac:(lia)) as (tok' & Hc' & Hl').
    unfold cur in Hc. congruence. }
  split; [exact Hi|].
  cbn [app i newParser] in Hd. unfold slice in Hd.
  rewrite Nat.sub_0_r, Hi in Hd. exact Hd.
Qed.

(** X7 (a parse without errors is a derivation of the whole input).
    Whenever [parseProgram], started on a fresh parser, returns with an
    empty error list, the index is on the first end-of-input token and the
    tokens before it derive the returned statements in the grammar of
    programs: every token up to the end of input belongs to a statement,
    none was skipped.  Likewise, a statement that [statement] returns
    without a new error is a derivation of the tokens it consumed. *)
Theorem clean_parse_is_a_derivation :
  (forall n out s',
     parseProgram n newParser = (Ok out, s') -> errors s' = [] ->
     i s' = limit /\ derives_decls (firstn limit tokens) out) /\
  (forall n s st s',
     statement n s = (Ok st, s') -> errors s' = errors s ->
     i s <= i s' /\ derives_stmt (slice (i s) (i s')) st).
Proof.
  split; [exact clean_parse_derives|].
  intros n s st s' E Herr.
  pose proof (statements_read n) as (_ & Hs & _).
  exact (Hs s st s' E Herr).
Qed.

(** ** The [else] of an [if] *)

(** X9 (an [else] belongs to the nearest [if]).  When [ifStmt] returns an
    [If] without [otherwise], the token under the index is not [else]:
    had it been, [ifStmt] would have consumed it and parsed the statement
    after it as the [otherwise] of this [If].  More generally no statement
    that ends with such an [If] is returned in front of an [else]: in
    [if (a) if (b) s else t] the inner [if] takes the [else]. *)
Theorem else_binds_to_the_nearest_if :
  (forall n s cond then_ s',
     ifStmt n s = (Ok (If cond then_ None), s') ->
     exists t, cur s' = Some t /\ kind t <> TK.ELSE) /\
  (forall n s st s' t,
     statement n s = (Ok st, s') -> open_if st = true ->
     cur s' = Some t -> kind t <> TK.ELSE).
Proof.
  split.
  - intros [|n] s cond then_ s'; [discriminate|].
    rewrite ifStmt_S. intros E.
    apply bind_ok_inv in E. destruct E as (lp & s1 & _ & E).
    apply bind_ok_inv in E. destruct E as (c & s2 & _ & E).
    apply bind_ok_inv in E. destruct E as (rp & s3 & _ & E).
    apply bind_ok_inv in E. destruct E as (th & s4 & _ & E).
    rewrite bind_match_eq in E by congruence.
    destruct (cur s4) as [tok|] eqn:Hcur; [|discriminate].
    destruct (live tok && kind_in (kind tok) [TK.ELSE]) eqn:Hm.
    + apply bind_ok_inv in E. destruct E as (o & s5 & E5 & E6).
      apply bind_ok_inv in E5. destruct E5 as (st & s6 & _ & E5).
      injection E5 as <- _. discriminate.
    + injection E as _ _ <-. exists tok. split; [exact Hcur|].
      intros Hk. rewrite (kind_live tok), Hk in Hm by congruence.
      discriminate.
  - intros n s st s' t E Hopen Hcur.
    exact (proj1 (open_if_not_else n) s st s' E Hopen t Hcur).
Qed.

(** ** The program always has an answer *)

Lemma parseProgram_answers :
  ends_with_eof tokens ->
  forall n, 20 * limit + 13 <= n ->
    exists out s', parseProgram n newParser = (Ok out, s').
Proof.
  intros Hends n Hn. pose proof (ends_with_eof_has_eof Hends) as Heof.
  assert (Hp : Post false 0 (parseProgram n newParser)).
  { apply (parseProgram_while_terminates n []); [cbn; lia|].
    unfold enough. cbn [i newParser]. lia. }
  destruct (post_has_answer _ _ _ Heof Hp) as [out Hout].
  { intros e H. destruct (parseProgram n newParser) as [r s'] eqn:E.
    cbn [fst] in H. subst r. exact (quiet_parseProgram_while _ _ _ _ _ E). }
  destruct (parseProgram n newParser) as [r s'] eqn:E. cbn [fst] in Hout.
  subst r. eauto.
Qed.

(** ** Every expression of the grammar is parsed *)

Local Abbreviation parser_of := (parser_of tokens).
Local Abbreviation loop_of := (loop_of tokens).
Local Abbreviation follows := (follows tokens).
Local Abbreviation follows_list := (follows_list tokens).

Lemma returns_ret_inv {A} (a : A) s r s' :
  returns (fun _ => ret a) s r s' -> r = a /\ s' = s.
Proof.
  intros [N H]. specialize (H N (le_n N)). injection H as <- <-. auto.
Qed.

Lemma returns_ret {A} (a : A) s : returns (fun _ => ret a) s a s.
Proof. exists 0. intros m _. reflexivity. Qed.

Lemma binary_of_live lvl tok op :
  binary_of lvl (kind tok) = Some op ->
  live tok = true /\ kind_in (kind tok) (ops_of lvl) = true /\
  kind_in (kind tok) (tighter_ops lvl) = false.
Proof.
  intros H. unfold live.
  destruct lvl; destruct (kind tok); cbn in H; try discriminate;
    repeat split; reflexivity.
Qed.

Lemma loop_of_match lvl n e s opTok op :
  cur s = Some opTok -> binary_of lvl (kind opTok) = Some op ->
  loop_of lvl (S n) e s
  = (rhs <- parser_of (below lvl) n ;; loop_of lvl n (Binary op e rhs))
      (next s).
Proof.
  intros Hcur Hop.
  destruct (binary_of_live lvl opTok op Hop) as (Hl & Hin & _).
  destruct lvl; cbn [ops_of] in Hin;
    try (destruct (kind opTok); discriminate);
    cbn [loop_of parser_of below]; autorewrite with fuel_step;
    rewrite bind_match_eq, Hcur, Hl, Hin by congruence; cbn [andb];
    rewrite ?(bind_previous_next _ s opTok Hcur);
    unfold equality_op, comparison_op, term_op, factor_op;
    destruct (kind opTok); cbn in Hop; try discriminate;
    injection Hop as <-; reflexivity.
Qed.

Lemma loop_of_stop lvl n e s t :
  cur s = Some t -> kind_in (kind t) (ops_of lvl) = false ->
  loop_of lvl (S n) e s = (Ok e, s).
Proof.
  intros Hcur Hk.
  destruct lvl; cbn [ops_of] in Hk; cbn [loop_of]; try reflexivity;
    autorewrite with fuel_step;
    rewrite bind_match_eq, Hcur, Hk, andb_false_r by congruence;
    reflexivity.
Qed.

Lemma loop_of_halts lvl e s t :
  cur s = Some t -> kind_in (kind t) (ops_of lvl) = false ->
  returns (fun n => loop_of lvl n e) s e s.
Proof.
  intros Hcur Hk. apply returns_stop. intros n.
  exact (loop_of_stop lvl n e s t Hcur Hk).
Qed.

Lemma loop_of_step lvl s opTok op e1 e2 s1 r s' :
  cur s = Some opTok -> binary_of lvl (kind opTok) = Some op ->
  returns (parser_of (below lvl)) (next s) e2 s1 ->
  returns (fun n => loop_of lvl n (Binary op e1 e2)) s1 r s' ->
  returns (fun n => loop_of lvl n e1) s r s'.
Proof.
  intros Hcur Hop H1 H2.
  apply (returns_S
           (fun n => bind (parser_of (below lvl) n)
                       (fun rhs => loop_of lvl n (Binary op e1 rhs)))
           (fun n => loop_of lvl n e1) s (next s)).
  - intros n. exact (loop_of_match lvl n e1 s opTok op Hcur Hop).
  - exact (returns_bind (parser_of (below lvl))
             (fun n rhs => loop_of lvl n (Binary op e1 rhs))
             (next s) e2 s1 r s' H1 H2).
Qed.

Lemma parser_of_sub lvl s e s1 r s' :
  lvl <> L_unary -> lvl <> L_primary ->
  returns (parser_of (below lvl)) s e s1 ->
  returns (fun n => loop_of lvl n e) s1 r s' ->
  returns (parser_of lvl) s r s'.
Proof.
  intros Hu Hp H1 H2.
  apply (returns_S
           (fun n => bind (parser_of (below lvl) n) (loop_of lvl n))
           (parser_of lvl) s s).
  - intros n. destruct lvl; try congruence; reflexivity.
  - exact (returns_bind (parser_of (below lvl)) (loop_of lvl) s e s1 r s'
             H1 H2).
Qed.

Lemma tighter_below lvl k :
  kind_in k (tighter_ops lvl) = false ->
  kind_in k (tighter_ops (below lvl)) = false /\
  kind_in k (ops_of (below lvl)) = false.
Proof.
  intros H. split; revert H; apply kind_in_incl;
    destruct lvl; intros x Hx; cbn in *; tauto.
Qed.

Lemma continues_tighter k :
  continues_expression k = false ->
  kind_in k (tighter_ops L_or) = false /\ kind_in k (ops_of L_or) = false.
Proof.
  unfold continues_expression. intros H.
  split; revert H; apply kind_in_incl; intros x Hx; cbn in *; tauto.
Qed.

Lemma derives_first lvl l e :
  derives lvl l e ->
  exists t0 rest,
    l = t0 :: rest /\ In (kind t0) expression_starts /\
    (lvl = L_call \/ lvl = L_primary ->
     In (kind t0) [TK.NUMBER; TK.STRING; TK.IDENT; TK.LPAREN]).
Proof.
  induction 1 as [lvl l e _ IH | lvl l1 e1 opTok op l2 e2 Hop _ IH1 _ _
                 | t l e Hk _ _ | t l e Hk _ _
                 | lf f lp rp _ IH _ _ | lf f lp la args rp _ IH _ _ _
                 | t Hk | t Hk | t Hk | lp l e rp Hk _ _ _].
  - destruct IH as (t0 & rest & -> & Hs & Hp). exists t0, rest.
    split; [reflexivity|]. split; [exact Hs|].
    intros [-> | ->]; apply Hp; cbn; auto.
  - destruct IH1 as (t0 & rest & -> & Hs & _).
    exists t0, (rest ++ opTok :: l2). split; [reflexivity|].
    split; [exact Hs|].
    intros [-> | ->]; cbn in Hop; destruct (kind opTok); discriminate.
  - exists t, l. split; [reflexivity|].
    split; [|intros [H|H]; discriminate].
    unfold expression_starts. destruct Hk as [-> | ->]; cbn; tauto.
  - exists t, l. split; [reflexivity|].
    split; [|intros [H|H]; discriminate].
    unfold expression_starts. rewrite Hk. cbn. tauto.
  - destruct IH as (t0 & rest & -> & Hs & Hp).
    exists t0, (rest ++ [lp; rp]). split; [reflexivity|].
    split; [exact Hs|]. intros _. apply Hp. auto.
  - destruct IH as (t0 & rest & -> & Hs & Hp).
    exists t0, (rest ++ lp :: la ++ [rp]). split; [reflexivity|].
    split; [exact Hs|]. intros _. apply Hp. auto.
  - exists t, []. unfold expression_starts. rewrite Hk. cbn. tauto.
  - exists t, []. unfold expression_starts. rewrite Hk. cbn. tauto.
  - exists t, []. unfold expression_starts. rewrite Hk. cbn. tauto.
  - exists lp, (l ++ [rp]). unfold expression_starts. rewrite Hk. cbn. tauto.
Qed.

Lemma derives_list_first l es :
  derives_list l es ->
  exists t0 rest, l = t0 :: rest /\ In (kind t0) expression_starts.
Proof.
  intros [l0 e H | l0 e comma l' es' H _ _];
    destruct (derives_first _ _ _ H) as (t0 & rest & -> & Hs & _).
  - eauto.
  - exists t0, (rest ++ comma :: l'). auto.
Qed.

Lemma starts_live t : In (kind t) expression_starts -> live t = true.
Proof.
  intros H. apply kind_live. intros E. rewrite E in H.
  unfold expression_starts in H. cbn in H. intuition discriminate.
Qed.

Lemma prefix_step s t0 rhs s1 :
  cur s = Some t0 -> In (kind t0) [TK.NOT; TK.MINUS; TK.BANG] ->
  returns unary (next s) rhs s1 ->
  returns unary s (Unary (unary_op t0) rhs) s1.
Proof.
  intros Hcur Hin [N HN]. exists (S N). intros m Hm.
  destruct m as [|m]; [lia|].
  assert (Hl : live t0 = true).
  { apply kind_live. cbn in Hin.
    destruct Hin as [<-|[<-|[<-|[]]]]; discriminate. }
  rewrite unary_S, bind_match_eq, Hcur, Hl, (kind_in_true _ _ Hin)
    by congruence.
  cbn [andb]. rewrite (bind_previous_next _ s t0 Hcur).
  unfold bind. rewrite HN by lia. reflexivity.
Qed.

Lemma unary_of_call s t0 e s1 :
  cur s = Some t0 ->
  In (kind t0) [TK.NUMBER; TK.STRING; TK.IDENT; TK.LPAREN] ->
  returns call s e s1 -> returns unary s e s1.
Proof.
  intros Hcur Hk0. apply (returns_S call unary s s).
  intros n. rewrite unary_S, bind_match_eq, Hcur by congruence.
  cbn in Hk0. destruct Hk0 as [<-|[<-|[<-|[<-|[]]]]]; eval_kind_in;
    rewrite andb_false_r; reflexivity.
Qed.

Lemma call_while_empty_step f s lp rp r s' :
  cur s = Some lp -> kind lp = TK.LPAREN ->
  cur (next s) = Some rp -> kind rp = TK.RPAREN ->
  returns (fun n => call_while n (Call f [])) (next (next s)) r s' ->
  returns (fun n => call_while n f) s r s'.
Proof.
  intros Hlp Hklp Hrp Hkrp.
  apply (returns_S (fun n => call_while n (Call f []))
           (fun n => call_while n f) s (next (next s))).
  intros n. rewrite call_while_S, (match_lparen _ s lp Hlp Hklp).
  rewrite bind_check_eq, Hrp, (kind_live rp), Hkrp by congruence.
  eval_kind_in. rewrite bind_ret_eq.
  rewrite bind_consume_eq, Hrp, (kind_live rp), Hkrp by congruence.
  eval_kind_in. reflexivity.
Qed.

Lemma call_while_args_step f s lp a0 args s1 rp r s' :
  cur s = Some lp -> kind lp = TK.LPAREN ->
  cur (next s) = Some a0 -> kind a0 <> TK.RPAREN ->
  returns (fun n => call_args n []) (next s) args s1 ->
  cur s1 = Some rp -> kind rp = TK.RPAREN ->
  returns (fun n => call_while n (Call f args)) (next s1) r s' ->
  returns (fun n => call_while n f) s r s'.
Proof.
  intros Hlp Hklp Ha0 Hka0 Hargs Hrp Hkrp Hrest.
  apply (returns_S
           (fun n => args <- call_args n [] ;;
                     consume TK.RPAREN "Expected ')' after arguments." ;;;
                     call_while n (Call f args))
           (fun n => call_while n f) s (next s)).
  { intros n. rewrite call_while_S, (match_lparen _ s lp Hlp Hklp).
    rewrite bind_check_eq, Ha0.
    apply TKFacts.eqb_neq in Hka0. rewrite Hka0, andb_false_r.
    reflexivity. }
  apply (returns_bind (fun n => call_args n [])
           (fun n args =>
              consume TK.RPAREN "Expected ')' after arguments." ;;;
              call_while n (Call f args))
           (next s) args s1 r s' Hargs).
  destruct Hrest as [N HN]. exists N. intros m Hm.
  rewrite bind_consume_eq, Hrp, (kind_live rp), Hkrp by congruence.
  eval_kind_in. apply HN, Hm.
Qed.

Lemma expression_of_follows l e pre t post errs :
  follows L_or l e ->
  tokens = pre ++ l ++ t :: post ->
  continues_expression (kind t) = false ->
  returns expression (mkParser (List.length pre) errs) e
    (mkParser (List.length pre + List.length l) errs).
Proof.
  intros H E Hk. destruct (continues_tighter _ Hk) as [Ht Ho].
  apply (returns_S logicOr expression _ (mkParser (List.length pre) errs));
    [intros n; rewrite expression_S; reflexivity|].
  apply (H pre t post errs E Ht).
  exact (loop_of_halts L_or e _ t (cur_after pre l t post errs E) Ho).
Qed.

Lemma atom_parses (t0 : Token) (e : Expr) pre post errs :
  tokens = pre ++ [t0] ++ post ->
  (kind t0 = TK.NUMBER /\ e = Num (JsNumber (literal_or_lexeme t0)) \/
   kind t0 = TK.STRING /\ e = Str (JsString (literal_or_lexeme t0)) \/
   kind t0 = TK.IDENT /\ e = Ident (lexeme t0)) ->
  returns primary (mkParser (List.length pre) errs) e
    (mkParser (List.length pre + 1) errs).
Proof.
  intros E H. pose proof (cur_at pre t0 post errs E) as Hcur.
  exists 1. intros [|n] Hn; [lia|].
  destruct H as [[Hk ->]|[[Hk ->]|[Hk ->]]];
    rewrite primary_S;
    repeat (rewrite bind_match_eq, Hcur, (kind_live t0), Hk by congruence;
            eval_kind_in);
    rewrite (bind_previous_next _ _ t0 Hcur);
    unfold ret; f_equal; state_eq.
Qed.

Lemma grammar_is_parsed :
  (forall lvl l e, derives lvl l e -> follows lvl l e) /\
  (forall l es, derives_list l es -> follows_list l es).
Proof.
  apply derives_mutind.
  - (* an expression of a tighter level *)
    intros lvl l e Hd IH pre t post errs E Hk r s' Hret.
    destruct (tighter_below lvl _ Hk) as [Ht Ho].
    assert (Hsub : returns (parser_of (below lvl))
                     (mkParser (List.length pre) errs) e
                     (mkParser (List.length pre + List.length l) errs)).
    { apply (IH pre t post errs E Ht).
      exact (loop_of_halts (below lvl) e _ t (cur_after pre l t post errs E)
               Ho). }
    destruct lvl;
      try (eapply (parser_of_sub _ _ e);
           [discriminate | discriminate | exact Hsub | exact Hret]).
    + (* unary *)
      cbn [loop_of] in Hret. apply returns_ret_inv in Hret.
      destruct Hret as [-> ->].
      destruct (derives_first _ _ _ Hd) as (t0 & rest & El & _ & Hp).
      apply (unary_of_call _ t0); [|apply Hp; cbn; auto|exact Hsub].
      apply (cur_at pre t0 (rest ++ t :: post)). rewrite E, El. reflexivity.
    + (* primary *)
      cbn [loop_of] in Hret. apply returns_ret_inv in Hret.
      destruct Hret as [-> ->]. exact Hsub.
  - (* a binary operator *)
    intros lvl l1 e1 opTok op l2 e2 Hop _ IH1 _ IH2
      pre t post errs E Hk r s' Hret.
    destruct (binary_of_live lvl opTok op Hop) as (_ & _ & Hnt).
    destruct (tighter_below lvl _ Hk) as [Ht Ho].
    assert (E1 : tokens = pre ++ l1 ++ opTok :: (l2 ++ t :: post))
      by list_eq E.
    assert (E2 : tokens = (pre ++ l1 ++ [opTok]) ++ l2 ++ t :: post)
      by list_eq E.
    apply (IH1 pre opTok (l2 ++ t :: post) errs E1 Hnt).
    apply (loop_of_step lvl _ opTok op e1 e2
             (mkParser (List.length (pre ++ l1 ++ [opTok]) + List.length l2)
                errs)).
    + exact (cur_after pre l1 opTok _ errs E1).
    + exact Hop.
    + replace (next (mkParser (List.length pre + List.length l1) errs))
        with (mkParser (List.length (pre ++ l1 ++ [opTok])) errs) by state_eq.
      apply (IH2 (pre ++ l1 ++ [opTok]) t post errs E2 Ht).
      exact (loop_of_halts (below lvl) e2 _ t (cur_after _ l2 t post errs E2)
               Ho).
    + replace (mkParser (List.length (pre ++ l1 ++ [opTok]) + List.length l2)
                 errs)
        with (mkParser (List.length pre + List.length (l1 ++ opTok :: l2))
                errs) by state_eq.
      exact Hret.
  - (* not, ! *)
    intros t0 l e Hk0 _ IH pre t post errs E Hk r s' Hret.
    cbn [loop_of] in Hret. apply returns_ret_inv in Hret.
    destruct Hret as [-> ->].
    assert (E0 : tokens = pre ++ t0 :: (l ++ t :: post)) by list_eq E.
    assert (E1 : tokens = (pre ++ [t0]) ++ l ++ t :: post) by list_eq E.
    replace UnaryOp.NOT with (unary_op t0)
      by (unfold unary_op; destruct Hk0 as [-> | ->]; reflexivity).
    apply (prefix_step _ t0).
    + exact (cur_at pre t0 _ errs E0).
    + destruct Hk0 as [-> | ->]; cbn; tauto.
    + replace (next (mkParser (List.length pre) errs))
        with (mkParser (List.length (pre ++ [t0])) errs) by state_eq.
      replace (mkParser (List.length pre + List.length (t0 :: l)) errs)
        with (mkParser (List.length (pre ++ [t0]) + List.length l) errs)
        by state_eq.
      apply (IH (pre ++ [t0]) t post errs E1 Hk). apply returns_ret.
  - (* - *)
    intros t0 l e Hk0 _ IH pre t post errs E Hk r s' Hret.
    cbn [loop_of] in Hret. apply returns_ret_inv in Hret.
    destruct Hret as [-> ->].
    assert (E0 : tokens = pre ++ t0 :: (l ++ t :: post)) by list_eq E.
    assert (E1 : tokens = (pre ++ [t0]) ++ l ++ t :: post) by list_eq E.
    replace UnaryOp.MINUS with (unary_op t0)
      by (unfold unary_op; rewrite Hk0; reflexivity).
    apply (prefix_step _ t0).
    + exact (cur_at pre t0 _ errs E0).
    + rewrite Hk0. cbn. tauto.
    + replace (next (mkParser (List.length pre) errs))
        with (mkParser (List.length (pre ++ [t0])) errs) by state_eq.
      replace (mkParser (List.length pre + List.length (t0 :: l)) errs)
        with (mkParser (List.length (pre ++ [t0]) + List.length l) errs)
        by state_eq.
      apply (IH (pre ++ [t0]) t post errs E1 Hk). apply returns_ret.
  - (* a call without arguments *)
    intros lf f lp rp _ IH Hlp Hrp pre t post errs E Hk r s' Hret.
    assert (E1 : tokens = pre ++ lf ++ lp :: (rp :: t :: post)) by list_eq E.
    assert (E2 : tokens = (pre ++ lf ++ [lp]) ++ [] ++ rp :: t :: post)
      by list_eq E.
    apply (IH pre lp (rp :: t :: post) errs E1 eq_refl).
    cbn [loop_of] in *.
    apply (call_while_empty_step f _ lp rp).
    + exact (cur_after pre lf lp _ errs E1).
    + exact Hlp.
    + replace (next (mkParser (List.length pre + List.length lf) errs))
        with (mkParser (List.length (pre ++ lf ++ [lp]) + List.length (@nil Token))
                errs) by state_eq.
      exact (cur_after _ [] rp _ errs E2).
    + exact Hrp.
    + replace (next (next (mkParser (List.length pre + List.length lf) errs)))
        with (mkParser (List.length pre + List.length (lf ++ [lp; rp])) errs)
        by state_eq.
      exact Hret.
  - (* a call with arguments *)
    intros lf f lp la args rp _ IH Hlp Hla IHl Hrp
      pre t post errs E Hk r s' Hret.
    assert (E1 : tokens = pre ++ lf ++ lp :: (la ++ rp :: t :: post))
      by list_eq E.
    assert (E2 : tokens = (pre ++ lf ++ [lp]) ++ la ++ rp :: t :: post)
      by list_eq E.
    destruct (derives_list_first _ _ Hla) as (a0 & rest & Ela & Ha0).
    apply (IH pre lp (la ++ rp :: t :: post) errs E1 eq_refl).
    cbn [loop_of] in *.
    apply (call_while_args_step f _ lp a0 args
             (mkParser (List.length (pre ++ lf ++ [lp]) + List.length la) errs)
             rp).
    + exact (cur_after pre lf lp _ errs E1).
    + exact Hlp.
    + replace (next (mkParser (List.length pre + List.length lf) errs))
        with (mkParser (List.length (pre ++ lf ++ [lp])) errs) by state_eq.
      apply (cur_at _ a0 (rest ++ rp :: t :: post)).
      rewrite E2, Ela.
      repeat (progress (cbn [app]; rewrite <- ?app_assoc)). reflexivity.
    + intros Hk0. rewrite Hk0 in Ha0. unfold expression_starts in Ha0.
      cbn in Ha0. intuition discriminate.
    + replace (next (mkParser (List.length pre + List.length lf) errs))
        with (mkParser (List.length (pre ++ lf ++ [lp])) errs) by state_eq.
      apply (IHl (pre ++ lf ++ [lp]) rp (t :: post) errs [] E2).
      * rewrite Hrp. discriminate.
      * rewrite Hrp. reflexivity.
    + exact (cur_after _ la rp _ errs E2).
    + exact Hrp.
    + replace (next (mkParser (List.length (pre ++ lf ++ [lp]) + List.length la)
                       errs))
        with (mkParser (List.length pre
                        + List.length (lf ++ lp :: la ++ [rp])) errs)
        by state_eq.
      exact Hret.
  - (* a number *)
    intros t0 Hk0 pre t post errs E Hk r s' Hret.
    cbn [loop_of] in Hret. apply returns_ret_inv in Hret.
    destruct Hret as [-> ->].
    apply (atom_parses t0 _ pre (t :: post) errs E). auto.
  - (* a string *)
    intros t0 Hk0 pre t post errs E Hk r s' Hret.
    cbn [loop_of] in Hret. apply returns_ret_inv in Hret.
    destruct Hret as [-> ->].
    apply (atom_parses t0 _ pre (t :: post) errs E). auto.
  - (* a name *)
    intros t0 Hk0 pre t post errs E Hk r s' Hret.
    cbn [loop_of] in Hret. apply returns_ret_inv in Hret.
    destruct Hret as [-> ->].
    apply (atom_parses t0 _ pre (t :: post) errs E). auto.
  - (* a group *)
    intros lp l e rp Hlp _ IH Hrp pre t post errs E Hk r s' Hret.
    cbn [loop_of] in Hret. apply returns_ret_inv in Hret.
    destruct Hret as [-> ->].
    assert (E0 : tokens = pre ++ lp :: (l ++ rp :: t :: post)) by list_eq E.
    assert (E1 : tokens = (pre ++ [lp]) ++ l ++ rp :: t :: post)
      by list_eq E.
    pose proof (cur_at pre lp _ errs E0) as Hcur.
    pose proof (cur_after (pre ++ [lp]) l rp _ errs E1) as Hcrp.
    set (s_mid := mkParser (List.length (pre ++ [lp]) + List.length l) errs)
      in *.
    apply (returns_S
             (fun n => expr <- expression n ;;
                       consume TK.RPAREN "Expected ')' after expression." ;;;
                       ret (Group expr))
             primary _ (next (mkParser (List.length pre) errs))).
    { intros n. apply (primary_lparen n _ lp Hcur Hlp). }
    apply (returns_bind expression
             (fun _ expr =>
                consume TK.RPAREN "Expected ')' after expression." ;;;
                ret (Group expr))
             _ e s_mid).
    + replace (next (mkParser (List.length pre) errs))
        with (mkParser (List.length (pre ++ [lp])) errs) by state_eq.
      apply (expression_of_follows l e (pre ++ [lp]) rp (t :: post) errs IH E1).
      rewrite Hrp. reflexivity.
    + exists 0. intros m _.
      rewrite bind_consume_eq, Hcrp, (kind_live rp), Hrp by congruence.
      eval_kind_in. unfold ret. f_equal. unfold s_mid. state_eq.
  - (* one argument *)
    intros l e _ IH pre t post errs acc E Hnc Hk.
    set (s_end := mkParser (List.length pre + List.length l) errs).
    apply (returns_S
             (fun n => e0 <- expression n ;;
                       b <- match_ [TK.COMMA] ;;
                       if b then call_args n (acc ++ [e0])
                       else ret (acc ++ [e0]))
             (fun n => call_args n acc) _ (mkParser (List.length pre) errs));
      [intros n; rewrite call_args_S; reflexivity|].
    apply (returns_bind expression
             (fun n e0 =>
                b <- match_ [TK.COMMA] ;;
                if b then call_args n (acc ++ [e0]) else ret (acc ++ [e0]))
             _ e s_end).
    + exact (expression_of_follows l e pre t post errs IH E Hk).
    + exists 0. intros m _. unfold s_end.
      rewrite bind_match_eq, (cur_after pre l t post errs E) by congruence.
      apply TKFacts.eqb_neq in Hnc. unfold kind_in. cbn [existsb].
      rewrite Hnc, andb_false_r. reflexivity.
  - (* an argument and more *)
    intros l e comma l' es _ IH Hc _ IHl pre t post errs acc E Hnc Hk.
    assert (E1 : tokens = pre ++ l ++ comma :: (l' ++ t :: post))
      by list_eq E.
    assert (E2 : tokens = (pre ++ l ++ [comma]) ++ l' ++ t :: post)
      by list_eq E.
    set (s_mid := mkParser (List.length pre + List.length l) errs).
    apply (returns_S
             (fun n => e0 <- expression n ;;
                       b <- match_ [TK.COMMA] ;;
                       if b then call_args n (acc ++ [e0])
                       else ret (acc ++ [e0]))
             (fun n => call_args n acc) _ (mkParser (List.length pre) errs));
      [intros n; rewrite call_args_S; reflexivity|].
    apply (returns_bind expression
             (fun n e0 =>
                b <- match_ [TK.COMMA] ;;
                if b then call_args n (acc ++ [e0]) else ret (acc ++ [e0]))
             _ e s_mid).
    + apply (expression_of_follows l e pre comma _ errs IH E1).
      rewrite Hc. reflexivity.
    + destruct (IHl (pre ++ l ++ [comma]) t post errs (acc ++ [e]) E2 Hnc Hk)
        as [N HN].
      exists N. intros m Hm. unfold s_mid.
      rewrite bind_match_eq, (cur_after pre l comma _ errs E1),
        (kind_live comma), Hc by congruence.
      eval_kind_in.
      replace (next (mkParser (List.length pre + List.length l) errs))
        with (mkParser (List.length (pre ++ l ++ [comma])) errs)
        by state_eq.
      rewrite (HN m Hm). f_equal.
      * rewrite <- app_assoc. reflexivity.
      * state_eq.
Qed.

(** X11 (every expression of the grammar is parsed to its tree).  When
    the tokens from the index on are an expression of the grammar followed
    by a token that continues no expression (neither a binary operator nor
    [(]), [expression] returns the tree of the derivation and leaves the
    index on that token, with the error list unchanged. *)
Theorem expression_complete :
  forall l e pre t post errs,
    derives L_or l e ->
    tokens = pre ++ l ++ t :: post ->
    continues_expression (kind t) = false ->
    returns expression (mkParser (List.length pre) errs) e
      (mkParser (List.length pre + List.length l) errs).
Proof.
  intros l e pre t post errs Hd E Hk.
  exact (expression_of_follows l e pre t post errs
           (proj1 grammar_is_parsed L_or l e Hd) E Hk).
Qed.

(** ** Every program of the grammar is parsed *)

Local Abbreviation after s l :=
  (mkParser (i s + List.length l) (errors s)).

Lemma rem_cons s t r :
  skipn (i s) tokens = t :: r ->
  cur s = Some t /\ skipn (i (next s)) tokens = r.
Proof.
  intros H. split.
  - unfold cur. rewrite <- hd_error_skipn, H. reflexivity.
  - cbn [i next]. change (S (i s)) with (1 + i s).
    rewrite <- skipn_skipn, H. reflexivity.
Qed.

Lemma rem_after s l r :
  skipn (i s) tokens = l ++ r -> skipn (i (after s l)) tokens = r.
Proof.
  intros H. cbn [i]. rewrite Nat.add_comm, <- skipn_skipn, H.
  rewrite skipn_app, skipn_all, Nat.sub_diag. reflexivity.
Qed.

Lemma rem_tokens s l :
  skipn (i s) tokens = l -> l <> [] ->
  tokens = firstn (i s) tokens ++ l /\
  List.length (firstn (i s) tokens) = i s.
Proof.
  intros H Hne. split.
  - rewrite <- H. symmetry. apply firstn_skipn.
  - apply firstn_length_le.
    destruct (le_lt_dec (i s) (List.length tokens)) as [Hle|Hlt];
      [exact Hle|].
    rewrite skipn_all2 in H by lia. congruence.
Qed.

Lemma state_eta s : mkParser (i s) (errors s) = s.
Proof. destruct s. reflexivity. Qed.

Lemma expression_at s l e t post :
  derives L_or l e -> skipn (i s) tokens = l ++ t :: post ->
  continues_expression (kind t) = false ->
  returns expression s e (after s l).
Proof.
  intros Hd Hrem Hk.
  destruct (rem_tokens s _ Hrem) as [E Hlen]; [destruct l; discriminate|].
  pose proof (expression_of_follows l e (firstn (i s) tokens) t post
                (errors s) (proj1 grammar_is_parsed _ _ _ Hd) E Hk) as H.
  rewrite Hlen, state_eta in H. exact H.
Qed.

Lemma binary_of_not_assign lvl k op :
  binary_of lvl k = Some op -> assignOp_of_kind k = None.
Proof. destruct lvl, k; cbn; congruence. Qed.

Lemma derives_kinds :
  (forall lvl l e, derives lvl l e ->
     Forall (fun t => assignOp_of_kind (kind t) = None) l) /\
  (forall l es, derives_list l es ->
     Forall (fun t => assignOp_of_kind (kind t) = None) l).
Proof.
  assert (Hone : forall t k, kind t = k -> assignOp_of_kind k = None ->
                             assignOp_of_kind (kind t) = None)
    by (intros t k ->; auto).
  apply derives_mutind; intros;
    repeat first [ apply Forall_app; split | apply Forall_cons
                 | apply Forall_nil | assumption ];
    try (eapply Hone; [eassumption|reflexivity]).
  - eapply binary_of_not_assign; eassumption.
  - destruct H as [-> | ->]; reflexivity.
Qed.

Lemma starts_facts k :
  In k expression_starts ->
  kind_in k [TK.FUNC] = false /\ kind_in k [TK.LET] = false /\
  kind_in k [TK.IF] = false /\ kind_in k [TK.WHILE] = false /\
  kind_in k [TK.LBRACE] = false /\
  k <> TK.ELSE /\ k <> TK.RBRACE /\ k <> TK.EOF.
Proof.
  unfold expression_starts. cbn [In].
  intros H; repeat (destruct H as [<-|H]; [repeat split; discriminate|]);
    destruct H.
Qed.

Lemma stmt_first l st :
  derives_stmt l st ->
  exists t0 rest,
    l = t0 :: rest /\ In (kind t0) (statement_keywords ++ expression_starts).
Proof.
  unfold statement_keywords, expression_starts.
  intros [kw lp lc cond rp lt then_ Hk _ _ _ _
         | kw lp lc cond rp lt then_ el lo o Hk _ _ _ _ _ _ _
         | kw lp lc cond rp lb body Hk _ _ _ _
         | lb l0 stmts rb Hk _ _
         | name opTok op l0 value semi Hk _ _ _
         | l0 expr semi Hd _].
  - exists kw, (lp :: lc ++ rp :: lt). rewrite Hk. cbn. tauto.
  - exists kw, (lp :: lc ++ rp :: lt ++ el :: lo). rewrite Hk. cbn. tauto.
  - exists kw, (lp :: lc ++ rp :: lb). rewrite Hk. cbn. tauto.
  - exists lb, (l0 ++ [rb]). rewrite Hk. cbn. tauto.
  - exists name, (opTok :: l0 ++ [semi]). rewrite Hk. cbn. tauto.
  - destruct (derives_first _ _ _ Hd) as (t0 & rest & -> & Hs & _).
    exists t0, (rest ++ [semi]). split; [reflexivity|].
    apply in_or_app. right. exact Hs.
Qed.

Lemma decl_first l st :
  derives_decl l st ->
  exists t0 rest,
    l = t0 :: rest /\
    In (kind t0)
      ([TK.FUNC; TK.LET] ++ statement_keywords ++ expression_starts).
Proof.
  intros [l0 st0 Hd
         | kw name semi Hk _ _
         | kw name eq l0 init semi Hk _ _ _ _
         | kw name lp rp lb l0 body rb Hk _ _ _ _ _ _
         | kw name lp lps params rp lb l0 body rb Hk _ _ _ _ _ _ _].
  - destruct (stmt_first _ _ Hd) as (t0 & rest & -> & Hs).
    exists t0, rest. split; [reflexivity|]. apply in_or_app. right. exact Hs.
  - exists kw, [name; semi]. rewrite Hk. cbn. tauto.
  - exists kw, (name :: eq :: l0 ++ [semi]). rewrite Hk. cbn. tauto.
  - exists kw, (name :: lp :: rp :: lb :: l0 ++ [rb]). rewrite Hk. cbn. tauto.
  - exists kw, (name :: lp :: lps ++ rp :: lb :: l0 ++ [rb]).
    rewrite Hk. cbn. tauto.
Qed.

Lemma decl_start_facts k :
  In k ([TK.FUNC; TK.LET] ++ statement_keywords ++ expression_starts) ->
  k <> TK.ELSE /\ k <> TK.RBRACE /\ k <> TK.EOF.
Proof.
  unfold statement_keywords, expression_starts. cbn [In app].
  intros H; repeat (destruct H as [<-|H]; [repeat split; discriminate|]);
    destruct H.
Qed.

Lemma stmt_start_facts k :
  In k (statement_keywords ++ expression_starts) ->
  kind_in k [TK.FUNC] = false /\ kind_in k [TK.LET] = false.
Proof.
  unfold statement_keywords, expression_starts. cbn [In app].
  intros H; repeat (destruct H as [<-|H]; [split; reflexivity|]); destruct H.
Qed.

Lemma decls_follow l stmts t post :
  derives_decls l stmts -> (kind t = TK.RBRACE \/ kind t = TK.EOF) ->
  exists t' post', l ++ t :: post = t' :: post' /\ kind t' <> TK.ELSE.
Proof.
  intros [|l0 st l' stmts' Hd _] Ht.
  - exists t, post. split; [reflexivity|].
    destruct Ht as [-> | ->]; discriminate.
  - destruct (decl_first _ _ Hd) as (t0 & rest & -> & Hs).
    exists t0, ((rest ++ l') ++ t :: post). split; [reflexivity|].
    apply (decl_start_facts _ Hs).
Qed.

Ltac use_rem H Hc Hr :=
  let P := fresh in
  pose proof (rem_cons _ _ _ H) as P; destruct P as [Hc Hr].

Ltac step_match Hc Hk :=
  rewrite ?bind_assoc_eq;
  rewrite bind_match_eq, Hc, (kind_live _), Hk by congruence; eval_kind_in.
Ltac step_consume Hc Hk :=
  rewrite ?bind_assoc_eq;
  rewrite bind_consume_eq, Hc, (kind_live _), Hk by congruence; eval_kind_in.
Ltac step_miss Hc Hno :=
  rewrite ?bind_assoc_eq;
  rewrite bind_match_eq, Hc, Hno, andb_false_r by congruence.
Ltac step_run H :=
  rewrite ?bind_assoc_eq; unfold bind at 1; rewrite H by lia.
Ltac step_ret := rewrite ?bind_assoc_eq; rewrite bind_ret_eq.
Ltac same_state :=
  unfold ret; f_equal; unfold next; cbn [i errors]; f_equal;
  repeat (progress (rewrite ?length_app; cbn [List.length])); lia.

Ltac finish := repeat step_ret; same_state.

Lemma declaration_ok n s r s' :
  declaration_try n s = (Ok r, s') -> declaration (S n) s = (Ok r, s').
Proof. intros H. rewrite declaration_S. unfold try_catch. rewrite H. reflexivity. Qed.

Lemma params_parsed lps params :
  derives_params lps params ->
  forall s t post acc,
    skipn (i s) tokens = lps ++ t :: post -> kind t <> TK.COMMA ->
    returns (fun n => fnDecl_params n acc) s (acc ++ params) (after s lps).
Proof.
  induction 1 as [p Hp | p comma l ps Hp Hc _ IH]; intros s t post acc Hrem Ht.
  - cbn [app] in Hrem. use_rem Hrem Hc0 Hr0. use_rem Hr0 Hc1 Hr1.
    exists 1. intros [|m] Hm; [lia|].
    rewrite fnDecl_params_S. step_consume Hc0 Hp.
    rewrite bind_match_eq, Hc1 by congruence.
    apply TKFacts.eqb_neq in Ht. unfold kind_in. cbn [existsb].
    rewrite Ht, andb_false_r. same_state.
  - cbn [app] in Hrem. use_rem Hrem Hc0 Hr0. use_rem Hr0 Hc1 Hr1.
    destruct (IH (next (next s)) t post (acc ++ [lexeme p]) Hr1 Ht)
      as [N HN].
    exists (S N). intros [|m] Hm; [lia|].
    rewrite fnDecl_params_S. step_consume Hc0 Hp. step_match Hc1 Hc.
    rewrite HN by lia. rewrite <- app_assoc. cbn [app]. same_state.
Qed.

Lemma exprStmt_returns s tok expr s1 semi :
  cur s = Some tok ->
  (kind tok = TK.IDENT ->
   lookahead s = None \/
   exists t2, lookahead s = Some t2 /\ assignOp_of_kind (kind t2) = None) ->
  returns expression s expr s1 ->
  cur s1 = Some semi -> kind semi = TK.SEMICOLON ->
  returns exprOrAssignStmt s (ExprStmt expr) (next s1).
Proof.
  intros Hcur Hla Hexpr Hc1 Hsemi.
  destruct (TK.eq_dec (kind tok) TK.IDENT) as [Hk|Hk].
  - exact (exprOrAssignStmt_returns_expr s tok expr s1 semi Hcur Hk (Hla Hk)
             Hexpr Hc1 Hsemi).
  - destruct Hexpr as [N HN]. exists N. intros m Hm.
    unfold exprOrAssignStmt. rewrite bind_check_eq, Hcur.
    apply TKFacts.eqb_neq in Hk. rewrite Hk, andb_false_r, bind_ret_eq.
    step_run HN. rewrite (consume_semicolon _ _ s1 semi Hc1 Hsemi).
    reflexivity.
Qed.

Lemma program_is_parsed :
  (forall l st, derives_stmt l st ->
     forall s t post,
       skipn (i s) tokens = l ++ t :: post ->
       (open_if st = true -> kind t <> TK.ELSE) ->
       returns statement s st (after s l)) /\
  (forall l st, derives_decl l st ->
     forall s t post,
       skipn (i s) tokens = l ++ t :: post ->
       (open_if st = true -> kind t <> TK.ELSE) ->
       returns declaration s (Some st) (after s l)) /\
  (forall l stmts, derives_decls l stmts ->
     forall s t post acc,
       skipn (i s) tokens = l ++ t :: post ->
       (kind t = TK.RBRACE ->
        returns (fun n => blockStmtsAlreadyOpened_while n acc) s
          (acc ++ stmts) (after s l)) /\
       (kind t = TK.EOF ->
        returns (fun n => parseProgram_while n acc) s
          (acc ++ stmts) (after s l))).
Proof.
  apply derives_stmt_mutind.
  - (* if without else *)
    intros kw lp lc cond rp lt then_ Hkw Hlp Hd Hrp _ IH s t post Hrem Hf.
    norm_app_in Hrem.
    use_rem Hrem Hc0 Hr0. use_rem Hr0 Hc1 Hr1.
    pose proof (expression_at _ lc cond rp _ Hd Hr1
                  ltac:(rewrite Hrp; reflexivity)) as [N1 H1].
    pose proof (rem_after _ lc _ Hr1) as Hr2. use_rem Hr2 Hc3 Hr3.
    destruct (IH _ t post Hr3 ltac:(intros _; apply Hf; reflexivity))
      as [N2 H2].
    pose proof (rem_after _ lt _ Hr3) as Hr4. use_rem Hr4 Hc5 Hr5.
    assert (Hno : kind_in (kind t) [TK.ELSE] = false)
      by (apply kind_in_false; intros [E|[]]; exact (Hf eq_refl (eq_sym E))).
    exists (S (S (N1 + N2))). intros [|[|m]] Hm; try lia.
    rewrite statement_S. step_match Hc0 Hkw.
    rewrite ifStmt_S. step_consume Hc1 Hlp. step_run H1.
    step_consume Hc3 Hrp. step_run H2. step_miss Hc5 Hno.
    finish.
  - (* if with else *)
    intros kw lp lc cond rp lt then_ el lo o Hkw Hlp Hd Hrp _ IHt Hopen Hel
      _ IHo s t post Hrem Hf.
    norm_app_in Hrem.
    use_rem Hrem Hc0 Hr0. use_rem Hr0 Hc1 Hr1.
    pose proof (expression_at _ lc cond rp _ Hd Hr1
                  ltac:(rewrite Hrp; reflexivity)) as [N1 H1].
    pose proof (rem_after _ lc _ Hr1) as Hr2. use_rem Hr2 Hc3 Hr3.
    destruct (IHt _ el (lo ++ t :: post) Hr3
                ltac:(intros Ho; congruence)) as [N2 H2].
    pose proof (rem_after _ lt _ Hr3) as Hr4. use_rem Hr4 Hc5 Hr5.
    destruct (IHo _ t post Hr5 Hf) as [N3 H3].
    exists (S (S (N1 + N2 + N3))). intros [|[|m]] Hm; try lia.
    rewrite statement_S. step_match Hc0 Hkw.
    rewrite ifStmt_S. step_consume Hc1 Hlp. step_run H1.
    step_consume Hc3 Hrp. step_run H2. step_match Hc5 Hel.
    rewrite bind_assoc_eq. step_run H3. finish.
  - (* while *)
    intros kw lp lc cond rp lb body Hkw Hlp Hd Hrp _ IH s t post Hrem Hf.
    norm_app_in Hrem.
    use_rem Hrem Hc0 Hr0. use_rem Hr0 Hc1 Hr1.
    pose proof (expression_at _ lc cond rp _ Hd Hr1
                  ltac:(rewrite Hrp; reflexivity)) as [N1 H1].
    pose proof (rem_after _ lc _ Hr1) as Hr2. use_rem Hr2 Hc3 Hr3.
    destruct (IH _ t post Hr3 Hf) as [N2 H2].
    exists (S (S (N1 + N2))). intros [|[|m]] Hm; try lia.
    rewrite statement_S. step_match Hc0 Hkw. step_match Hc0 Hkw.
    rewrite whileStmt_S. step_consume Hc1 Hlp. step_run H1.
    step_consume Hc3 Hrp. step_run H2. same_state.
  - (* a block *)
    intros lb l stmts rb Hlb _ IH Hrb s t post Hrem Hf.
    norm_app_in Hrem. use_rem Hrem Hc0 Hr0.
    destruct (IH (next s) rb (t :: post) [] Hr0) as [Hblock _].
    destruct (Hblock Hrb) as [N1 H1].
    pose proof (rem_after _ l _ Hr0) as Hr1. use_rem Hr1 Hc2 Hr2.
    exists (S (S (S (S N1)))). intros [|[|[|m]]] Hm; try lia.
    rewrite statement_S. step_match Hc0 Hlb. step_match Hc0 Hlb.
    step_match Hc0 Hlb.
    rewrite blockStmtAlreadyOpened_S, blockStmtsAlreadyOpened_S.
    rewrite bind_assoc_eq. step_run H1. step_consume Hc2 Hrb.
    finish.
  - (* an assignment *)
    intros name opTok op l value semi Hname Hop Hd Hsemi s t post Hrem Hf.
    norm_app_in Hrem.
    use_rem Hrem Hc0 Hr0. use_rem Hr0 Hc1 Hr1.
    pose proof (expression_at _ l value semi _ Hd Hr1
                  ltac:(rewrite Hsemi; reflexivity)) as He.
    pose proof (rem_after _ l _ Hr1) as Hr2. use_rem Hr2 Hc3 Hr3.
    assert (Hla : lookahead s = Some opTok).
    { unfold lookahead. unfold cur in Hc1. cbn [i next] in Hc1.
      rewrite <- Hc1. f_equal. lia. }
    destruct (exprOrAssignStmt_returns_assign s name opTok op value _ semi
                Hc0 Hname Hla Hop He Hc3 Hsemi) as [N HN].
    exists (S N). intros [|m] Hm; [lia|].
    rewrite statement_S. step_match Hc0 Hname. step_match Hc0 Hname.
    step_match Hc0 Hname. rewrite HN by lia. same_state.
  - (* an expression statement *)
    intros l expr semi Hd Hsemi s t post Hrem Hf.
    norm_app_in Hrem.
    pose proof (expression_at _ l expr semi _ Hd Hrem
                  ltac:(rewrite Hsemi; reflexivity)) as He.
    pose proof (rem_after _ l _ Hrem) as Hr1. use_rem Hr1 Hc1 Hr2.
    destruct (derives_first _ _ _ Hd) as (t0 & rest & El & Hs & _).
    destruct (starts_facts _ Hs) as (_ & _ & Hif & Hwh & Hlb & _).
    assert (Hc0 : cur s = Some t0).
    { rewrite El in Hrem. cbn [app] in Hrem.
      exact (proj1 (rem_cons _ _ _ Hrem)). }
    assert (Hla : kind t0 = TK.IDENT ->
                  lookahead s = None \/
                  exists t2, lookahead s = Some t2 /\
                             assignOp_of_kind (kind t2) = None).
    { intros _. right. rewrite El in Hrem. cbn [app] in Hrem.
      destruct (rem_cons _ _ _ Hrem) as [_ Hr0].
      pose proof (proj1 derives_kinds _ _ _ Hd) as Hall.
      rewrite El in Hall. inversion Hall as [|? ? _ Hrest]; subst.
      assert (Hlook : forall x r, skipn (i (next s)) tokens = x :: r ->
                                  lookahead s = Some x).
      { intros x r Hx. unfold lookahead.
        replace (i s + 1) with (i (next s)) by (cbn [i next]; lia).
        exact (proj1 (rem_cons _ _ _ Hx)). }
      destruct rest as [|t1 rest'].
      - exists semi. split; [exact (Hlook _ _ Hr0)|].
        rewrite Hsemi. reflexivity.
      - exists t1. split; [exact (Hlook _ _ Hr0)|].
        inversion Hrest; assumption. }
    destruct (exprStmt_returns s t0 expr _ semi Hc0 Hla He Hc1 Hsemi)
      as [N HN].
    exists (S N). intros [|m] Hm; [lia|].
    rewrite statement_S. step_miss Hc0 Hif. step_miss Hc0 Hwh.
    step_miss Hc0 Hlb. rewrite HN by lia. same_state.
  - (* a statement is a declaration *)
    intros l st Hd IH s t post Hrem Hf.
    destruct (IH s t post Hrem Hf) as [N HN].
    destruct (stmt_first _ _ Hd) as (t0 & rest & El & Hs).
    destruct (stmt_start_facts _ Hs) as (Hfn & Hlet).
    assert (Hc0 : cur s = Some t0).
    { rewrite El in Hrem. cbn [app] in Hrem.
      exact (proj1 (rem_cons _ _ _ Hrem)). }
    exists (S N). intros [|m] Hm; [lia|].
    apply declaration_ok. unfold declaration_try.
    step_miss Hc0 Hfn. step_miss Hc0 Hlet. step_run HN. reflexivity.
  - (* let without initialiser *)
    intros kw name semi Hkw Hname Hsemi s t post Hrem Hf.
    cbn [app] in Hrem.
    use_rem Hrem Hc0 Hr0. use_rem Hr0 Hc1 Hr1. use_rem Hr1 Hc2 Hr2.
    exists 1. intros [|m] Hm; [lia|].
    apply declaration_ok. unfold declaration_try.
    step_match Hc0 Hkw. step_match Hc0 Hkw.
    unfold letDecl.
    step_consume Hc1 Hname. step_match Hc2 Hsemi. step_ret.
    step_consume Hc2 Hsemi. finish.
  - (* let with initialiser *)
    intros kw name eq l init semi Hkw Hname Heq Hd Hsemi s t post Hrem Hf.
    norm_app_in Hrem.
    use_rem Hrem Hc0 Hr0. use_rem Hr0 Hc1 Hr1. use_rem Hr1 Hc2 Hr2.
    pose proof (expression_at _ l init semi _ Hd Hr2
                  ltac:(rewrite Hsemi; reflexivity)) as [N1 H1].
    pose proof (rem_after _ l _ Hr2) as Hr3. use_rem Hr3 Hc4 Hr4.
    exists (S N1). intros [|m] Hm; [lia|].
    apply declaration_ok. unfold declaration_try.
    step_match Hc0 Hkw. step_match Hc0 Hkw.
    unfold letDecl.
    step_consume Hc1 Hname. step_match Hc2 Heq.
    rewrite !bind_assoc_eq. step_run H1. step_ret.
    step_consume Hc4 Hsemi. finish.
  - (* a function without parameters *)
    intros kw name lp rp lb l body rb Hkw Hname Hlp Hrp Hlb _ IH Hrb
      s t post Hrem Hf.
    norm_app_in Hrem.
    use_rem Hrem Hc0 Hr0. use_rem Hr0 Hc1 Hr1. use_rem Hr1 Hc2 Hr2.
    use_rem Hr2 Hc3 Hr3. use_rem Hr3 Hc4 Hr4.
    destruct (IH _ rb (t :: post) [] Hr4) as [Hblock _].
    destruct (Hblock Hrb) as [N1 H1].
    pose proof (rem_after _ l _ Hr4) as Hr5. use_rem Hr5 Hc6 Hr6.
    exists (S (S (S (S N1)))). intros [|[|[|m]]] Hm; try lia.
    apply declaration_ok. unfold declaration_try.
    step_match Hc0 Hkw. rewrite fnDecl_S.
    step_consume Hc1 Hname. step_consume Hc2 Hlp.
    rewrite ?bind_assoc_eq.
    rewrite bind_check_eq, Hc3, (kind_live rp), Hrp by congruence.
    eval_kind_in. step_ret.
    step_consume Hc3 Hrp. step_consume Hc4 Hlb.
    rewrite blockStmtsAlreadyOpened_S, !bind_assoc_eq.
    step_run H1. step_consume Hc6 Hrb. finish.
  - (* a function with parameters *)
    intros kw name lp lps params rp lb l body rb Hkw Hname Hlp Hps Hrp Hlb
      _ IH Hrb s t post Hrem Hf.
    norm_app_in Hrem.
    use_rem Hrem Hc0 Hr0. use_rem Hr0 Hc1 Hr1. use_rem Hr1 Hc2 Hr2.
    destruct (params_parsed _ _ Hps _ rp _ [] Hr2
                ltac:(rewrite Hrp; discriminate)) as [N0 H0].
    assert (Hc3 : exists p0, cur (next (next (next s))) = Some p0 /\
                             kind p0 = TK.IDENT).
    { destruct Hps as [p Hp | p comma l0 ps Hp _ _]; cbn [app] in Hr2;
        exists p; split; auto; exact (proj1 (rem_cons _ _ _ Hr2)). }
    destruct Hc3 as (p0 & Hc3 & Hp0).
    pose proof (rem_after _ lps _ Hr2) as Hr3. use_rem Hr3 Hc4 Hr4.
    use_rem Hr4 Hc5 Hr5.
    destruct (IH _ rb (t :: post) [] Hr5) as [Hblock _].
    destruct (Hblock Hrb) as [N1 H1].
    pose proof (rem_after _ l _ Hr5) as Hr6. use_rem Hr6 Hc7 Hr7.
    exists (S (S (S (S (N0 + N1))))). intros [|[|[|m]]] Hm; try lia.
    apply declaration_ok. unfold declaration_try.
    step_match Hc0 Hkw. rewrite fnDecl_S.
    step_consume Hc1 Hname. step_consume Hc2 Hlp.
    rewrite ?bind_assoc_eq.
    rewrite bind_check_eq, Hc3, (kind_live p0), Hp0 by congruence.
    eval_kind_in. step_run H0.
    step_consume Hc4 Hrp. step_consume Hc5 Hlb.
    rewrite blockStmtsAlreadyOpened_S, !bind_assoc_eq.
    step_run H1. step_consume Hc7 Hrb. finish.
  - (* no statement *)
    intros s t post acc Hrem. cbn [app] in Hrem. use_rem Hrem Hc0 Hr0.
    split; intros Ht.
    + exists 1. intros [|m] Hm; [lia|].
      rewrite blockStmtsAlreadyOpened_while_S.
      rewrite bind_check_eq, Hc0, (kind_live t), Ht by congruence.
      eval_kind_in. step_ret. rewrite app_nil_r. destruct s. same_state.
    + exists 1. intros [|m] Hm; [lia|].
      rewrite parseProgram_while_S, bind_isAtEnd_eq, Hc0,
        (kind_not_live t Ht).
      cbn [negb]. rewrite app_nil_r. destruct s. same_state.
  - (* a statement and more *)
    intros l st l' stmts Hd IHd Hds IHs s t post acc Hrem.
    norm_app_in Hrem.
    destruct (decl_first _ _ Hd) as (t0 & rest & El & Hs).
    destruct (decl_start_facts _ Hs) as (_ & Hnrb & Hneof).
    assert (Hc0 : cur s = Some t0).
    { rewrite El in Hrem. cbn [app] in Hrem.
      exact (proj1 (rem_cons _ _ _ Hrem)). }
    pose proof (rem_after _ l _ Hrem) as Hr1.
    destruct (IHs _ t post (acc ++ [st]) Hr1) as [Hblock Hprog].
    assert (Hdecl : kind t = TK.RBRACE \/ kind t = TK.EOF ->
                    returns declaration s (Some st) (after s l)).
    { intros Ht.
      destruct (decls_follow l' stmts t post Hds Ht)
        as (t' & post' & E' & Hne).
      rewrite E' in Hrem. apply (IHd s t' post' Hrem). intros _. exact Hne. }
    split; intros Ht.
    + destruct (Hdecl (or_introl Ht)) as [N1 H1].
      destruct (Hblock Ht) as [N2 H2].
      exists (S (N1 + N2)). intros [|m] Hm; [lia|].
      rewrite blockStmtsAlreadyOpened_while_S.
      rewrite bind_check_eq, Hc0, (kind_live t0) by exact Hneof.
      apply TKFacts.eqb_neq in Hnrb. rewrite Hnrb. cbn [andb negb].
      rewrite bind_assoc_eq, bind_isAtEnd_eq, Hc0, (kind_live t0)
        by exact Hneof.
      cbn [negb]. step_ret. step_run H1. cbn [push_stmt].
      rewrite H2 by lia. rewrite <- app_assoc. cbn [app]. same_state.
    + destruct (Hdecl (or_intror Ht)) as [N1 H1].
      destruct (Hprog Ht) as [N2 H2].
      exists (S (N1 + N2)). intros [|m] Hm; [lia|].
      rewrite parseProgram_while_S, bind_isAtEnd_eq, Hc0, (kind_live t0)
        by exact Hneof.
      cbn [negb]. step_run H1. cbn [push_stmt].
      rewrite H2 by lia. rewrite <- app_assoc. cbn [app]. same_state.
Qed.

(** X12 (every program of the grammar is parsed to its statements).
    When the token array is a program of the grammar followed by the
    end-of-input token, [parseProgram], started on a fresh parser and given
    enough fuel, returns the statements of the derivation, records no
    error and leaves the index on that end-of-input token.  The same holds
    of one [statement] followed by a token that is not an [else] it could
    take, and of the loop of [parseProgram] started anywhere, for instance
    where [synchronize] has stopped: from a point where the rest of the
    input is a sequence of declarations of the grammar, the loop appends
    their statements and records no new error. *)
Theorem program_complete :
  (forall l out t post,
     derives_decls l out -> tokens = l ++ t :: post -> kind t = TK.EOF ->
     returns parseProgram newParser out (mkParser (List.length l) [])) /\
  (forall l st s t post,
     derives_stmt l st -> skipn (i s) tokens = l ++ t :: post ->
     (open_if st = true -> kind t <> TK.ELSE) ->
     returns statement s st (mkParser (i s + List.length l) (errors s))) /\
  (forall l stmts s t post out,
     derives_decls l stmts -> skipn (i s) tokens = l ++ t :: post ->
     kind t = TK.EOF ->
     returns (fun n => parseProgram_while n out) s (out ++ stmts)
       (mkParser (i s + List.length l) (errors s))).
Proof.
  split; [|split].
  - intros l out t post Hd E Ht.
    destruct (proj2 (proj2 program_is_parsed) l out Hd newParser t post []
                E) as [_ H].
    exact (H Ht).
  - intros l st s t post Hd Hrem Hf.
    exact (proj1 program_is_parsed l st Hd s t post Hrem Hf).
  - intros l stmts s t post out Hd Hrem Ht.
    destruct (proj2 (proj2 program_is_parsed) l stmts Hd s t post out Hrem)
      as [_ H].
    exact (H Ht).
Qed.

Lemma tokens_at_limit :
  has_eof ->
  exists t, kind t = TK.EOF /\
            tokens = firstn limit tokens ++ t :: skipn (S limit) tokens.
Proof.
  intros Heof. unfold has_eof in Heof.
  destruct (nth_error tokens limit) as [t|] eqn:Ht.
  - exists t. split.
    + apply not_live_kind. exact (first_eof_stop tokens t Ht).
    + symmetry. apply firstn_skipn_middle. exact Ht.
  - apply nth_error_None in Ht. lia.
Qed.

(** X13 (errors are recorded exactly on what is not a program).  On a
    token array that ends with the end-of-input token, [parseProgram],
    given enough fuel, returns; its error list is empty if and only if the
    tokens before the first end-of-input token are a program of the grammar,
    and then the statements it returns are those of the derivation, which
    are unique. *)
Theorem no_errors_iff_program :
  ends_with_eof tokens ->
  forall n, 20 * limit + 13 <= n ->
    exists out s',
      parseProgram n newParser = (Ok out, s') /\
      (errors s' = [] <->
       exists stmts, derives_decls (firstn limit tokens) stmts) /\
      (forall stmts, derives_decls (firstn limit tokens) stmts ->
                     stmts = out).
Proof.
  intros Hends n Hn.
  destruct (parseProgram_answers Hends n Hn) as (out & s' & E).
  exists out, s'. split; [exact E|].
  assert (Hback : forall stmts,
            derives_decls (firstn limit tokens) stmts ->
            stmts = out /\ errors s' = []).
  { intros stmts Hd.
    destruct (tokens_at_limit (ends_with_eof_has_eof Hends))
      as (t & Ht & Etok).
    destruct (proj2 (proj2 program_is_parsed) _ _ Hd newParser t
                (skipn (S limit) tokens) [] Etok) as [_ Hprog].
    destruct (Hprog Ht) as [N HN].
    pose proof (HN (Nat.max n N) ltac:(lia)) as Hbig.
    assert (Em : parseProgram (Nat.max n N) newParser = (Ok out, s')).
    { apply (refines_run (parseProgram n) (parseProgram (Nat.max n N))
               newParser (Ok out) s');
        [apply parseProgram_mono; lia | exact E | discriminate]. }
    unfold parseProgram in Em. rewrite Hbig in Em.
    injection Em as <- <-. auto. }
  split; [split|].
  - intros Herr. exists out. exact (proj2 (clean_parse_derives n out s' E Herr)).
  - intros [stmts Hd]. exact (proj2 (Hback stmts Hd)).
  - intros stmts Hd. exact (proj1 (Hback stmts Hd)).
Qed.

(** ** Where an error is reported *)

Lemma slice_progress a b t0 rest : slice a b = t0 :: rest -> a < b.
Proof.
  unfold slice. intros H.
  destruct (le_lt_dec b a) as [Hle|Hlt]; [|exact Hlt].
  replace (b - a) with 0 in H by lia. discriminate.
Qed.

(** X14 (the index and the token of a [ParseError]).  Started at or
    before the first end-of-input token, [expression] and [statement]
    never move the index back nor past that token; when they throw a
    [ParseError], its token is the token under the index at that moment,
    the first one the parser could not accept; when they return, they have
    consumed at least one token. *)
Theorem error_token_is_current :
  (forall n s r s',
     i s <= limit -> expression n s = (r, s') -> r <> OutOfFuel ->
     i s <= i s' /\ i s' <= limit /\
     (forall e, r = Throw (ParseErr e) -> cur s' = Some (token e)) /\
     (forall a, r = Ok a -> i s < i s')) /\
  (forall n s r s',
     i s <= limit -> statement n s = (r, s') -> r <> OutOfFuel ->
     i s <= i s' /\ i s' <= limit /\
     (forall e, r = Throw (ParseErr e) -> cur s' = Some (token e)) /\
     (forall a, r = Ok a -> i s < i s')).
Proof.
  split; intros n s r s' Hle E Hr.
  - set (m := Nat.max n (20 * (limit - i s) + 10)).
    assert (Em : expression m s = (r, s')).
    { apply (refines_run (expression n) (expression m) s r s');
        [apply expression_mono; lia | exact E | exact Hr]. }
    pose proof (expression_ladder_terminates m) as (Hp & _).
    specialize (Hp s Hle ltac:(unfold enough; lia)).
    rewrite Em in Hp. destruct Hp as (_ & H1 & H2 & H3 & _).
    cbn [fst snd] in *. split_all; auto.
    intros a ->.
    pose proof (expression_ladder_reads n) as (Hread & _).
    destruct (Hread s a s' E) as [_ Hd].
    destruct (derives_first _ _ _ Hd) as (t0 & rest & El & _).
    exact (slice_progress _ _ _ _ El).
  - set (m := Nat.max n (20 * (limit - i s) + 11)).
    assert (Em : statement m s = (r, s')).
    { apply (refines_run (statement n) (statement m) s r s');
        [apply (statements_mono n m); lia | exact E | exact Hr]. }
    pose proof (statements_terminate m) as (_ & Hp & _).
    specialize (Hp s Hle ltac:(unfold enough; lia)).
    rewrite Em in Hp. destruct Hp as (_ & H1 & H2 & H3 & _ & _ & H6).
    cbn [fst snd] in *. split_all; auto.
    intros a ->. exact (H6 eq_refl a eq_refl).
Qed.

(** ** Batch error reporting *)

(** *** Up to the [;] that ends a statement *)

Section Semicolon.
Variable q : nat.
Variable semi : Token.
Hypothesis Hq : nth_error tokens q = Some semi.
Hypothesis Hsemi : kind semi = TK.SEMICOLON.

Local Abbreviation halts := (halts q).

Lemma Halts_same {A} s (o : Outcome A) : i s <= q -> Halts q s (o, s).
Proof. intros H. unfold Halts. cbn [fst snd]. auto. Qed.

Lemma halts_bind {A B} (c : M A) (k : A -> M B) :
  halts c -> (forall a, halts (k a)) -> halts (bind c k).
Proof.
  intros Hc Hk s Hs. unfold bind. pose proof (Hc s Hs) as H.
  unfold Halts in *.
  destruct (c s) as [[a|e|] s1] eqn:E; cbn [fst snd] in *; auto.
  destruct H as (H1 & H2 & H3).
  destruct (Hk a s1 H2) as (K1 & K2 & K3).
  split; [lia|]. split; [exact K2|congruence].
Qed.

Lemma halts_ret {A} (a : A) : halts (ret a).
Proof. intros s Hs. apply Halts_same, Hs. Qed.

Lemma halts_throw {A} e : halts (@throw _ A e).
Proof. intros s Hs. apply Halts_same, Hs. Qed.

Lemma halts_out_of_fuel {A} : halts (@out_of_fuel _ A).
Proof. intros s Hs. apply Halts_same, Hs. Qed.

Lemma halts_current : halts current.
Proof.
  intros s Hs. rewrite current_eq. destruct (cur s); apply Halts_same, Hs.
Qed.

Lemma halts_isAtEnd : halts isAtEnd.
Proof.
  intros s Hs. rewrite isAtEnd_eq. destruct (cur s); apply Halts_same, Hs.
Qed.

Lemma halts_check k : halts (check k).
Proof.
  intros s Hs. rewrite check_eq. destruct (cur s); apply Halts_same, Hs.
Qed.

Lemma halts_previous : halts previous.
Proof.
  intros s Hs.
  assert (H : forall o : Outcome Token, Halts q s (o, s))
    by (intros o; apply Halts_same, Hs).
  unfold previous. destruct (i s) as [|j]; [apply H|].
  destruct (nth_error tokens j); apply H.
Qed.

(** No token is consumed at [q] unless a [;] is asked for. *)
Lemma before_semicolon s tok :
  i s <= q -> cur s = Some tok -> kind tok <> TK.SEMICOLON -> S (i s) <= q.
Proof.
  intros Hs Hcur Hk.
  destruct (Nat.eq_dec (i s) q) as [Heq|Hne]; [|lia].
  unfold cur in Hcur. rewrite Heq, Hq in Hcur. injection Hcur as <-.
  contradiction.
Qed.

Lemma Halts_next {A} s tok (o : Outcome A) :
  i s <= q -> cur s = Some tok -> kind tok <> TK.SEMICOLON ->
  Halts q s (o, next s).
Proof.
  intros Hs Hcur Hk. pose proof (before_semicolon s tok Hs Hcur Hk).
  unfold Halts. cbn [fst snd i next errors]. auto.
Qed.

Lemma halts_match kinds :
  kinds <> [] -> ~ In TK.SEMICOLON kinds -> halts (match_ kinds).
Proof.
  intros Hne Hno s Hs. rewrite match_eq by exact Hne.
  destruct (cur s) as [tok|] eqn:Hcur; [|apply Halts_same, Hs].
  destruct (live tok && kind_in (kind tok) kinds) eqn:Hc;
    [|apply Halts_same, Hs].
  apply andb_true_iff in Hc. destruct Hc as [_ Hk].
  apply (Halts_next s tok); auto.
  intros E. rewrite E in Hk. apply kind_in_In in Hk. contradiction.
Qed.

Lemma halts_consume k msg : k <> TK.SEMICOLON -> halts (consume k msg).
Proof.
  intros Hk s Hs. rewrite consume_eq.
  destruct (cur s) as [tok|] eqn:Hcur; [|apply Halts_same, Hs].
  destruct (live tok && TK.eqb (kind tok) k) eqn:Hc;
    [|apply Halts_same, Hs].
  apply andb_true_iff in Hc. destruct Hc as [_ Hc].
  apply TKFacts.eqb_eq in Hc.
  apply (Halts_next s tok); auto. congruence.
Qed.

Ltac halts_step :=
  repeat first
    [ assumption
    | apply halts_ret
    | apply halts_throw
    | apply halts_out_of_fuel
    | apply halts_check
    | apply halts_isAtEnd
    | apply halts_current
    | apply halts_previous
    | apply halts_consume; discriminate
    | apply halts_match; [congruence | cbn [In]; intuition discriminate]
    | match goal with
      | H : forall e, halts _ |- _ => apply H
      | |- halts (if ?b then _ else _) => destruct b
      | |- halts (bind _ _) => apply halts_bind; [|intros]
      end ].


(** The expression methods never take the [;] at [q]. *)
Lemma expression_ladder_halts n :
  halts (expression n) /\
  halts (logicOr n) /\
  (forall e, halts (logicOr_while n e)) /\
  halts (logicAnd n) /\
  (forall e, halts (logicAnd_while n e)) /\
  halts (equality n) /\
  (forall e, halts (equality_while n e)) /\
  halts (comparison n) /\
  (forall e, halts (comparison_while n e)) /\
  halts (term n) /\
  (forall e, halts (term_while n e)) /\
  halts (factor n) /\
  (forall e, halts (factor_while n e)) /\
  halts (unary n) /\
  halts (call n) /\
  (forall e, halts (call_while n e)) /\
  (forall a, halts (call_args n a)) /\
  halts (primary n).
Proof.
  induction n as [|n IH].
  - split_all; intros; apply halts_out_of_fuel.
  - destruct IH
      as (? & ? & ? & ? & ? & ? & ? & ? & ? & ? & ? & ? & ? & ? & ? & ? & ? & ?).
    split_all; intros; autorewrite with fuel_step; halts_step.
Qed.

Lemma fnDecl_params_halts n : forall ps, halts (fnDecl_params n ps).
Proof.
  induction n as [|n IH]; intros ps; [apply halts_out_of_fuel|].
  rewrite fnDecl_params_S. halts_step.
Qed.

(** *** Without a [{] before the [;], and without [else] after it *)

Variable p : nat.
Hypothesis Hbrace :
  forall j t, p <= j -> j < q -> nth_error tokens j = Some t ->
              kind t <> TK.LBRACE.
Variable nxt : Token.
Hypothesis Hnxt : nth_error tokens (S q) = Some nxt.
Hypothesis Helse : kind nxt <> TK.ELSE.

Local Abbreviation ends := (ends p q).

Lemma ends_of_halts {A} (c : M A) : halts c -> ends c.
Proof.
  intros Hc s _ Hs. destruct (Hc s Hs) as (H1 & H2 & H3).
  unfold Ends. auto.
Qed.

Lemma ends_bind {A B} (c : M A) (k : A -> M B) :
  halts c -> (forall a, ends (k a)) -> ends (bind c k).
Proof.
  intros Hc Hk s Hp Hs. unfold bind. pose proof (Hc s Hs) as H.
  unfold Halts, Ends in *.
  destruct (c s) as [[a|e|] s1] eqn:E; cbn [fst snd] in *;
    destruct H as (H1 & H2 & H3); auto.
  destruct (Hk a s1 ltac:(lia) H2) as (K1 & K2 & K3).
  split; [lia|]. split; [congruence|exact K3].
Qed.

(** After a statement that has taken the [;] at [q], what follows in
    the enclosing method consumes nothing. *)
Lemma ends_then {A B} (c : M A) (k : A -> M B) :
  ends c -> (forall a, ends (k a)) ->
  (forall a s, i s = S q -> exists b, k a s = (Ok b, s)) ->
  ends (bind c k).
Proof.
  intros Hc Hk Hnoop s Hp Hs. unfold bind. pose proof (Hc s Hp Hs) as H.
  unfold Ends in *.
  destruct (c s) as [[a|e|] s1] eqn:E; cbn [fst snd] in *;
    destruct H as (H1 & H2 & H3).
  - destruct H3 as [H3|[H3 _]].
    + destruct (Hk a s1 ltac:(lia) H3) as (K1 & K2 & K3).
      split; [lia|]. split; [congruence|exact K3].
    + destruct (Hnoop a s1 H3) as [b Eb]. rewrite Eb. cbn [fst snd].
      split; [exact H1|]. split; [exact H2|]. right.
      split; [exact H3|]. exists b. reflexivity.
  - destruct H3 as [H3|[_ [a Ha]]]; [auto|discriminate].
  - destruct H3 as [H3|[_ [a Ha]]]; [auto|discriminate].
Qed.

Lemma ends_ret {A} (a : A) : ends (ret a).
Proof. apply ends_of_halts, halts_ret. Qed.

Lemma ret_noop {A B} (f : A -> B) :
  forall a s, i s = S q -> exists b, ret (f a) s = (Ok b, s).
Proof. intros a s _. exists (f a). reflexivity. Qed.

Lemma ends_consume_semicolon msg : ends (consume TK.SEMICOLON msg).
Proof.
  intros s Hp Hs. rewrite consume_eq. unfold Ends.
  destruct (cur s) as [tok|] eqn:Hcur; cbn [fst snd]; [|auto].
  destruct (live tok && TK.eqb (kind tok) TK.SEMICOLON) eqn:Hc;
    cbn [fst snd i next errors]; [|auto].
  split; [lia|]. split; [reflexivity|].
  destruct (Nat.eq_dec (i s) q) as [Heq|Hne]; [right|left; lia].
  split; [lia|]. exists tok. reflexivity.
Qed.

Lemma not_lbrace s tok :
  p <= i s -> i s <= q -> cur s = Some tok -> kind tok <> TK.LBRACE.
Proof.
  intros Hp Hs Hcur.
  destruct (Nat.eq_dec (i s) q) as [Heq|Hne].
  - unfold cur in Hcur. rewrite Heq, Hq in Hcur. injection Hcur as <-.
    rewrite Hsemi. discriminate.
  - apply (Hbrace (i s)); [exact Hp | lia | exact Hcur].
Qed.

Lemma ends_match_lbrace {B} (K E : M B) :
  ends E -> ends (b <- match_ [TK.LBRACE] ;; if b then K else E).
Proof.
  intros HE s Hp Hs. rewrite bind_match_eq by congruence.
  destruct (cur s) as [tok|] eqn:Hcur;
    [|unfold Ends; cbn [fst snd]; auto].
  destruct (live tok && kind_in (kind tok) [TK.LBRACE]) eqn:Hc;
    [|apply HE; assumption].
  apply andb_true_iff in Hc. destruct Hc as [_ Hk].
  apply kind_in_In in Hk. destruct Hk as [Hk|[]].
  exfalso. exact (not_lbrace s tok Hp Hs Hcur (eq_sym Hk)).
Qed.

Lemma ends_consume_lbrace {B} msg (K : Token -> M B) :
  ends (bind (consume TK.LBRACE msg) K).
Proof.
  intros s Hp Hs. rewrite bind_consume_eq.
  destruct (cur s) as [tok|] eqn:Hcur;
    [|unfold Ends; cbn [fst snd]; auto].
  destruct (live tok && TK.eqb (kind tok) TK.LBRACE) eqn:Hc;
    [|unfold Ends; cbn [fst snd]; auto].
  apply andb_true_iff in Hc. destruct Hc as [_ Hk].
  apply TKFacts.eqb_eq in Hk.
  exfalso. exact (not_lbrace s tok Hp Hs Hcur Hk).
Qed.

Lemma ends_exprOrAssignStmt n : ends (exprOrAssignStmt n).
Proof.
  pose proof (expression_ladder_halts n) as (He & _).
  assert (Hexpr : ends
    (expr <- expression n ;;
     consume TK.SEMICOLON "Expected ';' after expression." ;;;
     ret (ExprStmt expr))).
  { apply ends_bind; [exact He|]. intros expr.
    apply ends_then;
      [apply ends_consume_semicolon | intros; apply ends_ret
      | apply (ret_noop (fun _ : Token => ExprStmt expr))]. }
  intros s Hp Hs. unfold exprOrAssignStmt. rewrite bind_check_eq.
  destruct (cur s) as [tok|] eqn:Hcur;
    [|unfold Ends; cbn [fst snd]; auto].
  destruct (live tok && TK.eqb (kind tok) TK.IDENT) eqn:Hc;
    [|rewrite bind_ret_eq; apply Hexpr; assumption].
  apply andb_true_iff in Hc. destruct Hc as [Hlive Hk].
  apply TKFacts.eqb_eq in Hk.
  unfold bind at 1. rewrite peekIsAssignOp_eq.
  destruct (lookahead s) as [t2|] eqn:Hla; [|apply Hexpr; assumption].
  destruct (is_assign_kind (kind t2)) eqn:Hak; [|apply Hexpr; assumption].
  unfold bind at 1. rewrite advance_eq, Hcur, Hlive.
  assert (Hc2 : cur (next s) = Some t2).
  { unfold cur, lookahead in *. cbn [i next]. rewrite <- Hla. f_equal. lia. }
  unfold bind at 1.
  rewrite advance_eq, Hc2, (is_assign_kind_live _ Hak).
  destruct (assignOpFromToken_ok _ Hak) as [op Hop].
  unfold bind at 1. rewrite Hop.
  assert (H1 : S (i s) <= q).
  { apply (before_semicolon s tok Hs Hcur). rewrite Hk. discriminate. }
  assert (H2 : S (i (next s)) <= q).
  { apply (before_semicolon (next s) t2 H1 Hc2).
    intros E. rewrite E in Hak. discriminate. }
  assert (Hrest : ends
    (value <- expression n ;;
     consume TK.SEMICOLON "Expected ';' after assignment." ;;;
     ret (Assign (lexeme tok) op value))).
  { apply ends_bind; [exact He|]. intros value.
    apply ends_then;
      [apply ends_consume_semicolon | intros; apply ends_ret
      | apply (ret_noop (fun _ : Token => Assign (lexeme tok) op value))]. }
  destruct (Hrest (next (next s))) as (K1 & K2 & K3);
    [cbn [i next]; lia | exact H2 |].
  unfold Ends. cbn [i next errors] in *.
  split; [lia|]. split; [exact K2|exact K3].
Qed.

Lemma ends_letDecl n : ends (letDecl n).
Proof.
  pose proof (expression_ladder_halts n) as (He & _).
  unfold letDecl.
  apply ends_bind; [halts_step|]. intros nameTok.
  apply ends_bind; [halts_step|]. intros b.
  apply ends_bind; [halts_step|]. intros init.
  apply ends_then;
    [apply ends_consume_semicolon | intros; apply ends_ret
    | apply (ret_noop (fun _ : Token => Let (lexeme nameTok) init))].
Qed.

(** At the token after the [;], the [else] part of [ifStmt] consumes
    nothing. *)
Lemma else_noop n cond :
  forall then_ s, i s = S q ->
    exists b,
      (b <- match_ [TK.ELSE] ;;
       otherwise <- (if b then st <- statement n ;; ret (Some st)
                     else ret None) ;;
       ret (If cond then_ otherwise)) s = (Ok b, s).
Proof.
  intros then_ s Hs.
  assert (Hcur : cur s = Some nxt) by (unfold cur; rewrite Hs; exact Hnxt).
  rewrite bind_match_eq, Hcur by congruence.
  rewrite (kind_in_false (kind nxt) [TK.ELSE]), andb_false_r.
  - rewrite bind_ret_eq. eexists. reflexivity.
  - intros [E|[]]. apply Helse. symmetry. exact E.
Qed.

Lemma statements_end n :
  ends (statement n) /\ ends (ifStmt n) /\ ends (whileStmt n).
Proof.
  induction n as [|n (IHs & IHi & IHw)].
  - split_all; apply ends_of_halts, halts_out_of_fuel.
  - pose proof (expression_ladder_halts n) as (He & _).
    split_all.
    + rewrite statement_S.
      apply ends_bind; [halts_step|]. intros [|]; [exact IHi|].
      apply ends_bind; [halts_step|]. intros [|]; [exact IHw|].
      apply ends_match_lbrace, ends_exprOrAssignStmt.
    + rewrite ifStmt_S.
      apply ends_bind; [halts_step|]. intros _.
      apply ends_bind; [halts_step|]. intros cond.
      apply ends_bind; [halts_step|]. intros _.
      apply ends_then; [exact IHs | | apply else_noop].
      intros then_.
      apply ends_bind; [halts_step|]. intros [|].
      * apply ends_then; [|intros; apply ends_ret
                          |apply (ret_noop (If cond then_))].
        apply ends_then; [exact IHs | intros; apply ends_ret
                         | apply (ret_noop (@Some Stmt))].
      * apply ends_of_halts. halts_step.
    + rewrite whileStmt_S.
      apply ends_bind; [halts_step|]. intros _.
      apply ends_bind; [halts_step|]. intros cond.
      apply ends_bind; [halts_step|]. intros _.
      apply ends_then; [exact IHs | intros; apply ends_ret
                       | apply (ret_noop (While cond))].
Qed.

Lemma ends_fnDecl n : ends (fnDecl n).
Proof.
  destruct n as [|n]; [apply ends_of_halts, halts_out_of_fuel|].
  pose proof (fnDecl_params_halts n).
  rewrite fnDecl_S.
  apply ends_bind; [halts_step|]. intros nameTok.
  apply ends_bind; [halts_step|]. intros _.
  apply ends_bind; [halts_step|]. intros c.
  apply ends_bind; [halts_step|]. intros params.
  apply ends_bind; [halts_step|]. intros _.
  apply ends_consume_lbrace.
Qed.

(** A [try] block of [declaration] that starts on a stretch without [{]
    stops at the [;] that closes the stretch, or returns just after it,
    and records nothing. *)
Lemma ends_declaration_try n : ends (declaration_try n).
Proof.
  pose proof (statements_end n) as (Hs & _).
  unfold declaration_try.
  apply ends_bind; [halts_step|]. intros [|].
  { apply ends_then; [apply ends_fnDecl | intros; apply ends_ret
                     | apply (ret_noop (@Some Stmt))]. }
  apply ends_bind; [halts_step|]. intros [|].
  { apply ends_then; [apply ends_letDecl | intros; apply ends_ret
                     | apply (ret_noop (@Some Stmt))]. }
  apply ends_then; [exact Hs | intros; apply ends_ret
                   | apply (ret_noop (@Some Stmt))].
Qed.

End Semicolon.

(** *** One faulty declaration *)

(** Every declaration of the grammar holds a [;] or a [{]. *)
Lemma decl_has_terminator :
  (forall l st, derives_stmt l st ->
     Exists (fun x => kind x = TK.SEMICOLON \/ kind x = TK.LBRACE) l) /\
  (forall l st, derives_decl l st ->
     Exists (fun x => kind x = TK.SEMICOLON \/ kind x = TK.LBRACE) l) /\
  (forall l stmts, derives_decls l stmts -> True).
Proof.
  apply derives_stmt_mutind; intros; try exact I;
    rewrite Exists_exists in *;
    match goal with
    | H : kind ?x = TK.SEMICOLON |- _ =>
        exists x; split; [|left; exact H];
        repeat first [progress cbn [In] | rewrite in_app_iff]; tauto
    | H : kind ?x = TK.LBRACE |- _ =>
        exists x; split; [|right; exact H];
        repeat first [progress cbn [In] | rewrite in_app_iff]; tauto
    | H : exists x, In x _ /\ _ |- _ =>
        let x := fresh "x" in
        let Hin := fresh "Hin" in
        let Hx := fresh "Hx" in
        destruct H as (x & Hin & Hx); exists x; split; [|exact Hx];
        repeat first [progress cbn [In] | rewrite in_app_iff]; tauto
    end.
Qed.

Lemma isSyncKeyword_false k : ~ In k sync_keywords -> isSyncKeyword k = false.
Proof.
  intros H. destruct k; try reflexivity; exfalso; apply H; cbn; tauto.
Qed.

Lemma isSyncKeyword_true k : In k sync_keywords -> isSyncKeyword k = true.
Proof. cbn. intros [<-|[<-|[<-|[<-|[]]]]]; reflexivity. Qed.

Lemma rem_nth s r j :
  skipn (i s) tokens = r -> nth_error tokens (i s + j) = nth_error r j.
Proof. intros <-. symmetry. apply nth_error_skipn. Qed.

Lemma rem_in s g r j t :
  skipn (i s) tokens = g ++ r -> i s <= j -> j < i s + List.length g ->
  nth_error tokens j = Some t -> nth_error g (j - i s) = Some t.
Proof.
  intros Hrem H1 H2 Ht.
  replace j with (i s + (j - i s)) in Ht by lia.
  rewrite (rem_nth s _ _ Hrem), nth_error_app1 in Ht by lia. exact Ht.
Qed.

Lemma rem_at s g r j :
  skipn (i s) tokens = g ++ r -> i s <= j -> j < i s + List.length g ->
  exists t, nth_error tokens j = Some t /\ nth_error g (j - i s) = Some t.
Proof.
  intros Hrem H1 H2.
  destruct (nth_error g (j - i s)) as [t|] eqn:E.
  - exists t. split; [|reflexivity].
    replace j with (i s + (j - i s)) by lia.
    rewrite (rem_nth s _ _ Hrem), nth_error_app1 by lia. exact E.
  - apply nth_error_None in E. lia.
Qed.

Lemma nth_error_tl {A} (l : list A) k x :
  nth_error l k = Some x -> 1 <= k -> In x (tl l).
Proof.
  destruct l as [|a l]; destruct k as [|k]; cbn; try discriminate; try lia.
  intros H _. exact (nth_error_In _ _ H).
Qed.

(** From the token of the error, [synchronize] discards tokens up to
    the first position where its loop stops. *)
Lemma synchronize_lands s1 e stop :
  has_eof -> i s1 <= limit ->
  cur s1 = Some (token e) -> kind (token e) <> TK.EOF ->
  i s1 < stop -> sync_stop stop = true ->
  (forall j, i s1 < j -> j < stop -> sync_stop j = false) ->
  forall n, 20 * limit + 2 <= n ->
    synchronize n (pushed e s1) = (Ok tt, mkParser stop (errors s1 ++ [e])).
Proof.
  intros Heof Hle Hcur Hk Hlt Hstop Hno n Hn.
  pose proof (kind_live _ Hk) as L.
  assert (Hcp : cur (pushed e s1) = Some (token e)) by exact Hcur.
  pose proof (live_below_limit _ _ Hle Hcur L) as Hlim.
  destruct (synchronize_while_spec n (next (pushed e s1)) Heof)
    as (s' & Es & He & Hi1 & Hi2 & Hs' & Hmin);
    [solve_le | solve_le | solve_enough |].
  unfold synchronize, bind. rewrite advance_eq, Hcp, L, Es.
  cbn [i next pushed errors] in *.
  assert (i s' = stop).
  { destruct (lt_eq_lt_dec (i s') stop) as [[H|H]|H]; [|exact H|].
    - rewrite (Hno (i s')) in Hs' by lia. discriminate.
    - rewrite (Hmin stop) in Hstop by lia. discriminate. }
  destruct s' as [i' errs']. cbn [i errors] in *. subst. reflexivity.
Qed.

Lemma statement_rejects n s t :
  cur s = Some t ->
  ~ In (kind t) (statement_keywords ++ expression_starts) ->
  statement (11 + n) s
  = (Throw (ParseErr (error t "Expected expression.")), s).
Proof.
  intros Hcur H.
  assert (Hone : forall k, In k statement_keywords ->
                           kind t = TK.EOF \/ ~ In (kind t) [k]).
  { intros k Hk. right. intros [E|[]]. apply H, in_or_app. left.
    rewrite <- E. exact Hk. }
  assert (He : kind t = TK.EOF \/ ~ In (kind t) expression_starts).
  { right. intros Hin. apply H, in_or_app. right. exact Hin. }
  change (11 + n) with (S (10 + n)). rewrite statement_S.
  rewrite (match_misses _ _ s t); [|congruence|exact Hcur|].
  2:{ apply Hone. unfold statement_keywords. cbn [In]. tauto. }
  rewrite (match_misses _ _ s t); [|congruence|exact Hcur|].
  2:{ apply Hone. unfold statement_keywords. cbn [In]. tauto. }
  rewrite (match_misses _ _ s t); [|congruence|exact Hcur|].
  2:{ apply Hone. unfold statement_keywords. cbn [In]. tauto. }
  unfold exprOrAssignStmt. rewrite bind_check_eq, Hcur.
  assert (Hc : live t && TK.eqb (kind t) TK.IDENT = false).
  { apply andb_false_iff. right. apply TKFacts.eqb_neq. intros Hk.
    apply H, in_or_app. right. rewrite Hk.
    unfold expression_starts. cbn [In]. tauto. }
  rewrite Hc, bind_ret_eq. apply bind_throws.
  exact (expression_rejects n s t Hcur He).
Qed.

(** On a token on which no declaration starts, the [try] block fails at
    once. *)
Lemma declaration_try_rejects n s t :
  cur s = Some t -> ~ In (kind t) declaration_starts ->
  declaration_try (11 + n) s
  = (Throw (ParseErr (error t "Expected expression.")), s).
Proof.
  intros Hcur H. unfold declaration_starts in H.
  unfold declaration_try.
  rewrite (match_misses _ _ s t); [|congruence|exact Hcur|].
  2:{ right. intros [E|[]]. apply H. rewrite <- E. cbn [In app]. tauto. }
  rewrite (match_misses _ _ s t); [|congruence|exact Hcur|].
  2:{ right. intros [E|[]]. apply H. rewrite <- E. cbn [In app]. tauto. }
  apply bind_throws. apply statement_rejects; [exact Hcur|].
  intros Hin. apply H. cbn [app]. right. right. exact Hin.
Qed.

(** What [declaration] returns once its [try] block has thrown and
    [synchronize] has landed. *)
Lemma declaration_lands s s1 e stop m :
  has_eof -> i s1 <= limit ->
  declaration_try m s = (Throw (ParseErr e), s1) ->
  cur s1 = Some (token e) -> kind (token e) <> TK.EOF ->
  i s1 < stop -> sync_stop stop = true ->
  (forall j, i s1 < j -> j < stop -> sync_stop j = false) ->
  returns declaration s None (mkParser stop (errors s1 ++ [e])).
Proof.
  intros Heof Hle Et Hcur Hk Hlt Hstop Hno.
  exists (S (Nat.max m (20 * limit + 2))). intros n Hn.
  destruct n as [|n]; [lia|].
  assert (En : declaration_try n s = (Throw (ParseErr e), s1)).
  { apply (refines_run (declaration_try m)); [|exact Et|discriminate].
    apply declaration_try_mono. lia. }
  rewrite (declaration_catches n s e s1 En). unfold bind.
  rewrite (synchronize_lands s1 e stop Heof Hle Hcur Hk Hlt Hstop Hno n)
    by lia.
  reflexivity.
Qed.

Lemma fault_statement_pass g semi nxt post s :
  has_eof -> i s <= limit ->
  skipn (i s) tokens = (g ++ [semi]) ++ nxt :: post ->
  plain g -> kind semi = TK.SEMICOLON -> kind nxt <> TK.ELSE ->
  (forall d, ~ derives_decl (g ++ [semi]) d) ->
  exists e,
    In (token e) (g ++ [semi]) /\
    returns declaration s None
      (mkParser (i s + List.length (g ++ [semi])) (errors s ++ [e])).
Proof.
  intros Heof Hle Hrem [Hg Htl] Hsemi Helse Hnot.
  rewrite Forall_forall in Hg, Htl.
  set (q := i s + List.length g).
  assert (Hlen : List.length (g ++ [semi]) = S (List.length g))
    by (rewrite length_app; cbn [List.length]; lia).
  assert (Hq : nth_error tokens q = Some semi).
  { unfold q. rewrite (rem_nth s _ _ Hrem), <- app_assoc.
    rewrite nth_error_app2, Nat.sub_diag by lia. reflexivity. }
  assert (Hnxt : nth_error tokens (S q) = Some nxt).
  { unfold q. replace (S (i s + List.length g))
      with (i s + List.length (g ++ [semi])) by lia.
    rewrite (rem_nth s _ _ Hrem), nth_error_app2, Nat.sub_diag by lia.
    reflexivity. }
  assert (Hrem' : skipn (i s) tokens = g ++ semi :: nxt :: post)
    by (rewrite Hrem, <- app_assoc; reflexivity).
  assert (Hin_g : forall j t, i s <= j -> j < q ->
                              nth_error tokens j = Some t -> In t g).
  { intros j t H1 H2 Ht.
    exact (nth_error_In _ _ (rem_in s g _ j t Hrem' H1 H2 Ht)). }
  assert (Hbrace : forall j t, i s <= j -> j < q ->
                     nth_error tokens j = Some t -> kind t <> TK.LBRACE).
  { intros j t H1 H2 Ht Hk. apply (Hg t (Hin_g j t H1 H2 Ht)).
    rewrite Hk. cbn [In]. tauto. }
  assert (Hin_f : forall j t, i s <= j -> j <= q ->
                              nth_error tokens j = Some t ->
                              In t (g ++ [semi])).
  { intros j t H1 H2 Ht.
    apply (nth_error_In _ (j - i s)).
    apply (rem_in s (g ++ [semi]) _ j t Hrem H1); [lia|exact Ht]. }
  assert (Hlive_f : forall t, In t (g ++ [semi]) -> kind t <> TK.EOF).
  { intros t Hin Hk. apply in_app_or in Hin. destruct Hin as [Hin|[<-|[]]].
    - apply (Hg t Hin). rewrite Hk. cbn [In]. tauto.
    - congruence. }
  destruct (rem_at s (g ++ [semi]) _ (i s) Hrem (le_n _) ltac:(lia))
    as (tok0 & Hcur & _).
  assert (Hlive0 : live tok0 = true).
  { apply kind_live, Hlive_f, (Hin_f (i s)); [lia | unfold q; lia | exact Hcur]. }
  set (m := 20 * limit + 12).
  assert (HP : Post true (i s) (declaration_try m s)).
  { apply (declaration_try_post m s tok0 Hcur Hlive0 Hle).
    unfold enough, m. lia. }
  pose proof (ends_declaration_try q semi Hq Hsemi (i s) Hbrace nxt Hnxt
                Helse m s (le_n _) ltac:(unfold q; lia)) as HE.
  unfold Ends in HE.
  destruct (declaration_try m s) as [[r|[e|msg]|] s1] eqn:Et;
    cbn [fst snd] in *.
  - exfalso. destruct HE as (H1 & H2 & H3).
    pose proof (statements_read (S m)) as (Hd & _).
    destruct (Hd s r s1 (declaration_ok m s r s1 Et) H2)
      as (_ & st & _ & Hder).
    destruct H3 as [H3|[H3 _]].
    + apply decl_has_terminator in Hder. rewrite Exists_exists in Hder.
      destruct Hder as (x & Hin & Hx).
      unfold slice in Hin. rewrite Hrem', firstn_app in Hin.
      replace (i s1 - i s - List.length g) with 0 in Hin by (unfold q in H3; lia).
      cbn [firstn] in Hin. rewrite app_nil_r in Hin.
      assert (Hxg : In x g).
      { rewrite <- (firstn_skipn (i s1 - i s) g). apply in_or_app.
        left. exact Hin. }
      apply (Hg x Hxg). destruct Hx as [Hx|Hx]; rewrite Hx; cbn [In]; tauto.
    + apply (Hnot st). unfold slice in Hder.
      rewrite Hrem, firstn_app in Hder.
      replace (i s1 - i s) with (List.length (g ++ [semi])) in Hder
        by (unfold q in H3; lia).
      rewrite firstn_all, Nat.sub_diag in Hder. cbn [firstn] in Hder.
      rewrite app_nil_r in Hder. exact Hder.
  - destruct HE as (H1 & H2 & H3).
    destruct H3 as [H3|[_ [a Ha]]]; [|discriminate].
    destruct HP as (_ & _ & P2 & P3 & _).
    specialize (P3 e eq_refl).
    assert (Hcur1 : nth_error tokens (i s1) = Some (token e)) by exact P3.
    pose proof (Hin_f (i s1) (token e) H1 H3 Hcur1) as Hin.
    exists e. split; [exact Hin|].
    replace (i s + List.length (g ++ [semi])) with (S q) by (unfold q; lia).
    rewrite <- H2.
    apply (declaration_lands s s1 e (S q) m Heof P2 Et P3 (Hlive_f _ Hin));
      [lia | |].
    + unfold sync_stop. rewrite Hnxt, Hq, Hsemi, TKFacts.eqb_refl.
      rewrite orb_true_r. reflexivity.
    + intros j Hj1 Hj2.
      destruct j as [|j']; [lia|].
      destruct (rem_at s (g ++ [semi]) _ (S j') Hrem ltac:(lia)
                  ltac:(unfold q in Hj2; lia)) as (c & Hc & Hcf).
      destruct (rem_at s g _ j' Hrem' ltac:(lia)
                  ltac:(unfold q in Hj2; lia)) as (t & Ht & Htg).
      unfold sync_stop. rewrite Hc, Ht.
      rewrite (kind_live c) by (apply Hlive_f; exact (nth_error_In _ _ Hcf)).
      assert (Hts : TK.eqb (kind t) TK.SEMICOLON = false).
      { apply TKFacts.eqb_neq. intros Hk.
        apply (Hg t (nth_error_In _ _ Htg)). rewrite Hk. cbn [In]. tauto. }
      rewrite Hts. cbn [negb orb].
      destruct (Nat.eq_dec (S j') q) as [Heq|Hne].
      * rewrite Heq, Hq in Hc. injection Hc as <-. rewrite Hsemi.
        reflexivity.
      * apply isSyncKeyword_false, Htl.
        apply (nth_error_tl g (S j' - i s)); [|lia].
        apply (rem_in s g _ (S j') c Hrem'); [lia | unfold q in *; lia | exact Hc].
  - exfalso. destruct HP as (_ & _ & _ & _ & P4 & _).
    exact (P4 Heof msg eq_refl).
  - exfalso. destruct HP as (P0 & _). apply P0. reflexivity.
Qed.

Lemma fault_start_pass b g nxt post s :
  has_eof -> i s <= limit ->
  skipn (i s) tokens = (b :: g) ++ nxt :: post ->
  ~ In (kind b) (TK.SEMICOLON :: TK.EOF :: declaration_starts) ->
  Forall (fun x => ~ In (kind x) (TK.SEMICOLON :: TK.EOF :: sync_keywords))
    g ->
  In (kind nxt) (TK.EOF :: sync_keywords) ->
  exists e,
    In (token e) (b :: g) /\
    returns declaration s None
      (mkParser (i s + List.length (b :: g)) (errors s ++ [e])).
Proof.
  intros Heof Hle Hrem Hb Hg Hnxt.
  rewrite Forall_forall in Hg.
  destruct (rem_at s (b :: g) _ (i s) Hrem (le_n _)
              ltac:(cbn [List.length]; lia)) as (tok0 & Hcur & H0).
  rewrite Nat.sub_diag in H0. injection H0 as <-.
  assert (Hlive_f : forall t, In t (b :: g) -> kind t <> TK.EOF).
  { intros t [<-|Hin] Hk.
    - apply Hb. rewrite Hk. cbn [In]. tauto.
    - apply (Hg t Hin). rewrite Hk. cbn [In]. tauto. }
  assert (Hsemi_f : forall t, In t (b :: g) -> kind t <> TK.SEMICOLON).
  { intros t [<-|Hin] Hk.
    - apply Hb. rewrite Hk. cbn [In]. tauto.
    - apply (Hg t Hin). rewrite Hk. cbn [In]. tauto. }
  assert (Et : declaration_try (11 + 0) s
               = (Throw (ParseErr (error b "Expected expression.")), s)).
  { apply declaration_try_rejects; [exact Hcur|].
    intros Hin. apply Hb. cbn [In]. tauto. }
  exists (error b "Expected expression."). split; [left; reflexivity|].
  set (stop := i s + List.length (b :: g)).
  assert (Hn : nth_error tokens stop = Some nxt).
  { unfold stop. rewrite (rem_nth s _ _ Hrem), nth_error_app2, Nat.sub_diag
      by lia. reflexivity. }
  apply (declaration_lands s s (error b "Expected expression.") stop _
           Heof Hle Et Hcur (Hlive_f b (or_introl eq_refl))).
  - unfold stop. cbn [List.length]. lia.
  - unfold sync_stop. rewrite Hn.
    destruct Hnxt as [Hk|Hk].
    + rewrite (kind_not_live nxt) by (symmetry; exact Hk). reflexivity.
    + rewrite (isSyncKeyword_true _ Hk). apply orb_true_r.
  - intros j Hj1 Hj2.
    destruct j as [|j']; [lia|].
    destruct (rem_at s (b :: g) _ (S j') Hrem ltac:(lia)
                ltac:(unfold stop in Hj2; lia)) as (c & Hc & Hcf).
    destruct (rem_at s (b :: g) _ j' Hrem ltac:(lia)
                ltac:(unfold stop in Hj2; lia)) as (t & Ht & Htf).
    unfold sync_stop. rewrite Hc, Ht.
    rewrite (kind_live c) by (apply Hlive_f; exact (nth_error_In _ _ Hcf)).
    assert (Hts : TK.eqb (kind t) TK.SEMICOLON = false).
    { apply TKFacts.eqb_neq, Hsemi_f. exact (nth_error_In _ _ Htf). }
    rewrite Hts. cbn [negb orb].
    apply isSyncKeyword_false.
    assert (Hcg : In c g).
    { apply (nth_error_tl (b :: g) (S j' - i s)) in Hcf; [exact Hcf|lia]. }
    intros Hin. apply (Hg c Hcg). cbn [In] in *. tauto.
Qed.

(** A fault costs one error: [declaration] records one error, on a token
    of the fault, returns no statement and leaves the index after the
    fault. *)
Lemma fault_pass f nxt post s :
  has_eof -> i s <= limit ->
  fault f nxt -> skipn (i s) tokens = f ++ nxt :: post ->
  exists e,
    In (token e) f /\
    returns declaration s None
      (mkParser (i s + List.length f) (errors s ++ [e])).
Proof.
  intros Heof Hle Hf Hrem.
  destruct Hf as [g semi nxt Hg Hsemi Helse Hnot | b g nxt Hb Hg Hnxt].
  - exact (fault_statement_pass g semi nxt post s Heof Hle Hrem Hg Hsemi
             Helse Hnot).
  - exact (fault_start_pass b g nxt post s Heof Hle Hrem Hb Hg Hnxt).
Qed.

(** *** The loop of [parseProgram] over faults and declarations *)

Lemma eof_in_has_eof t : In t tokens -> kind t = TK.EOF -> has_eof.
Proof.
  intros Hin Hk. unfold has_eof.
  pose proof (first_eof_le tokens) as Hle. fold limit in Hle.
  destruct (Nat.eq_dec limit (List.length tokens)) as [Heq|Hne]; [|lia].
  exfalso. destruct (In_nth_error _ _ Hin) as [j Hj].
  assert (Hlt : j < limit).
  { rewrite Heq. apply nth_error_Some. congruence. }
  destruct (below_limit_cur j Hlt) as (tok & Ht & Hl).
  rewrite Hj in Ht. injection Ht as <-.
  rewrite (kind_not_live _ Hk) in Hl. discriminate.
Qed.

Lemma batches_has_eof l out fs :
  batches l out fs -> exists t, In t l /\ kind t = TK.EOF.
Proof.
  induction 1 as [teof post Hk | v st nxt rest out fs _ _ _ IH
                 | f nxt rest out fs _ _ IH].
  - exists teof. split; [left; reflexivity|exact Hk].
  - destruct IH as (t & Hin & Hk). exists t. split; [|exact Hk].
    apply in_or_app. right. exact Hin.
  - destruct IH as (t & Hin & Hk). exists t. split; [|exact Hk].
    apply in_or_app. right. exact Hin.
Qed.

Lemma fault_first f nxt :
  fault f nxt -> exists t0 r, f = t0 :: r /\ kind t0 <> TK.EOF.
Proof.
  intros [g semi nxt' [Hg _] Hsemi _ _ | b g nxt' Hb _ _].
  - destruct g as [|x g'].
    + exists semi, []. split; [reflexivity|]. congruence.
    + exists x, (g' ++ [semi]). split; [reflexivity|].
      inversion Hg as [|? ? Hx _]. intros Hk. apply Hx. rewrite Hk.
      cbn [In]. tauto.
  - exists b, g. split; [reflexivity|]. intros Hk. apply Hb. rewrite Hk.
    cbn [In]. tauto.
Qed.

Lemma declaration_stays s tok r s1 :
  cur s = Some tok -> kind tok <> TK.EOF -> i s <= limit ->
  returns declaration s r s1 -> i s1 <= limit.
Proof.
  intros Hcur Hk Hle [N HN].
  set (n := Nat.max N (20 * limit + 12)).
  pose proof (statements_terminate n) as (Hd & _).
  specialize (Hd s tok Hcur (kind_live _ Hk) Hle
                ltac:(unfold enough, n; lia)).
  rewrite (HN n) in Hd by (unfold n; lia).
  destruct Hd as (_ & _ & H & _). exact H.
Qed.

Lemma parseProgram_while_step s tok r s1 acc out s' :
  cur s = Some tok -> kind tok <> TK.EOF ->
  returns declaration s r s1 ->
  returns (fun n => parseProgram_while n (push_stmt acc r)) s1 out s' ->
  returns (fun n => parseProgram_while n acc) s out s'.
Proof.
  intros Hcur Hk [N1 H1] [N2 H2].
  exists (S (Nat.max N1 N2)). intros m Hm. destruct m as [|m]; [lia|].
  rewrite parseProgram_while_S, bind_isAtEnd_eq, Hcur, (kind_live _ Hk).
  cbn [negb]. unfold bind. rewrite (H1 m) by lia. apply H2. lia.
Qed.

(** The top-level loop records one error for each fault, on a token of
    that fault, and returns the statements of the declarations between
    them. *)
Lemma batches_parsed :
  has_eof ->
  forall l out fs, batches l out fs ->
    forall s acc, i s <= limit -> skipn (i s) tokens = l ->
      exists s' es,
        returns (fun n => parseProgram_while n acc) s (acc ++ out) s' /\
        errors s' = errors s ++ es /\
        Forall2 (fun e f => In (token e) f) es fs.
Proof.
  intros Heof l out fs Hb.
  induction Hb as [teof post Hk | v st nxt rest out fs Hder Hopen _ IH
                  | f nxt rest out fs Hf _ IH];
    intros s acc Hle Hrem.
  - destruct (rem_cons _ _ _ Hrem) as [Hcur _].
    exists s, []. rewrite !app_nil_r. split; [|split; [reflexivity|constructor]].
    exists 1. intros m Hm. destruct m as [|m]; [lia|].
    rewrite parseProgram_while_S, bind_isAtEnd_eq, Hcur, (kind_not_live _ Hk).
    reflexivity.
  - pose proof program_is_parsed as (_ & Hdecl & _).
    pose proof (Hdecl v st Hder s nxt rest Hrem Hopen) as Hret.
    destruct (decl_first v st Hder) as (t0 & vr & -> & Hin0).
    destruct (decl_start_facts _ Hin0) as (_ & _ & Hk0).
    destruct (rem_cons _ _ _ Hrem) as [Hcur _].
    pose proof (declaration_stays s t0 _ _ Hcur Hk0 Hle Hret) as Hle1.
    destruct (IH (after s (t0 :: vr)) (acc ++ [st]) Hle1
                (rem_after s _ _ Hrem)) as (s' & es & Hr & He & HF).
    exists s', es. split; [|split; [exact He|exact HF]].
    apply (parseProgram_while_step s t0 (Some st) _ acc _ s' Hcur Hk0 Hret).
    cbn [push_stmt]. rewrite <- app_assoc in Hr. exact Hr.
  - destruct (fault_pass f nxt rest s Heof Hle Hf Hrem) as (e & Hin & Hret).
    destruct (fault_first f nxt Hf) as (t0 & fr & Ef & Hk0).
    assert (Hcur : cur s = Some t0).
    { rewrite Ef in Hrem. exact (proj1 (rem_cons _ _ _ Hrem)). }
    pose proof (declaration_stays s t0 _ _ Hcur Hk0 Hle Hret) as Hle1.
    destruct (IH (mkParser (i s + List.length f) (errors s ++ [e])) acc
                Hle1 (rem_after s _ _ Hrem)) as (s' & es & Hr & He & HF).
    exists s', (e :: es). split; [|split].
    + exact (parseProgram_while_step s t0 None _ acc _ s' Hcur Hk0 Hret Hr).
    + rewrite He. cbn [errors]. rewrite <- app_assoc. reflexivity.
    + constructor; [exact Hin|exact HF].
Qed.

(** *** Deciding on a concrete input what is a declaration *)

Lemma accepted_is_a_declaration f teof n d :
  tokens = f ++ [teof] ->
  declaration n newParser = (Ok (Some d), mkParser (List.length f) []) ->
  derives_decl f d.
Proof.
  intros Htok E.
  pose proof (statements_read n) as (Hd & _).
  destruct (Hd newParser (Some d) _ E eq_refl) as (_ & st & [= <-] & Hder).
  unfold slice in Hder. cbn [i newParser skipn] in Hder.
  rewrite Nat.sub_0_r, Htok, firstn_app, firstn_all, Nat.sub_diag in Hder.
  cbn [firstn] in Hder. rewrite app_nil_r in Hder. exact Hder.
Qed.

Lemma rejected_is_no_declaration f teof n s' :
  tokens = f ++ [teof] -> kind teof = TK.EOF ->
  declaration n newParser = (Ok None, s') ->
  forall d, ~ derives_decl f d.
Proof.
  intros Htok Hk E d Hder.
  pose proof program_is_parsed as (_ & Hdecl & _).
  destruct (Hdecl f d Hder newParser teof [] Htok) as [N HN].
  { intros _. rewrite Hk. discriminate. }
  set (m := Nat.max N n).
  assert (Em : declaration m newParser = (Ok None, s')).
  { apply (refines_run (declaration n)); [|exact E|discriminate].
    apply declaration_mono. unfold m. lia. }
  rewrite (HN m) in Em by (unfold m; lia). discriminate.
Qed.

Lemma rejected_is_no_program f teof n out s' :
  tokens = f ++ [teof] -> kind teof = TK.EOF ->
  parseProgram n newParser = (Ok out, s') -> errors s' <> [] ->
  forall ds, ~ derives_decls f ds.
Proof.
  intros Htok Hk E Herr ds Hder.
  pose proof program_is_parsed as (_ & _ & Hdecls).
  destruct (Hdecls f ds Hder newParser teof [] [] Htok) as [_ Hp].
  destruct (Hp Hk) as [N HN].
  set (m := Nat.max N n).
  assert (Em : parseProgram m newParser = (Ok out, s')).
  { apply (refines_run (parseProgram n)); [|exact E|discriminate].
    apply parseProgram_mono. unfold m. lia. }
  unfold parseProgram in Em. rewrite (HN m) in Em by (unfold m; lia).
  injection Em as _ <-. apply Herr. reflexivity.
Qed.


End Properties.

(** * The driver *)

Section DriverProperties.
Context {host : Host}.
Variable fileExists : string -> bool.
Variable fileText : string -> string.
Variable lex : string -> list Token.

Local Abbreviation driver := (driver fileExists fileText lex).

Lemma driver_after_parse_errors slimAst slimParser :
  errors slimParser <> [] ->
  driver_after_parse slimAst slimParser =
  {| events := map (fun err => ConsoleError (report err)) (errors slimParser);
     ending := ProcessExit 1 |}.
Proof.
  unfold driver_after_parse. destruct (errors slimParser); [congruence|].
  reflexivity.
Qed.

Lemma driver_after_parse_runtime slimAst slimParser ev :
  In ev (events (driver_after_parse slimAst slimParser)) ->
  is_runtime_event ev = true ->
  errors slimParser = [].
Proof.
  unfold driver_after_parse.
  destruct (errors slimParser) as [|e l]; [reflexivity|].
  cbn [events]. intros Hin Hev. apply in_map_iff in Hin.
  destruct Hin as (err & <- & _). discriminate.
Qed.


End DriverProperties.


(** * Unary operators *)

Section Frame.
Context {host : Host}.
Variables t1 t2 : list Token.
Variable k : nat.
Hypothesis agree : forall j, k < j -> nth_error t1 j = nth_error t2 j.

Lemma same_cur s : k < i s -> cur t1 s = cur t2 s.
Proof. intros H. unfold cur. apply agree, H. Qed.

Lemma same_ret {A} (a : A) : same_from k (ret a) (ret a).
Proof. intros s H. split; [reflexivity|exact H]. Qed.

Lemma same_out_of_fuel {A} : same_from k (@out_of_fuel _ A) out_of_fuel.
Proof. intros s H. split; [reflexivity|exact H]. Qed.

Lemma same_bind {A B} (c1 c2 : M A) (k1 k2 : A -> M B) :
  same_from k c1 c2 -> (forall a, same_from k (k1 a) (k2 a)) ->
  same_from k (bind c1 k1) (bind c2 k2).
Proof.
  intros Hc Hk s Hs. destruct (Hc s Hs) as [E H1]. unfold bind.
  rewrite <- E. destruct (c1 s) as [[a|e|] s1]; simpl in H1.
  - apply Hk, H1.
  - split; [reflexivity|exact H1].
  - split; [reflexivity|exact H1].
Qed.

Lemma same_check kd : same_from k (check t1 kd) (check t2 kd).
Proof.
  intros s Hs. rewrite !check_eq, (same_cur s Hs).
  destruct (cur t2 s); split; try reflexivity; exact Hs.
Qed.

Lemma same_match kinds :
  kinds <> [] -> same_from k (match_ t1 kinds) (match_ t2 kinds).
Proof.
  intros Hne s Hs. rewrite !match_eq, (same_cur s Hs) by exact Hne.
  destruct (cur t2 s) as [tok|]; [|split; [reflexivity|exact Hs]].
  destruct (live tok && kind_in (kind tok) kinds);
    split; try reflexivity; simpl; lia.
Qed.

Lemma same_consume kd msg :
  same_from k (consume t1 kd msg) (consume t2 kd msg).
Proof.
  intros s Hs. rewrite !consume_eq, (same_cur s Hs).
  destruct (cur t2 s) as [tok|]; [|split; [reflexivity|exact Hs]].
  destruct (live tok && TK.eqb (kind tok) kd);
    split; try reflexivity; simpl; lia.
Qed.

Lemma same_current_throw {A} msg :
  same_from k
    (tok <- current t1 ;; @throw _ A (ParseErr (error tok msg)))
    (tok <- current t2 ;; throw (ParseErr (error tok msg))).
Proof.
  intros s Hs. rewrite !bind_current_eq, (same_cur s Hs).
  destruct (cur t2 s); split; try reflexivity; exact Hs.
Qed.

(** A loop test followed by [previous()]: the token read back is the one
    that was matched, past [k]. *)
Lemma same_match_previous {A} kinds (K1 K2 : Token -> M A) (E1 E2 : M A) :
  kinds <> [] ->
  (forall tok, same_from k (K1 tok) (K2 tok)) ->
  same_from k E1 E2 ->
  same_from k
    (b <- match_ t1 kinds ;; if b then opTok <- previous t1 ;; K1 opTok else E1)
    (b <- match_ t2 kinds ;; if b then opTok <- previous t2 ;; K2 opTok else E2).
Proof.
  intros Hne HK HE s Hs.
  rewrite !bind_match_eq by exact Hne.
  pose proof (same_cur s Hs) as Hc. rewrite Hc.
  destruct (cur t2 s) as [tok|] eqn:E2'; [|split; [reflexivity|exact Hs]].
  destruct (live tok && kind_in (kind tok) kinds).
  - rewrite (bind_previous_next t1 _ s tok Hc).
    rewrite (bind_previous_next t2 _ s tok E2').
    apply HK. simpl. lia.
  - apply HE, Hs.
Qed.

Ltac same_step :=
  repeat first
    [ assumption
    | apply same_ret
    | apply same_out_of_fuel
    | apply same_check
    | apply same_consume
    | apply same_current_throw
    | apply same_match; congruence
    | match goal with
      | H : forall e, same_from _ _ _ |- _ => apply H
      | |- same_from _ (if ?b then _ else _) (if ?b then _ else _) =>
          destruct b
      | |- same_from _ (bind (match_ _ _) _) (bind (match_ _ _) _) =>
          apply same_match_previous; [congruence | intros | ]
      | |- same_from _ (bind _ _) (bind _ _) => apply same_bind; [|intros]
      end ].

Lemma expression_ladder_same n :
  same_from k (expression t1 n) (expression t2 n) /\
  same_from k (logicOr t1 n) (logicOr t2 n) /\
  (forall e, same_from k (logicOr_while t1 n e) (logicOr_while t2 n e)) /\
  same_from k (logicAnd t1 n) (logicAnd t2 n) /\
  (forall e, same_from k (logicAnd_while t1 n e) (logicAnd_while t2 n e)) /\
  same_from k (equality t1 n) (equality t2 n) /\
  (forall e, same_from k (equality_while t1 n e) (equality_while t2 n e)) /\
  same_from k (comparison t1 n) (comparison t2 n) /\
  (forall e, same_from k (comparison_while t1 n e)
                         (comparison_while t2 n e)) /\
  same_from k (term t1 n) (term t2 n) /\
  (forall e, same_from k (term_while t1 n e) (term_while t2 n e)) /\
  same_from k (factor t1 n) (factor t2 n) /\
  (forall e, same_from k (factor_while t1 n e) (factor_while t2 n e)) /\
  same_from k (unary t1 n) (unary t2 n) /\
  same_from k (call t1 n) (call t2 n) /\
  (forall e, same_from k (call_while t1 n e) (call_while t2 n e)) /\
  (forall a, same_from k (call_args t1 n a) (call_args t2 n a)) /\
  same_from k (primary t1 n) (primary t2 n).
Proof.
  induction n as [|n IH].
  - repeat match goal with |- _ /\ _ => split end;
      intros; apply same_out_of_fuel.
  - destruct IH
      as (? & ? & ? & ? & ? & ? & ? & ? & ? & ? & ? & ? & ? & ? & ? & ? & ? & ?).
    repeat match goal with |- _ /\ _ => split end; intros;
      rewrite ?expression_S, ?logicOr_S, ?logicOr_while_S, ?logicAnd_S,
        ?logicAnd_while_S, ?equality_S, ?equality_while_S, ?comparison_S,
        ?comparison_while_S, ?term_S, ?term_while_S, ?factor_S,
        ?factor_while_S, ?unary_S, ?call_S, ?call_while_S, ?call_args_S,
        ?primary_S;
      same_step.
Qed.

End Frame.

Section UnaryProperties.
Context {host : Host}.

Lemma unary_operator tokens n s tok :
  cur tokens s = Some tok ->
  In (kind tok) [TK.NOT; TK.MINUS; TK.BANG] ->
  unary tokens (S n) s =
  (rhs <- unary tokens n ;; ret (Unary (unary_op tok) rhs)) (next s).
Proof.
  intros Hcur Hin.
  assert (Hl : live tok = true).
  { apply kind_live. simpl in Hin.
    destruct Hin as [<-|[<-|[<-|[]]]]; discriminate. }
  assert (Hk : kind_in (kind tok) [TK.NOT; TK.MINUS; TK.BANG] = true).
  { unfold kind_in. apply existsb_exists. exists (kind tok).
    split; [exact Hin | apply TKFacts.eqb_refl]. }
  rewrite unary_S, bind_match_eq, Hcur, Hl, Hk by congruence.
  cbn [andb]. rewrite (bind_previous_next tokens _ s tok Hcur). reflexivity.
Qed.

Lemma unary_no_operator tokens n s tok :
  cur tokens s = Some tok ->
  ~ In (kind tok) [TK.NOT; TK.MINUS; TK.BANG] ->
  unary tokens (S n) s = call tokens n s.
Proof.
  intros Hcur Hin.
  assert (Hk : kind_in (kind tok) [TK.NOT; TK.MINUS; TK.BANG] = false).
  { unfold kind_in. apply not_true_is_false. intros H.
    apply existsb_exists in H. destruct H as (x & Hx & E).
    apply TKFacts.eqb_eq in E. subst x. contradiction. }
  rewrite unary_S, bind_match_eq, Hcur, Hk, andb_false_r by congruence.
  reflexivity.
Qed.

Lemma unary_returns tokens s tok rhs s1 :
  cur tokens s = Some tok ->
  In (kind tok) [TK.NOT; TK.MINUS; TK.BANG] ->
  returns (unary tokens) (next s) rhs s1 ->
  returns (unary tokens) s (Unary (unary_op tok) rhs) s1.
Proof.
  intros Hcur Hin [N HN]. exists (S N). intros m Hm.
  destruct m as [|m]; [lia|].
  rewrite (unary_operator tokens m s tok Hcur Hin).
  unfold bind. rewrite HN by lia. reflexivity.
Qed.

Lemma unary_bang_not_same t1 t2 k b1 b2 n errs :
  nth_error t1 k = Some b1 -> kind b1 = TK.BANG ->
  nth_error t2 k = Some b2 -> kind b2 = TK.NOT ->
  (forall j, j <> k -> nth_error t1 j = nth_error t2 j) ->
  unary t1 n {| i := k; errors := errs |}
  = unary t2 n {| i := k; errors := errs |}.
Proof.
  intros H1 Hk1 H2 Hk2 Hagree.
  destruct n as [|n]; [reflexivity|].
  rewrite (unary_operator t1 n {| i := k; errors := errs |} b1 H1)
    by (rewrite Hk1; simpl; tauto).
  rewrite (unary_operator t2 n {| i := k; errors := errs |} b2 H2)
    by (rewrite Hk2; simpl; tauto).
  assert (Hsame : same_from k (unary t1 n) (unary t2 n)).
  { apply (expression_ladder_same t1 t2 k); intros j Hj. apply Hagree. lia. }
  destruct (Hsame (next {| i := k; errors := errs |})) as [E _];
    [simpl; lia|].
  unfold bind. rewrite E. unfold unary_op. rewrite Hk1, Hk2. reflexivity.
Qed.

End UnaryProperties.

(** C10 (unary operators).  (1) On [!] and on [not] alike, [unary]
    consumes the operator, parses its operand by calling itself, and
    returns the [Unary] node with operator [NOT]; on [-] it does the same
    with operator [MINUS]; on any other token it leaves the work to [call].
    (2) Two token arrays that differ in one place only, where one holds [!]
    and the other [not], give the same outcome (tree, error or state) when
    [unary] starts there.  (3) A tree returned on [!] or on [not]
    carries [NOT], and a tree returned on [-] carries [MINUS].  (4) Where
    the operand is parsed to [rhs], the node [Unary NOT rhs], respectively
    [Unary MINUS rhs], is returned.  (5) [- ! x] is parsed as [-(!x)], and
    [! x] and [not x] as the same tree. *)
Theorem bang_and_not_are_the_same :
  (forall (host : Host) (tokens : list Token) n s tok,
     cur tokens s = Some tok ->
     (kind tok = TK.BANG \/ kind tok = TK.NOT ->
      unary tokens (S n) s =
      (rhs <- unary tokens n ;; ret (Unary UnaryOp.NOT rhs)) (next s)) /\
     (kind tok = TK.MINUS ->
      unary tokens (S n) s =
      (rhs <- unary tokens n ;; ret (Unary UnaryOp.MINUS rhs)) (next s)) /\
     (~ In (kind tok) [TK.NOT; TK.MINUS; TK.BANG] ->
      unary tokens (S n) s = call tokens n s)) /\
  (forall (host : Host) (t1 t2 : list Token) k b1 b2 n errs,
     nth_error t1 k = Some b1 -> kind b1 = TK.BANG ->
     nth_error t2 k = Some b2 -> kind b2 = TK.NOT ->
     (forall j, j <> k -> nth_error t1 j = nth_error t2 j) ->
     unary t1 n {| i := k; errors := errs |}
     = unary t2 n {| i := k; errors := errs |}) /\
  (forall (host : Host) (tokens : list Token) n s tok e s',
     cur tokens s = Some tok ->
     unary tokens (S n) s = (Ok e, s') ->
     (kind tok = TK.BANG \/ kind tok = TK.NOT ->
      exists rhs, e = Unary UnaryOp.NOT rhs) /\
     (kind tok = TK.MINUS -> exists rhs, e = Unary UnaryOp.MINUS rhs)) /\
  (forall (host : Host) (tokens : list Token) s tok rhs s1,
     cur tokens s = Some tok ->
     returns (unary tokens) (next s) rhs s1 ->
     (kind tok = TK.BANG \/ kind tok = TK.NOT ->
      returns (unary tokens) s (Unary UnaryOp.NOT rhs) s1) /\
     (kind tok = TK.MINUS ->
      returns (unary tokens) s (Unary UnaryOp.MINUS rhs) s1)) /\
  unary tokens_minus_bang 20 newParser
  = (Ok (Unary UnaryOp.MINUS (Unary UnaryOp.NOT (Ident "x"))),
     {| i := 3; errors := [] |}) /\
  unary tokens_bang 20 newParser
  = (Ok (Unary UnaryOp.NOT (Ident "x")), {| i := 2; errors := [] |}) /\
  unary tokens_not 20 newParser
  = (Ok (Unary UnaryOp.NOT (Ident "x")), {| i := 2; errors := [] |}).
Proof.
  assert (Heq : forall (host : Host) (tokens : list Token) n s tok,
            cur tokens s = Some tok ->
            (kind tok = TK.BANG \/ kind tok = TK.NOT ->
             unary tokens (S n) s =
             (rhs <- unary tokens n ;; ret (Unary UnaryOp.NOT rhs)) (next s)) /\
            (kind tok = TK.MINUS ->
             unary tokens (S n) s =
             (rhs <- unary tokens n ;; ret (Unary UnaryOp.MINUS rhs))
               (next s)) /\
            (~ In (kind tok) [TK.NOT; TK.MINUS; TK.BANG] ->
             unary tokens (S n) s = call tokens n s)).
  { intros host tokens n s tok Hcur. split; [|split].
    - intros Hk. rewrite (unary_operator tokens n s tok Hcur).
      + unfold unary_op. destruct Hk as [-> | ->]; reflexivity.
      + simpl. destruct Hk as [-> | ->]; tauto.
    - intros Hk. rewrite (unary_operator tokens n s tok Hcur).
      + unfold unary_op. rewrite Hk. reflexivity.
      + simpl. rewrite Hk. tauto.
    - apply unary_no_operator, Hcur. }
  split; [exact Heq|].
  split; [intros host; apply unary_bang_not_same|].
  split; [|split; [|repeat split; reflexivity]].
  - intros host tokens n s tok e s' Hcur E.
    destruct (Heq host tokens n s tok Hcur) as (Hnot & Hminus & _).
    split; intros Hk.
    + rewrite (Hnot Hk) in E. apply bind_ok_inv in E.
      destruct E as (rhs & s1 & _ & [= <- _]). eauto.
    + rewrite (Hminus Hk) in E. apply bind_ok_inv in E.
      destruct E as (rhs & s1 & _ & [= <- _]). eauto.
  - intros host tokens s tok rhs s1 Hcur Hret. split; intros Hk.
    + replace UnaryOp.NOT with (unary_op tok)
        by (unfold unary_op; destruct Hk as [-> | ->]; reflexivity).
      apply (unary_returns tokens s tok rhs s1 Hcur); [|exact Hret].
      simpl. destruct Hk as [-> | ->]; tauto.
    + replace UnaryOp.MINUS with (unary_op tok)
        by (unfold unary_op; rewrite Hk; reflexivity).
      apply (unary_returns tokens s tok rhs s1 Hcur); [|exact Hret].
      simpl. rewrite Hk. tauto.
Qed.


(** * Associativity and precedence *)

(** C2 (left associativity).  (1) Each of the six binary tiers folds
    every chain of its operators to the left: when the first operand is
    parsed by the next tier, each operator of the tier is followed by an
    operand parsed by the next tier, and the token after the last operand is
    no operator of the tier, the tier returns the left fold of the chain.
    (2) The operator of each node is the one of its token.  (3) In
    particular [a - b - c] is parsed as [(a - b) - c].  (4) [10 - 3 - 2] is
    parsed as [(10 - 3) - 2], which denotes 5, where [10 - (3 - 2)] would
    denote 9. *)
Theorem binary_tiers_fold_left :
  (forall (host : Host) (tokens : list Token),
     left_assoc_tier tokens (logicOr tokens) (logicAnd tokens)
       [TK.OR] (fun _ => BinaryOp.OR) /\
     left_assoc_tier tokens (logicAnd tokens) (equality tokens)
       [TK.AND] (fun _ => BinaryOp.AND) /\
     left_assoc_tier tokens (equality tokens) (comparison tokens)
       [TK.EQUAL; TK.NOTEQ] equality_op /\
     left_assoc_tier tokens (comparison tokens) (term tokens)
       [TK.LT; TK.LTE; TK.GT; TK.GTE] comparison_op /\
     left_assoc_tier tokens (term tokens) (factor tokens)
       [TK.PLUS; TK.MINUS] term_op /\
     left_assoc_tier tokens (factor tokens) (unary tokens)
       [TK.STAR; TK.SLASH] factor_op) /\
  (forall (host : Host) (op : Token),
     (kind op = TK.EQUAL -> equality_op op = BinaryOp.EQUAL) /\
     (kind op = TK.NOTEQ -> equality_op op = BinaryOp.NOTEQ) /\
     (kind op = TK.LT -> comparison_op op = BinaryOp.LT) /\
     (kind op = TK.LTE -> comparison_op op = BinaryOp.LTE) /\
     (kind op = TK.GT -> comparison_op op = BinaryOp.GT) /\
     (kind op = TK.GTE -> comparison_op op = BinaryOp.GTE) /\
     (kind op = TK.PLUS -> term_op op = BinaryOp.PLUS) /\
     (kind op = TK.MINUS -> term_op op = BinaryOp.MINUS) /\
     (kind op = TK.STAR -> factor_op op = BinaryOp.STAR) /\
     (kind op = TK.SLASH -> factor_op op = BinaryOp.SLASH)) /\
  (forall (host : Host) (tokens : list Token) s0 a s1 m1 b s2 m2 c s3 t,
     returns (factor tokens) s0 a s1 ->
     cur tokens s1 = Some m1 -> kind m1 = TK.MINUS ->
     returns (factor tokens) (next s1) b s2 ->
     cur tokens s2 = Some m2 -> kind m2 = TK.MINUS ->
     returns (factor tokens) (next s2) c s3 ->
     cur tokens s3 = Some t ->
     (kind t = TK.EOF \/ ~ In (kind t) [TK.PLUS; TK.MINUS]) ->
     returns (term tokens) s0
       (Binary BinaryOp.MINUS (Binary BinaryOp.MINUS a b) c) s3) /\
  expression tokens_10_3_2 20 newParser
  = (Ok (Binary BinaryOp.MINUS
           (Binary BinaryOp.MINUS (Num 10%Z) (Num 3%Z)) (Num 2%Z)),
     {| i := 5; errors := [] |}) /\
  denote val (Binary BinaryOp.MINUS
                (Binary BinaryOp.MINUS (Num 10%Z) (Num 3%Z)) (Num 2%Z))
  = Some 5%Q /\
  denote val (Binary BinaryOp.MINUS
                (Num 10%Z) (Binary BinaryOp.MINUS (Num 3%Z) (Num 2%Z)))
  = Some 9%Q.
Proof.
  split; [|split; [|split; [|repeat split; reflexivity]]].
  - intros host tokens.
    repeat split;
      [ apply logicOr_folds | apply logicAnd_folds | apply equality_folds
      | apply comparison_folds | apply term_folds | apply factor_folds ].
  - intros host op.
    unfold equality_op, comparison_op, term_op, factor_op.
    repeat split; intros ->; reflexivity.
  - intros host tokens. apply term_minus_minus.
Qed.

Lemma is_primary_num z lx : is_primary [num z lx] (Num z).
Proof. exact (@P_number exampleHost (num z lx) eq_refl). Qed.

Lemma is_term_2_3_4 :
  is_term [num 2 "2"; tk TK.PLUS "+"; num 3 "3"; tk TK.STAR "*"; num 4 "4"]
    (Binary BinaryOp.PLUS (Num 2%Z)
       (Binary BinaryOp.STAR (Num 3%Z) (Num 4%Z))).
Proof.
  apply (@T_plus exampleHost [num 2 "2"] _ (tk TK.PLUS "+")
           [num 3 "3"; tk TK.STAR "*"; num 4 "4"] _).
  - apply T_factor, F_primary, is_primary_num.
  - reflexivity.
  - apply (@F_star exampleHost [num 3 "3"] _ (tk TK.STAR "*") [num 4 "4"] _).
    + apply F_primary, is_primary_num.
    + reflexivity.
    + apply is_primary_num.
Qed.

Lemma is_term_group_2_3_4 :
  is_term [tk TK.LPAREN "("; num 2 "2"; tk TK.PLUS "+"; num 3 "3";
           tk TK.RPAREN ")"; tk TK.STAR "*"; num 4 "4"]
    (Binary BinaryOp.STAR
       (Group (Binary BinaryOp.PLUS (Num 2%Z) (Num 3%Z))) (Num 4%Z)).
Proof.
  apply T_factor.
  apply (@F_star exampleHost
           [tk TK.LPAREN "("; num 2 "2"; tk TK.PLUS "+"; num 3 "3";
            tk TK.RPAREN ")"]
           _ (tk TK.STAR "*") [num 4 "4"] _).
  - apply F_primary.
    apply (@P_group exampleHost (tk TK.LPAREN "(")
             [num 2 "2"; tk TK.PLUS "+"; num 3 "3"] _ (tk TK.RPAREN ")"));
      try reflexivity.
    apply (@T_plus exampleHost [num 2 "2"] _ (tk TK.PLUS "+") [num 3 "3"] _).
    + apply T_factor, F_primary, is_primary_num.
    + reflexivity.
    + apply F_primary, is_primary_num.
  - reflexivity.
  - apply is_primary_num.
Qed.

(** C1 (precedence and grouping).  (1) Let [l] be an arithmetic
    expression over numbers, [+ - * /] and parentheses, and [e] the tree
    that the precedence ladder gives it ([*] and [/] below [+] and [-],
    chains folded to the left, a parenthesised expression as a [Group]
    node).  Wherever [l] stands in the token array, followed by a token that
    cannot continue an expression, [expression] started on its first token
    returns [e] with the index on the token that follows, and records no
    error.  (2) [2 + 3 * 4] is such an expression, its tree is
    [2 + (3 * 4)], the parser returns that tree, and it denotes 14.
    (3) [(2 + 3) * 4] is such an expression, its tree is the group [(2 + 3)]
    times 4, the parser returns that tree, and it denotes 20. *)
Theorem arithmetic_precedence :
  (forall (host : Host) (tokens : list Token) l e pre t post errs,
     is_term l e ->
     tokens = pre ++ l ++ t :: post ->
     continues_expression (kind t) = false ->
     returns (expression tokens) (mkParser (List.length pre) errs) e
       (mkParser (List.length pre + List.length l) errs)) /\
  is_term [num 2 "2"; tk TK.PLUS "+"; num 3 "3"; tk TK.STAR "*"; num 4 "4"]
    (Binary BinaryOp.PLUS (Num 2%Z)
       (Binary BinaryOp.STAR (Num 3%Z) (Num 4%Z))) /\
  expression tokens_2_3_4 20 newParser
  = (Ok (Binary BinaryOp.PLUS (Num 2%Z)
           (Binary BinaryOp.STAR (Num 3%Z) (Num 4%Z))),
     {| i := 5; errors := [] |}) /\
  denote val (Binary BinaryOp.PLUS (Num 2%Z)
                (Binary BinaryOp.STAR (Num 3%Z) (Num 4%Z)))
  = Some 14%Q /\
  is_term [tk TK.LPAREN "("; num 2 "2"; tk TK.PLUS "+"; num 3 "3";
           tk TK.RPAREN ")"; tk TK.STAR "*"; num 4 "4"]
    (Binary BinaryOp.STAR
       (Group (Binary BinaryOp.PLUS (Num 2%Z) (Num 3%Z))) (Num 4%Z)) /\
  expression tokens_group_2_3_4 30 newParser
  = (Ok (Binary BinaryOp.STAR
           (Group (Binary BinaryOp.PLUS (Num 2%Z) (Num 3%Z))) (Num 4%Z)),
     {| i := 7; errors := [] |}) /\
  denote val (Binary BinaryOp.STAR
                (Group (Binary BinaryOp.PLUS (Num 2%Z) (Num 3%Z))) (Num 4%Z))
  = Some 20%Q.
Proof.
  split.
  - intros host tokens l e pre t post errs Hl E Hk.
    exact (expression_parses_term tokens l e pre t post errs Hl E Hk).
  - split; [exact is_term_2_3_4|].
    split; [reflexivity|]. split; [reflexivity|].
    split; [exact is_term_group_2_3_4|].
    split; reflexivity.
Qed.


(** * What lies after the end-of-input token *)

Lemma bind_peekIsAssignOp_eq {host : Host} tokens {B} (K : bool -> M B) s :
  bind (peekIsAssignOp tokens) K s
  = K match lookahead tokens s with
      | Some t => is_assign_kind (kind t)
      | None => false
      end s.
Proof. unfold bind. rewrite peekIsAssignOp_eq. reflexivity. Qed.

Section AfterEof.
Context {host : Host}.
Variables t1 t2 : list Token.
Hypothesis agree :
  forall j, j <= limit t1 -> nth_error t1 j = nth_error t2 j.

Local Abbreviation upto := (same_upto (limit t1)).

Lemma upto_cur s : i s <= limit t1 -> cur t1 s = cur t2 s.
Proof. intros H. unfold cur. apply agree, H. Qed.

Lemma upto_ret {A} (a : A) : upto (ret a) (ret a).
Proof. intros s H. split; [reflexivity|exact H]. Qed.

Lemma upto_out_of_fuel {A} : upto (@out_of_fuel _ A) out_of_fuel.
Proof. intros s H. split; [reflexivity|exact H]. Qed.

Lemma upto_throw {A} e : upto (@throw _ A e) (throw e).
Proof. intros s H. split; [reflexivity|exact H]. Qed.

Lemma upto_bind {A B} (c1 c2 : M A) (k1 k2 : A -> M B) :
  upto c1 c2 -> (forall a, upto (k1 a) (k2 a)) ->
  upto (bind c1 k1) (bind c2 k2).
Proof.
  intros Hc Hk s Hs. destruct (Hc s Hs) as [E H1]. unfold bind.
  rewrite <- E. destruct (c1 s) as [[a|e|] s1]; cbn [snd] in H1.
  - apply Hk, H1.
  - split; [reflexivity|exact H1].
  - split; [reflexivity|exact H1].
Qed.

Lemma upto_try_catch {A} (c1 c2 : M A) (h1 h2 : Exn -> M A) :
  upto c1 c2 -> (forall e, upto (h1 e) (h2 e)) ->
  upto (try_catch c1 h1) (try_catch c2 h2).
Proof.
  intros Hc Hh s Hs. destruct (Hc s Hs) as [E H1]. unfold try_catch.
  rewrite <- E. destruct (c1 s) as [[a|e|] s1]; cbn [snd] in H1.
  - split; [reflexivity|exact H1].
  - apply Hh, H1.
  - split; [reflexivity|exact H1].
Qed.

Lemma upto_current : upto (current t1) (current t2).
Proof.
  intros s Hs. rewrite !current_eq, (upto_cur s Hs).
  destruct (cur t2 s); split; try reflexivity; exact Hs.
Qed.

Lemma upto_isAtEnd : upto (isAtEnd t1) (isAtEnd t2).
Proof.
  intros s Hs. rewrite !isAtEnd_eq, (upto_cur s Hs).
  destruct (cur t2 s); split; try reflexivity; exact Hs.
Qed.

Lemma upto_check kd : upto (check t1 kd) (check t2 kd).
Proof.
  intros s Hs. rewrite !check_eq, (upto_cur s Hs).
  destruct (cur t2 s); split; try reflexivity; exact Hs.
Qed.

Lemma upto_previous : upto (previous t1) (previous t2).
Proof.
  intros s Hs. unfold previous.
  destruct (i s) as [|j] eqn:E; [split; [reflexivity|cbn [snd]; lia]|].
  rewrite (agree j) by lia.
  destruct (nth_error t2 j); split; try reflexivity; cbn [snd]; lia.
Qed.

Lemma upto_live s tok :
  i s <= limit t1 -> cur t2 s = Some tok -> live tok = true ->
  S (i s) <= limit t1.
Proof.
  intros Hs Hc Hl. rewrite <- (upto_cur s Hs) in Hc.
  exact (live_below_limit t1 s tok Hs Hc Hl).
Qed.

Lemma upto_advance : upto (advance t1) (advance t2).
Proof.
  intros s Hs. rewrite !advance_eq, (upto_cur s Hs).
  destruct (cur t2 s) as [tok|] eqn:Hc; [|split; [reflexivity|exact Hs]].
  destruct (live tok) eqn:Hl.
  - split; [reflexivity|]. exact (upto_live s tok Hs Hc Hl).
  - apply upto_previous, Hs.
Qed.

Lemma upto_match kinds :
  kinds <> [] -> upto (match_ t1 kinds) (match_ t2 kinds).
Proof.
  intros Hne s Hs. rewrite !match_eq, (upto_cur s Hs) by exact Hne.
  destruct (cur t2 s) as [tok|] eqn:Hc; [|split; [reflexivity|exact Hs]].
  destruct (live tok) eqn:Hl; cbn [andb];
    [|split; [reflexivity|exact Hs]].
  destruct (kind_in (kind tok) kinds); split; try reflexivity;
    [exact (upto_live s tok Hs Hc Hl) | exact Hs].
Qed.

Lemma upto_consume kd msg : upto (consume t1 kd msg) (consume t2 kd msg).
Proof.
  intros s Hs. rewrite !consume_eq, (upto_cur s Hs).
  destruct (cur t2 s) as [tok|] eqn:Hc; [|split; [reflexivity|exact Hs]].
  destruct (live tok) eqn:Hl; cbn [andb];
    [|split; [reflexivity|exact Hs]].
  destruct (TK.eqb (kind tok) kd); split; try reflexivity;
    [exact (upto_live s tok Hs Hc Hl) | exact Hs].
Qed.

(** [peek] looks one token ahead; it is called only once [check] has
    seen an identifier under the index, so that the token ahead lies at or
    before the first end-of-input token. *)
Lemma upto_lookahead {B} (K1 K2 : bool -> M B) :
  (forall p, upto (K1 p) (K2 p)) ->
  upto (c <- check t1 TK.IDENT ;;
        p <- (if c then peekIsAssignOp t1 else ret false) ;; K1 p)
       (c <- check t2 TK.IDENT ;;
        p <- (if c then peekIsAssignOp t2 else ret false) ;; K2 p).
Proof.
  intros HK s Hs. rewrite !bind_check_eq, (upto_cur s Hs).
  destruct (cur t2 s) as [tok|] eqn:Hc; [|split; [reflexivity|exact Hs]].
  destruct (live tok) eqn:Hl; cbn [andb];
    [|rewrite !bind_ret_eq; apply HK, Hs].
  destruct (TK.eqb (kind tok) TK.IDENT);
    [|rewrite !bind_ret_eq; apply HK, Hs].
  rewrite !bind_peekIsAssignOp_eq. unfold lookahead.
  rewrite (agree (i s + 1)) by (pose proof (upto_live s tok Hs Hc Hl); lia).
  apply HK, Hs.
Qed.

Ltac upto_step :=
  repeat first
    [ assumption
    | apply upto_ret
    | apply upto_out_of_fuel
    | apply upto_throw
    | apply upto_check
    | apply upto_isAtEnd
    | apply upto_current
    | apply upto_previous
    | apply upto_advance
    | apply upto_consume
    | apply upto_match; congruence
    | match goal with
      | H : forall e, same_upto _ _ _ |- _ => apply H
      | |- same_upto _ (if ?b then _ else _) (if ?b then _ else _) =>
          destruct b
      | |- same_upto _ (bind (check _ TK.IDENT) _) (bind (check _ TK.IDENT) _) =>
          apply upto_lookahead; intros
      | |- same_upto _ (bind _ _) (bind _ _) => apply upto_bind; [|intros]
      end ].

Ltac unfold_fuel :=
  rewrite ?expression_S, ?logicOr_S, ?logicOr_while_S, ?logicAnd_S,
    ?logicAnd_while_S, ?equality_S, ?equality_while_S, ?comparison_S,
    ?comparison_while_S, ?term_S, ?term_while_S, ?factor_S,
    ?factor_while_S, ?unary_S, ?call_S, ?call_while_S, ?call_args_S,
    ?primary_S, ?synchronize_while_S, ?fnDecl_params_S, ?declaration_S,
    ?statement_S, ?fnDecl_S, ?ifStmt_S, ?whileStmt_S,
    ?blockStmtAlreadyOpened_S, ?blockStmtsAlreadyOpened_S,
    ?blockStmtsAlreadyOpened_while_S, ?parseProgram_while_S.

Lemma expression_ladder_upto n :
  upto (expression t1 n) (expression t2 n) /\
  upto (logicOr t1 n) (logicOr t2 n) /\
  (forall e, upto (logicOr_while t1 n e) (logicOr_while t2 n e)) /\
  upto (logicAnd t1 n) (logicAnd t2 n) /\
  (forall e, upto (logicAnd_while t1 n e) (logicAnd_while t2 n e)) /\
  upto (equality t1 n) (equality t2 n) /\
  (forall e, upto (equality_while t1 n e) (equality_while t2 n e)) /\
  upto (comparison t1 n) (comparison t2 n) /\
  (forall e, upto (comparison_while t1 n e) (comparison_while t2 n e)) /\
  upto (term t1 n) (term t2 n) /\
  (forall e, upto (term_while t1 n e) (term_while t2 n e)) /\
  upto (factor t1 n) (factor t2 n) /\
  (forall e, upto (factor_while t1 n e) (factor_while t2 n e)) /\
  upto (unary t1 n) (unary t2 n) /\
  upto (call t1 n) (call t2 n) /\
  (forall e, upto (call_while t1 n e) (call_while t2 n e)) /\
  (forall a, upto (call_args t1 n a) (call_args t2 n a)) /\
  upto (primary t1 n) (primary t2 n).
Proof.
  induction n as [|n IH].
  - repeat match goal with |- _ /\ _ => split end;
      intros; apply upto_out_of_fuel.
  - destruct IH
      as (? & ? & ? & ? & ? & ? & ? & ? & ? & ? & ? & ? & ? & ? & ? & ? & ? & ?).
    repeat match goal with |- _ /\ _ => split end; intros;
      unfold_fuel; upto_step.
Qed.

Lemma synchronize_while_upto n :
  upto (synchronize_while t1 n) (synchronize_while t2 n).
Proof.
  induction n as [|n IH]; [apply upto_out_of_fuel|].
  unfold_fuel. upto_step.
Qed.

Lemma synchronize_upto n : upto (synchronize t1 n) (synchronize t2 n).
Proof.
  pose proof (synchronize_while_upto n). unfold synchronize. upto_step.
Qed.

Lemma fnDecl_params_upto n :
  forall ps, upto (fnDecl_params t1 n ps) (fnDecl_params t2 n ps).
Proof.
  induction n as [|n IH]; intros ps; [apply upto_out_of_fuel|].
  unfold_fuel. upto_step.
Qed.

Lemma letDecl_upto n : upto (letDecl t1 n) (letDecl t2 n).
Proof.
  pose proof (expression_ladder_upto n) as (He & _).
  unfold letDecl. upto_step.
Qed.

Lemma assignOpFromToken_upto tok :
  upto (assignOpFromToken tok) (assignOpFromToken tok).
Proof. intros s Hs. split; [reflexivity|]. unfold assignOpFromToken.
  destruct (kind tok); exact Hs.
Qed.

Lemma exprOrAssignStmt_upto n :
  upto (exprOrAssignStmt t1 n) (exprOrAssignStmt t2 n).
Proof.
  pose proof (expression_ladder_upto n) as (He & _).
  unfold exprOrAssignStmt. apply upto_lookahead. intros p.
  destruct p; upto_step; try apply assignOpFromToken_upto; intros; upto_step.
Qed.

Lemma declaration_catch_upto n e :
  upto (declaration_catch t1 n e) (declaration_catch t2 n e).
Proof.
  pose proof (synchronize_upto n).
  destruct e as [pe|msg]; unfold declaration_catch; [|apply upto_throw].
  apply upto_bind; [|intros; upto_step].
  intros s Hs. split; [reflexivity|exact Hs].
Qed.

Lemma statements_upto n :
  upto (declaration t1 n) (declaration t2 n) /\
  upto (statement t1 n) (statement t2 n) /\
  upto (fnDecl t1 n) (fnDecl t2 n) /\
  upto (ifStmt t1 n) (ifStmt t2 n) /\
  upto (whileStmt t1 n) (whileStmt t2 n) /\
  upto (blockStmtAlreadyOpened t1 n) (blockStmtAlreadyOpened t2 n) /\
  upto (blockStmtsAlreadyOpened t1 n) (blockStmtsAlreadyOpened t2 n) /\
  (forall l, upto (blockStmtsAlreadyOpened_while t1 n l)
                  (blockStmtsAlreadyOpened_while t2 n l)).
Proof.
  induction n as [|n IH].
  - repeat match goal with |- _ /\ _ => split end;
      intros; apply upto_out_of_fuel.
  - destruct IH as (? & ? & ? & ? & ? & ? & ? & ?).
    pose proof (expression_ladder_upto n) as (He & _).
    pose proof (letDecl_upto n).
    pose proof (exprOrAssignStmt_upto n).
    pose proof (fnDecl_params_upto n).
    repeat match goal with |- _ /\ _ => split end; intros; unfold_fuel;
      try (apply upto_try_catch;
           [unfold declaration_try | apply declaration_catch_upto]);
      upto_step.
Qed.

Lemma parseProgram_while_upto n :
  forall out, upto (parseProgram_while t1 n out) (parseProgram_while t2 n out).
Proof.
  induction n as [|n IH]; intros out; [apply upto_out_of_fuel|].
  pose proof (statements_upto n) as (Hd & _).
  unfold_fuel. upto_step.
Qed.

End AfterEof.

Lemma first_eof_prefix {host : Host} pre t rest :
  live t = false -> first_eof (pre ++ t :: rest) <= List.length pre.
Proof.
  intros Hl. induction pre as [|a pre IH]; cbn.
  - rewrite Hl. lia.
  - destruct (live a); lia.
Qed.

(** X8 (nothing after the first end-of-input token is read).  Two token
    arrays that agree up to and including the first end-of-input token of
    the first give the same result, the same errors and the same final
    state, with any fuel and from any state at or before that token; in
    particular what follows an end-of-input token has no influence on
    [parseProgram]. *)
Theorem tokens_after_eof_are_ignored {host : Host} :
  (forall t1 t2 n s,
     (forall j, j <= limit t1 -> nth_error t1 j = nth_error t2 j) ->
     i s <= limit t1 ->
     parseProgram t1 n s = parseProgram t2 n s) /\
  (forall pre t rest rest' n,
     kind t = TK.EOF ->
     parseProgram (pre ++ t :: rest) n newParser
     = parseProgram (pre ++ t :: rest') n newParser).
Proof.
  assert (H1 : forall t1 t2 n s,
     (forall j, j <= limit t1 -> nth_error t1 j = nth_error t2 j) ->
     i s <= limit t1 ->
     parseProgram t1 n s = parseProgram t2 n s).
  { intros t1 t2 n s Hagree Hs.
    exact (proj1 (parseProgram_while_upto t1 t2 Hagree n [] s Hs)). }
  split; [exact H1|].
  intros pre t rest rest' n Hk. apply H1; [|cbn; lia].
  intros j Hj.
  pose proof (first_eof_prefix pre t rest (kind_not_live t Hk)) as Hle.
  unfold limit in Hj.
  destruct (Nat.eq_dec j (List.length pre)) as [->|Hne].
  - rewrite !nth_error_app2, Nat.sub_diag by lia. reflexivity.
  - rewrite !nth_error_app1 by lia. reflexivity.
Qed.

(** * The driver on a lexer that ends its output *)

Section DriverAnswers.
Context {host : Host}.
Variable fileExists : string -> bool.
Variable fileText : string -> string.
Variable lex : string -> list Token.

Local Abbreviation driver := (driver fileExists fileText lex).

(** X10 (how a run of the driver ends).  Let the lexer end every token
    array with the end-of-input token.  (1) Whatever the arguments and the
    fuel, no exception thrown by the parser's code reaches the driver.
    (2) Whatever the arguments, once the fuel suffices for the parser to
    answer, the run ends in one of two ways: it prints one or more lines
    with [console.error] and exits with code 1 without touching the
    interpreter; or the first argument names an existing file, the parse
    of its tokens has returned with an empty error list, and the driver
    builds the interpreter and runs it once, on the statements that
    [parseProgram] returned.  This is relative to the fuel: an engine that
    exhausts its call stack on a deeply nested source raises a
    [RangeError], which is no outcome of the embedding (a run with too
    little fuel ends in [NoAnswer]). *)
Theorem driver_ends_in_one_of_two_ways :
  (forall src, ends_with_eof (lex src)) ->
  forall argv,
    (forall fuel e, ending (driver fuel argv) <> Uncaught e) /\
    exists N, forall fuel, N <= fuel ->
      (exists lines,
         lines <> [] /\
         driver fuel argv
         = {| events := map ConsoleError lines; ending := ProcessExit 1 |}) \/
      (exists arg0 rest ast s',
         driver_args argv = arg0 :: rest /\
         arg0 <> ""%string /\ fileExists arg0 = true /\
         parseProgram (lex (fileText arg0)) fuel newParser = (Ok ast, s') /\
         errors s' = [] /\
         driver fuel argv
         = {| events := [RuntimeNew; RuntimeRun ast];
              ending := AfterRuntime |}).
Proof.
  intros Hlex argv. split.
  { intros fuel e. unfold driver.
    destruct (driver_args argv) as [|arg0 rest]; [discriminate|].
    destruct (String.eqb arg0 ""); [discriminate|].
    destruct (negb (fileExists arg0)); [discriminate|].
    destruct (parseProgram (lex (fileText arg0)) fuel newParser)
      as [[ast|[pe|msg]|] s'] eqn:E.
    - unfold driver_after_parse. destruct (errors s'); discriminate.
    - exfalso.
      exact (quiet_parseProgram_while (lex (fileText arg0)) fuel [] _ _ _ E).
    - exfalso.
      destruct (parseProgram_fatal (lex (fileText arg0)) fuel newParser msg
                  s' (Nat.le_0_l _) E) as [_ Hno].
      exact (Hno (ends_with_eof_has_eof _ (Hlex _))).
    - discriminate. }
  destruct (driver_args argv) as [|arg0 rest] eqn:Hargs.
  { exists 0. intros fuel _. left.
    exists ["[slim ERROR] No files were given to SLIM."].
    split; [discriminate|]. unfold driver. rewrite Hargs. reflexivity. }
  destruct (String.eqb arg0 "") eqn:He.
  { exists 0. intros fuel _. left.
    exists ["[slim ERROR] No files were given to SLIM."].
    split; [discriminate|]. unfold driver. rewrite Hargs, He. reflexivity. }
  destruct (fileExists arg0) eqn:Hex.
  2:{ exists 0. intros fuel _. left.
      exists [("[slim ERROR] File '" ++ arg0 ++ "' does not exist.")%string].
      split; [discriminate|]. unfold driver. rewrite Hargs, He, Hex.
      reflexivity. }
  exists (20 * limit (lex (fileText arg0)) + 13). intros fuel Hf.
  destruct (parseProgram_answers (lex (fileText arg0)) (Hlex _) fuel Hf)
    as (out & s' & E).
  destruct (errors s') as [|e l] eqn:Herr.
  - right. exists arg0, rest, out, s'.
    split; [reflexivity|].
    split; [apply String.eqb_neq; exact He|].
    split; [exact Hex|].
    split; [exact E|]. split; [exact Herr|].
    unfold driver. rewrite Hargs, He, Hex. cbn [negb]. rewrite E.
    unfold driver_after_parse. rewrite Herr. reflexivity.
  - left. exists (map report (e :: l)). split; [discriminate|].
    unfold driver. rewrite Hargs, He, Hex. cbn [negb]. rewrite E.
    unfold driver_after_parse. rewrite Herr, map_map. reflexivity.
Qed.

End DriverAnswers.

(** * Witnesses and counterexamples on concrete inputs *)

(** C3, as stated, fails at end of input.  On [1] followed by
    end-of-input the [try] block throws "Expected ';' after expression."
    on the end-of-input token; [synchronize] discards nothing (the index
    stays at 1), no [;] has been consumed and the next token is none of
    the four keywords. *)
Lemma recovery_as_stated_counterexample :
  ~ recovery_as_stated tokens_missing_semicolon.
Proof.
  intros H.
  destruct (H 20 newParser (num 1 "1")
              (error eof "Expected ';' after expression.")
              {| i := 1; errors := [] |})
    as (s' & Ed & _ & Hlt & _).
  - reflexivity.
  - discriminate.
  - reflexivity.
  - vm_compute. lia.
  - vm_compute in Ed. injection Ed as <-. simpl in Hlt. lia.
Qed.

Lemma tokens_two_faults_end : ends_with_eof tokens_two_faults.
Proof.
  exists (removelast tokens_two_faults), eof. split; reflexivity.
Defined.

(** C3 on [let = 5; x = 1; let = 6;]: the first [let] fails on [=]; the
    error is recorded and the index stops after the first [;]. *)
Lemma declaration_recovers_witness :
  exists s',
    declaration tokens_two_faults 301 newParser = (Ok None, s') /\
    errors s' = [error_after_let] /\
    sync_stop tokens_two_faults (i s') = true.
Proof.
  destruct (declaration_recovers tokens_two_faults tokens_two_faults_end
              300 newParser (tk TK.LET "let") error_after_let
              {| i := 1; errors := [] |})
    as (_ & s' & Ed & He & _ & _ & Hgo & _).
  - reflexivity.
  - discriminate.
  - vm_compute. lia.
  - reflexivity.
  - vm_compute. lia.
  - exists s'. split; [exact Ed|]. split; [exact He|].
    apply Hgo. discriminate.
Defined.



(** C9 on [let = 5; x = 1; let = 6;]: fuel 253 is enough. *)
Lemma parseProgram_terminates_witness :
  exists out s',
    parseProgram tokens_two_faults 253 newParser = (Ok out, s') /\
    i s' <= limit tokens_two_faults /\
    exists tok, cur tokens_two_faults s' = Some tok /\ kind tok = TK.EOF.
Proof.
  apply (proj1 (parseProgram_terminates tokens_two_faults
                  tokens_two_faults_end)).
  vm_compute. lia.
Defined.

(** C8 on [1] without sentinel: the plain error leaves [declaration] and
    [parseProgram]; nothing is recorded. *)
Lemma fatal_error_not_recovered_witness :
  declaration tokens_without_eof 31 newParser
  = (Throw (FatalErr "Parser invariant violated: missing EOF token"),
     {| i := 1; errors := [] |}) /\
  exists s',
    parseProgram tokens_without_eof 33 newParser
    = (Throw (FatalErr "Parser invariant violated: missing EOF token"), s').
Proof.
  pose proof (fatal_error_not_recovered tokens_without_eof)
    as (_ & Hre & _ & _ & Hall).
  split.
  - apply Hre. reflexivity.
  - apply Hall.
    + intros t [<-|[]]. discriminate.
    + vm_compute. lia.
Defined.

(** C5 on [x += 1;] and on [x + 1;]. *)
Lemma assignment_lookahead_witness :
  exprOrAssignStmt tokens_assign 20 newParser
  = (Ok (Assign "x" AssignOp.PLUS_ASSIGN (Num 1%Z)),
     {| i := 4; errors := [] |}) /\
  exprOrAssignStmt tokens_expr_stmt 20 newParser
  = (Ok (ExprStmt (Binary BinaryOp.PLUS (Ident "x") (Num 1%Z))),
     {| i := 4; errors := [] |}).
Proof.
  split.
  - pose proof (assignment_lookahead tokens_assign 20 newParser
                  (tk TK.IDENT "x") eq_refl eq_refl) as (_ & H & _).
    rewrite (H (tk TK.PLUS_ASSIGN "+=") AssignOp.PLUS_ASSIGN eq_refl eq_refl).
    reflexivity.
  - pose proof (assignment_lookahead tokens_expr_stmt 20 newParser
                  (tk TK.IDENT "x") eq_refl eq_refl) as (_ & _ & H & _).
    rewrite H; [reflexivity|].
    right. exists (tk TK.PLUS "+"). split; [reflexivity|].
    simpl. intuition discriminate.
Defined.

(** C6, as stated, fails on [f(] followed by end of input: no [)] follows
    the [(], and the error raised is "Expected expression." on the
    end-of-input token. *)
Lemma missing_rparen_as_stated_counterexample :
  ~ missing_rparen_as_stated tokens_open_call.
Proof.
  intros H.
  destruct (H (Ident "f") {| i := 1; errors := [] |} (tk TK.LPAREN "("))
    as [N HN].
  - vm_compute. lia.
  - reflexivity.
  - reflexivity.
  - intros j t Hj Ht.
    destruct j as [|[|[|j]]]; simpl in Hj; try lia.
    + injection Ht as <-. discriminate.
    + destruct j; discriminate.
  - destruct (HN (Nat.max N 20) ltac:(lia)) as (t & msg & s' & E & Hmsg).
    assert (E20 : call_while tokens_open_call 20 (Ident "f")
                    {| i := 1; errors := [] |}
                  = (Throw (ParseErr (error eof "Expected expression.")),
                     {| i := 2; errors := [] |})) by reflexivity.
    apply (refines_run _ (call_while tokens_open_call (Nat.max N 20)
                            (Ident "f"))) in E20;
      [|apply call_while_mono; lia|discriminate].
    rewrite E20 in E. injection E as _ Em _.
    destruct Hmsg as [-> | ->]; discriminate.
Qed.

(** C6 on [(1] and on [f(1], each followed by end of input. *)
Lemma missing_rparen_reported_witness :
  primary tokens_open_group 21 newParser
  = (Throw (ParseErr (error eof "Expected ')' after expression.")),
     {| i := 2; errors := [] |}) /\
  call_while tokens_open_call_arg 21 (Ident "f") {| i := 1; errors := [] |}
  = (Throw (ParseErr (error eof "Expected ')' after arguments.")),
     {| i := 3; errors := [] |}).
Proof.
  pose proof (missing_rparen_reported tokens_open_group)
    as (_ & Hgroup & _).
  pose proof (missing_rparen_reported tokens_open_call_arg)
    as (_ & _ & Hcall & _).
  split.
  - eapply (Hgroup 20 newParser (tk TK.LPAREN "("));
      solve [reflexivity | right; reflexivity].
  - eapply (Hcall 20 (Ident "f") {| i := 1; errors := [] |}
              (tk TK.LPAREN "(") (num 1 "1"));
      solve [reflexivity | discriminate | right; reflexivity].
Defined.


(** C10 on [! x ;] and [not x ;], which differ at index 0 only. *)
Lemma bang_and_not_are_the_same_witness :
  unary tokens_bang 20 newParser = unary tokens_not 20 newParser.
Proof.
  pose proof bang_and_not_are_the_same as (_ & H & _).
  apply (H exampleHost tokens_bang tokens_not 0
           (tk TK.BANG "!") (tk TK.NOT "not") 20 []);
    try reflexivity.
  intros j Hj. destruct j as [|j]; [congruence|reflexivity].
Defined.

(** C2 on [10 - 3 - 2 ;]. *)
Lemma binary_tiers_fold_left_witness :
  returns (term tokens_10_3_2) newParser
    (Binary BinaryOp.MINUS
       (Binary BinaryOp.MINUS (Num 10%Z) (Num 3%Z)) (Num 2%Z))
    {| i := 5; errors := [] |}.
Proof.
  pose proof binary_tiers_fold_left as (_ & _ & H & _).
  apply (H exampleHost tokens_10_3_2 newParser _
           {| i := 1; errors := [] |} (tk TK.MINUS "-") _
           {| i := 3; errors := [] |} (tk TK.MINUS "-") _
           {| i := 5; errors := [] |} (tk TK.SEMICOLON ";")).
  - apply (returns_intro (factor tokens_10_3_2) 10);
      [apply factor_mono | reflexivity].
  - reflexivity.
  - reflexivity.
  - apply (returns_intro (factor tokens_10_3_2) 10);
      [apply factor_mono | reflexivity].
  - reflexivity.
  - reflexivity.
  - apply (returns_intro (factor tokens_10_3_2) 10);
      [apply factor_mono | reflexivity].
  - reflexivity.
  - right. simpl. intuition discriminate.
Defined.

(** C1 on [2 + 3 * 4 ;]. *)
Lemma arithmetic_precedence_witness :
  returns (expression tokens_2_3_4) newParser
    (Binary BinaryOp.PLUS (Num 2%Z)
       (Binary BinaryOp.STAR (Num 3%Z) (Num 4%Z)))
    {| i := 5; errors := [] |}.
Proof.
  pose proof arithmetic_precedence as (H & Hterm & _).
  exact (H exampleHost tokens_2_3_4 _ _ [] (tk TK.SEMICOLON ";") [eof] []
           Hterm eq_refl eq_refl).
Defined.


(** X3 on [let = 5; x = 1; let = 6;]: the recorded error carries the
    [=] of the array and "Expected identifier after 'let'.". *)
Lemma recorded_errors_come_from_input_witness :
  In (token error_after_let) tokens_two_faults /\
  In (message error_after_let) messages /\
  forall k, message error_after_let <>
            ("Expected assignment operator, got '" ++ kindText k ++ "'.")%string.
Proof.
  apply (proj1 (recorded_errors_come_from_input tokens_two_faults)
           30 error_after_let).
  vm_compute. left. reflexivity.
Defined.

(** X4 on [1] without end-of-input token. *)
Lemma no_parse_error_leaves_parseProgram_witness :
  @FatalErr exampleHost "Parser invariant violated: missing EOF token"
  = missing_eof /\
  ~ has_eof tokens_without_eof.
Proof.
  apply (proj2 (proj2 (no_parse_error_leaves_parseProgram tokens_without_eof))
           20 newParser "Parser invariant violated: missing EOF token"
           {| i := 1; errors := [] |}).
  - vm_compute. lia.
  - reflexivity.
Defined.

(** X5 on [;]. *)
Lemma expression_needs_a_start_witness :
  expression tokens_semicolon 10 newParser
  = (Throw (ParseErr (error (tk TK.SEMICOLON ";") "Expected expression.")),
     newParser).
Proof.
  apply (proj1 (expression_needs_a_start tokens_semicolon)
           0 newParser (tk TK.SEMICOLON ";")).
  - reflexivity.
  - right. cbn. intros H.
    repeat (destruct H as [H|H]; [discriminate|]). exact H.
Defined.

(** X6 on [2 + 3 * 4 ;]. *)
Lemma expression_sound_witness :
  0 <= 5 /\
  derives L_or (slice tokens_2_3_4 0 5)
    (Binary BinaryOp.PLUS (Num 2%Z)
       (Binary BinaryOp.STAR (Num 3%Z) (Num 4%Z))).
Proof.
  apply (proj1 (expression_sound tokens_2_3_4 20 newParser _
                  {| i := 5; errors := [] |})).
  reflexivity.
Defined.

(** X7 on [x += 1;]. *)
Lemma clean_parse_is_a_derivation_witness :
  4 = limit tokens_assign /\
  derives_decls (firstn (limit tokens_assign) tokens_assign)
    [Assign "x" AssignOp.PLUS_ASSIGN (Num 1%Z)].
Proof.
  apply (proj1 (clean_parse_is_a_derivation tokens_assign) 30 _
           {| i := 4; errors := [] |}); reflexivity.
Defined.

(** X8 on [1 ;] followed by end of input and by a stray token. *)
Lemma tokens_after_eof_are_ignored_witness :
  parseProgram ([num 1 "1"; tk TK.SEMICOLON ";"] ++ eof :: [tk TK.IDENT "junk"])
    30 newParser
  = parseProgram ([num 1 "1"; tk TK.SEMICOLON ";"] ++ eof :: []) 30 newParser.
Proof.
  apply (proj2 (@tokens_after_eof_are_ignored exampleHost)). reflexivity.
Defined.

(** X9 on [if ( x ) y ;]. *)
Lemma else_binds_to_the_nearest_if_witness :
  exists t, cur tokens_if {| i := 6; errors := [] |} = Some t /\
            kind t <> TK.ELSE.
Proof.
  apply (proj1 (else_binds_to_the_nearest_if tokens_if)
           30 {| i := 1; errors := [] |} (Ident "x") (ExprStmt (Ident "y"))).
  reflexivity.
Defined.

(** X10 with a file system that holds every file and a lexer that
    always returns [x += 1;]. *)
Lemma driver_ends_in_one_of_two_ways_witness :
  (forall fuel e,
     ending (driver (fun _ => true) (fun _ => "") (fun _ => tokens_assign)
               fuel argv_example) <> Uncaught e) /\
  exists N, forall fuel, N <= fuel ->
    (exists lines,
       lines <> [] /\
       driver (fun _ => true) (fun _ => "") (fun _ => tokens_assign)
         fuel argv_example
       = {| events := map ConsoleError lines; ending := ProcessExit 1 |}) \/
    (exists (arg0 : string) rest ast s',
       driver_args argv_example = arg0 :: rest /\
       arg0 <> "" /\ true = true /\
       parseProgram tokens_assign fuel newParser = (Ok ast, s') /\
       errors s' = [] /\
       driver (fun _ => true) (fun _ => "") (fun _ => tokens_assign)
         fuel argv_example
       = {| events := [RuntimeNew; RuntimeRun ast];
            ending := AfterRuntime |}).
Proof.
  apply (driver_ends_in_one_of_two_ways (fun _ => true) (fun _ => "")
           (fun _ => tokens_assign)).
  intros src. exists (removelast tokens_assign), eof. split; reflexivity.
Defined.

(** The derivation of [2 + 3 * 4]. *)
Lemma derives_2_3_4 :
  derives L_or
    [num 2 "2"; tk TK.PLUS "+"; num 3 "3"; tk TK.STAR "*"; num 4 "4"]
    (Binary BinaryOp.PLUS (Num 2%Z)
       (Binary BinaryOp.STAR (Num 3%Z) (Num 4%Z))).
Proof.
  do 4 apply D_tighter.
  apply (@D_binary exampleHost L_term [num 2 "2"] _ (tk TK.PLUS "+")
           BinaryOp.PLUS [num 3 "3"; tk TK.STAR "*"; num 4 "4"]);
    [reflexivity | |].
  - do 4 apply D_tighter. apply (@D_number exampleHost (num 2 "2")). reflexivity.
  - apply (@D_binary exampleHost L_factor [num 3 "3"] _ (tk TK.STAR "*")
             BinaryOp.STAR [num 4 "4"]); [reflexivity | |].
    + do 3 apply D_tighter. apply (@D_number exampleHost (num 3 "3")). reflexivity.
    + do 2 apply D_tighter. apply (@D_number exampleHost (num 4 "4")). reflexivity.
Defined.

(** X11 on [2 + 3 * 4 ;]. *)
Lemma expression_complete_witness :
  returns (expression tokens_2_3_4) newParser
    (Binary BinaryOp.PLUS (Num 2%Z)
       (Binary BinaryOp.STAR (Num 3%Z) (Num 4%Z)))
    {| i := 5; errors := [] |}.
Proof.
  apply (expression_complete tokens_2_3_4 _ _ [] (tk TK.SEMICOLON ";") [eof] []
           derives_2_3_4); reflexivity.
Defined.

(** The derivation of [x += 1 ;]. *)
Lemma derives_assign :
  derives_decls
    [tk TK.IDENT "x"; tk TK.PLUS_ASSIGN "+="; num 1 "1"; tk TK.SEMICOLON ";"]
    [Assign "x" AssignOp.PLUS_ASSIGN (Num 1%Z)].
Proof.
  apply (@DDs_cons exampleHost
           [tk TK.IDENT "x"; tk TK.PLUS_ASSIGN "+="; num 1 "1";
            tk TK.SEMICOLON ";"] _ [] []); [|apply DDs_nil].
  apply DD_statement.
  apply (@DS_assign exampleHost (tk TK.IDENT "x") (tk TK.PLUS_ASSIGN "+=")
           AssignOp.PLUS_ASSIGN [num 1 "1"] _ (tk TK.SEMICOLON ";"));
    try reflexivity.
  do 8 apply D_tighter. apply (@D_number exampleHost (num 1 "1")). reflexivity.
Defined.

(** X12 on [x += 1 ;]. *)
Lemma program_complete_witness :
  returns (parseProgram tokens_assign) newParser
    [Assign "x" AssignOp.PLUS_ASSIGN (Num 1%Z)] {| i := 4; errors := [] |}.
Proof.
  apply (proj1 (program_complete tokens_assign) _ _ eof [] derives_assign);
    reflexivity.
Defined.

Lemma tokens_assign_end : ends_with_eof tokens_assign.
Proof. exists (removelast tokens_assign), eof. split; reflexivity. Defined.

(** X13 on [x += 1 ;]. *)
Lemma no_errors_iff_program_witness :
  exists out s',
    parseProgram tokens_assign 100 newParser = (Ok out, s') /\
    (errors s' = [] <->
     exists stmts,
       derives_decls (firstn (limit tokens_assign) tokens_assign) stmts) /\
    (forall stmts,
       derives_decls (firstn (limit tokens_assign) tokens_assign) stmts ->
       stmts = out).
Proof.
  apply (no_errors_iff_program tokens_assign tokens_assign_end 100).
  vm_compute. lia.
Defined.

(** X14 on [1] followed by end of input: [statement] stops on the
    end-of-input token and reports it. *)
Lemma error_token_is_current_witness :
  0 <= 1 /\ 1 <= limit tokens_missing_semicolon /\
  (forall e,
     (Throw (ParseErr (error eof "Expected ';' after expression."))
      : Outcome Stmt) = Throw (ParseErr e) ->
     cur tokens_missing_semicolon {| i := 1; errors := [] |}
     = Some (token e)) /\
  (forall a : Stmt,
     (Throw (ParseErr (error eof "Expected ';' after expression."))
      : Outcome Stmt) = Ok a ->
     0 < 1).
Proof.
  apply (proj2 (error_token_is_current tokens_missing_semicolon) 20 newParser
           (Throw (ParseErr (error eof "Expected ';' after expression.")))
           {| i := 1; errors := [] |}).
  - vm_compute. lia.
  - reflexivity.
  - discriminate.
Defined.
